(** * RNN-T loss kernels: a shallow embedding of
      [torchaudio/csrc/rnnt/cpu/cpu_kernels.h] and of the dispatcher of
      [torchaudio/csrc/rnnt/gpu/gpu_transducer.h].

    The C++ templates are parameterised by an input type [DTYPE] and an
    accumulator type [CAST_DTYPE].  The embedding keeps that parameterisation
    as a type class [Numeric]; it is instantiated with the real numbers (exact
    arithmetic) and with IEEE-754 binary32 (the [float] accumulator).

    Buffers are flat memories indexed by [Z]; a [TensorView] adds the
    dimensions, the strides computed by its constructor and the offset of its
    first element, exactly as the C++ class does.  Loops are state-passing
    iterations over such memories. *)

From Stdlib Require Import ZArith List Bool Lia.
From Stdlib Require Import Reals Lra.
From Stdlib Require Import Floats.SpecFloat.
Import ListNotations.

Set Implicit Arguments.
Open Scope Z_scope.

(** ** Numeric traits of the two template parameters *)

Class Numeric : Type := {
  DTYPE : Type;                               (* storage type of logits/gradients/costs *)
  CAST_DTYPE : Type;                          (* accumulator type *)
  cast : DTYPE -> CAST_DTYPE;                 (* [CAST_DTYPE(x)] *)
  uncast : CAST_DTYPE -> DTYPE;               (* conversion on a store into a [DTYPE] cell *)
  d_zero : DTYPE;                             (* the literal [0.] stored into a [DTYPE] cell *)
  c_zero : CAST_DTYPE;                        (* [CAST_DTYPE(0)] *)
  c_add : CAST_DTYPE -> CAST_DTYPE -> CAST_DTYPE;
  c_sub : CAST_DTYPE -> CAST_DTYPE -> CAST_DTYPE;
  c_neg : CAST_DTYPE -> CAST_DTYPE;
  c_exp : CAST_DTYPE -> CAST_DTYPE;           (* [std::exp] *)
  c_log : CAST_DTYPE -> CAST_DTYPE;           (* [std::log] *)
  c_max : CAST_DTYPE -> CAST_DTYPE -> CAST_DTYPE;   (* [std::max], [math::max] *)
  c_min : CAST_DTYPE -> CAST_DTYPE -> CAST_DTYPE;   (* [math::min] *)
  c_lse : CAST_DTYPE -> CAST_DTYPE -> CAST_DTYPE;   (* [math::lse] *)
  c_gtb : CAST_DTYPE -> CAST_DTYPE -> bool    (* [a > b] *)
}.

(** What the alignment-restricted kernels need besides: the [-INFINITY]
    sentinel and the test [a != b]. *)
Class NumericInf {NUM : Numeric} : Type := {
  c_neg_inf : CAST_DTYPE;                     (* [CAST_DTYPE(-INFINITY)] *)
  c_neb : CAST_DTYPE -> CAST_DTYPE -> bool    (* [a != b] *)
}.

Declare Scope num_scope.
Delimit Scope num_scope with num.
Notation "a +. b" := (c_add a b) (at level 50, left associativity) : num_scope.
Notation "a -. b" := (c_sub a b) (at level 50, left associativity) : num_scope.
Notation "-. a" := (c_neg a) (at level 35, right associativity) : num_scope.

(** ** Status codes ([types.h]) *)

Inductive status_t : Type :=
| SUCCESS
| COMPUTE_DENOMINATOR_REDUCE_MAX_FAILED
| COMPUTE_DENOMINATOR_REDUCE_SUM_FAILED
| COMPUTE_LOG_PROBS_FAILED
| COMPUTE_ALPHAS_BETAS_COSTS_FAILED
| COMPUTE_GRADIENTS_FAILED.

(** ** Flat memories *)

Section Memory.
Variable A : Type.

Definition mem : Type := Z -> A.

Definition store (m : mem) (a : Z) (v : A) : mem :=
  fun i => if Z.eqb i a then v else m i.

End Memory.

(** ** [TensorView]: a block of memory seen as a tensor *)

(** The constructor's loop: [strides_.back() = 1] and
    [strides_[i] = strides_[i + 1] * dims[i + 1]]. *)
Fixpoint compute_strides (dims : list Z) : list Z :=
  match dims with
  | [] => []
  | _ :: rest =>
      match compute_strides rest, rest with
      | s :: ss, d :: _ => (s * d) :: s :: ss
      | _, _ => [1]
      end
  end.

Record TensorView : Type := mkView {
  dims_ : list Z;
  strides_ : list Z;
  data_ : Z            (* position of element 0 in the underlying buffer *)
}.

Definition TensorView_new (dims : list Z) (data : Z) : TensorView :=
  {| dims_ := dims; strides_ := compute_strides dims; data_ := data |}.

(** [operator()]: [index = indices.back()], then
    [index += indices[i] * strides_[i]] for the other positions. *)
Fixpoint flat_index (strides indices : list Z) : Z :=
  match indices, strides with
  | [i], _ => i
  | i :: rest, s :: ss => flat_index ss rest + i * s
  | _, _ => 0
  end.

Definition address (v : TensorView) (indices : list Z) : Z :=
  data_ v + flat_index (strides_ v) indices.

Definition rd {A} (m : mem A) (v : TensorView) (indices : list Z) : A :=
  m (address v indices).

Definition wr {A} (m : mem A) (v : TensorView) (indices : list Z) (x : A) : mem A :=
  store m (address v indices) x.

(** ** Loops *)

Section Loops.
Variable S : Type.

(** [for (i = lo; i < hi; ++i) body] *)
Fixpoint iter_up (n : nat) (i : Z) (body : Z -> S -> S) (s : S) : S :=
  match n with
  | O => s
  | Datatypes.S n' => iter_up n' (i + 1) body (body i s)
  end.

Definition for_up (lo hi : Z) (body : Z -> S -> S) (s : S) : S :=
  iter_up (Z.to_nat (hi - lo)) lo body s.

(** [for (i = hi; i >= lo; --i) body] *)
Fixpoint iter_down (n : nat) (i : Z) (body : Z -> S -> S) (s : S) : S :=
  match n with
  | O => s
  | Datatypes.S n' => iter_down n' (i - 1) body (body i s)
  end.

Definition for_down (hi lo : Z) (body : Z -> S -> S) (s : S) : S :=
  iter_down (Z.to_nat (hi - lo + 1)) hi body s.

(** The same loops with a [break]: the body answers [None] to leave. *)
Fixpoint iter_up_break (n : nat) (i : Z) (body : Z -> S -> option S) (s : S) : S :=
  match n with
  | O => s
  | Datatypes.S n' =>
      match body i s with
      | None => s
      | Some s' => iter_up_break n' (i + 1) body s'
      end
  end.

Definition for_up_break (lo hi : Z) (body : Z -> S -> option S) (s : S) : S :=
  iter_up_break (Z.to_nat (hi - lo)) lo body s.

Fixpoint iter_down_break (n : nat) (i : Z) (body : Z -> S -> option S) (s : S) : S :=
  match n with
  | O => s
  | Datatypes.S n' =>
      match body i s with
      | None => s
      | Some s' => iter_down_break n' (i - 1) body s'
      end
  end.

Definition for_down_break (hi lo : Z) (body : Z -> S -> option S) (s : S) : S :=
  iter_down_break (Z.to_nat (hi - lo + 1)) hi body s.

End Loops.

(** ** The CPU kernels of [cpu_kernels.h] *)

Section Kernels.
Context {NUM : Numeric} {INF : NumericInf}.
Local Open Scope num_scope.

(** [options.h] is not part of the sources at hand; the record lists the
    fields the kernels and the dispatcher read. *)
Record Options : Type := mkOptions {
  batchSize_ : Z;
  nHypos_ : Z;
  maxSrcLen_ : Z;
  maxTgtLen_ : Z;
  numTargets_ : Z;
  blank_ : Z;
  clamp_ : CAST_DTYPE;
  lBuffer_ : Z;
  rBuffer_ : Z;
  fusedLogSmax_ : bool;
  sparseCells_ : Z
}.

Definition with_fusedLogSmax (options : Options) (flag : bool) : Options :=
  {| batchSize_ := batchSize_ options; nHypos_ := nHypos_ options;
     maxSrcLen_ := maxSrcLen_ options; maxTgtLen_ := maxTgtLen_ options;
     numTargets_ := numTargets_ options; blank_ := blank_ options;
     clamp_ := clamp_ options;
     lBuffer_ := lBuffer_ options; rBuffer_ := rBuffer_ options;
     fusedLogSmax_ := flag; sparseCells_ := sparseCells_ options |}.

(** [struct LogProbs]: the pair stored per lattice cell. *)
Record LogProbs : Type := mkLogProbs {
  skip_ : CAST_DTYPE;   (* blank. *)
  emit_ : CAST_DTYPE    (* target. *)
}.

Definition set_skip (p : LogProbs) (v : CAST_DTYPE) : LogProbs :=
  {| skip_ := v; emit_ := emit_ p |}.

Definition set_emit (p : LogProbs) (v : CAST_DTYPE) : LogProbs :=
  {| skip_ := skip_ p; emit_ := v |}.

(** [alignment_restrictions.h] is not part of the sources either.  The
    kernels only call the four predicates and [validTimeRanges] of the check
    object, so the object is a record of those, and its constructor is a
    parameter of the restricted kernels. *)
Record AlignmentRestrictionCheck : Type := mkCheck {
  alphaBlankTransition : Z -> Z -> bool;
  alphaEmitTransition : Z -> Z -> bool;
  betaBlankTransition : Z -> Z -> bool;
  betaEmitTransition : Z -> Z -> bool;
  validTimeRanges : Z -> Z * Z        (* [(start_t, end_t)], inclusive *)
}.

(** *** LogSumExp2D *)

(** One row of the outer loop: the running maximum, the sum of the shifted
    exponentials, and the store into [outputs[i / D]]. *)
Definition LogSumExp2D_row (D : Z) (lm : mem DTYPE) (logits : Z)
           (i : Z) (outputs : Z) (om : mem CAST_DTYPE) : mem CAST_DTYPE :=
  let max := cast (lm (logits + i)) in
  let max := for_up 1 D (fun j max => c_max max (cast (lm (logits + (i + j))))) max in
  let sum := c_zero in
  let sum := for_up 0 D (fun j sum => sum +. c_exp (cast (lm (logits + (i + j))) -. max)) sum in
  store om (outputs + Z.quot i D) (max +. c_log sum).

(** [for (int i = 0; i < N * D; i += D)]: the step is [D], so the loop is
    run on fuel; [None] means the fuel did not suffice. *)
Fixpoint LogSumExp2D_loop (fuel : nat) (N D : Z) (lm : mem DTYPE) (logits : Z)
         (i : Z) (outputs : Z) (om : mem CAST_DTYPE) : option (mem CAST_DTYPE) :=
  if i <? N * D then
    match fuel with
    | O => None
    | Datatypes.S fuel' =>
        LogSumExp2D_loop fuel' N D lm logits (i + D) outputs
                         (LogSumExp2D_row D lm logits i outputs om)
    end
  else Some om.

Definition LogSumExp2D (fuel : nat) (N D : Z) (lm : mem DTYPE) (logits : Z)
           (outputs : Z) (om : mem CAST_DTYPE) : option (status_t * mem CAST_DTYPE) :=
  match LogSumExp2D_loop fuel N D lm logits 0 outputs om with
  | Some om' => Some (SUCCESS, om')
  | None => None
  end.

(** *** ComputeLogProbs *)

Definition ComputeLogProbsOneSequence (options : Options)
           (lm : mem DTYPE) (logits : TensorView)
           (tm : mem Z) (targets : Z)
           (srcLen tgtLen : Z)
           (dm : mem CAST_DTYPE) (denom : TensorView)
           (logProbs : TensorView) (pm : mem LogProbs) : mem LogProbs :=
  let T := srcLen in
  let U := tgtLen in
  let blank := blank_ options in
  for_up 0 T (fun t pm =>
    for_up 0 U (fun u pm =>
      let pm :=
        if u <? U - 1 then
          wr pm logProbs [t; u]
             (set_emit (rd pm logProbs [t; u])
                       (cast (rd lm logits [t; u; tm (targets + u)]) -. rd dm denom [t; u]))
        else pm in
      wr pm logProbs [t; u]
         (set_skip (rd pm logProbs [t; u])
                   (cast (rd lm logits [t; u; blank]) -. rd dm denom [t; u]))) pm) pm.

Definition ComputeLogProbs (options : Options)
           (lm : mem DTYPE) (logits : Z)
           (tm : mem Z) (targets : Z)
           (im : mem Z) (srcLengths tgtLengths : Z)
           (dm : mem CAST_DTYPE) (denominators : Z)
           (logProbs : Z) (pm : mem LogProbs) : status_t * mem LogProbs :=
  let B := batchSize_ options in
  let maxT := maxSrcLen_ options in
  let maxU := maxTgtLen_ options in
  let D := numTargets_ options in
  let seqLogits b := TensorView_new [maxT; maxU; D] (logits + b * maxT * maxU * D) in
  let seqTargets b := targets + b * (maxU - 1) in
  let seqDenoms b := TensorView_new [maxT; maxU] (denominators + b * maxT * maxU) in
  let seqlogProbs b := TensorView_new [maxT; maxU] (logProbs + b * maxT * maxU) in
  (SUCCESS,
   for_up 0 B (fun b pm =>
     ComputeLogProbsOneSequence options lm (seqLogits b) tm (seqTargets b)
       (im (srcLengths + b)) (im (tgtLengths + b) + 1)
       dm (seqDenoms b) (seqlogProbs b) pm) pm).

(** *** The forward recurrence *)

Definition ComputeAlphaOneSequence (options : Options)
           (pm : mem LogProbs) (logProbs : TensorView)
           (srcLen tgtLen : Z)
           (alpha : TensorView) (am : mem CAST_DTYPE) : CAST_DTYPE * mem CAST_DTYPE :=
  let T := srcLen in
  let U := tgtLen in
  let am := wr am alpha [0; 0] c_zero in
  let am := for_up 1 T (fun t am =>        (* u == 0. *)
    wr am alpha [t; 0] (rd am alpha [t - 1; 0] +. skip_ (rd pm logProbs [t - 1; 0]))) am in
  let am := for_up 1 U (fun u am =>        (* t == 0. *)
    wr am alpha [0; u] (rd am alpha [0; u - 1] +. emit_ (rd pm logProbs [0; u - 1]))) am in
  let am := for_up 1 T (fun t am =>
    for_up 1 U (fun u am =>
      wr am alpha [t; u]
         (c_lse (rd am alpha [t - 1; u] +. skip_ (rd pm logProbs [t - 1; u]))
                (rd am alpha [t; u - 1] +. emit_ (rd pm logProbs [t; u - 1])))) am) am in
  let forward_score := rd am alpha [T - 1; U - 1] +. skip_ (rd pm logProbs [T - 1; U - 1]) in
  (forward_score, am).

(** The body of the interior loop of the restricted forward pass. *)
Definition alpha_restricted_cell (check : AlignmentRestrictionCheck)
           (pm : mem LogProbs) (logProbs : TensorView) (alpha : TensorView)
           (t u : Z) (am : mem CAST_DTYPE) : mem CAST_DTYPE :=
  let skip := c_neg_inf in
  let emit := c_neg_inf in
  let skip :=
    if alphaBlankTransition check t u
    then rd am alpha [t - 1; u] +. skip_ (rd pm logProbs [t - 1; u]) else skip in
  let emit :=
    if alphaEmitTransition check t u
    then rd am alpha [t; u - 1] +. emit_ (rd pm logProbs [t; u - 1]) else emit in
  if c_neb skip c_neg_inf || c_neb emit c_neg_inf
  then wr am alpha [t; u] (c_lse skip emit)
  else am.

Definition ComputeAlphaOneSequenceRestricted
           (AlignmentRestrictionCheck_new : mem Z -> Z -> Z -> Z -> Z -> Z -> AlignmentRestrictionCheck)
           (options : Options)
           (pm : mem LogProbs) (logProbs : TensorView)
           (srcLen tgtLen : Z)
           (alpha : TensorView) (wm : mem Z) (wpEnds : Z)
           (am : mem CAST_DTYPE) : CAST_DTYPE * mem CAST_DTYPE :=
  let T := srcLen in
  let U := tgtLen in
  let lBuffer := lBuffer_ options in
  let r_buffer := rBuffer_ options in
  let check := AlignmentRestrictionCheck_new wm wpEnds T U lBuffer r_buffer in
  let am := for_up 0 T (fun t am =>
    for_up 0 U (fun u am => wr am alpha [t; u] c_neg_inf) am) am in
  let am := wr am alpha [0; 0] c_zero in
  let am := for_up_break 1 T (fun t am =>        (* u == 0. *)
    if negb (alphaBlankTransition check t 0) then None
    else Some (wr am alpha [t; 0]
                  (rd am alpha [t - 1; 0] +. skip_ (rd pm logProbs [t - 1; 0])))) am in
  let am := for_up_break 1 U (fun u am =>        (* t == 0. *)
    if negb (alphaEmitTransition check 0 u) then None
    else Some (wr am alpha [0; u]
                  (rd am alpha [0; u - 1] +. emit_ (rd pm logProbs [0; u - 1])))) am in
  let am := for_up 1 U (fun u am =>
    let '(start_t, end_t) := validTimeRanges check u in
    for_up start_t (end_t + 1) (fun t am =>
      alpha_restricted_cell check pm logProbs alpha t u am) am) am in
  let forward_score := rd am alpha [T - 1; U - 1] +. skip_ (rd pm logProbs [T - 1; U - 1]) in
  (forward_score, am).

(** *** The backward recurrence *)

Definition ComputeBetaOneSequence (options : Options)
           (pm : mem LogProbs) (logProbs : TensorView)
           (srcLen tgtLen : Z)
           (beta : TensorView) (bm : mem CAST_DTYPE) : CAST_DTYPE * mem CAST_DTYPE :=
  let T := srcLen in
  let U := tgtLen in
  let bm := wr bm beta [T - 1; U - 1] (skip_ (rd pm logProbs [T - 1; U - 1])) in
  let bm := for_down (T - 2) 0 (fun t bm =>        (* u == U - 1. *)
    wr bm beta [t; U - 1]
       (rd bm beta [t + 1; U - 1] +. skip_ (rd pm logProbs [t; U - 1]))) bm in
  let bm := for_down (U - 2) 0 (fun u bm =>        (* t == T - 1. *)
    wr bm beta [T - 1; u]
       (rd bm beta [T - 1; u + 1] +. emit_ (rd pm logProbs [T - 1; u]))) bm in
  let bm := for_down (T - 2) 0 (fun t bm =>
    for_down (U - 2) 0 (fun u bm =>
      wr bm beta [t; u]
         (c_lse (rd bm beta [t + 1; u] +. skip_ (rd pm logProbs [t; u]))
                (rd bm beta [t; u + 1] +. emit_ (rd pm logProbs [t; u])))) bm) bm in
  let backward_score := rd bm beta [0; 0] in
  (backward_score, bm).

(** The body of the interior loop of the restricted backward pass. *)
Definition beta_restricted_cell (check : AlignmentRestrictionCheck)
           (pm : mem LogProbs) (logProbs : TensorView) (beta : TensorView)
           (t u : Z) (bm : mem CAST_DTYPE) : mem CAST_DTYPE :=
  let skip := c_neg_inf in
  let emit := c_neg_inf in
  let skip :=
    if betaBlankTransition check t u
    then rd bm beta [t + 1; u] +. skip_ (rd pm logProbs [t; u]) else skip in
  let emit :=
    if betaEmitTransition check t u
    then rd bm beta [t; u + 1] +. emit_ (rd pm logProbs [t; u]) else emit in
  if c_neb skip c_neg_inf || c_neb emit c_neg_inf
  then wr bm beta [t; u] (c_lse skip emit)
  else bm.

Definition ComputeBetaOneSequenceRestricted
           (AlignmentRestrictionCheck_new : mem Z -> Z -> Z -> Z -> Z -> Z -> AlignmentRestrictionCheck)
           (options : Options)
           (pm : mem LogProbs) (logProbs : TensorView)
           (srcLen tgtLen : Z)
           (beta : TensorView) (wm : mem Z) (wpEnds : Z)
           (bm : mem CAST_DTYPE) : CAST_DTYPE * mem CAST_DTYPE :=
  let T := srcLen in
  let U := tgtLen in
  let lBuffer := lBuffer_ options in
  let r_buffer := rBuffer_ options in
  let check := AlignmentRestrictionCheck_new wm wpEnds T U lBuffer r_buffer in
  let bm := for_up 0 T (fun t bm =>
    for_up 0 U (fun u bm => wr bm beta [t; u] c_neg_inf) bm) bm in
  let bm := wr bm beta [T - 1; U - 1] (skip_ (rd pm logProbs [T - 1; U - 1])) in
  let bm := for_down_break (T - 2) 0 (fun t bm =>        (* u == U - 1. *)
    if negb (betaBlankTransition check t (U - 1)) then None
    else Some (wr bm beta [t; U - 1]
                  (rd bm beta [t + 1; U - 1] +. skip_ (rd pm logProbs [t; U - 1])))) bm in
  let bm := for_down_break (U - 2) 0 (fun u bm =>        (* t == T - 1. *)
    if negb (betaEmitTransition check (T - 1) u) then None
    else Some (wr bm beta [T - 1; u]
                  (rd bm beta [T - 1; u + 1] +. emit_ (rd pm logProbs [T - 1; u])))) bm in
  let bm := for_down (U - 2) 0 (fun u bm =>
    let '(start_t, end_t) := validTimeRanges check u in
    for_down end_t start_t (fun t bm =>
      beta_restricted_cell check pm logProbs beta t u bm) bm) bm in
  let backward_score := rd bm beta [0; 0] in
  (backward_score, bm).
(** *** Dispatch of one task, and the batch driver *)

(** A null [wpEnds] is [None]. *)
Definition ComputeAlphaOrBetaOneSequence
           (AlignmentRestrictionCheck_new : mem Z -> Z -> Z -> Z -> Z -> Z -> AlignmentRestrictionCheck)
           (thread : Z) (options : Options)
           (pm : mem LogProbs) (logProbs : TensorView)
           (srcLen tgtLen : Z)
           (alpha beta : TensorView) (wm : mem Z) (wpEnds : option Z)
           (am bm : mem CAST_DTYPE) : CAST_DTYPE * (mem CAST_DTYPE * mem CAST_DTYPE) :=
  match wpEnds with
  | None =>
      if negb (Z.land thread 1 =? 0) then
        let '(score, am') := ComputeAlphaOneSequence options pm logProbs srcLen tgtLen alpha am in
        (score, (am', bm))
      else
        let '(score, bm') := ComputeBetaOneSequence options pm logProbs srcLen tgtLen beta bm in
        (score, (am, bm'))
  | Some wp =>
      if negb (Z.land thread 1 =? 0) then
        let '(score, am') :=
          ComputeAlphaOneSequenceRestricted AlignmentRestrictionCheck_new
            options pm logProbs srcLen tgtLen alpha wm wp am in
        (score, (am', bm))
      else
        let '(score, bm') :=
          ComputeBetaOneSequenceRestricted AlignmentRestrictionCheck_new
            options pm logProbs srcLen tgtLen beta wm wp bm in
        (score, (am, bm'))
  end.

(** The state of the task loop of [ComputeAlphasBetas]: the two output
    buffers and the local [scores] vector. *)
Record ab_state : Type := mkAB {
  ab_alphas : mem CAST_DTYPE;
  ab_betas : mem CAST_DTYPE;
  ab_scores : mem CAST_DTYPE
}.

Definition ComputeAlphasBetas
           (AlignmentRestrictionCheck_new : mem Z -> Z -> Z -> Z -> Z -> Z -> AlignmentRestrictionCheck)
           (options : Options)
           (pm : mem LogProbs) (logProbs : Z)
           (im : mem Z) (srcLengths tgtLengths : Z)
           (alphas betas : Z) (costs : Z)
           (wm : mem Z) (wpEnds : option Z)
           (am bm : mem CAST_DTYPE) (cm : mem DTYPE)
  : mem CAST_DTYPE * mem CAST_DTYPE * mem DTYPE :=
  let B := batchSize_ options in
  let maxT := maxSrcLen_ options in
  let maxU := maxTgtLen_ options in
  let seqlogProbs b := TensorView_new [maxT; maxU] (logProbs + b * maxT * maxU) in
  let seq_alphas b := TensorView_new [maxT; maxU] (alphas + b * maxT * maxU) in
  let seq_betas b := TensorView_new [maxT; maxU] (betas + b * maxT * maxU) in
  let seq_wpEnds b := option_map (fun wp => wp + b * maxU) wpEnds in
  let scores : mem CAST_DTYPE := fun _ => c_zero in
  let st := for_up 0 (Z.shiftl B 1) (fun t st =>      (* use max 2 * B threads. *)
    let i := Z.shiftr t 1 in
    let '(score, (am', bm')) :=
      ComputeAlphaOrBetaOneSequence AlignmentRestrictionCheck_new
        t options pm (seqlogProbs i)
        (im (srcLengths + i)) (im (tgtLengths + i) + 1)   (* with prepended blank. *)
        (seq_alphas i) (seq_betas i) wm (seq_wpEnds i)
        (ab_alphas st) (ab_betas st) in
    mkAB am' bm' (store (ab_scores st) t score)) (mkAB am bm scores) in
  let cm := for_up 0 B (fun b cm =>
    store cm (costs + b) (uncast (-. ab_scores st (Z.shiftl b 1)))) cm in
  (ab_alphas st, ab_betas st, cm).

(** *** Gradients *)

(** The four-way branch on [(t, u, d)], before clamping. *)
Definition gradient_value (blank T U : Z) (tm : mem Z) (targets : Z)
           (bm : mem CAST_DTYPE) (beta : TensorView)
           (t u d : Z) (g : CAST_DTYPE) : CAST_DTYPE :=
  if (d =? blank) && (t =? T - 1) && (u =? U - 1) then   (* last blank transition. *)
    c_exp (g +. rd bm beta [t; u]) -. c_exp g
  else if (d =? blank) && (t <? T - 1) then
    c_exp (g +. rd bm beta [t; u]) -. c_exp (g +. rd bm beta [t + 1; u])
  else if (u <? U - 1) && (d =? tm (targets + u)) then
    c_exp (g +. rd bm beta [t; u]) -. c_exp (g +. rd bm beta [t; u + 1])
  else
    c_exp (g +. rd bm beta [t; u]).

(** One iteration of the innermost loop: read the logit, store the gradient,
    then clamp the stored value in place. *)
Definition gradient_cell (options : Options)
           (logits : TensorView) (tm : mem Z) (targets : Z) (T U : Z)
           (bm : mem CAST_DTYPE) (beta : TensorView)
           (gradients : TensorView)
           (c : CAST_DTYPE) (t u d : Z) (hm : mem DTYPE) : mem DTYPE :=
  let blank := blank_ options in
  let clamp := clamp_ options in
  let g := cast (rd hm logits [t; u; d]) +. c in
  let hm := wr hm gradients [t; u; d]
               (uncast (gradient_value blank T U tm targets bm beta t u d g)) in
  if c_gtb clamp c_zero then
    let hm := wr hm gradients [t; u; d]
                 (uncast (c_min (cast (rd hm gradients [t; u; d])) clamp)) in
    wr hm gradients [t; u; d]
       (uncast (c_max (cast (rd hm gradients [t; u; d])) (-. clamp)))
  else hm.

(** [logits] and [gradients] are views of one memory [hm] of [DTYPE] cells,
    so that the two may share their storage; the accumulator buffers are
    read-only here. *)
Definition ComputeGradientsOneSequence (options : Options)
           (logits : TensorView) (tm : mem Z) (targets : Z)
           (srcLen tgtLen : Z)
           (dm : mem CAST_DTYPE) (denom : TensorView)
           (am : mem CAST_DTYPE) (alpha : TensorView)
           (bm : mem CAST_DTYPE) (beta : TensorView)
           (gradients : TensorView) (hm : mem DTYPE) : mem DTYPE :=
  let T := srcLen in
  let U := tgtLen in
  let D := numTargets_ options in
  let cost := -. rd bm beta [0; 0] in
  let hm := for_up 0 T (fun t hm =>
    for_up 0 U (fun u hm =>
      let c := rd am alpha [t; u] +. cost -. rd dm denom [t; u] in
      for_up 0 D (fun d hm =>
        gradient_cell options logits tm targets T U bm beta gradients c t u d hm) hm) hm) hm in
  (* zero out the rest of the gradients, necessary when reusing logits memory *)
  if address gradients [0; 0; 0] =? address logits [0; 0; 0] then
    let maxT := maxSrcLen_ options in
    let maxU := maxTgtLen_ options in
    let hm := for_up T maxT (fun t hm =>
      for_up 0 maxU (fun u hm =>
        for_up 0 D (fun d hm => wr hm gradients [t; u; d] d_zero) hm) hm) hm in
    for_up 0 T (fun t hm =>
      for_up U maxU (fun u hm =>
        for_up 0 D (fun d hm => wr hm gradients [t; u; d] d_zero) hm) hm) hm
  else hm.

Definition ComputeGradients (options : Options)
           (logits : Z) (tm : mem Z) (targets : Z)
           (im : mem Z) (srcLengths tgtLengths : Z)
           (dm : mem CAST_DTYPE) (denominators : Z)
           (am : mem CAST_DTYPE) (alphas : Z)
           (bm : mem CAST_DTYPE) (betas : Z)
           (gradients : Z) (hm : mem DTYPE) : mem DTYPE :=
  let B := batchSize_ options in
  let maxT := maxSrcLen_ options in
  let maxU := maxTgtLen_ options in
  let D := numTargets_ options in
  for_up 0 B (fun b hm =>
    ComputeGradientsOneSequence options
      (TensorView_new [maxT; maxU; D] (logits + b * maxT * maxU * D))
      tm (targets + b * (maxU - 1))
      (im (srcLengths + b)) (im (tgtLengths + b) + 1)
      dm (TensorView_new [maxT; maxU] (denominators + b * maxT * maxU))
      am (TensorView_new [maxT; maxU] (alphas + b * maxT * maxU))
      bm (TensorView_new [maxT; maxU] (betas + b * maxT * maxU))
      (TensorView_new [maxT; maxU; D] (gradients + b * maxT * maxU * D)) hm) hm.

(** *** The diagnostic entry points *)

Definition ComputeAlphas
           (AlignmentRestrictionCheck_new : mem Z -> Z -> Z -> Z -> Z -> Z -> AlignmentRestrictionCheck)
           (options : Options)
           (pm : mem LogProbs) (logProbs : Z)
           (im : mem Z) (srcLengths tgtLengths : Z)
           (alphas : Z) (wm : mem Z) (wpEnds : option Z)
           (am : mem CAST_DTYPE) : mem CAST_DTYPE :=
  let B := batchSize_ options in
  let maxT := maxSrcLen_ options in
  let maxU := maxTgtLen_ options in
  for_up 0 B (fun i am =>
    let lp := TensorView_new [maxT; maxU] (logProbs + i * maxT * maxU) in
    let al := TensorView_new [maxT; maxU] (alphas + i * maxT * maxU) in
    match wpEnds with
    | None =>
        snd (ComputeAlphaOneSequence options pm lp
               (im (srcLengths + i)) (im (tgtLengths + i) + 1) al am)
    | Some wp =>
        snd (ComputeAlphaOneSequenceRestricted AlignmentRestrictionCheck_new options pm lp
               (im (srcLengths + i)) (im (tgtLengths + i) + 1) al wm (wp + i * maxU) am)
    end) am.

Definition ComputeBetas
           (AlignmentRestrictionCheck_new : mem Z -> Z -> Z -> Z -> Z -> Z -> AlignmentRestrictionCheck)
           (options : Options)
           (pm : mem LogProbs) (logProbs : Z)
           (im : mem Z) (srcLengths tgtLengths : Z)
           (betas : Z) (wm : mem Z) (wpEnds : option Z)
           (bm : mem CAST_DTYPE) : mem CAST_DTYPE :=
  let B := batchSize_ options in
  let maxT := maxSrcLen_ options in
  let maxU := maxTgtLen_ options in
  for_up 0 B (fun i bm =>
    let lp := TensorView_new [maxT; maxU] (logProbs + i * maxT * maxU) in
    let be := TensorView_new [maxT; maxU] (betas + i * maxT * maxU) in
    match wpEnds with
    | None =>
        snd (ComputeBetaOneSequence options pm lp
               (im (srcLengths + i)) (im (tgtLengths + i) + 1) be bm)
    | Some wp =>
        snd (ComputeBetaOneSequenceRestricted AlignmentRestrictionCheck_new options pm lp
               (im (srcLengths + i)) (im (tgtLengths + i) + 1) be wm (wp + i * maxU) bm)
    end) bm.
End Kernels.

(** ** Exact arithmetic: the kernels over the real numbers *)

Module Exact.
Local Open Scope R_scope.

(** Modelled from the spec: [math::lse] of [math.h], a header that is not
    part of the sources: "[lse(a,b)] is numerically stable:
    [max(a,b) + log1p(exp(-|a-b|))]". *)
Definition lse (a b : R) : R := Rmax a b + ln (1 + exp (- Rabs (a - b))).

(** [std::max(a, b)] is [(a < b) ? b : a]; [math::max] and [math::min] of
    the missing [math.h] are taken to be the same selections. *)
Definition max (a b : R) : R := if Rlt_dec a b then b else a.
Definition min (a b : R) : R := if Rlt_dec b a then b else a.
Definition gtb (a b : R) : bool := if Rlt_dec b a then true else false.

#[export] Instance RNumeric : Numeric := {|
  DTYPE := R;
  CAST_DTYPE := R;
  cast := fun x => x;
  uncast := fun x => x;
  d_zero := 0;
  c_zero := 0;
  c_add := Rplus;
  c_sub := Rminus;
  c_neg := Ropp;
  c_exp := exp;
  c_log := ln;
  c_max := max;
  c_min := min;
  c_lse := lse;
  c_gtb := gtb
|}.

(** [sum_{d < n} f d], the sums of the specification. *)
Fixpoint sum_upto (n : nat) (f : Z -> R) : R :=
  match n with
  | O => 0
  | S n' => sum_upto n' f + f (Z.of_nat n')
  end.

(** The largest of [x 0 .. x n]. *)
Fixpoint max_upto (n : nat) (f : Z -> R) : R :=
  match n with
  | O => f 0%Z
  | S n' => Rmax (max_upto n' f) (f (Z.of_nat (S n')))
  end.

(** Total weight of the lattice paths that start at [(t0, u0)] and make [m]
    blank and [n] label transitions, a blank transition out of [(t, u)]
    weighing [a t u] and a label transition [b t u].  [path_weight_last]
    splits the paths at their last transition, as the forward recurrence
    does; [path_weight_first] at their first, as the backward recurrence
    does. *)
Section PathWeights.
Variables a b : Z -> Z -> R.

Fixpoint path_weight_last (t0 u0 : Z) (m : nat) : nat -> R :=
  match m with
  | O =>
      fix row (n : nat) : R :=
        match n with
        | O => 1
        | S n' => row n' * b t0 (u0 + Z.of_nat n')
        end
  | S m' =>
      fix row (n : nat) : R :=
        match n with
        | O => path_weight_last t0 u0 m' O * a (t0 + Z.of_nat m') u0
        | S n' =>
            path_weight_last t0 u0 m' (S n') * a (t0 + Z.of_nat m') (u0 + Z.of_nat (S n'))
            + row n' * b (t0 + Z.of_nat (S m')) (u0 + Z.of_nat n')
        end
  end.

Fixpoint path_weight_first (m : nat) : nat -> Z -> Z -> R :=
  match m with
  | O =>
      fix row (n : nat) (t0 u0 : Z) : R :=
        match n with
        | O => 1
        | S n' => b t0 u0 * row n' t0 (u0 + 1)%Z
        end
  | S m' =>
      fix row (n : nat) (t0 u0 : Z) : R :=
        match n with
        | O => a t0 u0 * path_weight_first m' O (t0 + 1)%Z u0
        | S n' =>
            a t0 u0 * path_weight_first m' (S n') (t0 + 1)%Z u0
            + b t0 u0 * row n' t0 (u0 + 1)%Z
        end
  end.
End PathWeights.
End Exact.

(** ** IEEE-754 binary32: the [float] accumulator *)

Module Float32.
Definition prec : Z := 24.
Definition emax : Z := 128.
Definition float : Type := spec_float.

Definition of_Z (z : Z) : float := binary_normalize prec emax z 0 false.
Definition neg_infinity : float := S754_infinity true.

(** [expf], [logf] and [math::lse] are library functions whose results the
    IEEE standard does not fix; they stay parameters of the instance. *)
Record Libm : Type := mkLibm {
  expf : float -> float;
  logf : float -> float;
  lsef : float -> float -> float
}.

Definition F32Numeric (libm : Libm) : Numeric := {|
  DTYPE := float;
  CAST_DTYPE := float;
  cast := fun x => x;
  uncast := fun x => x;
  d_zero := S754_zero false;
  c_zero := S754_zero false;
  c_add := SFadd prec emax;
  c_sub := SFsub prec emax;
  c_neg := SFopp;
  c_exp := expf libm;
  c_log := logf libm;
  c_max := fun a b => if SFltb a b then b else a;
  c_min := fun a b => if SFltb b a then b else a;
  c_lse := lsef libm;
  c_gtb := fun a b => SFltb b a
|}.

Definition F32NumericInf (libm : Libm) : @NumericInf (F32Numeric libm) := {|
  c_neg_inf := neg_infinity : @CAST_DTYPE (F32Numeric libm);
  c_neb := fun a b => negb (SFeqb a b)
|}.
End Float32.

(** ** The dispatcher of [gpu_transducer.h]

    The kernels themselves live in [gpu_kernels.cuh], which is not part of
    the sources; the dispatcher only launches them and reads the CUDA error
    state.  A launch is recorded in a trace, and an environment says which
    launches fail. *)

Module Gpu.

Inductive kernel : Type :=
| ReduceMax2D
| ReduceLogSumExpGivenMax2D
| ComputeLogProbs
| ComputeLogProbsSparse
| ComputeAlphasBetasCosts (sparse : bool)
| ComputeGradients (sparse : bool).

Inductive stage : Type :=
| Denominator
| LogProbsStage
| AlphaBeta
| Gradient.

Definition stage_of (k : kernel) : stage :=
  match k with
  | ReduceMax2D | ReduceLogSumExpGivenMax2D => Denominator
  | ComputeLogProbs | ComputeLogProbsSparse => LogProbsStage
  | ComputeAlphasBetasCosts _ => AlphaBeta
  | ComputeGradients _ => Gradient
  end.

(** [cudaError_t]: [0] is [cudaSuccess]. *)
Definition cudaError_t : Type := Z.
Definition cudaSuccess : cudaError_t := 0.

(** The runtime: the kernels launched so far, and the error
    [cudaGetLastError] would report. *)
Record cuda : Type := mkCuda {
  launched : list kernel;
  last_error : cudaError_t
}.

Definition cuda_init : cuda := {| launched := []; last_error := cudaSuccess |}.

(** A host computation either goes on with a value or leaves the process
    through [exit(code)]. *)
Inductive outcome (A : Type) : Type :=
| Returned (a : A)
| Exited (code : Z).
Arguments Returned {A} a.
Arguments Exited {A} code.

Definition host (A : Type) : Type := cuda -> outcome A * cuda.

Definition ret {A} (a : A) : host A := fun s => (Returned a, s).

Definition bind {A B} (m : host A) (k : A -> host B) : host B :=
  fun s =>
    match m s with
    | (Returned a, s') => k a s'
    | (Exited code, s') => (Exited code, s')
    end.

Notation "x <- m ;; k" := (bind m (fun x => k))
  (at level 61, m at next level, right associativity).
Notation "m ;;; k" := (bind m (fun _ => k))
  (at level 61, right associativity).

Section Dispatcher.
(** The error a launch of each kernel leaves behind ([cudaSuccess] when the
    launch goes through). *)
Variable launch_error : kernel -> cudaError_t.

(** [kernel<<<...>>>(...)] *)
Definition launch (k : kernel) : host unit :=
  fun s =>
    (Returned tt,
     {| launched := launched s ++ [k];
        last_error := if launch_error k =? cudaSuccess
                      then last_error s else launch_error k |}).

(** [cudaGetLastError()] returns the pending error and resets it. *)
Definition cudaGetLastError : host cudaError_t :=
  fun s => (Returned (last_error s), {| launched := launched s; last_error := cudaSuccess |}).

Definition exit {A} (code : Z) : host A := fun s => (Exited code, s).

(** [gpuAssert(code, file, line, abort = true)] *)
Definition gpuAssert (code : cudaError_t) (abort : bool) : host unit :=
  if negb (code =? cudaSuccess) then
    if abort then exit code else ret tt
  else ret tt.

Definition gpuErrchk (ans : cudaError_t) : host unit := gpuAssert ans true.

Definition LogSumExp2D : host status_t :=
  (* compute max among D. *)
  launch ReduceMax2D ;;;
  e <- cudaGetLastError ;;
  if negb (e =? cudaSuccess) then ret COMPUTE_DENOMINATOR_REDUCE_MAX_FAILED
  else
    (* compute log(sum(exp(d_i - max))) *)
    launch ReduceLogSumExpGivenMax2D ;;;
    e <- cudaGetLastError ;;
    if negb (e =? cudaSuccess) then ret COMPUTE_DENOMINATOR_REDUCE_SUM_FAILED
    else ret SUCCESS.

(** A null [gradients] pointer is [None]. *)
Definition Compute (gradients : option Z) : host status_t :=
  (* compute denominators. *)
  status <- LogSumExp2D ;;
  match status with
  | SUCCESS =>
      (* compute log probability pairs (blank and target). *)
      launch ComputeLogProbs ;;;
      e <- cudaGetLastError ;;
      if negb (e =? cudaSuccess) then ret COMPUTE_LOG_PROBS_FAILED
      else
        (* compute alphas, betas and costs. *)
        launch (ComputeAlphasBetasCosts false) ;;;
        e <- cudaGetLastError ;;
        if negb (e =? cudaSuccess) then ret COMPUTE_ALPHAS_BETAS_COSTS_FAILED
        else
          match gradients with
          | Some _ =>
              (* compute gradients. *)
              launch (ComputeGradients false) ;;;
              e <- cudaGetLastError ;;
              if negb (e =? cudaSuccess) then ret COMPUTE_GRADIENTS_FAILED
              else ret SUCCESS
          | None => ret SUCCESS
          end
  | _ => ret status
  end.

Definition ComputeSparse (gradients : option Z) : host status_t :=
  (* compute denominators. *)
  status <- LogSumExp2D ;;
  e <- cudaGetLastError ;;
  gpuErrchk e ;;;
  match status with
  | SUCCESS =>
      (* compute log probability pairs (blank and target). *)
      launch ComputeLogProbsSparse ;;;
      e <- cudaGetLastError ;;
      gpuErrchk e ;;;
      (* compute alphas, betas and costs. *)
      launch (ComputeAlphasBetasCosts true) ;;;
      e <- cudaGetLastError ;;
      gpuErrchk e ;;;
      match gradients with
      | Some _ =>
          (* compute gradients. *)
          launch (ComputeGradients true) ;;;
          e <- cudaGetLastError ;;
          gpuErrchk e ;;;
          ret SUCCESS
      | None => ret SUCCESS
      end
  | _ => ret status
  end.
End Dispatcher.

(** The stages in the order of the specification, as the kernels that
    implement them. *)
Definition pipeline (sparse : bool) (gradients : option Z) : list kernel :=
  [ReduceMax2D; ReduceLogSumExpGivenMax2D;
   (if sparse then ComputeLogProbsSparse else ComputeLogProbs);
   ComputeAlphasBetasCosts sparse]
  ++ match gradients with Some _ => [ComputeGradients sparse] | None => [] end.

(** The status the dense dispatcher pairs with a failing kernel. *)
Definition failure_status (k : kernel) : status_t :=
  match k with
  | ReduceMax2D => COMPUTE_DENOMINATOR_REDUCE_MAX_FAILED
  | ReduceLogSumExpGivenMax2D => COMPUTE_DENOMINATOR_REDUCE_SUM_FAILED
  | ComputeLogProbs | ComputeLogProbsSparse => COMPUTE_LOG_PROBS_FAILED
  | ComputeAlphasBetasCosts _ => COMPUTE_ALPHAS_BETAS_COSTS_FAILED
  | ComputeGradients _ => COMPUTE_GRADIENTS_FAILED
  end.

(** The kernels of [l] up to and including the first whose launch fails
    ([l] itself, and no failing kernel, when none does). *)
Fixpoint until_failure (launch_error : kernel -> cudaError_t) (l : list kernel)
  : list kernel * option kernel :=
  match l with
  | [] => ([], None)
  | k :: rest =>
      if launch_error k =? cudaSuccess then
        let '(pre, f) := until_failure launch_error rest in (k :: pre, f)
      else ([k], Some k)
  end.
End Gpu.

(** ** Lattice cells *)

(** The cells [(t, u)] of a sample with [T] frames and [U] label positions
    (the prepended blank included). *)
Definition in_lattice (T U t u : Z) : Prop := 0 <= t < T /\ 0 <= u < U.

(** The cells [(t, u, d)] of the logits and gradients of that sample, over
    [D] vocabulary entries. *)
Definition in_lattice3 (T U D t u d : Z) : Prop :=
  0 <= t < T /\ 0 <= u < U /\ 0 <= d < D.

(** A cell of the padded [maxT x maxU] view that is not a lattice cell. *)
Definition padding_cell (maxT maxU T U t u : Z) : Prop :=
  0 <= t < maxT /\ 0 <= u < maxU /\ (T <= t \/ U <= u).

Section Buffers.
Context {NUM : Numeric}.

(** The per-sample lengths the drivers read for sample [b]. *)
Definition valid_lengths (options : Options) (im : mem Z) (srcLengths tgtLengths : Z) : Prop :=
  forall b, 0 <= b < batchSize_ options ->
    1 <= im (srcLengths + b) /\ 0 <= im (tgtLengths + b) < maxTgtLen_ options.

(** An address of the [alphas]/[betas] buffer that is no lattice cell of any
    sample of the batch. *)
Definition outside_lattices (options : Options) (im : mem Z) (srcLengths tgtLengths : Z)
           (buffer : Z) (a : Z) : Prop :=
  forall b t u, 0 <= b < batchSize_ options ->
    in_lattice (im (srcLengths + b)) (im (tgtLengths + b) + 1) t u ->
    a <> address (TensorView_new [maxSrcLen_ options; maxTgtLen_ options]
                                 (buffer + b * maxSrcLen_ options * maxTgtLen_ options)) [t; u].

Section GradientBuffers.
Variable options : Options.
Variables T U lg gr : Z.

Let maxT := maxSrcLen_ options.
Let maxU := maxTgtLen_ options.
Let D := numTargets_ options.
Let logits := TensorView_new [maxT; maxU; D] lg.
Let gradients := TensorView_new [maxT; maxU; D] gr.

(** No gradient cell of the lattice shares its storage with a logit of the
    lattice. *)
Definition disjoint_buffers : Prop :=
  forall t u d t' u' d',
    in_lattice3 T U D t u d -> in_lattice3 T U D t' u' d' ->
    address gradients [t; u; d] <> address logits [t'; u'; d'].

(** A cell of the padded tensor outside the lattice, as a gradient cell. *)
Definition padding_cell3 (t u d : Z) : Prop :=
  0 <= t < maxT /\ 0 <= u < maxU /\ 0 <= d < D /\ (T <= t \/ U <= u).

End GradientBuffers.

Section StoredGradient.
Local Open Scope num_scope.
Variable options : Options.
Variable tm : mem Z.
Variable targets : Z.
Variables T U : Z.
Variable dm : mem CAST_DTYPE.
Variable denom : TensorView.
Variable am : mem CAST_DTYPE.
Variable alpha : TensorView.
Variable bm : mem CAST_DTYPE.
Variable beta : TensorView.

(** [c = alpha({t, u}) + cost - denom({t, u})] with [cost = -beta({0, 0})]. *)
Definition gradient_offset (t u : Z) : CAST_DTYPE :=
  rd am alpha [t; u] +. (-. rd bm beta [0; 0]) -. rd dm denom [t; u].

(** What the kernel leaves in the gradient cell [(t, u, d)], from the logit
    [x] it read there: the four-way branch, then the clamp on the stored
    value. *)
Definition gradient_stored (t u d : Z) (x : DTYPE) : DTYPE :=
  let g := cast x +. gradient_offset t u in
  let v := uncast (gradient_value (blank_ options) T U tm targets bm beta t u d g) in
  if c_gtb (clamp_ options) c_zero then
    uncast (c_max (cast (uncast (c_min (cast v) (clamp_ options)))) (-. clamp_ options))
  else v.

End StoredGradient.
End Buffers.

(** ** The recurrences of the specification, in closed form

    [alpha_rec] and [beta_rec] are the recurrences of sections 4.3 and 4.4
    of the specification, by structural recursion on the lattice
    coordinates; the theorems below show that the loops of the kernels
    compute them. *)

Section Recurrences.
Context {NUM : Numeric}.
Local Open Scope num_scope.

(** [lp t u] is the pair [logProbs({t, u})]. *)
Variable lp : Z -> Z -> LogProbs.

Fixpoint alpha_rec (t : nat) : nat -> CAST_DTYPE :=
  match t with
  | O =>
      fix row (u : nat) : CAST_DTYPE :=
        match u with
        | O => c_zero
        | S u' => row u' +. emit_ (lp 0 (Z.of_nat u'))
        end
  | S t' =>
      fix row (u : nat) : CAST_DTYPE :=
        match u with
        | O => alpha_rec t' O +. skip_ (lp (Z.of_nat t') 0)
        | S u' =>
            c_lse (alpha_rec t' (S u') +. skip_ (lp (Z.of_nat t') (Z.of_nat (S u'))))
                  (row u' +. emit_ (lp (Z.of_nat (S t')) (Z.of_nat u')))
        end
  end.

Definition alphaZ (t u : Z) : CAST_DTYPE := alpha_rec (Z.to_nat t) (Z.to_nat u).

(** [beta_rec T U i j] is [beta(T - 1 - i, U - 1 - j)]. *)
Fixpoint beta_rec (T U : Z) (i : nat) : nat -> CAST_DTYPE :=
  match i with
  | O =>
      fix row (j : nat) : CAST_DTYPE :=
        match j with
        | O => skip_ (lp (T - 1) (U - 1))
        | S j' => row j' +. emit_ (lp (T - 1) (U - 1 - Z.of_nat (S j')))
        end
  | S i' =>
      fix row (j : nat) : CAST_DTYPE :=
        match j with
        | O => beta_rec T U i' O +. skip_ (lp (T - 1 - Z.of_nat (S i')) (U - 1))
        | S j' =>
            c_lse (beta_rec T U i' (S j')
                   +. skip_ (lp (T - 1 - Z.of_nat (S i')) (U - 1 - Z.of_nat (S j'))))
                  (row j'
                   +. emit_ (lp (T - 1 - Z.of_nat (S i')) (U - 1 - Z.of_nat (S j'))))
        end
  end.

Definition betaZ (T U t u : Z) : CAST_DTYPE :=
  beta_rec T U (Z.to_nat (T - 1 - t)) (Z.to_nat (U - 1 - u)).
End Recurrences.

(** ** The invariants of section 3 of the specification, in exact arithmetic

    The tensors are given as functions of the lattice coordinates: [logit],
    the denominators [den], the log-probability pairs [lp], and [a], [b]
    for alpha and beta.  [target u] is [targets[u]]. *)

Module Invariants.
Import Exact.
Local Open Scope R_scope.

Section Statements.
Variables T U D blank : Z.
Variable target : Z -> Z.
Variable logit : Z -> Z -> Z -> R.
Variable den : Z -> Z -> R.
Variable lp : Z -> Z -> @LogProbs RNumeric.
Variables a b : Z -> Z -> R.

(** (I1) [denominator(t,u) = log sum_d exp(logits(t,u,d))] *)
Definition I1 : Prop :=
  forall t u, in_lattice T U t u ->
    den t u = ln (sum_upto (Z.to_nat D) (fun d => exp (logit t u d))).

(** (I2) [logProbs(t,u).skip = logits(t,u,blank) - denom(t,u)] *)
Definition I2 : Prop :=
  forall t u, in_lattice T U t u -> skip_ (lp t u) = logit t u blank - den t u.

(** (I3) [logProbs(t,u).emit = logits(t,u,targets[u]) - denom(t,u)] for
    [u < U - 1] *)
Definition I3 : Prop :=
  forall t u, in_lattice T U t u -> (u < U - 1)%Z ->
    emit_ (lp t u) = logit t u (target u) - den t u.

(** (I4) alpha: the boundary [alpha(0,0) = 0] and the recurrence of
    section 4.3 *)
Definition I4_alpha : Prop :=
  a 0%Z 0%Z = 0 /\
  (forall t, (1 <= t < T)%Z -> a t 0%Z = a (t - 1)%Z 0%Z + skip_ (lp (t - 1)%Z 0%Z)) /\
  (forall u, (1 <= u < U)%Z -> a 0%Z u = a 0%Z (u - 1)%Z + emit_ (lp 0%Z (u - 1)%Z)) /\
  (forall t u, (1 <= t < T)%Z -> (1 <= u < U)%Z ->
     a t u = lse (a (t - 1)%Z u + skip_ (lp (t - 1)%Z u))
                 (a t (u - 1)%Z + emit_ (lp t (u - 1)%Z))).

(** (I4) beta: the terminal condition and the mirrored recurrence of
    section 4.4 *)
Definition I4_beta : Prop :=
  b (T - 1)%Z (U - 1)%Z = skip_ (lp (T - 1)%Z (U - 1)%Z) /\
  (forall t, (0 <= t < T - 1)%Z ->
     b t (U - 1)%Z = b (t + 1)%Z (U - 1)%Z + skip_ (lp t (U - 1)%Z)) /\
  (forall u, (0 <= u < U - 1)%Z ->
     b (T - 1)%Z u = b (T - 1)%Z (u + 1)%Z + emit_ (lp (T - 1)%Z u)) /\
  (forall t u, (0 <= t < T - 1)%Z -> (0 <= u < U - 1)%Z ->
     b t u = lse (b (t + 1)%Z u + skip_ (lp t u)) (b t (u + 1)%Z + emit_ (lp t u))).

(** (I5) [forward_score = alpha(T-1,U-1) + logProbs(T-1,U-1).skip
    = backward_score = beta(0,0)] *)
Definition I5 : Prop :=
  a (T - 1)%Z (U - 1)%Z + skip_ (lp (T - 1)%Z (U - 1)%Z) = b 0%Z 0%Z.

Definition I1_to_I5 : Prop := I1 /\ I2 /\ I3 /\ I4_alpha /\ I4_beta /\ I5.
End Statements.
End Invariants.

(** ** The region the alignment restriction allows

    The cells the restricted passes can reach.  The forward pass reaches a
    cell of the column [u = 0] through the blank transitions into
    [(1, 0)], ..., [(t, 0)], which must all be accepted, and a cell of the
    row [t = 0] through the label transitions into [(0, 1)], ..., [(0, u)];
    besides, it reaches a cell with [u >= 1] and [t] within
    [validTimeRanges(u)] through an accepted transition into the cell.
    Likewise for the backward pass, the column [u = U - 1], the row
    [t = T - 1] and the transitions out of a cell. *)

(** [p lo], ..., [p hi] all hold. *)
Definition all_between (p : Z -> bool) (lo hi : Z) : bool :=
  forallb p (map (fun k => lo + Z.of_nat k) (seq 0 (Z.to_nat (hi - lo + 1)))).

Section AllowedRegion.
Context {NUM : Numeric}.
Variable check : AlignmentRestrictionCheck.

Definition in_valid_time_range (t u : Z) : bool :=
  let '(start_t, end_t) := validTimeRanges check u in
  (start_t <=? t) && (t <=? end_t).

Definition alpha_allowed (t u : Z) : bool :=
  if u =? 0 then all_between (fun j => alphaBlankTransition check j 0) 1 t
  else
    ((t =? 0) && all_between (fun j => alphaEmitTransition check 0 j) 1 u)
    || (in_valid_time_range t u
        && (alphaBlankTransition check t u || alphaEmitTransition check t u)).

Definition beta_allowed (T U t u : Z) : bool :=
  if u =? U - 1 then all_between (fun j => betaBlankTransition check j (U - 1)) t (T - 2)
  else
    ((t =? T - 1) && all_between (fun j => betaEmitTransition check (T - 1) j) u (U - 2))
    || (in_valid_time_range t u
        && (betaBlankTransition check t u || betaEmitTransition check t u)).
End AllowedRegion.

(** ** Concrete inputs used by the examples below *)

Module Samples.
Import Float32.

(** No alignment restriction at all. *)
Definition check_all : AlignmentRestrictionCheck := {|
  alphaBlankTransition := fun _ _ => true;
  alphaEmitTransition := fun _ _ => true;
  betaBlankTransition := fun _ _ => true;
  betaEmitTransition := fun _ _ => true;
  validTimeRanges := fun _ => (0, 0)
|}.

Definition new_check_all : mem Z -> Z -> Z -> Z -> Z -> Z -> AlignmentRestrictionCheck :=
  fun _ _ _ _ _ _ => check_all.

Section WithLibm.
Variable libm : Libm.
Let NUM := F32Numeric libm.

(** A batch of one sample in a [3 x 2] padded lattice over two symbols. *)
Definition options_3x2 : @Options NUM := {|
  batchSize_ := 1; nHypos_ := 1;
  maxSrcLen_ := 3; maxTgtLen_ := 2;
  numTargets_ := 2; blank_ := 0;
  clamp_ := S754_zero false : @CAST_DTYPE NUM;
  lBuffer_ := 0; rBuffer_ := 0;
  fusedLogSmax_ := true; sparseCells_ := 0
|}.

(** [srcLengths] at address 0 and [tgtLengths] at address 1 of the integer
    memory: two frames, no label. *)
Definition lengths_2_0 : mem Z := fun a => if a =? 0 then 2 else 0.

Definition logProbs_const : mem (@LogProbs NUM) :=
  fun _ => {| skip_ := of_Z (-1) : @CAST_DTYPE NUM; emit_ := of_Z (-2) : @CAST_DTYPE NUM |}.

(** A batch of one sample with three frames and no label, in a [3 x 1]
    lattice; the three blank log-probabilities are [-2^24], [-1] and [-1]. *)
Definition options_3x1 : @Options NUM := {|
  batchSize_ := 1; nHypos_ := 1;
  maxSrcLen_ := 3; maxTgtLen_ := 1;
  numTargets_ := 2; blank_ := 0;
  clamp_ := S754_zero false : @CAST_DTYPE NUM;
  lBuffer_ := 0; rBuffer_ := 0;
  fusedLogSmax_ := true; sparseCells_ := 0
|}.

Definition lengths_3_0 : mem Z := fun a => if a =? 0 then 3 else 0.

Definition logProbs_3x1 : mem (@LogProbs NUM) :=
  fun a => {| skip_ := (if a =? 0 then of_Z (-16777216) else of_Z (-1)) : @CAST_DTYPE NUM;
              emit_ := of_Z 0 : @CAST_DTYPE NUM |}.

(** What an output buffer holds before a call. *)
Definition stale : mem (@CAST_DTYPE NUM) := fun _ => of_Z 7.
End WithLibm.

(** *** Over the reals *)

Definition Roptions (B maxT maxU D blank : Z) (clamp : R) (fused : bool)
  : @Options Exact.RNumeric := {|
  batchSize_ := B; nHypos_ := 1;
  maxSrcLen_ := maxT; maxTgtLen_ := maxU;
  numTargets_ := D; blank_ := blank;
  clamp_ := clamp : @CAST_DTYPE Exact.RNumeric;
  lBuffer_ := 0; rBuffer_ := 0;
  fusedLogSmax_ := fused; sparseCells_ := 0
|}.

(** All logits zero, all accumulator buffers zero. *)
Definition Rzeros : mem R := fun _ => 0%R.

Definition RlogProbs_zero : mem (@LogProbs Exact.RNumeric) :=
  fun _ => {| skip_ := 0%R : @CAST_DTYPE Exact.RNumeric;
              emit_ := 0%R : @CAST_DTYPE Exact.RNumeric |}.

(** Scenario S1 of the specification: one frame, no label, two symbols,
    both logits zero.  The denominator is [log 2], [alpha(0,0) = 0] and
    [beta(0,0) = -log 2]. *)
Definition S1_options : @Options Exact.RNumeric := Roptions 1 1 1 2 0 0%R true.
Definition S1_denominators : mem R := fun _ => ln 2.
Definition S1_betas : mem R := fun _ => (0 - ln 2)%R.

Definition S1_logProbs : Z -> Z -> @LogProbs Exact.RNumeric :=
  fun _ _ => {| skip_ := (0 - ln 2)%R : @CAST_DTYPE Exact.RNumeric;
                emit_ := 0%R : @CAST_DTYPE Exact.RNumeric |}.

(** Two frames and one label over two symbols, all logits zero, the label
    being the blank symbol [0].  Every denominator is [log 2], every
    log-probability [-log 2]; [alpha] is [0, -log 2, -log 2, -log 2] and
    [beta] is [-2 log 2, -2 log 2, -2 log 2, -log 2] in row-major order. *)
Definition L_options : @Options Exact.RNumeric := Roptions 1 2 2 2 0 0%R true.
Definition L_targets : mem Z := fun _ => 0.
Definition L_logProbs : Z -> Z -> @LogProbs Exact.RNumeric :=
  fun _ _ => {| skip_ := (0 - ln 2)%R : @CAST_DTYPE Exact.RNumeric;
                emit_ := (0 - ln 2)%R : @CAST_DTYPE Exact.RNumeric |}.
Definition L_alphas : mem R := fun a => if a =? 0 then 0%R else (- ln 2)%R.
Definition L_betas : mem R := fun a => if a =? 3 then (- ln 2)%R else (- (2 * ln 2))%R.

(** One frame, no label, one symbol, in a lattice padded to two label
    positions; logits at address 0, a separate gradient buffer at
    address 2, every cell zero before the call. *)
Definition padded_options : @Options Exact.RNumeric := Roptions 1 1 2 1 0 0%R true.
End Samples.
(** ** The remaining members of [TensorView] *)

(** The number of elements of a tensor with the given dimensions. *)
Definition num_elements (dims : list Z) : Z := fold_right Z.mul 1 dims.

(** The index lists [operator()] is meant for: one index per dimension,
    each within its dimension. *)
Definition in_bounds (dims indices : list Z) : Prop :=
  Forall2 (fun i d => 0 <= i < d) indices dims.

(** ** Batches whose samples fit the padded tensors *)

Section Batches.
Context {NUM : Numeric}.

(** Sample [b] has at most [maxSrcLen_] frames and, with the prepended
    blank, at most [maxTgtLen_] label positions. *)
Definition lengths_fit (options : Options) (im : mem Z) (srcLengths tgtLengths : Z) : Prop :=
  forall b, 0 <= b < batchSize_ options ->
    im (srcLengths + b) <= maxSrcLen_ options /\
    im (tgtLengths + b) + 1 <= maxTgtLen_ options.
End Batches.

(** ** Alignments

    An alignment of a sample with [T] frames and [U] label positions is a
    walk through the lattice from [(0, 0)] to [(T - 1, U - 1)]: [T - 1]
    blank transitions, which advance [t], interleaved with [U - 1] label
    transitions, which advance [u].  Its weight is the product of the
    probabilities of its transitions. *)

Module Alignments.
Local Open Scope R_scope.

Inductive transition : Type := Blank | Label.

(** Every order of [m] blank and [n] label transitions. *)
Fixpoint alignments (m : nat) : nat -> list (list transition) :=
  match m with
  | O =>
      fix row (n : nat) : list (list transition) :=
        match n with
        | O => [[]]
        | S n' => map (cons Label) (row n')
        end
  | S m' =>
      fix row (n : nat) : list (list transition) :=
        match n with
        | O => map (cons Blank) (alignments m' O)
        | S n' => map (cons Blank) (alignments m' (S n')) ++ map (cons Label) (row n')
        end
  end.

Section Weights.
(** [blank t u] and [label t u]: the probabilities of the two transitions
    out of the cell [(t, u)]. *)
Variables blank label : Z -> Z -> R.

Fixpoint walk_weight (t u : Z) (walk : list transition) : R :=
  match walk with
  | [] => 1
  | Blank :: rest => blank t u * walk_weight (t + 1)%Z u rest
  | Label :: rest => label t u * walk_weight t (u + 1)%Z rest
  end.

Definition total (l : list R) : R := fold_right Rplus 0 l.

(** The probability of the label sequence: the total weight of the
    alignments, each closed by the blank transition out of
    [(T - 1, U - 1)]. *)
Definition likelihood (T U : Z) : R :=
  total (map (walk_weight 0 0) (alignments (Z.to_nat (T - 1)) (Z.to_nat (U - 1))))
  * blank (T - 1)%Z (U - 1)%Z.
End Weights.
End Alignments.
(** ** The diagnostic entry points of [gpu_transducer.h]

    [ComputeAlphas], [ComputeBetas] and their sparse variants launch
    kernels of their own and, on two paths, wait for the device.  None of
    them calls [gpuErrchk], so a host computation here always returns.  The
    runtime is the one of [Gpu], with the trace extended by the
    synchronisations. *)

Module GpuDiagnostics.
Import Gpu (cudaError_t, cudaSuccess).

Inductive kernel : Type :=
| ReduceMax2D
| ReduceLogSumExpGivenMax2D
| ComputeLogProbs
| ComputeLogProbsSparse
| ComputeAlphasWrapper
| ComputeAlphasRestrictedWrapper (sparse : bool)
| ComputeBetasWrapper
| ComputeBetasCostsRestrictedWrapper (sparse : bool).

Inductive event : Type :=
| Launch (k : kernel)
| Synchronize.

Record cuda : Type := mkCuda {
  trace : list event;
  last_error : cudaError_t
}.

Definition cuda_init : cuda := {| trace := []; last_error := cudaSuccess |}.

Definition host (A : Type) : Type := cuda -> A * cuda.

Definition ret {A} (a : A) : host A := fun s => (a, s).

Definition bind {A B} (m : host A) (k : A -> host B) : host B :=
  fun s => let '(a, s') := m s in k a s'.

Notation "x <- m ;; k" := (bind m (fun x => k))
  (at level 61, m at next level, right associativity).
Notation "m ;;; k" := (bind m (fun _ => k))
  (at level 61, right associativity).

Section Dispatcher.
(** The error each event leaves behind ([cudaSuccess] when it goes
    through): of a launch, and of [cudaDeviceSynchronize], which reports
    what went wrong on the device while the kernels ran. *)
Variable error_of : event -> cudaError_t.

Definition raise (e : event) : host cudaError_t :=
  fun s =>
    (error_of e,
     {| trace := trace s ++ [e];
        last_error := if error_of e =? cudaSuccess then last_error s else error_of e |}).

(** [kernel<<<...>>>(...)] *)
Definition launch (k : kernel) : host unit := raise (Launch k) ;;; ret tt.

(** [cudaDeviceSynchronize()], its result dropped. *)
Definition cudaDeviceSynchronize : host unit := raise Synchronize ;;; ret tt.

(** [cudaGetLastError()] returns the pending error and resets it. *)
Definition cudaGetLastError : host cudaError_t :=
  fun s => (last_error s, {| trace := trace s; last_error := cudaSuccess |}).

Definition LogSumExp2D : host status_t :=
  (* compute max among D. *)
  launch ReduceMax2D ;;;
  e <- cudaGetLastError ;;
  if negb (e =? cudaSuccess) then ret COMPUTE_DENOMINATOR_REDUCE_MAX_FAILED
  else
    (* compute log(sum(exp(d_i - max))) *)
    launch ReduceLogSumExpGivenMax2D ;;;
    e <- cudaGetLastError ;;
    if negb (e =? cudaSuccess) then ret COMPUTE_DENOMINATOR_REDUCE_SUM_FAILED
    else ret SUCCESS.

(** A null [wpEnds] pointer is [None]. *)
Definition ComputeAlphas (wpEnds : option Z) : host status_t :=
  (* compute denominators. *)
  status <- LogSumExp2D ;;
  match status with
  | SUCCESS =>
      (* compute log probability pairs (blank and target). *)
      launch ComputeLogProbs ;;;
      e <- cudaGetLastError ;;
      if negb (e =? cudaSuccess) then ret COMPUTE_LOG_PROBS_FAILED
      else
        (* compute alphas *)
        match wpEnds with
        | None => launch ComputeAlphasWrapper
        | Some _ => launch (ComputeAlphasRestrictedWrapper false)
        end ;;;
        e <- cudaGetLastError ;;
        if negb (e =? cudaSuccess) then ret COMPUTE_ALPHAS_BETAS_COSTS_FAILED
        else ret SUCCESS
  | _ => ret status
  end.

Definition ComputeAlphasSparse (wpEnds : option Z) : host status_t :=
  (* compute denominators. *)
  status <- LogSumExp2D ;;
  match status with
  | SUCCESS =>
      (* compute log probability pairs (blank and target). *)
      launch ComputeLogProbsSparse ;;;
      e <- cudaGetLastError ;;
      if negb (e =? cudaSuccess) then ret COMPUTE_LOG_PROBS_FAILED
      else
        (* compute alphas *)
        launch (ComputeAlphasRestrictedWrapper true) ;;;
        e <- cudaGetLastError ;;
        if negb (e =? cudaSuccess) then ret COMPUTE_ALPHAS_BETAS_COSTS_FAILED
        else ret SUCCESS
  | _ => ret status
  end.

Definition ComputeBetas (wpEnds : option Z) : host status_t :=
  (* compute denominators. *)
  status <- LogSumExp2D ;;
  match status with
  | SUCCESS =>
      (* compute log probability pairs (blank and target). *)
      launch ComputeLogProbs ;;;
      e <- cudaGetLastError ;;
      if negb (e =? cudaSuccess) then ret COMPUTE_LOG_PROBS_FAILED
      else
        (* compute betas *)
        match wpEnds with
        | None => launch ComputeBetasWrapper
        | Some _ =>
            launch (ComputeBetasCostsRestrictedWrapper false) ;;;
            cudaDeviceSynchronize
        end ;;;
        e <- cudaGetLastError ;;
        if negb (e =? cudaSuccess) then ret COMPUTE_ALPHAS_BETAS_COSTS_FAILED
        else ret SUCCESS
  | _ => ret status
  end.

Definition ComputeBetasSparse (wpEnds : option Z) : host status_t :=
  (* compute denominators. *)
  status <- LogSumExp2D ;;
  match status with
  | SUCCESS =>
      (* compute log probability pairs (blank and target). *)
      launch ComputeLogProbsSparse ;;;
      e <- cudaGetLastError ;;
      if negb (e =? cudaSuccess) then ret COMPUTE_LOG_PROBS_FAILED
      else
        launch (ComputeBetasCostsRestrictedWrapper true) ;;;
        cudaDeviceSynchronize ;;;
        e <- cudaGetLastError ;;
        if negb (e =? cudaSuccess) then ret COMPUTE_ALPHAS_BETAS_COSTS_FAILED
        else ret SUCCESS
  | _ => ret status
  end.
End Dispatcher.

(** The stages of an entry point: the events of each stage, which run
    without a check in between, and the status returned when the check at
    the end of the stage finds an error. *)
Definition stages : Type := list (list event * status_t).

Definition denominator_stages : stages :=
  [([Launch ReduceMax2D], COMPUTE_DENOMINATOR_REDUCE_MAX_FAILED);
   ([Launch ReduceLogSumExpGivenMax2D], COMPUTE_DENOMINATOR_REDUCE_SUM_FAILED)].

Definition alphas_stages (sparse : bool) (wpEnds : option Z) : stages :=
  denominator_stages ++
  [([Launch (if sparse then ComputeLogProbsSparse else ComputeLogProbs)],
    COMPUTE_LOG_PROBS_FAILED);
   ([Launch (if sparse then ComputeAlphasRestrictedWrapper true
             else match wpEnds with
                  | None => ComputeAlphasWrapper
                  | Some _ => ComputeAlphasRestrictedWrapper false
                  end)],
    COMPUTE_ALPHAS_BETAS_COSTS_FAILED)].

Definition betas_stages (sparse : bool) (wpEnds : option Z) : stages :=
  denominator_stages ++
  [([Launch (if sparse then ComputeLogProbsSparse else ComputeLogProbs)],
    COMPUTE_LOG_PROBS_FAILED);
   (if sparse then [Launch (ComputeBetasCostsRestrictedWrapper true); Synchronize]
    else match wpEnds with
         | None => [Launch ComputeBetasWrapper]
         | Some _ => [Launch (ComputeBetasCostsRestrictedWrapper false); Synchronize]
         end,
    COMPUTE_ALPHAS_BETAS_COSTS_FAILED)].

(** The events of the stages up to and including the first stage in which
    an event leaves an error, and the status of that stage ([SUCCESS] when
    there is none). *)
Fixpoint until_failure (error_of : event -> cudaError_t) (l : stages)
  : list event * status_t :=
  match l with
  | [] => ([], SUCCESS)
  | (events, status) :: rest =>
      if forallb (fun e => error_of e =? cudaSuccess) events then
        let '(later, result) := until_failure error_of rest in (events ++ later, result)
      else (events, status)
  end.
End GpuDiagnostics.

(** ** The 32-bit [int] of the kernels

    Sizes, strides, indices and loop bounds are [int] in the C++ code.  The
    kernels above take them in [Z], which is what the code computes as long
    as no intermediate result leaves the range of [int].  This module
    repeats the functions that form products of the size of a tensor, with
    the arithmetic of [int] written out: a product, sum or difference is
    reduced to the two's complement range, which is what the compiled code
    leaves when the exact result does not fit.  A counter that is only
    incremented below an [int] bound never leaves the range and stays a
    plain [Z].  Pointer arithmetic is exact: an address is the position of
    an element in its buffer. *)

Module Int32.

Definition min_int : Z := -2147483648.
Definition max_int : Z := 2147483647.

(** The [int] congruent to [x] modulo [2^32]. *)
Definition wrap (x : Z) : Z := (x + 2147483648) mod 4294967296 - 2147483648.

Definition add (a b : Z) : Z := wrap (a + b).
Definition sub (a b : Z) : Z := wrap (a - b).
Definition mul (a b : Z) : Z := wrap (a * b).

(** [x] is the value of an [int]. *)
Definition fits (x : Z) : Prop := min_int <= x <= max_int.

(** The dimensions of a tensor without an empty dimension, whose number of
    elements is the value of an [int]. *)
Definition sized (dims : list Z) : Prop :=
  Forall (fun d => 1 <= d) dims /\ num_elements dims <= max_int.

(** *** [TensorView] *)

(** The constructor's loop: [strides_.back() = 1] and
    [strides_[i] = strides_[i + 1] * dims[i + 1]], an [int] product. *)
Fixpoint compute_strides (dims : list Z) : list Z :=
  match dims with
  | [] => []
  | _ :: rest =>
      match compute_strides rest, rest with
      | s :: ss, d :: _ => mul s d :: s :: ss
      | _, _ => [1]
      end
  end.

Definition TensorView_new (dims : list Z) (data : Z) : TensorView :=
  {| dims_ := dims; strides_ := compute_strides dims; data_ := data |}.

(** [operator()]: [int index = indices.back()], then
    [index += indices[i] * strides_[i]] from the last but one position down
    to the first. *)
Fixpoint flat_index (strides indices : list Z) : Z :=
  match indices, strides with
  | [i], _ => i
  | i :: rest, s :: ss => add (flat_index ss rest) (mul i s)
  | _, _ => 0
  end.

(** [data_[index]] *)
Definition address (v : TensorView) (indices : list Z) : Z :=
  data_ v + flat_index (strides_ v) indices.

Definition rd {A} (m : mem A) (v : TensorView) (indices : list Z) : A :=
  m (address v indices).

Definition wr {A} (m : mem A) (v : TensorView) (indices : list Z) (x : A) : mem A :=
  store m (address v indices) x.

(** [SetZero]: [int size = dims_[0] * strides_[0]] elements are cleared
    from [data_] on.  [zero] is the value of an element whose bytes are all
    zero.  [dims_[0]] of an empty vector is undefined, and a negative
    [size] becomes a byte count beyond any buffer when [memset] takes it as
    a [size_t]: [None]. *)
Definition SetZero {A} (zero : A) (v : TensorView) (m : mem A) : option (mem A) :=
  match dims_ v, strides_ v with
  | d0 :: _, s0 :: _ =>
      let size := mul d0 s0 in
      if size <? 0 then None
      else Some (for_up 0 size (fun i m => store m (data_ v + i) zero) m)
  | _, _ => None
  end.

Section Kernels.
Context {NUM : Numeric}.
Local Open Scope num_scope.

(** *** LogSumExp2D *)

(** One round of the outer loop, for the row that starts at flat position
    [i]: [j] runs below [D] and [i + j] is an [int] sum. *)
Definition LogSumExp2D_row (D : Z) (lm : mem DTYPE) (logits : Z)
           (i : Z) (outputs : Z) (om : mem CAST_DTYPE) : mem CAST_DTYPE :=
  let max := cast (lm (logits + i)) in
  let max := for_up 1 D (fun j max => c_max max (cast (lm (logits + add i j)))) max in
  let sum := c_zero in
  let sum := for_up 0 D (fun j sum => sum +. c_exp (cast (lm (logits + add i j)) -. max)) sum in
  store om (outputs + Z.quot i D) (max +. c_log sum).

(** [for (int i = 0; i < N * D; i += D)]: the bound and the step are [int]
    arithmetic.  The loop is run on fuel; [None] means the fuel did not
    suffice. *)
Fixpoint LogSumExp2D_loop (fuel : nat) (N D : Z) (lm : mem DTYPE) (logits : Z)
         (i : Z) (outputs : Z) (om : mem CAST_DTYPE) : option (mem CAST_DTYPE) :=
  if i <? mul N D then
    match fuel with
    | O => None
    | Datatypes.S fuel' =>
        LogSumExp2D_loop fuel' N D lm logits (add i D) outputs
                         (LogSumExp2D_row D lm logits i outputs om)
    end
  else Some om.

Definition LogSumExp2D (fuel : nat) (N D : Z) (lm : mem DTYPE) (logits : Z)
           (outputs : Z) (om : mem CAST_DTYPE) : option (status_t * mem CAST_DTYPE) :=
  match LogSumExp2D_loop fuel N D lm logits 0 outputs om with
  | Some om' => Some (SUCCESS, om')
  | None => None
  end.

(** *** ComputeLogProbs *)

Definition ComputeLogProbsOneSequence (options : Options)
           (lm : mem DTYPE) (logits : TensorView)
           (tm : mem Z) (targets : Z)
           (srcLen tgtLen : Z)
           (dm : mem CAST_DTYPE) (denom : TensorView)
           (logProbs : TensorView) (pm : mem LogProbs) : mem LogProbs :=
  let T := srcLen in
  let U := tgtLen in
  let blank := blank_ options in
  for_up 0 T (fun t pm =>
    for_up 0 U (fun u pm =>
      let pm :=
        if u <? sub U 1 then
          wr pm logProbs [t; u]
             (set_emit (rd pm logProbs [t; u])
                       (cast (rd lm logits [t; u; tm (targets + u)]) -. rd dm denom [t; u]))
        else pm in
      wr pm logProbs [t; u]
         (set_skip (rd pm logProbs [t; u])
                   (cast (rd lm logits [t; u; blank]) -. rd dm denom [t; u]))) pm) pm.

(** The offsets [b * maxT * maxU * D], [b * (maxU - 1)] and
    [b * maxT * maxU] are [int] products, taken from the left, before they
    are added to the pointers. *)
Definition ComputeLogProbs (options : Options)
           (lm : mem DTYPE) (logits : Z)
           (tm : mem Z) (targets : Z)
           (im : mem Z) (srcLengths tgtLengths : Z)
           (dm : mem CAST_DTYPE) (denominators : Z)
           (logProbs : Z) (pm : mem LogProbs) : status_t * mem LogProbs :=
  let B := batchSize_ options in
  let maxT := maxSrcLen_ options in
  let maxU := maxTgtLen_ options in
  let D := numTargets_ options in
  let seqLogits b :=
    TensorView_new [maxT; maxU; D] (logits + mul (mul (mul b maxT) maxU) D) in
  let seqTargets b := targets + mul b (sub maxU 1) in
  let seqDenoms b := TensorView_new [maxT; maxU] (denominators + mul (mul b maxT) maxU) in
  let seqlogProbs b := TensorView_new [maxT; maxU] (logProbs + mul (mul b maxT) maxU) in
  (SUCCESS,
   for_up 0 B (fun b pm =>
     ComputeLogProbsOneSequence options lm (seqLogits b) tm (seqTargets b)
       (im (srcLengths + b)) (add (im (tgtLengths + b)) 1)
       dm (seqDenoms b) (seqlogProbs b) pm) pm).

(** *** Gradients *)

(** The four-way branch on [(t, u, d)], before clamping. *)
Definition gradient_value (blank T U : Z) (tm : mem Z) (targets : Z)
           (bm : mem CAST_DTYPE) (beta : TensorView)
           (t u d : Z) (g : CAST_DTYPE) : CAST_DTYPE :=
  if (d =? blank) && (t =? sub T 1) && (u =? sub U 1) then   (* last blank transition. *)
    c_exp (g +. rd bm beta [t; u]) -. c_exp g
  else if (d =? blank) && (t <? sub T 1) then
    c_exp (g +. rd bm beta [t; u]) -. c_exp (g +. rd bm beta [add t 1; u])
  else if (u <? sub U 1) && (d =? tm (targets + u)) then
    c_exp (g +. rd bm beta [t; u]) -. c_exp (g +. rd bm beta [t; add u 1])
  else
    c_exp (g +. rd bm beta [t; u]).

Definition gradient_cell (options : Options)
           (logits : TensorView) (tm : mem Z) (targets : Z) (T U : Z)
           (bm : mem CAST_DTYPE) (beta : TensorView)
           (gradients : TensorView)
           (c : CAST_DTYPE) (t u d : Z) (hm : mem DTYPE) : mem DTYPE :=
  let blank := blank_ options in
  let clamp := clamp_ options in
  let g := cast (rd hm logits [t; u; d]) +. c in
  let hm := wr hm gradients [t; u; d]
               (uncast (gradient_value blank T U tm targets bm beta t u d g)) in
  if c_gtb clamp c_zero then
    let hm := wr hm gradients [t; u; d]
                 (uncast (c_min (cast (rd hm gradients [t; u; d])) clamp)) in
    wr hm gradients [t; u; d]
       (uncast (c_max (cast (rd hm gradients [t; u; d])) (-. clamp)))
  else hm.

Definition ComputeGradientsOneSequence (options : Options)
           (logits : TensorView) (tm : mem Z) (targets : Z)
           (srcLen tgtLen : Z)
           (dm : mem CAST_DTYPE) (denom : TensorView)
           (am : mem CAST_DTYPE) (alpha : TensorView)
           (bm : mem CAST_DTYPE) (beta : TensorView)
           (gradients : TensorView) (hm : mem DTYPE) : mem DTYPE :=
  let T := srcLen in
  let U := tgtLen in
  let D := numTargets_ options in
  let cost := -. rd bm beta [0; 0] in
  let hm := for_up 0 T (fun t hm =>
    for_up 0 U (fun u hm =>
      let c := rd am alpha [t; u] +. cost -. rd dm denom [t; u] in
      for_up 0 D (fun d hm =>
        gradient_cell options logits tm targets T U bm beta gradients c t u d hm) hm) hm) hm in
  (* zero out the rest of the gradients, necessary when reusing logits memory *)
  if address gradients [0; 0; 0] =? address logits [0; 0; 0] then
    let maxT := maxSrcLen_ options in
    let maxU := maxTgtLen_ options in
    let hm := for_up T maxT (fun t hm =>
      for_up 0 maxU (fun u hm =>
        for_up 0 D (fun d hm => wr hm gradients [t; u; d] d_zero) hm) hm) hm in
    for_up 0 T (fun t hm =>
      for_up U maxU (fun u hm =>
        for_up 0 D (fun d hm => wr hm gradients [t; u; d] d_zero) hm) hm) hm
  else hm.

Definition ComputeGradients (options : Options)
           (logits : Z) (tm : mem Z) (targets : Z)
           (im : mem Z) (srcLengths tgtLengths : Z)
           (dm : mem CAST_DTYPE) (denominators : Z)
           (am : mem CAST_DTYPE) (alphas : Z)
           (bm : mem CAST_DTYPE) (betas : Z)
           (gradients : Z) (hm : mem DTYPE) : mem DTYPE :=
  let B := batchSize_ options in
  let maxT := maxSrcLen_ options in
  let maxU := maxTgtLen_ options in
  let D := numTargets_ options in
  for_up 0 B (fun b hm =>
    ComputeGradientsOneSequence options
      (TensorView_new [maxT; maxU; D] (logits + mul (mul (mul b maxT) maxU) D))
      tm (targets + mul b (sub maxU 1))
      (im (srcLengths + b)) (add (im (tgtLengths + b)) 1)
      dm (TensorView_new [maxT; maxU] (denominators + mul (mul b maxT) maxU))
      am (TensorView_new [maxT; maxU] (alphas + mul (mul b maxT) maxU))
      bm (TensorView_new [maxT; maxU] (betas + mul (mul b maxT) maxU))
      (TensorView_new [maxT; maxU; D] (gradients + mul (mul (mul b maxT) maxU) D)) hm) hm.
End Kernels.
End Int32.

(** ** Batches within the range of [int] *)

Section IntBatches.
Context {NUM : Numeric}.
Variable options : Options.

(** No padded dimension is empty, and the padded logits of the batch,
    [B * maxT * maxU * D] elements, are no more than an [int] can count. *)
Definition batch_fits_int : Prop :=
  1 <= maxSrcLen_ options /\ 1 <= maxTgtLen_ options /\ 1 <= numTargets_ options /\
  batchSize_ options * maxSrcLen_ options * maxTgtLen_ options * numTargets_ options
  <= Int32.max_int.

(** The target lengths the driver reads are values of [int]. *)
Definition int_lengths (im : mem Z) (tgtLengths : Z) : Prop :=
  forall b, 0 <= b < batchSize_ options -> Int32.fits (im (tgtLengths + b)).

(** [blank] and the labels of every sample are symbols of the vocabulary. *)
Definition symbols_in_range (tm : mem Z) (targets : Z) (im : mem Z) (tgtLengths : Z) : Prop :=
  0 <= blank_ options < numTargets_ options /\
  forall b u, 0 <= b < batchSize_ options -> 0 <= u < im (tgtLengths + b) ->
    0 <= tm (targets + b * (maxTgtLen_ options - 1) + u) < numTargets_ options.
End IntBatches.

(** ** The two-pass form of section 4.1 of the specification

    [max_j x[j] + log (sum_j exp (x[j] - max_j))] for one row [x] of [D]
    entries, in the arithmetic of the accumulator: the maximum taken with
    [std::max] from the left, the sum added up from the left, starting
    from zero. *)

Section TwoPass.
Context {NUM : Numeric}.
Local Open Scope num_scope.

Variable x : Z -> CAST_DTYPE.

(** [max_{j <= n} x[j]] *)
Fixpoint row_max (n : nat) : CAST_DTYPE :=
  match n with
  | O => x 0
  | S n' => c_max (row_max n') (x (Z.of_nat (S n')))
  end.

(** [sum_{j < n} exp (x[j] - mx)] *)
Fixpoint shifted_exp_sum (mx : CAST_DTYPE) (n : nat) : CAST_DTYPE :=
  match n with
  | O => c_zero
  | S n' => shifted_exp_sum mx n' +. c_exp (x (Z.of_nat n') -. mx)
  end.

Definition two_pass_log_sum_exp (D : Z) : CAST_DTYPE :=
  let mx := row_max (Z.to_nat (D - 1)) in
  mx +. c_log (shifted_exp_sum mx (Z.to_nat D)).
End TwoPass.

(** * Basic facts about memories, views and loops *)

Section MemoryFacts.
Variable A : Type.
Implicit Type m : mem A.

Lemma store_same m a v : store m a v a = v.
Proof. unfold store. now rewrite Z.eqb_refl. Qed.

Lemma store_other m a v i : i <> a -> store m a v i = m i.
Proof. unfold store. intros H. destruct (Z.eqb_spec i a); congruence. Qed.

Lemma store_cases m a v i :
  (i = a /\ store m a v i = v) \/ (i <> a /\ store m a v i = m i).
Proof.
  destruct (Z.eq_dec i a) as [->|H].
  - left. split; [reflexivity | apply store_same].
  - right. split; [assumption | now apply store_other].
Qed.
End MemoryFacts.

Lemma address2 maxT maxU p t u :
  address (TensorView_new [maxT; maxU] p) [t; u] = p + (u + t * maxU).
Proof.
  unfold address, TensorView_new. cbn [strides_ data_ compute_strides flat_index]. lia.
Qed.

Lemma address3 maxT maxU D p t u d :
  address (TensorView_new [maxT; maxU; D] p) [t; u; d] = p + (d + u * D + t * (D * maxU)).
Proof.
  unfold address, TensorView_new. cbn [strides_ data_ compute_strides flat_index]. lia.
Qed.

(** Cells of a two-dimensional view with an in-range column never share an
    address. *)
Lemma address2_inj maxT maxU p t u t' u' :
  0 <= u < maxU -> 0 <= u' < maxU ->
  address (TensorView_new [maxT; maxU] p) [t; u] =
  address (TensorView_new [maxT; maxU] p) [t'; u'] ->
  t = t' /\ u = u'.
Proof.
  rewrite !address2. intros Hu Hu' H.
  assert (t = t') by nia. subst. split; [reflexivity | lia].
Qed.

Lemma address3_inj maxT maxU D p t u d t' u' d' :
  0 <= u < maxU -> 0 <= u' < maxU -> 0 <= d < D -> 0 <= d' < D ->
  address (TensorView_new [maxT; maxU; D] p) [t; u; d] =
  address (TensorView_new [maxT; maxU; D] p) [t'; u'; d'] ->
  t = t' /\ u = u' /\ d = d'.
Proof.
  rewrite !address3. intros Hu Hu' Hd Hd' H.
  assert (Hrow : 0 <= d + u * D < D * maxU) by nia.
  assert (Hrow' : 0 <= d' + u' * D < D * maxU) by nia.
  assert (t = t') by nia. subst.
  assert (u = u') by nia. subst. repeat split; lia.
Qed.

Section LoopFacts.
Variable S : Type.

(** Invariant rules. *)
Lemma iter_up_inv (P : Z -> S -> Prop) body :
  forall n i s,
    P i s ->
    (forall j s', i <= j < i + Z.of_nat n -> P j s' -> P (j + 1) (body j s')) ->
    P (i + Z.of_nat n) (iter_up n i body s).
Proof.
  induction n as [|n IH]; intros i s H0 Hstep.
  - simpl. now rewrite Z.add_0_r.
  - cbn [iter_up]. replace (i + Z.of_nat (Datatypes.S n)) with ((i + 1) + Z.of_nat n) by lia.
    apply IH.
    + apply Hstep; [lia | assumption].
    + intros j s' Hj. apply Hstep. lia.
Qed.

Lemma for_up_inv (P : Z -> S -> Prop) lo hi body s :
  lo <= hi ->
  P lo s ->
  (forall j s', lo <= j < hi -> P j s' -> P (j + 1) (body j s')) ->
  P hi (for_up lo hi body s).
Proof.
  intros Hle H0 Hstep. unfold for_up.
  replace hi with (lo + Z.of_nat (Z.to_nat (hi - lo))) at 1 by lia.
  apply iter_up_inv; [assumption|].
  intros j s' Hj. apply Hstep. lia.
Qed.

Lemma for_up_empty lo hi (body : Z -> S -> S) (s : S) : hi <= lo -> for_up lo hi body s = s.
Proof.
  intros H. unfold for_up. replace (Z.to_nat (hi - lo)) with O by lia. reflexivity.
Qed.

Lemma iter_down_inv (P : Z -> S -> Prop) body :
  forall n i s,
    P i s ->
    (forall j s', i - Z.of_nat n < j <= i -> P j s' -> P (j - 1) (body j s')) ->
    P (i - Z.of_nat n) (iter_down n i body s).
Proof.
  induction n as [|n IH]; intros i s H0 Hstep.
  - simpl. now rewrite Z.sub_0_r.
  - cbn [iter_down]. replace (i - Z.of_nat (Datatypes.S n)) with ((i - 1) - Z.of_nat n) by lia.
    apply IH.
    + apply Hstep; [lia | assumption].
    + intros j s' Hj. apply Hstep. lia.
Qed.

Lemma for_down_inv (P : Z -> S -> Prop) hi lo body s :
  lo - 1 <= hi ->
  P hi s ->
  (forall j s', lo <= j <= hi -> P j s' -> P (j - 1) (body j s')) ->
  P (lo - 1) (for_down hi lo body s).
Proof.
  intros Hle H0 Hstep. unfold for_down.
  replace (lo - 1) with (hi - Z.of_nat (Z.to_nat (hi - lo + 1))) at 1 by lia.
  apply iter_down_inv; [assumption|].
  intros j s' Hj. apply Hstep. lia.
Qed.

Lemma for_down_empty hi lo (body : Z -> S -> S) (s : S) : hi < lo -> for_down hi lo body s = s.
Proof.
  intros H. unfold for_down. replace (Z.to_nat (hi - lo + 1)) with O by lia. reflexivity.
Qed.

(** For the loops with [break] the invariant does not mention the counter
    at exit: it holds wherever the loop stops. *)
Lemma iter_up_break_inv (Q : S -> Prop) (P : Z -> S -> Prop) body :
  (forall j s, P j s -> Q s) ->
  forall n i s,
    P i s ->
    (forall j s' s'', i <= j < i + Z.of_nat n -> P j s' ->
                      body j s' = Some s'' -> P (j + 1) s'') ->
    Q (iter_up_break n i body s).
Proof.
  intros HPQ. induction n as [|n IH]; intros i s H0 Hstep.
  - simpl. eauto.
  - cbn [iter_up_break]. destruct (body i s) as [s1|] eqn:Hb.
    + apply IH with (i := i + 1).
      * apply Hstep with (j := i) (s' := s); [lia | assumption | assumption].
      * intros j s' s'' Hj. apply Hstep. lia.
    + eauto.
Qed.

Lemma for_up_break_inv (Q : S -> Prop) (P : Z -> S -> Prop) lo hi body s :
  (forall j s, P j s -> Q s) ->
  P lo s ->
  (forall j s' s'', lo <= j < hi -> P j s' -> body j s' = Some s'' -> P (j + 1) s'') ->
  Q (for_up_break lo hi body s).
Proof.
  intros HPQ H0 Hstep. unfold for_up_break.
  apply iter_up_break_inv with (P := P); [assumption | assumption |].
  intros j s' s'' Hj. apply Hstep. lia.
Qed.

Lemma iter_down_break_inv (Q : S -> Prop) (P : Z -> S -> Prop) body :
  (forall j s, P j s -> Q s) ->
  forall n i s,
    P i s ->
    (forall j s' s'', i - Z.of_nat n < j <= i -> P j s' ->
                      body j s' = Some s'' -> P (j - 1) s'') ->
    Q (iter_down_break n i body s).
Proof.
  intros HPQ. induction n as [|n IH]; intros i s H0 Hstep.
  - simpl. eauto.
  - cbn [iter_down_break]. destruct (body i s) as [s1|] eqn:Hb.
    + apply IH with (i := i - 1).
      * apply Hstep with (j := i) (s' := s); [lia | assumption | assumption].
      * intros j s' s'' Hj. apply Hstep. lia.
    + eauto.
Qed.

Lemma for_down_break_inv (Q : S -> Prop) (P : Z -> S -> Prop) hi lo body s :
  (forall j s, P j s -> Q s) ->
  P hi s ->
  (forall j s' s'', lo <= j <= hi -> P j s' -> body j s' = Some s'' -> P (j - 1) s'') ->
  Q (for_down_break hi lo body s).
Proof.
  intros HPQ H0 Hstep. unfold for_down_break.
  apply iter_down_break_inv with (P := P); [assumption | assumption |].
  intros j s' s'' Hj. apply Hstep. lia.
Qed.
End LoopFacts.

(** * The kernels compute the recurrences *)

Section RecurrenceFacts.
Context {NUM : Numeric}.
Local Open Scope num_scope.
Variable lp : Z -> Z -> LogProbs.

Lemma alphaZ_0_0 : alphaZ lp 0 0 = c_zero.
Proof. reflexivity. Qed.

Lemma alphaZ_t_0 t :
  1 <= t -> alphaZ lp t 0 = alphaZ lp (t - 1) 0 +. skip_ (lp (t - 1) 0).
Proof.
  intros Ht. unfold alphaZ.
  replace (Z.to_nat t) with (S (Z.to_nat (t - 1))) by lia.
  cbn [alpha_rec Z.to_nat]. now rewrite Z2Nat.id by lia.
Qed.

Lemma alphaZ_0_u u :
  1 <= u -> alphaZ lp 0 u = alphaZ lp 0 (u - 1) +. emit_ (lp 0 (u - 1)).
Proof.
  intros Hu. unfold alphaZ.
  replace (Z.to_nat u) with (S (Z.to_nat (u - 1))) by lia.
  cbn [alpha_rec Z.to_nat]. now rewrite Z2Nat.id by lia.
Qed.

Lemma alphaZ_t_u t u :
  1 <= t -> 1 <= u ->
  alphaZ lp t u =
  c_lse (alphaZ lp (t - 1) u +. skip_ (lp (t - 1) u))
        (alphaZ lp t (u - 1) +. emit_ (lp t (u - 1))).
Proof.
  intros Ht Hu. unfold alphaZ.
  replace (Z.to_nat t) with (S (Z.to_nat (t - 1))) by lia.
  replace (Z.to_nat u) with (S (Z.to_nat (u - 1))) by lia.
  cbn [alpha_rec].
  rewrite !Z2Nat.id by lia.
  replace (Z.of_nat (S (Z.to_nat (u - 1)))) with u by lia.
  replace (Z.of_nat (S (Z.to_nat (t - 1)))) with t by lia.
  reflexivity.
Qed.

Variables T U : Z.

Lemma betaZ_end : betaZ lp T U (T - 1) (U - 1) = skip_ (lp (T - 1) (U - 1)).
Proof.
  unfold betaZ. replace (T - 1 - (T - 1)) with 0 by lia.
  replace (U - 1 - (U - 1)) with 0 by lia. reflexivity.
Qed.

Lemma betaZ_last_col t :
  t <= T - 2 ->
  betaZ lp T U t (U - 1) = betaZ lp T U (t + 1) (U - 1) +. skip_ (lp t (U - 1)).
Proof.
  intros Ht. unfold betaZ.
  replace (U - 1 - (U - 1)) with 0 by lia.
  replace (Z.to_nat (T - 1 - t)) with (S (Z.to_nat (T - 1 - (t + 1)))) by lia.
  cbn [beta_rec Z.to_nat].
  replace (T - 1 - Z.of_nat (S (Z.to_nat (T - 1 - (t + 1))))) with t by lia.
  reflexivity.
Qed.

Lemma betaZ_last_row u :
  u <= U - 2 ->
  betaZ lp T U (T - 1) u = betaZ lp T U (T - 1) (u + 1) +. emit_ (lp (T - 1) u).
Proof.
  intros Hu. unfold betaZ.
  replace (T - 1 - (T - 1)) with 0 by lia.
  replace (Z.to_nat (U - 1 - u)) with (S (Z.to_nat (U - 1 - (u + 1)))) by lia.
  cbn [beta_rec Z.to_nat].
  replace (U - 1 - Z.of_nat (S (Z.to_nat (U - 1 - (u + 1))))) with u by lia.
  reflexivity.
Qed.

Lemma betaZ_interior t u :
  t <= T - 2 -> u <= U - 2 ->
  betaZ lp T U t u =
  c_lse (betaZ lp T U (t + 1) u +. skip_ (lp t u))
        (betaZ lp T U t (u + 1) +. emit_ (lp t u)).
Proof.
  intros Ht Hu. unfold betaZ.
  replace (Z.to_nat (T - 1 - t)) with (S (Z.to_nat (T - 1 - (t + 1)))) by lia.
  replace (Z.to_nat (U - 1 - u)) with (S (Z.to_nat (U - 1 - (u + 1)))) by lia.
  cbn [beta_rec].
  replace (T - 1 - Z.of_nat (S (Z.to_nat (T - 1 - (t + 1))))) with t by lia.
  replace (U - 1 - Z.of_nat (S (Z.to_nat (U - 1 - (u + 1))))) with u by lia.
  reflexivity.
Qed.
End RecurrenceFacts.

(** ** Filling a two-dimensional view cell by cell *)

Section Fill.
Variable A : Type.
Variables maxT maxU base : Z.
Variables T U : Z.
Hypothesis U_le : U <= maxU.

(** The initial contents and the value every cell is meant to receive. *)
Variable m0 : mem A.
Variable f : Z -> Z -> A.

Let view := TensorView_new [maxT; maxU] base.

(** [done] cells are lattice cells that hold their value; addresses that
    belong to no lattice cell hold what they held at the start. *)
Definition filled (done : Z -> Z -> Prop) (m : mem A) : Prop :=
  (forall t u, done t u -> in_lattice T U t u /\ rd m view [t; u] = f t u) /\
  (forall a, (forall t u, in_lattice T U t u -> a <> address view [t; u]) -> m a = m0 a).

Lemma filled_start : filled (fun _ _ => False) m0.
Proof. split; [intros t u [] | reflexivity]. Qed.

Lemma filled_weaken (done done' : Z -> Z -> Prop) m :
  filled done m -> (forall t u, done' t u -> done t u) -> filled done' m.
Proof. intros [H1 H2] Hsub. split; [intros t u H; apply H1; auto | exact H2]. Qed.

Lemma filled_step (done done' : Z -> Z -> Prop) m t u v :
  filled done m ->
  in_lattice T U t u ->
  v = f t u ->
  (forall t' u', done' t' u' -> done t' u' \/ (t' = t /\ u' = u)) ->
  filled done' (wr m view [t; u] v).
Proof.
  intros [H1 H2] Hin Hv Hsub. split.
  - intros t' u' Hd. unfold rd, wr.
    destruct (Hsub _ _ Hd) as [Hold | [-> ->]].
    + destruct (H1 _ _ Hold) as [Hin' Hval]. split; [assumption|].
      destruct (store_cases m (address view [t; u]) v (address view [t'; u']))
        as [[Heq Hs] | [Hne Hs]]; rewrite Hs.
      * apply address2_inj in Heq; [| unfold in_lattice in *; lia ..].
        destruct Heq as [-> ->]. assumption.
      * exact Hval.
    + split; [assumption|]. rewrite store_same. assumption.
  - intros a Ha. unfold wr. rewrite store_other by (apply Ha; assumption).
    apply H2, Ha.
Qed.

Lemma filled_get (done : Z -> Z -> Prop) m t u :
  filled done m -> done t u -> rd m view [t; u] = f t u.
Proof. intros [H1 _] Hd. now apply H1. Qed.
End Fill.

(** The same bookkeeping when only a property of each cell is known. *)
Section CellsHold.
Variable A : Type.
Variables maxT maxU base : Z.
Variables T U : Z.
Hypothesis U_le : U <= maxU.
Variable good : Z -> Z -> A -> Prop.

Let view := TensorView_new [maxT; maxU] base.

Definition cells_hold (done : Z -> Z -> Prop) (m : mem A) : Prop :=
  forall t u, done t u -> in_lattice T U t u /\ good t u (rd m view [t; u]).

Lemma cells_hold_weaken (done done' : Z -> Z -> Prop) m :
  cells_hold done m -> (forall t u, done' t u -> done t u) -> cells_hold done' m.
Proof. intros H Hsub t u Hd. apply H, Hsub, Hd. Qed.

Lemma cells_hold_step (done done' : Z -> Z -> Prop) m t u v :
  cells_hold done m ->
  in_lattice T U t u ->
  (done' t u -> good t u v) ->
  (forall t' u', done' t' u' -> done t' u' \/ (t' = t /\ u' = u)) ->
  cells_hold done' (wr m view [t; u] v).
Proof.
  intros H Hin Hv Hsub t' u' Hd. unfold rd, wr.
  destruct (Z.eq_dec t' t) as [-> | Ht]; [destruct (Z.eq_dec u' u) as [-> | Hu] |].
  - split; [assumption|]. rewrite store_same. auto.
  - destruct (Hsub _ _ Hd) as [Hold | [_ ?]]; [| contradiction].
    destruct (H _ _ Hold) as [Hin' Hval]. split; [assumption|].
    rewrite store_other; [assumption|].
    intros Heq. apply address2_inj in Heq; unfold in_lattice in *; lia.
  - destruct (Hsub _ _ Hd) as [Hold | [? _]]; [| contradiction].
    destruct (H _ _ Hold) as [Hin' Hval]. split; [assumption|].
    rewrite store_other; [assumption|].
    intros Heq. apply address2_inj in Heq; unfold in_lattice in *; lia.
Qed.
End CellsHold.

(** ** The unrestricted forward and backward passes *)

Ltac cells := unfold in_lattice in *; intros; cbv beta in *; lia.

Section UnrestrictedPasses.
Context {NUM : Numeric}.
Local Open Scope num_scope.

Variable options : Options.
Variable pm : mem LogProbs.
Variable logProbs : TensorView.
Variables maxT maxU base : Z.
Variables T U : Z.
Hypothesis T_pos : 1 <= T.
Hypothesis U_pos : 1 <= U.
Hypothesis U_le : U <= maxU.
Variable m0 : mem CAST_DTYPE.

Let view := TensorView_new [maxT; maxU] base.
Let lp := fun t u => rd pm logProbs [t; u].

Lemma ComputeAlphaOneSequence_filled :
  filled maxT maxU base T U m0 (alphaZ lp) (in_lattice T U)
         (snd (ComputeAlphaOneSequence options pm logProbs T U view m0)).
Proof.
  unfold ComputeAlphaOneSequence. cbv zeta. cbn [snd].
  set (F := filled maxT maxU base T U m0 (alphaZ lp)).
  (* alpha(0, 0) *)
  assert (H0 : F (fun t u => t = 0 /\ u = 0) (wr m0 view [0; 0] c_zero)).
  { eapply filled_step; [assumption | apply filled_start | | | ].
    - cells.
    - reflexivity.
    - cells. }
  (* the column u = 0 *)
  match goal with |- F _ (for_up 1 T ?body3 (for_up 1 U ?body2 (for_up 1 T ?body1 ?s))) =>
    assert (H1 : F (fun t u => u = 0 /\ 0 <= t < T) (for_up 1 T body1 s))
  end.
  { apply for_up_inv with (P := fun j m => F (fun t u => u = 0 /\ 0 <= t < j) m).
    - assumption.
    - eapply filled_weaken; [exact H0 | cells].
    - intros j m Hj Hm. eapply filled_step; [assumption | exact Hm | | | ].
      + cells.
      + rewrite (alphaZ_t_0 lp) by lia. unfold view.
        erewrite filled_get; [reflexivity | exact Hm | cells].
      + cells. }
  (* the row t = 0 *)
  match goal with |- F _ (for_up 1 T ?body3 (for_up 1 U ?body2 ?s)) =>
    assert (H2 : F (fun t u => in_lattice T U t u /\ (u = 0 \/ t = 0)) (for_up 1 U body2 s))
  end.
  { eapply filled_weaken.
    - apply for_up_inv
        with (P := fun j m => F (fun t u => (u = 0 /\ 0 <= t < T) \/ (t = 0 /\ 0 <= u < j)) m).
      + assumption.
      + eapply filled_weaken; [exact H1 | cells].
      + intros j m Hj Hm. eapply filled_step; [assumption | exact Hm | | | ].
        * cells.
        * rewrite (alphaZ_0_u lp) by lia. unfold view.
          erewrite filled_get; [reflexivity | exact Hm | cells].
        * cells.
    - cells. }
  (* the interior *)
  eapply filled_weaken.
  - apply for_up_inv
      with (P := fun j m => F (fun t u => in_lattice T U t u /\ (u = 0 \/ t < j)) m).
    + assumption.
    + eapply filled_weaken; [exact H2 | cells].
    + intros j m Hj Hm.
      eapply filled_weaken.
      * apply for_up_inv
          with (P := fun k m' =>
                  F (fun t u => in_lattice T U t u /\ (u = 0 \/ t < j \/ (t = j /\ u < k))) m').
        -- assumption.
        -- eapply filled_weaken; [exact Hm | cells].
        -- intros k m' Hk Hm'. eapply filled_step; [assumption | exact Hm' | | | ].
           ++ cells.
           ++ rewrite (alphaZ_t_u lp) by lia. unfold view.
              erewrite !filled_get; [reflexivity | exact Hm' | cells | exact Hm' | cells ].
           ++ cells.
      * cells.
  - cells.
Qed.

Lemma ComputeAlphaOneSequence_score :
  fst (ComputeAlphaOneSequence options pm logProbs T U view m0)
  = alphaZ lp (T - 1) (U - 1) +. skip_ (lp (T - 1) (U - 1)).
Proof.
  pose proof ComputeAlphaOneSequence_filled as HF.
  unfold ComputeAlphaOneSequence in *. cbv zeta in *. cbn [fst snd] in *.
  unfold view in *. erewrite filled_get; [reflexivity | exact HF | cells].
Qed.

Lemma ComputeBetaOneSequence_filled :
  filled maxT maxU base T U m0 (betaZ lp T U) (in_lattice T U)
         (snd (ComputeBetaOneSequence options pm logProbs T U view m0)).
Proof.
  unfold ComputeBetaOneSequence. cbv zeta. cbn [snd].
  set (F := filled maxT maxU base T U m0 (betaZ lp T U)).
  (* beta(T - 1, U - 1) *)
  assert (H0 : F (fun t u => t = T - 1 /\ u = U - 1)
                 (wr m0 view [T - 1; U - 1] (skip_ (rd pm logProbs [T - 1; U - 1])))).
  { eapply filled_step; [assumption | apply filled_start | | | ].
    - cells.
    - rewrite (betaZ_end lp). reflexivity.
    - cells. }
  (* the column u = U - 1 *)
  match goal with
    |- F _ (for_down (T - 2) 0 ?body3 (for_down (U - 2) 0 ?body2 (for_down (T - 2) 0 ?body1 ?s))) =>
    assert (H1 : F (fun t u => u = U - 1 /\ 0 <= t < T) (for_down (T - 2) 0 body1 s))
  end.
  { eapply filled_weaken.
    - apply for_down_inv with (P := fun j m => F (fun t u => u = U - 1 /\ j < t < T) m).
      + lia.
      + eapply filled_weaken; [exact H0 | cells].
      + intros j m Hj Hm. eapply filled_step; [assumption | exact Hm | | | ].
        * cells.
        * rewrite (betaZ_last_col lp) by lia. unfold view.
          erewrite filled_get; [reflexivity | exact Hm | cells].
        * cells.
    - cells. }
  (* the row t = T - 1 *)
  match goal with |- F _ (for_down (T - 2) 0 ?body3 (for_down (U - 2) 0 ?body2 ?s)) =>
    assert (H2 : F (fun t u => in_lattice T U t u /\ (u = U - 1 \/ t = T - 1))
                   (for_down (U - 2) 0 body2 s))
  end.
  { eapply filled_weaken.
    - apply for_down_inv
        with (P := fun j m =>
                F (fun t u => (u = U - 1 /\ 0 <= t < T) \/ (t = T - 1 /\ j < u < U)) m).
      + lia.
      + eapply filled_weaken; [exact H1 | cells].
      + intros j m Hj Hm. eapply filled_step; [assumption | exact Hm | | | ].
        * cells.
        * rewrite (betaZ_last_row lp) by lia. unfold view.
          erewrite filled_get; [reflexivity | exact Hm | cells].
        * cells.
    - cells. }
  (* the interior *)
  eapply filled_weaken.
  - apply for_down_inv
      with (P := fun j m => F (fun t u => in_lattice T U t u /\ (u = U - 1 \/ j < t)) m).
    + lia.
    + eapply filled_weaken; [exact H2 | cells].
    + intros j m Hj Hm.
      eapply filled_weaken.
      * apply for_down_inv
          with (P := fun k m' =>
                  F (fun t u => in_lattice T U t u /\
                                (u = U - 1 \/ j < t \/ (t = j /\ k < u))) m').
        -- lia.
        -- eapply filled_weaken; [exact Hm | cells].
        -- intros k m' Hk Hm'. eapply filled_step; [assumption | exact Hm' | | | ].
           ++ cells.
           ++ rewrite (betaZ_interior lp) by lia. unfold view.
              erewrite !filled_get; [reflexivity | exact Hm' | cells | exact Hm' | cells ].
           ++ cells.
      * cells.
  - cells.
Qed.

Lemma ComputeBetaOneSequence_score :
  fst (ComputeBetaOneSequence options pm logProbs T U view m0) = betaZ lp T U 0 0.
Proof.
  pose proof ComputeBetaOneSequence_filled as HF.
  unfold ComputeBetaOneSequence in *. cbv zeta in *. cbn [fst snd] in *.
  unfold view in *. erewrite filled_get; [reflexivity | exact HF | cells].
Qed.
End UnrestrictedPasses.

(** ** The gradient kernel *)

Section LoopFrames.
Variable A : Type.

(** A loop whose iterations only touch the addresses in [W i] leaves the
    others alone. *)
Lemma for_up_frame (W : Z -> Z -> Prop) (body : Z -> mem A -> mem A) lo hi m a :
  (forall i m', lo <= i < hi -> ~ W i a -> body i m' a = m' a) ->
  (forall i, lo <= i < hi -> ~ W i a) ->
  for_up lo hi body m a = m a.
Proof.
  intros Hbody Hout.
  destruct (Z_lt_le_dec hi lo) as [Hlt | Hle].
  { rewrite for_up_empty by lia. reflexivity. }
  apply for_up_inv with (P := fun (_ : Z) m' => m' a = m a).
  - assumption.
  - reflexivity.
  - intros j m' Hj Hm. rewrite Hbody; auto.
Qed.

(** A loop whose iteration [i] stores [z] at every address of [W i], and
    nothing else, stores [z] at every address of every [W i]. *)
Lemma for_up_const (z : A) (W : Z -> Z -> Prop) (body : Z -> mem A -> mem A) lo hi m a :
  (forall i m', lo <= i < hi -> W i a -> body i m' a = z) ->
  (forall i m', lo <= i < hi -> ~ W i a -> body i m' a = m' a) ->
  (exists i, lo <= i < hi /\ W i a) ->
  for_up lo hi body m a = z.
Proof.
  intros Hin Hout (i0 & Hi0 & HW).
  assert (Hle : lo <= hi) by lia.
  assert (Hinv : forall j, lo <= j <= hi ->
            (i0 < j -> for_up lo j body m a = z)).
  { intros j Hj.
    apply for_up_inv with (P := fun j m' => i0 < j -> m' a = z).
    - lia.
    - lia.
    - intros k m' Hk Hm Hlt.
      destruct (Z.eq_dec k i0) as [-> | Hne].
      + apply Hin; [lia | assumption].
      + destruct (Classical_Prop.classic (W k a)) as [HWk | HWk].
        * apply Hin; [lia | assumption].
        * rewrite Hout by (try lia; assumption). apply Hm. lia. }
  apply Hinv; lia.
Qed.
End LoopFrames.

Section GradientFacts.
Context {NUM : Numeric}.
Local Open Scope num_scope.

Variable options : Options.
Variable tm : mem Z.
Variable targets : Z.
Variables T U : Z.
Variable dm : mem CAST_DTYPE.
Variable denom : TensorView.
Variable am : mem CAST_DTYPE.
Variable alpha : TensorView.
Variable bm : mem CAST_DTYPE.
Variable beta : TensorView.
Variables lg gr : Z.
Variable hm0 : mem DTYPE.

Let maxT := maxSrcLen_ options.
Let maxU := maxTgtLen_ options.
Let D := numTargets_ options.
Let logits := TensorView_new [maxT; maxU; D] lg.
Let gradients := TensorView_new [maxT; maxU; D] gr.

Hypothesis U_le : U <= maxU.

Lemma gradient_cell_effect t u d hm a :
  gradient_cell options logits tm targets T U bm beta gradients (gradient_offset dm denom am alpha bm beta t u) t u d hm a
  = if a =? address gradients [t; u; d]
    then gradient_stored options tm targets T U dm denom am alpha bm beta t u d (rd hm logits [t; u; d])
    else hm a.
Proof.
  unfold gradient_cell, gradient_stored. cbv zeta.
  destruct (c_gtb (clamp_ options) c_zero); unfold wr, rd.
  - destruct (Z.eqb_spec a (address gradients [t; u; d])) as [-> | Hne].
    + rewrite !store_same. reflexivity.
    + rewrite !store_other by assumption. reflexivity.
  - destruct (Z.eqb_spec a (address gradients [t; u; d])) as [-> | Hne].
    + rewrite store_same. reflexivity.
    + rewrite store_other by assumption. reflexivity.
Qed.

(** The state of the main loop nest. *)
Definition gradient_loops (hm : mem DTYPE) : mem DTYPE :=
  for_up 0 T (fun t hm =>
    for_up 0 U (fun u hm =>
      for_up 0 D (fun d hm =>
        gradient_cell options logits tm targets T U bm beta gradients
                      (gradient_offset dm denom am alpha bm beta t u) t u d hm) hm) hm) hm.

(** Only gradient cells of the lattice are written. *)
Lemma gradient_loops_frame hm a :
  (forall t u d, in_lattice3 T U D t u d -> a <> address gradients [t; u; d]) ->
  gradient_loops hm a = hm a.
Proof.
  intros Hout. unfold gradient_loops.
  apply for_up_frame
    with (W := fun t a => exists u d, in_lattice3 T U D t u d /\ a = address gradients [t; u; d]).
  2:{ intros t Ht (u & d & Hin & Heq). exact (Hout _ _ _ Hin Heq). }
  intros t m1 Ht Ht'.
  apply for_up_frame
    with (W := fun u a => exists d, in_lattice3 T U D t u d /\ a = address gradients [t; u; d]).
  2:{ intros u Hu (d & Hin & Heq). exact (Hout _ _ _ Hin Heq). }
  intros u m2 Hu Hu'.
  apply for_up_frame
    with (W := fun d a => in_lattice3 T U D t u d /\ a = address gradients [t; u; d]).
  2:{ intros d Hd (Hin & Heq). exact (Hout _ _ _ Hin Heq). }
  intros d m3 Hd Hd'. rewrite gradient_cell_effect.
  destruct (Z.eqb_spec a (address gradients [t; u; d])) as [Heq | Hne]; [| reflexivity].
  exfalso. apply Hd'. split; [unfold in_lattice3; lia | assumption].
Qed.

(** No gradient cell lies on a logit that is still to be read. *)
Definition no_clobber : Prop :=
  forall t u d t' u' d',
    in_lattice3 T U D t u d -> in_lattice3 T U D t' u' d' ->
    address gradients [t; u; d] = address logits [t'; u'; d'] ->
    t = t' /\ u = u' /\ d = d'.

Hypothesis separated : no_clobber.

(** Gradient cells written so far hold their final value, logits of the
    other cells are intact. *)
Definition gradient_inv (done : Z -> Z -> Z -> Prop) (hm : mem DTYPE) : Prop :=
  (forall t u d, in_lattice3 T U D t u d -> done t u d ->
     rd hm gradients [t; u; d] = gradient_stored options tm targets T U dm denom am alpha bm beta t u d (rd hm0 logits [t; u; d])) /\
  (forall t u d, in_lattice3 T U D t u d -> ~ done t u d ->
     rd hm logits [t; u; d] = rd hm0 logits [t; u; d]).

Lemma gradient_inv_ext (done done' : Z -> Z -> Z -> Prop) hm :
  gradient_inv done hm ->
  (forall t u d, in_lattice3 T U D t u d -> (done' t u d <-> done t u d)) ->
  gradient_inv done' hm.
Proof.
  intros [H1 H2] Heq. split; intros t u d Hin Hd.
  - apply H1; [assumption | now apply Heq].
  - apply H2; [assumption |]. intros Hd'. apply Hd. now apply Heq.
Qed.

Lemma gradient_inv_step (done done' : Z -> Z -> Z -> Prop) hm t u d :
  gradient_inv done hm ->
  in_lattice3 T U D t u d ->
  ~ done t u d ->
  (forall t' u' d', in_lattice3 T U D t' u' d' ->
     (done' t' u' d' <-> done t' u' d' \/ (t' = t /\ u' = u /\ d' = d))) ->
  gradient_inv done'
    (gradient_cell options logits tm targets T U bm beta gradients
                   (gradient_offset dm denom am alpha bm beta t u) t u d hm).
Proof.
  intros [H1 H2] Hin Hnot Hdone'.
  assert (HuU : forall t' u' d', in_lattice3 T U D t' u' d' -> 0 <= u' < maxU /\ 0 <= d' < D)
    by (unfold in_lattice3; intros; lia).
  split; intros t' u' d' Hin' Hd; unfold rd; rewrite gradient_cell_effect.
  - destruct (Z.eqb_spec (address gradients [t'; u'; d']) (address gradients [t; u; d]))
      as [Heq | Hne].
    + apply address3_inj in Heq; try (apply HuU in Hin; apply HuU in Hin'; lia).
      destruct Heq as (-> & -> & ->). rewrite H2 by assumption. reflexivity.
    + apply H1; [assumption|].
      apply Hdone' in Hd; [| assumption].
      destruct Hd as [Hd | (-> & -> & ->)]; [assumption | congruence].
  - destruct (Z.eqb_spec (address logits [t'; u'; d']) (address gradients [t; u; d]))
      as [Heq | Hne].
    + symmetry in Heq. apply separated in Heq; [| assumption | assumption].
      destruct Heq as (-> & -> & ->).
      exfalso. apply Hd. apply Hdone'; [assumption | right; auto].
    + apply H2; [assumption|]. intros Hd'. apply Hd. apply Hdone'; [assumption | left; assumption].
Qed.

Lemma gradient_loops_inv :
  0 <= T -> 0 <= U -> 0 <= D ->
  gradient_inv (fun _ _ _ => True) (gradient_loops hm0).
Proof.
  intros HT HU HD. unfold gradient_loops.
  eapply gradient_inv_ext.
  - apply for_up_inv with (P := fun j hm => gradient_inv (fun t u d => t < j) hm).
    + assumption.
    + split; [intros t u d Hin Hd; unfold in_lattice3 in *; cbv beta in *; lia | reflexivity].
    + intros j hm Hj Hhm.
      eapply gradient_inv_ext.
      * apply for_up_inv
          with (P := fun k hm' => gradient_inv (fun t u d => t < j \/ (t = j /\ u < k)) hm').
        -- assumption.
        -- eapply gradient_inv_ext; [exact Hhm |].
           intros t u d Hin. unfold in_lattice3 in *. cbv beta. lia.
        -- intros k hm' Hk Hhm'.
           eapply gradient_inv_ext.
           ++ apply for_up_inv
                with (P := fun l hm'' =>
                        gradient_inv (fun t u d => t < j \/ (t = j /\ u < k)
                                                   \/ (t = j /\ u = k /\ d < l)) hm'').
              ** assumption.
              ** eapply gradient_inv_ext; [exact Hhm' |].
                 intros t u d Hin. unfold in_lattice3 in *. cbv beta. lia.
              ** intros l hm'' Hl Hhm''.
                 eapply gradient_inv_step; [exact Hhm'' | | | ].
                 --- unfold in_lattice3. lia.
                 --- cbv beta. lia.
                 --- intros t' u' d' Hin. unfold in_lattice3 in *. cbv beta. lia.
           ++ intros t u d Hin. unfold in_lattice3 in *. cbv beta. lia.
      * intros t u d Hin. unfold in_lattice3 in *. cbv beta. lia.
  - intros t u d Hin. unfold in_lattice3 in *. cbv beta. lia.
Qed.

(** The two loop nests that zero a block of gradient cells. *)
Definition zero_block (t0 t1 u0 u1 : Z) (hm : mem DTYPE) : mem DTYPE :=
  for_up t0 t1 (fun t hm =>
    for_up u0 u1 (fun u hm =>
      for_up 0 D (fun d hm => wr hm gradients [t; u; d] d_zero) hm) hm) hm.

Definition in_block (t0 t1 u0 u1 : Z) (a : Z) : Prop :=
  exists t u d, t0 <= t < t1 /\ u0 <= u < u1 /\ 0 <= d < D /\ a = address gradients [t; u; d].

Lemma zero_block_inside t0 t1 u0 u1 hm a :
  in_block t0 t1 u0 u1 a -> zero_block t0 t1 u0 u1 hm a = d_zero.
Proof.
  intros (t & u & d & Ht & Hu & Hd & Ha). unfold zero_block.
  apply for_up_const
    with (W := fun t a => exists u d, u0 <= u < u1 /\ 0 <= d < D /\
                                      a = address gradients [t; u; d]).
  3:{ exists t. split; [assumption | eauto 6]. }
  - intros t' m1 Ht' (u' & d' & Hu' & Hd' & Ha').
    apply for_up_const
      with (W := fun u a => exists d, 0 <= d < D /\ a = address gradients [t'; u; d]).
    3:{ exists u'. split; [assumption | eauto]. }
    + intros u'' m2 Hu'' (d'' & Hd'' & Ha'').
      apply for_up_const with (W := fun d a => a = address gradients [t'; u''; d]).
      3:{ exists d''. split; assumption. }
      * intros d3 m3 Hd3 Ha3. unfold wr. rewrite Ha3. apply store_same.
      * intros d3 m3 Hd3 Ha3. unfold wr. apply store_other. assumption.
    + intros u'' m2 Hu'' Hn.
      apply for_up_frame with (W := fun d a => a = address gradients [t'; u''; d]).
      * intros d3 m3 Hd3 Ha3. unfold wr. apply store_other. assumption.
      * intros d3 Hd3 Ha3. apply Hn. eauto.
  - intros t' m1 Ht' Hn.
    apply for_up_frame
      with (W := fun u a => exists d, 0 <= d < D /\ a = address gradients [t'; u; d]).
    + intros u'' m2 Hu'' Hn'.
      apply for_up_frame with (W := fun d a => a = address gradients [t'; u''; d]).
      * intros d3 m3 Hd3 Ha3. unfold wr. apply store_other. assumption.
      * intros d3 Hd3 Ha3. apply Hn'. eauto.
    + intros u'' Hu'' (d'' & Hd'' & Ha''). apply Hn. eauto 6.
Qed.

Lemma zero_block_outside t0 t1 u0 u1 hm a :
  ~ in_block t0 t1 u0 u1 a -> zero_block t0 t1 u0 u1 hm a = hm a.
Proof.
  intros Hn. unfold zero_block.
  apply for_up_frame
    with (W := fun t a => exists u d, u0 <= u < u1 /\ 0 <= d < D /\
                                      a = address gradients [t; u; d]).
  - intros t' m1 Ht' Hn1.
    apply for_up_frame
      with (W := fun u a => exists d, 0 <= d < D /\ a = address gradients [t'; u; d]).
    + intros u'' m2 Hu'' Hn2.
      apply for_up_frame with (W := fun d a => a = address gradients [t'; u''; d]).
      * intros d3 m3 Hd3 Ha3. unfold wr. apply store_other. assumption.
      * intros d3 Hd3 Ha3. apply Hn2. eauto.
    + intros u'' Hu'' (d'' & Hd'' & Ha''). apply Hn1. eauto 6.
  - intros t' Ht' (u' & d' & Hu' & Hd' & Ha'). apply Hn. exists t', u', d'. auto.
Qed.

(** The kernel, as the main loop nest followed by the two zeroing nests. *)
Lemma ComputeGradientsOneSequence_unfold hm :
  ComputeGradientsOneSequence options logits tm targets T U dm denom am alpha bm beta
                              gradients hm
  = if address gradients [0; 0; 0] =? address logits [0; 0; 0]
    then zero_block 0 T U maxU (zero_block T maxT 0 maxU (gradient_loops hm))
    else gradient_loops hm.
Proof. reflexivity. Qed.

Lemma alias_iff : address gradients [0; 0; 0] = address logits [0; 0; 0] <-> gr = lg.
Proof. unfold gradients, logits. rewrite !address3. lia. Qed.

Lemma in_lattice3_not_in_block t0 t1 u0 u1 t u d :
  in_lattice3 T U D t u d ->
  0 <= u0 -> u1 <= maxU ->
  (forall t' u', t0 <= t' < t1 -> u0 <= u' < u1 -> ~ (0 <= t' < T /\ 0 <= u' < U)) ->
  ~ in_block t0 t1 u0 u1 (address gradients [t; u; d]).
Proof.
  intros (Ht & Hu & Hd) Hu0 Hu1 Hdisj (t' & u' & d' & Ht' & Hu' & Hd' & Heq).
  apply address3_inj in Heq; try lia.
  destruct Heq as (-> & -> & ->). apply (Hdisj t' u'); auto.
Qed.

(** In-range cells: the value of the formula, computed from the logit the
    cell held at the start. *)
Lemma ComputeGradientsOneSequence_in_range t u d :
  0 <= U -> in_lattice3 T U D t u d ->
  rd (ComputeGradientsOneSequence options logits tm targets T U dm denom am alpha bm beta
                                  gradients hm0) gradients [t; u; d]
  = gradient_stored options tm targets T U dm denom am alpha bm beta t u d (rd hm0 logits [t; u; d]).
Proof.
  intros HU Hin. rewrite ComputeGradientsOneSequence_unfold.
  assert (Hmain : rd (gradient_loops hm0) gradients [t; u; d]
                  = gradient_stored options tm targets T U dm denom am alpha bm beta t u d (rd hm0 logits [t; u; d])).
  { destruct gradient_loops_inv as [H1 _]; try (unfold in_lattice3 in Hin; lia).
    apply H1; [assumption | exact I]. }
  destruct (address gradients [0; 0; 0] =? address logits [0; 0; 0]); [| exact Hmain].
  unfold rd in *.
  rewrite zero_block_outside.
  2:{ apply in_lattice3_not_in_block; [assumption | lia | lia |]. intros; lia. }
  rewrite zero_block_outside.
  2:{ apply in_lattice3_not_in_block; [assumption | lia | lia |]. intros; lia. }
  exact Hmain.
Qed.

(** Padding cells after an in-place call. *)
Lemma ComputeGradientsOneSequence_padding_zero hm t u d :
  gr = lg -> 0 <= T -> 0 <= U ->
  0 <= t < maxT -> 0 <= u < maxU -> 0 <= d < D -> T <= t \/ U <= u ->
  rd (ComputeGradientsOneSequence options logits tm targets T U dm denom am alpha bm beta
                                  gradients hm) gradients [t; u; d]
  = d_zero.
Proof.
  intros Halias HT HU Ht Hu Hd Hpad. rewrite ComputeGradientsOneSequence_unfold.
  replace (address gradients [0; 0; 0] =? address logits [0; 0; 0]) with true
    by (symmetry; apply Z.eqb_eq, alias_iff; assumption).
  unfold rd.
  destruct (Z_lt_le_dec t T) as [Hlt | Hge].
  - apply zero_block_inside. exists t, u, d. repeat split; lia.
  - destruct (Classical_Prop.classic (in_block 0 T U maxU (address gradients [t; u; d])))
      as [Hin | Hout].
    + apply zero_block_inside. assumption.
    + rewrite zero_block_outside by assumption.
      apply zero_block_inside. exists t, u, d. repeat split; lia.
Qed.

(** Without aliasing nothing but the gradient cells of the lattice changes. *)
Lemma ComputeGradientsOneSequence_frame hm a :
  gr <> lg ->
  (forall t u d, in_lattice3 T U D t u d -> a <> address gradients [t; u; d]) ->
  ComputeGradientsOneSequence options logits tm targets T U dm denom am alpha bm beta
                              gradients hm a
  = hm a.
Proof.
  intros Hne Hout. rewrite ComputeGradientsOneSequence_unfold.
  replace (address gradients [0; 0; 0] =? address logits [0; 0; 0]) with false.
  - apply gradient_loops_frame. assumption.
  - symmetry. apply Z.eqb_neq. intros Heq. apply Hne, alias_iff, Heq.
Qed.
End GradientFacts.
(** ** The boundary columns of the restricted passes *)

Section BreakLoops.
Variable S : Type.

(** Invariant rules for the loops with [break] that tell the two ways of
    leaving the loop apart. *)
Lemma iter_up_break_exit (Q : S -> Prop) (P : Z -> S -> Prop) (body : Z -> S -> option S) :
  forall n i s,
    P i s ->
    (forall j s' s'', i <= j < i + Z.of_nat n -> P j s' -> body j s' = Some s'' ->
                      P (j + 1) s'') ->
    (forall j s', i <= j < i + Z.of_nat n -> P j s' -> body j s' = None -> Q s') ->
    (forall s', P (i + Z.of_nat n) s' -> Q s') ->
    Q (iter_up_break n i body s).
Proof.
  induction n as [|n IH]; intros i s H0 Hstep Hbreak Hend.
  - cbn [iter_up_break]. apply Hend. now rewrite Z.add_0_r.
  - cbn [iter_up_break]. destruct (body i s) as [s1|] eqn:Hb.
    + apply IH with (i := i + 1).
      * apply Hstep with (j := i) (s' := s); [lia | assumption | assumption].
      * intros j s' s'' Hj. apply Hstep. lia.
      * intros j s' Hj. apply Hbreak. lia.
      * intros s' Hs'. apply Hend.
        replace (i + Z.of_nat (Datatypes.S n)) with (i + 1 + Z.of_nat n) by lia. exact Hs'.
    + apply Hbreak with (j := i); [lia | assumption | assumption].
Qed.

Lemma for_up_break_exit (Q : S -> Prop) (P : Z -> S -> Prop) lo hi
      (body : Z -> S -> option S) (s : S) :
  lo <= hi ->
  P lo s ->
  (forall j s' s'', lo <= j < hi -> P j s' -> body j s' = Some s'' -> P (j + 1) s'') ->
  (forall j s', lo <= j < hi -> P j s' -> body j s' = None -> Q s') ->
  (forall s', P hi s' -> Q s') ->
  Q (for_up_break lo hi body s).
Proof.
  intros Hle H0 Hstep Hbreak Hend. unfold for_up_break.
  apply iter_up_break_exit with (P := P).
  - assumption.
  - intros j s' s'' Hj. apply Hstep. lia.
  - intros j s' Hj. apply Hbreak. lia.
  - intros s' Hs'. apply Hend.
    replace hi with (lo + Z.of_nat (Z.to_nat (hi - lo))) by lia. exact Hs'.
Qed.

Lemma iter_down_break_exit (Q : S -> Prop) (P : Z -> S -> Prop) (body : Z -> S -> option S) :
  forall n i s,
    P i s ->
    (forall j s' s'', i - Z.of_nat n < j <= i -> P j s' -> body j s' = Some s'' ->
                      P (j - 1) s'') ->
    (forall j s', i - Z.of_nat n < j <= i -> P j s' -> body j s' = None -> Q s') ->
    (forall s', P (i - Z.of_nat n) s' -> Q s') ->
    Q (iter_down_break n i body s).
Proof.
  induction n as [|n IH]; intros i s H0 Hstep Hbreak Hend.
  - cbn [iter_down_break]. apply Hend. now rewrite Z.sub_0_r.
  - cbn [iter_down_break]. destruct (body i s) as [s1|] eqn:Hb.
    + apply IH with (i := i - 1).
      * apply Hstep with (j := i) (s' := s); [lia | assumption | assumption].
      * intros j s' s'' Hj. apply Hstep. lia.
      * intros j s' Hj. apply Hbreak. lia.
      * intros s' Hs'. apply Hend.
        replace (i - Z.of_nat (Datatypes.S n)) with (i - 1 - Z.of_nat n) by lia. exact Hs'.
    + apply Hbreak with (j := i); [lia | assumption | assumption].
Qed.

Lemma for_down_break_exit (Q : S -> Prop) (P : Z -> S -> Prop) hi lo
      (body : Z -> S -> option S) (s : S) :
  lo - 1 <= hi ->
  P hi s ->
  (forall j s' s'', lo <= j <= hi -> P j s' -> body j s' = Some s'' -> P (j - 1) s'') ->
  (forall j s', lo <= j <= hi -> P j s' -> body j s' = None -> Q s') ->
  (forall s', P (lo - 1) s' -> Q s') ->
  Q (for_down_break hi lo body s).
Proof.
  intros Hle H0 Hstep Hbreak Hend. unfold for_down_break.
  apply iter_down_break_exit with (P := P).
  - assumption.
  - intros j s' s'' Hj. apply Hstep. lia.
  - intros j s' Hj. apply Hbreak. lia.
  - intros s' Hs'. apply Hend.
    replace (lo - 1) with (hi - Z.of_nat (Z.to_nat (hi - lo + 1))) by lia. exact Hs'.
Qed.

Lemma for_down_frame_at (A : Type) (body : Z -> mem A -> mem A) hi lo (m : mem A) a :
  (forall i m', lo <= i <= hi -> body i m' a = m' a) ->
  for_down hi lo body m a = m a.
Proof.
  intros Hbody.
  destruct (Z_lt_le_dec hi (lo - 1)) as [Hempty | Hle].
  { now rewrite for_down_empty by lia. }
  apply for_down_inv with (P := fun _ (m' : mem A) => m' a = m a).
  - assumption.
  - reflexivity.
  - intros j m' Hj Hm'. rewrite Hbody by assumption. exact Hm'.
Qed.

Lemma for_up_frame_at (A : Type) (body : Z -> mem A -> mem A) lo hi (m : mem A) a :
  (forall i m', lo <= i < hi -> body i m' a = m' a) ->
  for_up lo hi body m a = m a.
Proof.
  intros Hbody.
  destruct (Z_lt_le_dec hi lo) as [Hempty | Hle].
  { now rewrite for_up_empty by lia. }
  apply for_up_inv with (P := fun _ (m' : mem A) => m' a = m a).
  - assumption.
  - reflexivity.
  - intros j m' Hj Hm'. rewrite Hbody by assumption. exact Hm'.
Qed.

Lemma for_up_break_frame_at (A : Type) (body : Z -> mem A -> option (mem A)) lo hi
      (m : mem A) a :
  (forall i m' m'', lo <= i < hi -> body i m' = Some m'' -> m'' a = m' a) ->
  for_up_break lo hi body m a = m a.
Proof.
  intros Hbody.
  apply for_up_break_inv with (P := fun _ (m' : mem A) => m' a = m a)
                              (Q := fun m' : mem A => m' a = m a).
  - auto.
  - reflexivity.
  - intros j m' m'' Hj Hm' Hb. rewrite (Hbody j m' m'' Hj Hb). exact Hm'.
Qed.

Lemma for_down_break_frame_at (A : Type) (body : Z -> mem A -> option (mem A)) hi lo
      (m : mem A) a :
  (forall i m' m'', lo <= i <= hi -> body i m' = Some m'' -> m'' a = m' a) ->
  for_down_break hi lo body m a = m a.
Proof.
  intros Hbody.
  apply for_down_break_inv with (P := fun _ (m' : mem A) => m' a = m a)
                                (Q := fun m' : mem A => m' a = m a).
  - auto.
  - reflexivity.
  - intros j m' m'' Hj Hm' Hb. rewrite (Hbody j m' m'' Hj Hb). exact Hm'.
Qed.
End BreakLoops.

Section Views2.
Variable A : Type.
Variables maxT maxU base : Z.
Let view := TensorView_new [maxT; maxU] base.

Lemma wr_other_cell (m : mem A) t u t' u' v :
  0 <= u < maxU -> 0 <= u' < maxU -> ~ (t = t' /\ u = u') ->
  wr m view [t'; u'] v (address view [t; u]) = m (address view [t; u]).
Proof.
  intros Hu Hu' Hne. unfold wr. apply store_other. intros Heq.
  apply address2_inj in Heq; [tauto | assumption | assumption].
Qed.

Lemma wr_same_cell (m : mem A) t u v :
  wr m view [t; u] v (address view [t; u]) = v.
Proof. unfold wr. apply store_same. Qed.

(** The loop nest that presets the lattice. *)
Lemma preset_lattice (z : A) T U (m : mem A) t u :
  U <= maxU -> in_lattice T U t u ->
  for_up 0 T (fun t m => for_up 0 U (fun u m => wr m view [t; u] z) m) m
         (address view [t; u]) = z.
Proof.
  intros HU [Ht Hu].
  apply for_up_const
    with (W := fun t' a => exists u', 0 <= u' < U /\ a = address view [t'; u']).
  3:{ exists t. split; [assumption | now exists u]. }
  - intros t' m1 Ht' (u' & Hu' & Ha').
    apply for_up_const with (W := fun u'' a => a = address view [t'; u'']).
    3:{ exists u'. split; assumption. }
    + intros u'' m2 Hu'' Ha''. rewrite Ha''. apply wr_same_cell.
    + intros u'' m2 Hu'' Hne. unfold wr. now apply store_other.
  - intros t' m1 Ht' Hnone.
    apply for_up_frame_at. intros u'' m2 Hu''. unfold wr. apply store_other.
    intros Heq. apply Hnone. now exists u''.
Qed.
End Views2.

Section RestrictedBoundary.
Context {NUM : Numeric} {INF : NumericInf}.
Local Open Scope num_scope.

Variable new_check : mem Z -> Z -> Z -> Z -> Z -> Z -> AlignmentRestrictionCheck.
Variable options : Options.
Variable pm : mem LogProbs.
Variable logProbs : TensorView.
Variables maxT maxU base : Z.
Variables T U : Z.
Variable wm : mem Z.
Variable wpEnds : Z.
Hypothesis T_pos : 1 <= T.
Hypothesis U_pos : 1 <= U.
Hypothesis U_le : U <= maxU.

Let view := TensorView_new [maxT; maxU] base.
Let check := new_check wm wpEnds T U (lBuffer_ options) (rBuffer_ options).
Let skip := fun t u => skip_ (rd pm logProbs [t; u]).

(** What the forward pass makes of the column [u = 0]. *)
Definition alpha_column_ok (m : mem CAST_DTYPE) : Prop :=
  rd m view [0; 0] = c_zero /\
  (forall t, 1 <= t < T ->
     (forall j, 1 <= j <= t -> alphaBlankTransition check j 0 = true) ->
     rd m view [t; 0] = rd m view [t - 1; 0] +. skip (t - 1) 0) /\
  (forall t j, 1 <= j <= t -> t < T -> alphaBlankTransition check j 0 = false ->
     rd m view [t; 0] = c_neg_inf).

Lemma alpha_column_ok_ext m m' :
  alpha_column_ok m ->
  (forall t, 0 <= t < T -> m' (address view [t; 0]) = m (address view [t; 0])) ->
  alpha_column_ok m'.
Proof.
  intros (H0 & Hopen & Hshut) Hsame. unfold alpha_column_ok, rd in *.
  split; [| split].
  - rewrite Hsame by lia. exact H0.
  - intros t Ht Hj. rewrite !Hsame by lia. now apply Hopen.
  - intros t j Hj Ht Hrej. rewrite Hsame by lia. now apply (Hshut t j).
Qed.

Lemma alpha_column_loop m :
  rd m view [0; 0] = c_zero ->
  (forall t, 1 <= t < T -> rd m view [t; 0] = c_neg_inf) ->
  alpha_column_ok
    (for_up_break 1 T (fun t am =>
       if negb (alphaBlankTransition check t 0) then None
       else Some (wr am view [t; 0]
                     (rd am view [t - 1; 0] +. skip_ (rd pm logProbs [t - 1; 0])))) m).
Proof.
  intros H0 Hinf.
  apply for_up_break_exit
    with (P := fun j m' =>
                 (forall j', 1 <= j' < j -> alphaBlankTransition check j' 0 = true) /\
                 rd m' view [0; 0] = c_zero /\
                 (forall t, 1 <= t < j ->
                    rd m' view [t; 0] = rd m' view [t - 1; 0] +. skip (t - 1) 0) /\
                 (forall t, j <= t < T -> rd m' view [t; 0] = c_neg_inf)).
  - assumption.
  - split; [intros; lia|]. split; [exact H0|]. split; [intros; lia | exact Hinf].
  - intros j m' m'' Hj (Hacc & Hz & Heq & Hrest) Hbody.
    destruct (alphaBlankTransition check j 0) eqn:Hcheck; cbn [negb] in Hbody; [| discriminate].
    injection Hbody as <-.
    assert (Hother : forall t, t <> j ->
              rd (wr m' view [j; 0] (rd m' view [j - 1; 0] +. skip_ (rd pm logProbs [j - 1; 0])))
                 view [t; 0] = rd m' view [t; 0]).
    { intros t Hne. unfold rd at 1. apply wr_other_cell; lia. }
    split; [| split; [| split]].
    + intros j' Hj'. destruct (Z.eq_dec j' j) as [-> | Hne]; [exact Hcheck | apply Hacc; lia].
    + rewrite Hother by lia. exact Hz.
    + intros t Ht. destruct (Z.eq_dec t j) as [-> | Hne].
      * rewrite (Hother (j - 1)) by lia. unfold rd at 1. unfold view. rewrite wr_same_cell. reflexivity.
      * rewrite !Hother by lia. apply Heq. lia.
    + intros t Ht. rewrite Hother by lia. apply Hrest. lia.
  - intros j m' Hj (Hacc & Hz & Heq & Hrest) Hbody.
    destruct (alphaBlankTransition check j 0) eqn:Hcheck; cbn [negb] in Hbody; [discriminate|].
    split; [exact Hz | split].
    + intros t Ht Hopen.
      destruct (Z_lt_le_dec t j) as [Hlt | Hge]; [apply Heq; lia|].
      rewrite Hopen in Hcheck by lia. discriminate.
    + intros t j0 Hj0 Ht Hrej. apply Hrest.
      destruct (Z_lt_le_dec j0 j) as [Hlt | Hge]; [| lia].
      rewrite Hacc in Hrej by lia. discriminate.
  - intros m' (Hacc & Hz & Heq & Hrest).
    split; [exact Hz | split].
    + intros t Ht _. apply Heq. lia.
    + intros t j0 Hj0 Ht Hrej. rewrite Hacc in Hrej by lia. discriminate.
Qed.

Lemma alpha_restricted_cell_column t u (m : mem CAST_DTYPE) t0 :
  1 <= u < U ->
  alpha_restricted_cell check pm logProbs view t u m (address view [t0; 0])
  = m (address view [t0; 0]).
Proof.
  intros Hu. unfold alpha_restricted_cell. cbv zeta.
  destruct (_ || _); [| reflexivity].
  apply wr_other_cell; lia.
Qed.

Lemma ComputeAlphaOneSequenceRestricted_column m :
  alpha_column_ok
    (snd (ComputeAlphaOneSequenceRestricted new_check options pm logProbs T U view
            wm wpEnds m)).
Proof.
  unfold ComputeAlphaOneSequenceRestricted. cbv zeta. cbn [snd]. fold check.
  match goal with
    |- alpha_column_ok (for_up 1 U ?interior (for_up_break 1 U ?row ?column)) =>
    apply alpha_column_ok_ext with (m := column)
  end.
  - apply alpha_column_loop.
    + unfold rd. apply wr_same_cell.
    + intros t Ht. unfold rd, view. rewrite wr_other_cell by lia.
      apply preset_lattice; [assumption | split; lia].
  - intros t Ht.
    rewrite for_up_frame_at.
    + apply for_up_break_frame_at. intros u m' m'' Hu Hbody.
      destruct (negb _); [discriminate|]. injection Hbody as <-.
      apply wr_other_cell; lia.
    + intros u m' Hu. destruct (validTimeRanges check u) as [start_t end_t].
      apply for_up_frame_at. intros t' m'' Ht'.
      now apply alpha_restricted_cell_column.
Qed.

(** What the backward pass makes of the column [u = U - 1]. *)
Definition beta_column_ok (m : mem CAST_DTYPE) : Prop :=
  rd m view [T - 1; U - 1] = skip (T - 1) (U - 1) /\
  (forall t, 0 <= t < T - 1 ->
     (forall j, t <= j <= T - 2 -> betaBlankTransition check j (U - 1) = true) ->
     rd m view [t; U - 1] = rd m view [t + 1; U - 1] +. skip t (U - 1)) /\
  (forall t j, 0 <= t <= j -> j <= T - 2 -> betaBlankTransition check j (U - 1) = false ->
     rd m view [t; U - 1] = c_neg_inf).

Lemma beta_column_ok_ext m m' :
  beta_column_ok m ->
  (forall t, 0 <= t < T -> m' (address view [t; U - 1]) = m (address view [t; U - 1])) ->
  beta_column_ok m'.
Proof.
  intros (H0 & Hopen & Hshut) Hsame. unfold beta_column_ok, rd in *.
  split; [| split].
  - rewrite Hsame by lia. exact H0.
  - intros t Ht Hj. rewrite !Hsame by lia. now apply Hopen.
  - intros t j Hj Ht Hrej. rewrite Hsame by lia. now apply (Hshut t j).
Qed.

Lemma beta_column_loop m :
  rd m view [T - 1; U - 1] = skip (T - 1) (U - 1) ->
  (forall t, 0 <= t < T - 1 -> rd m view [t; U - 1] = c_neg_inf) ->
  beta_column_ok
    (for_down_break (T - 2) 0 (fun t bm =>
       if negb (betaBlankTransition check t (U - 1)) then None
       else Some (wr bm view [t; U - 1]
                     (rd bm view [t + 1; U - 1] +. skip_ (rd pm logProbs [t; U - 1])))) m).
Proof.
  intros H0 Hinf.
  apply for_down_break_exit
    with (P := fun j m' =>
                 (forall j', j < j' <= T - 2 -> betaBlankTransition check j' (U - 1) = true) /\
                 rd m' view [T - 1; U - 1] = skip (T - 1) (U - 1) /\
                 (forall t, j < t < T - 1 ->
                    rd m' view [t; U - 1] = rd m' view [t + 1; U - 1] +. skip t (U - 1)) /\
                 (forall t, 0 <= t <= j -> rd m' view [t; U - 1] = c_neg_inf)).
  - lia.
  - split; [intros; lia|]. split; [exact H0|]. split; [intros; lia |].
    intros t Ht. apply Hinf. lia.
  - intros j m' m'' Hj (Hacc & Hz & Heq & Hrest) Hbody.
    destruct (betaBlankTransition check j (U - 1)) eqn:Hcheck; cbn [negb] in Hbody;
      [| discriminate].
    injection Hbody as <-.
    assert (Hother : forall t, t <> j ->
              rd (wr m' view [j; U - 1]
                     (rd m' view [j + 1; U - 1] +. skip_ (rd pm logProbs [j; U - 1])))
                 view [t; U - 1] = rd m' view [t; U - 1]).
    { intros t Hne. unfold rd at 1. apply wr_other_cell; lia. }
    split; [| split; [| split]].
    + intros j' Hj'. destruct (Z.eq_dec j' j) as [-> | Hne]; [exact Hcheck | apply Hacc; lia].
    + rewrite Hother by lia. exact Hz.
    + intros t Ht. destruct (Z.eq_dec t j) as [-> | Hne].
      * rewrite (Hother (j + 1)) by lia. unfold rd at 1. unfold view. rewrite wr_same_cell. reflexivity.
      * rewrite !Hother by lia. apply Heq. lia.
    + intros t Ht. rewrite Hother by lia. apply Hrest. lia.
  - intros j m' Hj (Hacc & Hz & Heq & Hrest) Hbody.
    destruct (betaBlankTransition check j (U - 1)) eqn:Hcheck; cbn [negb] in Hbody;
      [discriminate|].
    split; [exact Hz | split].
    + intros t Ht Hopen.
      destruct (Z_lt_le_dec j t) as [Hlt | Hge]; [apply Heq; lia|].
      rewrite Hopen in Hcheck by lia. discriminate.
    + intros t j0 Hj0 Ht Hrej. apply Hrest.
      destruct (Z_lt_le_dec j j0) as [Hlt | Hge]; [| lia].
      rewrite Hacc in Hrej by lia. discriminate.
  - intros m' (Hacc & Hz & Heq & Hrest).
    split; [exact Hz | split].
    + intros t Ht _. apply Heq. lia.
    + intros t j0 Hj0 Ht Hrej. rewrite Hacc in Hrej by lia. discriminate.
Qed.

Lemma beta_restricted_cell_column t u (m : mem CAST_DTYPE) t0 :
  0 <= u <= U - 2 ->
  beta_restricted_cell check pm logProbs view t u m (address view [t0; U - 1])
  = m (address view [t0; U - 1]).
Proof.
  intros Hu. unfold beta_restricted_cell. cbv zeta.
  destruct (_ || _); [| reflexivity].
  apply wr_other_cell; lia.
Qed.

Lemma ComputeBetaOneSequenceRestricted_column m :
  beta_column_ok
    (snd (ComputeBetaOneSequenceRestricted new_check options pm logProbs T U view
            wm wpEnds m)).
Proof.
  unfold ComputeBetaOneSequenceRestricted. cbv zeta. cbn [snd]. fold check.
  match goal with
    |- beta_column_ok (for_down (U - 2) 0 ?interior (for_down_break (U - 2) 0 ?row ?column)) =>
    apply beta_column_ok_ext with (m := column)
  end.
  - apply beta_column_loop.
    + unfold rd. apply wr_same_cell.
    + intros t Ht. unfold rd, view. rewrite wr_other_cell by lia.
      apply preset_lattice; [assumption | split; lia].
  - intros t Ht.
    rewrite for_down_frame_at.
    + apply for_down_break_frame_at. intros u m' m'' Hu Hbody.
      destruct (negb _); [discriminate|]. injection Hbody as <-.
      apply wr_other_cell; lia.
    + intros u m' Hu. destruct (validTimeRanges check u) as [start_t end_t].
      apply for_down_frame_at. intros t' m'' Ht'.
      now apply beta_restricted_cell_column.
Qed.
End RestrictedBoundary.

(** ** The restricted passes and the cells they can reach *)

Lemma all_between_true (p : Z -> bool) lo hi :
  all_between p lo hi = true <-> (forall j, lo <= j <= hi -> p j = true).
Proof.
  unfold all_between. rewrite forallb_forall. split.
  - intros H j Hj. apply H. apply in_map_iff.
    exists (Z.to_nat (j - lo)). split; [lia|]. apply in_seq. lia.
  - intros H x Hx. apply in_map_iff in Hx. destruct Hx as (k & <- & Hk).
    apply in_seq in Hk. apply H. lia.
Qed.

Lemma all_between_false (p : Z -> bool) lo hi :
  all_between p lo hi = false -> exists j, lo <= j <= hi /\ p j = false.
Proof.
  unfold all_between. intros H.
  assert (Hex : exists x, In x (map (fun k => lo + Z.of_nat k) (seq 0 (Z.to_nat (hi - lo + 1))))
                          /\ p x = false).
  { induction (map (fun k => lo + Z.of_nat k) (seq 0 (Z.to_nat (hi - lo + 1)))) as [|x l IH];
      [discriminate|].
    cbn [forallb] in H. destruct (p x) eqn:Hx.
    - destruct (IH H) as (y & Hy & Hpy). exists y. split; [now right | assumption].
    - exists x. split; [now left | assumption]. }
  destruct Hex as (x & Hx & Hpx). apply in_map_iff in Hx. destruct Hx as (k & <- & Hk).
  apply in_seq in Hk. exists (lo + Z.of_nat k). split; [lia | assumption].
Qed.

Section RestrictedRegion.
Context {NUM : Numeric} {INF : NumericInf}.
Local Open Scope num_scope.

Variable new_check : mem Z -> Z -> Z -> Z -> Z -> Z -> AlignmentRestrictionCheck.
Variable options : Options.
Variable pm : mem LogProbs.
Variable logProbs : TensorView.
Variables maxT maxU base : Z.
Variables T U : Z.
Variable wm : mem Z.
Variable wpEnds : Z.
Hypothesis T_pos : 1 <= T.
Hypothesis U_pos : 1 <= U.
Hypothesis U_le : U <= maxU.
Hypothesis neg_inf_is_neg_inf : c_neb c_neg_inf c_neg_inf = false.

Let view := TensorView_new [maxT; maxU] base.
Let check := new_check wm wpEnds T U (lBuffer_ options) (rBuffer_ options).
Let lp := fun t u => rd pm logProbs [t; u].

Lemma rd_wr_other (m : mem CAST_DTYPE) t u t' u' v :
  0 <= u < maxU -> 0 <= u' < maxU -> ~ (t = t' /\ u = u') ->
  rd (wr m view [t'; u'] v) view [t; u] = rd m view [t; u].
Proof. intros Hu Hu' Hne. unfold rd. now apply wr_other_cell. Qed.

Lemma rd_wr_same (m : mem CAST_DTYPE) t u v :
  rd (wr m view [t; u] v) view [t; u] = v.
Proof. unfold rd. apply wr_same_cell. Qed.

(** *** The forward pass *)

(** An accepted transition into [(t, u)] contributes a term other than
    [-INFINITY]. *)
Definition alpha_justified (m : mem CAST_DTYPE) (t u : Z) : Prop :=
  (alphaBlankTransition check t u = true /\
   c_neb (rd m view [t - 1; u] +. skip_ (lp (t - 1) u)) c_neg_inf = true) \/
  (alphaEmitTransition check t u = true /\
   c_neb (rd m view [t; u - 1] +. emit_ (lp t (u - 1))) c_neg_inf = true).

(** The lattice off the column [u = 0] once the loop over the row [t = 0]
    is through: the row holds the sums of the label log-probabilities up
    to the first rejected label transition, every other cell
    [-INFINITY]. *)
Definition alpha_after_row (m : mem CAST_DTYPE) : Prop :=
  (forall u, 1 <= u < U ->
     (forall j, 1 <= j <= u -> alphaEmitTransition check 0 j = true) ->
     rd m view [0; u] = alphaZ lp 0 u) /\
  (forall u j, 1 <= j <= u -> u < U -> alphaEmitTransition check 0 j = false ->
     rd m view [0; u] = c_neg_inf) /\
  (forall t u, 1 <= t < T -> 1 <= u < U -> rd m view [t; u] = c_neg_inf).

Lemma alpha_row_loop m :
  rd m view [0; 0] = c_zero ->
  (forall t u, 0 <= t < T -> 1 <= u < U -> rd m view [t; u] = c_neg_inf) ->
  alpha_after_row
    (for_up_break 1 U (fun u am =>
       if negb (alphaEmitTransition check 0 u) then None
       else Some (wr am view [0; u]
                     (rd am view [0; u - 1] +. emit_ (rd pm logProbs [0; u - 1])))) m).
Proof.
  intros H0 Hinf.
  apply for_up_break_exit
    with (P := fun j m' =>
                 (forall j', 1 <= j' < j -> alphaEmitTransition check 0 j' = true) /\
                 (forall u, 0 <= u < j -> rd m' view [0; u] = alphaZ lp 0 u) /\
                 (forall u, j <= u < U -> rd m' view [0; u] = c_neg_inf) /\
                 (forall t u, 1 <= t < T -> 1 <= u < U -> rd m' view [t; u] = c_neg_inf)).
  - assumption.
  - split; [intros; lia|]. split; [| split].
    + intros u Hu. assert (u = 0) by lia. subst u. exact H0.
    + intros u Hu. apply Hinf; lia.
    + intros t u Ht Hu. apply Hinf; lia.
  - intros j m' m'' Hj (Hacc & Hrow & Hrest & Hin) Hbody.
    destruct (alphaEmitTransition check 0 j) eqn:Hcheck; cbn [negb] in Hbody; [| discriminate].
    injection Hbody as <-.
    split; [| split; [| split]].
    + intros j' Hj'. destruct (Z.eq_dec j' j) as [-> | Hne]; [exact Hcheck | apply Hacc; lia].
    + intros u Hu. destruct (Z.eq_dec u j) as [-> | Hne].
      * rewrite rd_wr_same. rewrite Hrow by lia.
        symmetry. apply alphaZ_0_u. lia.
      * rewrite rd_wr_other by lia. apply Hrow. lia.
    + intros u Hu. rewrite rd_wr_other by lia. apply Hrest. lia.
    + intros t u Ht Hu. rewrite rd_wr_other by lia. now apply Hin.
  - intros j m' Hj (Hacc & Hrow & Hrest & Hin) Hbody.
    destruct (alphaEmitTransition check 0 j) eqn:Hcheck; cbn [negb] in Hbody; [discriminate|].
    split; [| split].
    + intros u Hu Hopen.
      destruct (Z_lt_le_dec u j) as [Hlt | Hge]; [apply Hrow; lia|].
      rewrite Hopen in Hcheck by lia. discriminate.
    + intros u j0 Hj0 Hu Hrej. apply Hrest.
      destruct (Z_lt_le_dec j0 j) as [Hlt | Hge]; [| lia].
      rewrite Hacc in Hrej by lia. discriminate.
    + exact Hin.
  - intros m' (Hacc & Hrow & Hrest & Hin).
    split; [| split].
    + intros u Hu _. apply Hrow. lia.
    + intros u j0 Hj0 Hu Hrej. rewrite Hacc in Hrej by lia. discriminate.
    + exact Hin.
Qed.

(** The cells off the column [u = 0] while the interior loop runs:
    [before] is the lattice when that loop starts, [done] the cells it has
    been through. *)
Definition alpha_cells (before : mem CAST_DTYPE) (done : Z -> Z -> Prop)
           (m : mem CAST_DTYPE) : Prop :=
  forall t u, 0 <= t < T -> 1 <= u < U ->
    (~ done t u -> rd m view [t; u] = rd before view [t; u]) /\
    (done t u ->
     rd m view [t; u] = rd before view [t; u] \/
     (in_valid_time_range check t u = true /\ alpha_justified m t u)).

Lemma alpha_cells_grow before (done done' : Z -> Z -> Prop) m :
  alpha_cells before done m -> (forall t u, done t u -> done' t u) ->
  alpha_cells before done' m.
Proof.
  intros Hinv Hsub t u Ht Hu. destruct (Hinv t u Ht Hu) as [Hn Hd]. split.
  - intros Hnot. apply Hn. auto.
  - intros _. destruct (Classical_Prop.classic (done t u)) as [Hdone | Hnot].
    + auto.
    + left. auto.
Qed.

Lemma alpha_cells_step before (done done' : Z -> Z -> Prop) m k j :
  alpha_cells before done m ->
  1 <= j < U ->
  in_valid_time_range check k j = true ->
  ~ done k j ->
  (forall t u, done t u -> ~ (t - 1 = k /\ u = j) /\ ~ (t = k /\ u - 1 = j)) ->
  (forall t u, done' t u <-> done t u \/ (t = k /\ u = j)) ->
  alpha_cells before done' (alpha_restricted_cell check pm logProbs view k j m).
Proof.
  intros Hinv Hj Hrange Hnot Hpred Hdone'.
  unfold alpha_restricted_cell. cbv zeta.
  destruct (c_neb _ c_neg_inf || c_neb _ c_neg_inf) eqn:Htest.
  2:{ apply alpha_cells_grow with (done := done); [assumption |].
      intros t u Hd. apply Hdone'. now left. }
  (* the cell is written: some accepted transition contributes *)
  assert (Hwhy : alpha_justified m k j).
  { apply orb_true_iff in Htest. unfold alpha_justified. fold lp in Htest |- *.
    destruct Htest as [Hs | He]; [left | right].
    - destruct (alphaBlankTransition check k j); [auto | congruence].
    - destruct (alphaEmitTransition check k j); [auto | congruence]. }
  assert (Hkeep : forall t' u' w,
             alpha_justified m t' u' ->
             ~ (t' - 1 = k /\ u' = j) -> ~ (t' = k /\ u' - 1 = j) ->
             1 <= u' < U ->
             alpha_justified (wr m view [k; j] w) t' u').
  { intros t' u' w Hjust Hp1 Hp2 Hu'. unfold alpha_justified in *.
    rewrite !rd_wr_other by (try lia; tauto). exact Hjust. }
  intros t u Ht Hu. destruct (Hinv t u Ht Hu) as [Hn Hd].
  destruct (Classical_Prop.classic (t = k /\ u = j)) as [[-> ->] | Hother].
  - split.
    + intros Hnd. exfalso. apply Hnd. apply Hdone'. now right.
    + intros _. right. split; [exact Hrange|].
      apply Hkeep; [exact Hwhy | lia | lia | lia].
  - rewrite rd_wr_other by (try lia; tauto). split.
    + intros Hnd. apply Hn. intros Hold. apply Hnd. apply Hdone'. now left.
    + intros Hd'. destruct (proj1 (Hdone' t u) Hd') as [Hold | Heq]; [| tauto].
      destruct (Hd Hold) as [Hsame | [Hr Hjust]]; [now left | right].
      split; [exact Hr|].
      destruct (Hpred t u Hold) as [Hp1 Hp2].
      apply Hkeep; assumption.
Qed.

Lemma alpha_interior_loop before :
  alpha_cells before (fun _ _ => True)
    (for_up 1 U (fun u am =>
       let '(start_t, end_t) := validTimeRanges check u in
       for_up start_t (end_t + 1) (fun t am =>
         alpha_restricted_cell check pm logProbs view t u am) am) before).
Proof.
  eapply alpha_cells_grow.
  - apply for_up_inv with (P := fun j m' => alpha_cells before (fun t u => u < j) m').
    + assumption.
    + intros t u Ht Hu. split; [reflexivity | intros; lia].
    + intros j m1 Hj Hm1.
      destruct (validTimeRanges check j) as [start_t end_t] eqn:Hrange.
      destruct (Z_lt_le_dec (end_t + 1) start_t) as [Hempty | Hnonempty].
      { rewrite for_up_empty by lia.
        eapply alpha_cells_grow; [exact Hm1 | cbv beta; intros; lia]. }
      eapply alpha_cells_grow.
      * apply for_up_inv
          with (P := fun k m' => alpha_cells before (fun t u => u < j \/ (u = j /\ t < k)) m').
        -- lia.
        -- eapply alpha_cells_grow; [exact Hm1 | cbv beta; intros; lia].
        -- intros k m2 Hk Hm2.
           eapply alpha_cells_step; [exact Hm2 | lia | | | | ].
           ++ unfold in_valid_time_range. fold check. rewrite Hrange.
              apply andb_true_iff. split; [apply Z.leb_le | apply Z.leb_le]; lia.
           ++ cbv beta. lia.
           ++ cbv beta. intros; lia.
           ++ cbv beta. intros; lia.
      * cbv beta. intros; lia.
  - cbv beta. intros; exact I.
Qed.

(** The whole pass, off the column [u = 0]: a cell holds what the loop
    over the row [t = 0] left there, or the interior loop wrote it, with
    [t] in [validTimeRanges(u)], through an accepted transition that
    contributed a term other than [-INFINITY]. *)
Lemma ComputeAlphaOneSequenceRestricted_cells m :
  exists before : mem CAST_DTYPE,
    alpha_after_row before /\
    alpha_cells before (fun _ _ => True)
      (snd (ComputeAlphaOneSequenceRestricted new_check options pm logProbs T U view
              wm wpEnds m)).
Proof.
  unfold ComputeAlphaOneSequenceRestricted. cbv zeta. cbn [snd]. fold check.
  match goal with
    |- exists _, _ /\ alpha_cells _ _ (for_up 1 U ?interior ?row) => exists row
  end.
  split; [| apply alpha_interior_loop].
  apply alpha_row_loop.
  - unfold rd. rewrite for_up_break_frame_at.
    + apply wr_same_cell.
    + intros t m' m'' Ht Hbody. destruct (negb _); [discriminate|].
      injection Hbody as <-. apply wr_other_cell; lia.
  - intros t u Ht Hu. unfold rd. rewrite for_up_break_frame_at.
    + unfold view. rewrite wr_other_cell by lia.
      apply preset_lattice; [assumption | split; lia].
    + intros t' m' m'' Ht' Hbody. destruct (negb _); [discriminate|].
      injection Hbody as <-. apply wr_other_cell; lia.
Qed.

Let alpha_final (m : mem CAST_DTYPE) : mem CAST_DTYPE :=
  snd (ComputeAlphaOneSequenceRestricted new_check options pm logProbs T U view wm wpEnds m).

(** Outside the region the pass can reach the lattice holds [-INFINITY]. *)
Lemma ComputeAlphaOneSequenceRestricted_outside m t u :
  in_lattice T U t u -> alpha_allowed check t u = false ->
  rd (alpha_final m) view [t; u] = c_neg_inf.
Proof.
  intros [Ht Hu] Hout. unfold alpha_allowed in Hout.
  destruct (Z.eqb_spec u 0) as [-> | Hu0].
  - apply all_between_false in Hout. destruct Hout as (j & Hj & Hrej).
    destruct (@ComputeAlphaOneSequenceRestricted_column NUM INF new_check options pm logProbs
                maxT maxU base T U wm wpEnds T_pos U_pos U_le m) as (_ & _ & Hshut).
    apply (Hshut t j); [lia | lia | exact Hrej].
  - destruct (ComputeAlphaOneSequenceRestricted_cells m) as (before & (Hrow & Hrej & Hin) & Hcells).
    apply orb_false_iff in Hout. destruct Hout as [Hreach Hwrite].
    destruct (Hcells t u ltac:(lia) ltac:(lia)) as [_ Hd].
    destruct (Hd I) as [Hsame | [Hrange Hjust]].
    + unfold alpha_final. rewrite Hsame.
      destruct (Z.eqb_spec t 0) as [-> | Ht0].
      * cbn [andb] in Hreach. apply all_between_false in Hreach.
        destruct Hreach as (j & Hj & Hno). apply (Hrej u j); [lia | lia | exact Hno].
      * apply Hin; lia.
    + rewrite Hrange in Hwrite. cbn [andb] in Hwrite.
      apply orb_false_iff in Hwrite. destruct Hwrite as [Hb He].
      destruct Hjust as [[Hb' _] | [He' _]]; congruence.
Qed.

(** A cell of the column [u = 0] that holds something else than
    [-INFINITY] got it through its blank transition. *)
Lemma ComputeAlphaOneSequenceRestricted_column_reason m t :
  1 <= t < T ->
  c_neb (rd (alpha_final m) view [t; 0]) c_neg_inf = true ->
  alphaBlankTransition check t 0 = true /\
  c_neb (rd (alpha_final m) view [t - 1; 0] +. skip_ (lp (t - 1) 0)) c_neg_inf = true.
Proof.
  intros Ht Hne.
  destruct (@ComputeAlphaOneSequenceRestricted_column NUM INF new_check options pm logProbs
              maxT maxU base T U wm wpEnds T_pos U_pos U_le m) as (_ & Hopen & Hshut).
  fold view check in Hopen, Hshut. fold (alpha_final m) in Hopen, Hshut.
  destruct (all_between (fun j => alphaBlankTransition check j 0) 1 t) eqn:Hall.
  - pose proof (proj1 (all_between_true _ _ _) Hall) as Hacc.
    split; [apply Hacc; lia|].
    unfold lp. rewrite <- (Hopen t Ht Hacc). exact Hne.
  - apply all_between_false in Hall. destruct Hall as (j & Hj & Hrej).
    rewrite (Hshut t j) in Hne by (try lia; exact Hrej).
    rewrite neg_inf_is_neg_inf in Hne. discriminate.
Qed.

(** A cell off that column that holds something else than [-INFINITY]:
    the interior loop wrote it through an accepted transition whose term
    is not [-INFINITY], or it lies on the row [t = 0] and holds the term of
    its accepted label transition. *)
Lemma ComputeAlphaOneSequenceRestricted_cell_reason m t u :
  0 <= t < T -> 1 <= u < U ->
  c_neb (rd (alpha_final m) view [t; u]) c_neg_inf = true ->
  (in_valid_time_range check t u = true /\ alpha_justified (alpha_final m) t u) \/
  (t = 0 /\ alphaEmitTransition check 0 u = true /\
   rd (alpha_final m) view [0; u] = alphaZ lp 0 (u - 1) +. emit_ (lp 0 (u - 1))).
Proof.
  intros Ht Hu Hne.
  destruct (ComputeAlphaOneSequenceRestricted_cells m) as (before & (Hrow & Hrej & Hin) & Hcells).
  fold (alpha_final m) in Hcells.
  destruct (Hcells t u Ht Hu) as [_ Hd].
  destruct (Hd I) as [Hsame | Hjust]; [| now left].
  right. rewrite Hsame in Hne.
  destruct (Z.eq_dec t 0) as [-> | Ht0].
  2:{ rewrite Hin in Hne by lia. rewrite neg_inf_is_neg_inf in Hne. discriminate. }
  destruct (all_between (fun j => alphaEmitTransition check 0 j) 1 u) eqn:Hall.
  - pose proof (proj1 (all_between_true _ _ _) Hall) as Hacc.
    split; [reflexivity|]. split; [apply Hacc; lia|].
    rewrite Hsame, (Hrow u Hu Hacc). apply alphaZ_0_u. lia.
  - apply all_between_false in Hall. destruct Hall as (j & Hj & Hno).
    rewrite (Hrej u j) in Hne by (try lia; exact Hno).
    rewrite neg_inf_is_neg_inf in Hne. discriminate.
Qed.

(** *** The backward pass *)

(** An accepted transition out of [(t, u)] contributes a term other than
    [-INFINITY]. *)
Definition beta_justified (m : mem CAST_DTYPE) (t u : Z) : Prop :=
  (betaBlankTransition check t u = true /\
   c_neb (rd m view [t + 1; u] +. skip_ (lp t u)) c_neg_inf = true) \/
  (betaEmitTransition check t u = true /\
   c_neb (rd m view [t; u + 1] +. emit_ (lp t u)) c_neg_inf = true).

(** The lattice off the column [u = U - 1] once the loop over the row
    [t = T - 1] is through. *)
Definition beta_after_row (m : mem CAST_DTYPE) : Prop :=
  (forall u, 0 <= u <= U - 2 ->
     (forall j, u <= j <= U - 2 -> betaEmitTransition check (T - 1) j = true) ->
     rd m view [T - 1; u] = betaZ lp T U (T - 1) u) /\
  (forall u j, 0 <= u <= j -> j <= U - 2 -> betaEmitTransition check (T - 1) j = false ->
     rd m view [T - 1; u] = c_neg_inf) /\
  (forall t u, 0 <= t <= T - 2 -> 0 <= u <= U - 2 -> rd m view [t; u] = c_neg_inf).

Lemma beta_row_loop m :
  rd m view [T - 1; U - 1] = skip_ (lp (T - 1) (U - 1)) ->
  (forall t u, 0 <= t < T -> 0 <= u <= U - 2 -> rd m view [t; u] = c_neg_inf) ->
  beta_after_row
    (for_down_break (U - 2) 0 (fun u bm =>
       if negb (betaEmitTransition check (T - 1) u) then None
       else Some (wr bm view [T - 1; u]
                     (rd bm view [T - 1; u + 1] +. emit_ (rd pm logProbs [T - 1; u])))) m).
Proof.
  intros H0 Hinf.
  apply for_down_break_exit
    with (P := fun j m' =>
                 (forall j', j < j' <= U - 2 -> betaEmitTransition check (T - 1) j' = true) /\
                 (forall u, j < u <= U - 1 -> rd m' view [T - 1; u] = betaZ lp T U (T - 1) u) /\
                 (forall u, 0 <= u <= j -> rd m' view [T - 1; u] = c_neg_inf) /\
                 (forall t u, 0 <= t <= T - 2 -> 0 <= u <= U - 2 ->
                    rd m' view [t; u] = c_neg_inf)).
  - lia.
  - split; [intros; lia|]. split; [| split].
    + intros u Hu. assert (u = U - 1) by lia. subst u. rewrite H0.
      symmetry. apply betaZ_end.
    + intros u Hu. apply Hinf; lia.
    + intros t u Ht Hu. apply Hinf; lia.
  - intros j m' m'' Hj (Hacc & Hrow & Hrest & Hin) Hbody.
    destruct (betaEmitTransition check (T - 1) j) eqn:Hcheck; cbn [negb] in Hbody;
      [| discriminate].
    injection Hbody as <-.
    split; [| split; [| split]].
    + intros j' Hj'. destruct (Z.eq_dec j' j) as [-> | Hne]; [exact Hcheck | apply Hacc; lia].
    + intros u Hu. destruct (Z.eq_dec u j) as [-> | Hne].
      * rewrite rd_wr_same. rewrite Hrow by lia.
        symmetry. apply betaZ_last_row. lia.
      * rewrite rd_wr_other by lia. apply Hrow. lia.
    + intros u Hu. rewrite rd_wr_other by lia. apply Hrest. lia.
    + intros t u Ht Hu. rewrite rd_wr_other by lia. now apply Hin.
  - intros j m' Hj (Hacc & Hrow & Hrest & Hin) Hbody.
    destruct (betaEmitTransition check (T - 1) j) eqn:Hcheck; cbn [negb] in Hbody;
      [discriminate|].
    split; [| split].
    + intros u Hu Hopen.
      destruct (Z_lt_le_dec j u) as [Hlt | Hge]; [apply Hrow; lia|].
      rewrite Hopen in Hcheck by lia. discriminate.
    + intros u j0 Hj0 Hu Hrej. apply Hrest.
      destruct (Z_lt_le_dec j j0) as [Hlt | Hge]; [| lia].
      rewrite Hacc in Hrej by lia. discriminate.
    + exact Hin.
  - intros m' (Hacc & Hrow & Hrest & Hin).
    split; [| split].
    + intros u Hu _. apply Hrow. lia.
    + intros u j0 Hj0 Hu Hrej. rewrite Hacc in Hrej by lia. discriminate.
    + exact Hin.
Qed.

Definition beta_cells (before : mem CAST_DTYPE) (done : Z -> Z -> Prop)
           (m : mem CAST_DTYPE) : Prop :=
  forall t u, 0 <= t < T -> 0 <= u <= U - 2 ->
    (~ done t u -> rd m view [t; u] = rd before view [t; u]) /\
    (done t u ->
     rd m view [t; u] = rd before view [t; u] \/
     (in_valid_time_range check t u = true /\ beta_justified m t u)).

Lemma beta_cells_grow before (done done' : Z -> Z -> Prop) m :
  beta_cells before done m -> (forall t u, done t u -> done' t u) ->
  beta_cells before done' m.
Proof.
  intros Hinv Hsub t u Ht Hu. destruct (Hinv t u Ht Hu) as [Hn Hd]. split.
  - intros Hnot. apply Hn. auto.
  - intros _. destruct (Classical_Prop.classic (done t u)) as [Hdone | Hnot].
    + auto.
    + left. auto.
Qed.

Lemma beta_cells_step before (done done' : Z -> Z -> Prop) m k j :
  beta_cells before done m ->
  0 <= j <= U - 2 ->
  in_valid_time_range check k j = true ->
  ~ done k j ->
  (forall t u, done t u -> ~ (t + 1 = k /\ u = j) /\ ~ (t = k /\ u + 1 = j)) ->
  (forall t u, done' t u <-> done t u \/ (t = k /\ u = j)) ->
  beta_cells before done' (beta_restricted_cell check pm logProbs view k j m).
Proof.
  intros Hinv Hj Hrange Hnot Hpred Hdone'.
  unfold beta_restricted_cell. cbv zeta.
  destruct (c_neb _ c_neg_inf || c_neb _ c_neg_inf) eqn:Htest.
  2:{ apply beta_cells_grow with (done := done); [assumption |].
      intros t u Hd. apply Hdone'. now left. }
  assert (Hwhy : beta_justified m k j).
  { apply orb_true_iff in Htest. unfold beta_justified. fold lp in Htest |- *.
    destruct Htest as [Hs | He]; [left | right].
    - destruct (betaBlankTransition check k j); [auto | congruence].
    - destruct (betaEmitTransition check k j); [auto | congruence]. }
  assert (Hkeep : forall t' u' w,
             beta_justified m t' u' ->
             ~ (t' + 1 = k /\ u' = j) -> ~ (t' = k /\ u' + 1 = j) ->
             0 <= u' <= U - 2 ->
             beta_justified (wr m view [k; j] w) t' u').
  { intros t' u' w Hjust Hp1 Hp2 Hu'. unfold beta_justified in *.
    rewrite !rd_wr_other by (try lia; tauto). exact Hjust. }
  intros t u Ht Hu. destruct (Hinv t u Ht Hu) as [Hn Hd].
  destruct (Classical_Prop.classic (t = k /\ u = j)) as [[-> ->] | Hother].
  - split.
    + intros Hnd. exfalso. apply Hnd. apply Hdone'. now right.
    + intros _. right. split; [exact Hrange|].
      apply Hkeep; [exact Hwhy | lia | lia | lia].
  - rewrite rd_wr_other by (try lia; tauto). split.
    + intros Hnd. apply Hn. intros Hold. apply Hnd. apply Hdone'. now left.
    + intros Hd'. destruct (proj1 (Hdone' t u) Hd') as [Hold | Heq]; [| tauto].
      destruct (Hd Hold) as [Hsame | [Hr Hjust]]; [now left | right].
      split; [exact Hr|].
      destruct (Hpred t u Hold) as [Hp1 Hp2].
      apply Hkeep; assumption.
Qed.

Lemma beta_interior_loop before :
  beta_cells before (fun _ _ => True)
    (for_down (U - 2) 0 (fun u bm =>
       let '(start_t, end_t) := validTimeRanges check u in
       for_down end_t start_t (fun t bm =>
         beta_restricted_cell check pm logProbs view t u bm) bm) before).
Proof.
  eapply beta_cells_grow.
  - apply for_down_inv with (P := fun j m' => beta_cells before (fun t u => j < u) m').
    + lia.
    + intros t u Ht Hu. split; [reflexivity | intros; lia].
    + intros j m1 Hj Hm1.
      destruct (validTimeRanges check j) as [start_t end_t] eqn:Hrange.
      destruct (Z_lt_le_dec end_t (start_t - 1)) as [Hempty | Hnonempty].
      { rewrite for_down_empty by lia.
        eapply beta_cells_grow; [exact Hm1 | cbv beta; intros; lia]. }
      eapply beta_cells_grow.
      * apply for_down_inv
          with (P := fun k m' => beta_cells before (fun t u => j < u \/ (u = j /\ k < t)) m').
        -- lia.
        -- eapply beta_cells_grow; [exact Hm1 | cbv beta; intros; lia].
        -- intros k m2 Hk Hm2.
           eapply beta_cells_step; [exact Hm2 | lia | | | | ].
           ++ unfold in_valid_time_range. fold check. rewrite Hrange.
              apply andb_true_iff. split; [apply Z.leb_le | apply Z.leb_le]; lia.
           ++ cbv beta. lia.
           ++ cbv beta. intros; lia.
           ++ cbv beta. intros; lia.
      * cbv beta. intros; lia.
  - cbv beta. intros; exact I.
Qed.

Lemma ComputeBetaOneSequenceRestricted_cells m :
  exists before : mem CAST_DTYPE,
    beta_after_row before /\
    beta_cells before (fun _ _ => True)
      (snd (ComputeBetaOneSequenceRestricted new_check options pm logProbs T U view
              wm wpEnds m)).
Proof.
  unfold ComputeBetaOneSequenceRestricted. cbv zeta. cbn [snd]. fold check.
  match goal with
    |- exists _, _ /\ beta_cells _ _ (for_down (U - 2) 0 ?interior ?row) => exists row
  end.
  split; [| apply beta_interior_loop].
  apply beta_row_loop.
  - unfold rd. rewrite for_down_break_frame_at.
    + apply wr_same_cell.
    + intros t m' m'' Ht Hbody. destruct (negb _); [discriminate|].
      injection Hbody as <-. apply wr_other_cell; lia.
  - intros t u Ht Hu. unfold rd. rewrite for_down_break_frame_at.
    + unfold view. rewrite wr_other_cell by lia.
      apply preset_lattice; [assumption | split; lia].
    + intros t' m' m'' Ht' Hbody. destruct (negb _); [discriminate|].
      injection Hbody as <-. apply wr_other_cell; lia.
Qed.

Let beta_final (m : mem CAST_DTYPE) : mem CAST_DTYPE :=
  snd (ComputeBetaOneSequenceRestricted new_check options pm logProbs T U view wm wpEnds m).

Lemma ComputeBetaOneSequenceRestricted_outside m t u :
  in_lattice T U t u -> beta_allowed check T U t u = false ->
  rd (beta_final m) view [t; u] = c_neg_inf.
Proof.
  intros [Ht Hu] Hout. unfold beta_allowed in Hout.
  destruct (Z.eqb_spec u (U - 1)) as [-> | Hu0].
  - apply all_between_false in Hout. destruct Hout as (j & Hj & Hrej).
    destruct (@ComputeBetaOneSequenceRestricted_column NUM INF new_check options pm logProbs
                maxT maxU base T U wm wpEnds T_pos U_pos U_le m) as (_ & _ & Hshut).
    apply (Hshut t j); [lia | lia | exact Hrej].
  - destruct (ComputeBetaOneSequenceRestricted_cells m) as (before & (Hrow & Hrej & Hin) & Hcells).
    apply orb_false_iff in Hout. destruct Hout as [Hreach Hwrite].
    destruct (Hcells t u ltac:(lia) ltac:(lia)) as [_ Hd].
    destruct (Hd I) as [Hsame | [Hrange Hjust]].
    + unfold beta_final. rewrite Hsame.
      destruct (Z.eqb_spec t (T - 1)) as [-> | Ht0].
      * cbn [andb] in Hreach. apply all_between_false in Hreach.
        destruct Hreach as (j & Hj & Hno). apply (Hrej u j); [lia | lia | exact Hno].
      * apply Hin; lia.
    + rewrite Hrange in Hwrite. cbn [andb] in Hwrite.
      apply orb_false_iff in Hwrite. destruct Hwrite as [Hb He].
      destruct Hjust as [[Hb' _] | [He' _]]; congruence.
Qed.

Lemma ComputeBetaOneSequenceRestricted_column_reason m t :
  0 <= t <= T - 2 ->
  c_neb (rd (beta_final m) view [t; U - 1]) c_neg_inf = true ->
  betaBlankTransition check t (U - 1) = true /\
  c_neb (rd (beta_final m) view [t + 1; U - 1] +. skip_ (lp t (U - 1))) c_neg_inf = true.
Proof.
  intros Ht Hne.
  destruct (@ComputeBetaOneSequenceRestricted_column NUM INF new_check options pm logProbs
              maxT maxU base T U wm wpEnds T_pos U_pos U_le m) as (_ & Hopen & Hshut).
  fold view check in Hopen, Hshut. fold (beta_final m) in Hopen, Hshut.
  destruct (all_between (fun j => betaBlankTransition check j (U - 1)) t (T - 2)) eqn:Hall.
  - pose proof (proj1 (all_between_true _ _ _) Hall) as Hacc.
    split; [apply Hacc; lia|].
    unfold lp. rewrite <- (Hopen t ltac:(lia) Hacc). exact Hne.
  - apply all_between_false in Hall. destruct Hall as (j & Hj & Hrej).
    rewrite (Hshut t j) in Hne by (try lia; exact Hrej).
    rewrite neg_inf_is_neg_inf in Hne. discriminate.
Qed.

Lemma ComputeBetaOneSequenceRestricted_cell_reason m t u :
  0 <= t < T -> 0 <= u <= U - 2 ->
  c_neb (rd (beta_final m) view [t; u]) c_neg_inf = true ->
  (in_valid_time_range check t u = true /\ beta_justified (beta_final m) t u) \/
  (t = T - 1 /\ betaEmitTransition check (T - 1) u = true /\
   rd (beta_final m) view [T - 1; u]
   = betaZ lp T U (T - 1) (u + 1) +. emit_ (lp (T - 1) u)).
Proof.
  intros Ht Hu Hne.
  destruct (ComputeBetaOneSequenceRestricted_cells m) as (before & (Hrow & Hrej & Hin) & Hcells).
  fold (beta_final m) in Hcells.
  destruct (Hcells t u Ht Hu) as [_ Hd].
  destruct (Hd I) as [Hsame | Hjust]; [| now left].
  right. rewrite Hsame in Hne.
  destruct (Z.eq_dec t (T - 1)) as [-> | Ht0].
  2:{ rewrite Hin in Hne by lia. rewrite neg_inf_is_neg_inf in Hne. discriminate. }
  destruct (all_between (fun j => betaEmitTransition check (T - 1) j) u (U - 2)) eqn:Hall.
  - pose proof (proj1 (all_between_true _ _ _) Hall) as Hacc.
    split; [reflexivity|]. split; [apply Hacc; lia|].
    rewrite Hsame, (Hrow u Hu Hacc). apply betaZ_last_row. lia.
  - apply all_between_false in Hall. destruct Hall as (j & Hj & Hno).
    rewrite (Hrej u j) in Hne by (try lia; exact Hno).
    rewrite neg_inf_is_neg_inf in Hne. discriminate.
Qed.
End RestrictedRegion.
(** ** Row-major strides and indices *)

Section TensorViewFacts.

Lemma compute_strides_single d : compute_strides [d] = [1].
Proof. reflexivity. Qed.

Lemma compute_strides_nonempty d rest : compute_strides (d :: rest) <> [].
Proof.
  cbn [compute_strides]. destruct (compute_strides rest), rest; discriminate.
Qed.

Lemma compute_strides_cons d d' rest :
  compute_strides (d :: d' :: rest)
  = (hd 1 (compute_strides (d' :: rest)) * d') :: compute_strides (d' :: rest).
Proof.
  change (compute_strides (d :: d' :: rest))
    with (match compute_strides (d' :: rest) with
          | s :: ss => (s * d') :: s :: ss
          | [] => [1]
          end).
  pose proof (compute_strides_nonempty d' rest) as Hne.
  destruct (compute_strides (d' :: rest)); [congruence | reflexivity].
Qed.

Lemma compute_strides_length dims : length (compute_strides dims) = length dims.
Proof.
  induction dims as [|d [|d' rest] IH]; [reflexivity | reflexivity |].
  rewrite compute_strides_cons. cbn [length] in *. now rewrite IH.
Qed.

Lemma compute_strides_last d rest : last (compute_strides (d :: rest)) 0 = 1.
Proof.
  revert d. induction rest as [|d' rest IH]; intros d; [reflexivity|].
  rewrite compute_strides_cons.
  pose proof (compute_strides_nonempty d' rest) as Hne.
  specialize (IH d').
  destruct (compute_strides (d' :: rest)) as [|s ss]; [congruence|].
  exact IH.
Qed.

Lemma compute_strides_step dims :
  forall i, (S i < length dims)%nat ->
    nth i (compute_strides dims) 0
    = nth (S i) (compute_strides dims) 0 * nth (S i) dims 0.
Proof.
  induction dims as [|d [|d' rest] IH]; intros i Hi; cbn [length] in Hi; [lia | lia |].
  rewrite compute_strides_cons.
  destruct i as [|i].
  - cbn [nth].
    pose proof (compute_strides_nonempty d' rest) as Hne.
    destruct (compute_strides (d' :: rest)) as [|s ss]; [congruence | reflexivity].
  - change (nth (S i) (?x :: ?l) 0) with (nth i l 0).
    change (nth (S (S i)) (?x :: ?l) 0) with (nth (S i) l 0).
    apply IH. cbn [length]. lia.
Qed.

(** The leading stride is the number of elements of one slice. *)
Lemma leading_stride d rest : hd 1 (compute_strides (d :: rest)) = num_elements rest.
Proof.
  revert d. induction rest as [|d' rest IH]; intros d; [reflexivity|].
  rewrite compute_strides_cons. cbn [hd num_elements fold_right].
  rewrite (IH d'). unfold num_elements. lia.
Qed.

Lemma flat_index_cons d d' rest i i' irest :
  flat_index (compute_strides (d :: d' :: rest)) (i :: i' :: irest)
  = flat_index (compute_strides (d' :: rest)) (i' :: irest) + i * num_elements (d' :: rest).
Proof.
  rewrite compute_strides_cons. cbn [flat_index].
  rewrite leading_stride. cbn [num_elements fold_right]. unfold num_elements. f_equal. lia.
Qed.

Lemma flat_index_range dims :
  forall indices, in_bounds dims indices ->
    0 <= flat_index (compute_strides dims) indices < num_elements dims.
Proof.
  unfold in_bounds.
  induction dims as [|d [|d' rest] IH]; intros indices Hin.
  - inversion Hin; subst. cbn. lia.
  - inversion Hin as [|i d0 irest l Hi Hrest]; subst.
    inversion Hrest; subst. cbn. lia.
  - inversion Hin as [|i d0 irest l Hi Hrest]; subst.
    pose proof (IH _ Hrest) as Hr.
    inversion Hrest as [|i' d1 irest' l' Hi' Hrest']; subst.
    rewrite flat_index_cons.
    change (num_elements (d :: d' :: rest)) with (d * num_elements (d' :: rest)).
    nia.
Qed.

Lemma flat_index_inj dims :
  forall indices indices', in_bounds dims indices -> in_bounds dims indices' ->
    flat_index (compute_strides dims) indices = flat_index (compute_strides dims) indices' ->
    indices = indices'.
Proof.
  unfold in_bounds.
  induction dims as [|d [|d' rest] IH]; intros indices indices' Hin Hin' Heq.
  - inversion Hin; inversion Hin'; subst. reflexivity.
  - inversion Hin as [|i d0 irest l Hi Hrest]; subst.
    inversion Hin' as [|j d0 jrest l Hj Hrest']; subst.
    inversion Hrest; inversion Hrest'; subst. cbn in Heq. now subst.
  - inversion Hin as [|i d0 irest l Hi Hrest]; subst.
    inversion Hin' as [|j d0 jrest l Hj Hrest']; subst.
    pose proof (flat_index_range Hrest) as Hr.
    pose proof (flat_index_range Hrest') as Hr'.
    pose proof (IH _ _ Hrest Hrest') as Hind.
    inversion Hrest as [|i' d1 irest' l' Hi' Hrest1]; subst.
    inversion Hrest' as [|j' d1 jrest' l' Hj' Hrest1']; subst.
    rewrite !flat_index_cons in Heq.
    assert (i = j) by nia. subst j.
    f_equal. apply Hind. lia.
Qed.

Lemma block_size d rest :
  match dims_ (TensorView_new (d :: rest) 0), strides_ (TensorView_new (d :: rest) 0) with
  | d0 :: _, s0 :: _ => d0 * s0
  | _, _ => 0
  end = num_elements (d :: rest).
Proof.
  cbn [TensorView_new dims_ strides_].
  pose proof (leading_stride d rest) as Hs.
  pose proof (compute_strides_nonempty d rest) as Hne.
  destruct (compute_strides (d :: rest)) as [|s ss]; [congruence|].
  cbn [hd] in Hs. subst s. reflexivity.
Qed.

Lemma num_elements_nonneg dims : Forall (fun d => 0 <= d) dims -> 0 <= num_elements dims.
Proof.
  induction 1 as [|x l Hx Hl IH]; [cbn; lia|].
  change (num_elements (x :: l)) with (x * num_elements l). nia.
Qed.

Lemma clear_loop (A : Type) (zero : A) base :
  forall size (m : mem A) a,
    0 <= size ->
    for_up 0 size (fun i m => store m (base + i) zero) m a
    = if (base <=? a) && (a <? base + size) then zero else m a.
Proof.
  intros size m a Hsize.
  apply for_up_inv
    with (P := fun j (m' : mem A) =>
                 m' a = if (base <=? a) && (a <? base + j) then zero else m a).
  - assumption.
  - replace ((base <=? a) && (a <? base + 0)) with false; [reflexivity|].
    symmetry. apply andb_false_iff. destruct (Z.leb_spec base a); [right | left; reflexivity].
    apply Z.ltb_ge. lia.
  - intros j m' Hj Hm'. unfold store.
    destruct (Z.eqb_spec a (base + j)) as [-> | Hne].
    + replace (base <=? base + j) with true by (symmetry; apply Z.leb_le; lia).
      replace (base + j <? base + (j + 1)) with true by (symmetry; apply Z.ltb_lt; lia).
      reflexivity.
    + rewrite Hm'.
      destruct (Z.leb_spec base a); cbn [andb]; [| reflexivity].
      destruct (Z.ltb_spec a (base + j)), (Z.ltb_spec a (base + (j + 1)));
        try reflexivity; lia.
Qed.
End TensorViewFacts.
(** ** The rows of the denominator loop, for every numeric type *)

Section LoopExtensionality.
Variable S : Type.

Lemma iter_up_ext (body body' : Z -> S -> S) :
  forall n i s,
    (forall j s', i <= j < i + Z.of_nat n -> body j s' = body' j s') ->
    iter_up n i body s = iter_up n i body' s.
Proof.
  induction n as [|n IH]; intros i s Hext; [reflexivity|].
  cbn [iter_up]. rewrite Hext by lia. apply IH. intros j s' Hj. apply Hext. lia.
Qed.

Lemma for_up_ext lo hi (body body' : Z -> S -> S) (s : S) :
  (forall j s', lo <= j < hi -> body j s' = body' j s') ->
  for_up lo hi body s = for_up lo hi body' s.
Proof.
  intros Hext. unfold for_up. apply iter_up_ext. intros j s' Hj. apply Hext. lia.
Qed.
End LoopExtensionality.

Section DenominatorLoop.
Context {NUM : Numeric}.
Local Open Scope num_scope.

Variable D : Z.
Variable logits : Z.
Hypothesis D_pos : 1 <= D.

(** The value one iteration of the outer loop stores for the row that
    starts at flat position [i]. *)
Definition row_result (lm : mem DTYPE) (i : Z) : CAST_DTYPE :=
  let max := cast (lm (logits + i)) in
  let max := for_up 1 D (fun j max => c_max max (cast (lm (logits + (i + j))))) max in
  let sum := for_up 0 D (fun j sum => sum +. c_exp (cast (lm (logits + (i + j))) -. max)) c_zero in
  max +. c_log sum.

Lemma LogSumExp2D_row_stores lm i outputs om :
  LogSumExp2D_row D lm logits i outputs om = store om (outputs + Z.quot i D) (row_result lm i).
Proof. reflexivity. Qed.


Lemma LogSumExp2D_loop_rows lm N outputs (k : nat) :
  forall (r : Z) (om : mem CAST_DTYPE) (fuel : nat),
    0 <= r -> r + Z.of_nat k = N -> (k <= fuel)%nat ->
    exists om',
      LogSumExp2D_loop fuel N D lm logits (r * D) outputs om = Some om' /\
      (forall i, r <= i < N -> om' (outputs + i) = row_result lm (i * D)) /\
      (forall a, ~ (outputs + r <= a < outputs + N) -> om' a = om a).
Proof.
  induction k as [|k IH]; intros r om fuel Hr HN Hfuel.
  - exists om. split; [| split].
    + destruct fuel; cbn [LogSumExp2D_loop];
        replace (r * D <? N * D) with false by (symmetry; apply Z.ltb_ge; nia);
        reflexivity.
    + intros i Hi. lia.
    + reflexivity.
  - destruct fuel as [|fuel]; [lia|].
    cbn [LogSumExp2D_loop].
    replace (r * D <? N * D) with true by (symmetry; apply Z.ltb_lt; nia).
    replace (r * D + D) with ((r + 1) * D) by lia.
    rewrite LogSumExp2D_row_stores. rewrite Z.quot_mul by lia.
    destruct (IH (r + 1) (store om (outputs + r) (row_result lm (r * D))) fuel
                ltac:(lia) ltac:(lia) ltac:(lia)) as (om' & Hrun & Hval & Hframe).
    exists om'. split; [exact Hrun | split].
    + intros i Hi. destruct (Z.eq_dec i r) as [-> | Hne].
      * rewrite Hframe by lia. apply store_same.
      * apply Hval. lia.
    + intros a Ha. rewrite Hframe by lia. apply store_other. lia.
Qed.

Lemma LogSumExp2D_rows lm fuel N outputs om :
  (Z.to_nat N <= fuel)%nat ->
  exists om',
    LogSumExp2D fuel N D lm logits outputs om = Some (SUCCESS, om') /\
    (forall i, 0 <= i < N -> om' (outputs + i) = row_result lm (i * D)) /\
    (forall a, ~ (outputs <= a < outputs + N) -> om' a = om a).
Proof.
  intros Hfuel.
  destruct (Z_lt_le_dec N 0) as [Hneg | Hpos].
  { exists om. split; [| split].
    - unfold LogSumExp2D. destruct fuel; cbn [LogSumExp2D_loop];
        replace (0 <? N * D) with false by (symmetry; apply Z.ltb_ge; nia); reflexivity.
    - intros i Hi. lia.
    - reflexivity. }
  destruct (@LogSumExp2D_loop_rows lm N outputs (Z.to_nat N) 0 om fuel
              ltac:(lia) ltac:(lia) Hfuel) as (om' & Hrun & Hval & Hframe).
  exists om'. split; [| split].
  - unfold LogSumExp2D. change (0 * D) with 0 in Hrun. rewrite Hrun. reflexivity.
  - exact Hval.
  - intros a Ha. apply Hframe. lia.
Qed.
End DenominatorLoop.

(** ** [int] arithmetic within its range *)

Section Int32Facts.

Lemma wrap_fits x : Int32.fits x -> Int32.wrap x = x.
Proof.
  unfold Int32.fits, Int32.wrap, Int32.min_int, Int32.max_int. intros H.
  rewrite Z.mod_small by lia. lia.
Qed.

Lemma mul_fits a b : Int32.fits (a * b) -> Int32.mul a b = a * b.
Proof. apply wrap_fits. Qed.

Lemma add_fits a b : Int32.fits (a + b) -> Int32.add a b = a + b.
Proof. apply wrap_fits. Qed.

Lemma sub_fits a b : Int32.fits (a - b) -> Int32.sub a b = a - b.
Proof. apply wrap_fits. Qed.

Lemma fits_between lo hi x :
  Int32.fits lo -> Int32.fits hi -> lo <= x <= hi -> Int32.fits x.
Proof. unfold Int32.fits. lia. Qed.

Lemma fits_small x : 0 <= x <= Int32.max_int -> Int32.fits x.
Proof. unfold Int32.fits, Int32.min_int, Int32.max_int. lia. Qed.

Lemma num_elements_pos dims : Forall (fun d => 1 <= d) dims -> 1 <= num_elements dims.
Proof.
  induction 1 as [|x l Hx Hl IH]; [cbn; lia|].
  change (num_elements (x :: l)) with (x * num_elements l). nia.
Qed.

Lemma sized_tail d rest : Int32.sized (d :: rest) -> Int32.sized rest.
Proof.
  intros [Hpos Hsize]. inversion Hpos as [|x l Hd Hrest]; subst.
  split; [assumption|].
  pose proof (num_elements_pos Hrest) as Hp.
  change (num_elements (d :: rest)) with (d * num_elements rest) in Hsize. nia.
Qed.

Lemma sized_nonneg dims : Int32.sized dims -> Forall (fun d => 0 <= d) dims.
Proof.
  intros [Hpos _]. eapply Forall_impl; [| exact Hpos]. cbv beta. intros; lia.
Qed.

(** Within the range the constructor computes the row-major strides. *)
Lemma compute_strides_fits dims :
  Int32.sized dims -> Int32.compute_strides dims = compute_strides dims.
Proof.
  induction dims as [|d [|d' rest] IH]; intros Hsized; [reflexivity | reflexivity |].
  pose proof (sized_tail Hsized) as Htail.
  specialize (IH Htail).
  change (Int32.compute_strides (d :: d' :: rest))
    with (match Int32.compute_strides (d' :: rest) with
          | s :: ss => Int32.mul s d' :: s :: ss
          | [] => [1]
          end).
  rewrite IH, compute_strides_cons.
  pose proof (leading_stride d' rest) as Hlead.
  pose proof (compute_strides_nonempty d' rest) as Hne.
  destruct (compute_strides (d' :: rest)) as [|s ss]; [congruence|].
  cbn [hd] in *. subst s.
  rewrite mul_fits; [reflexivity|].
  destruct Htail as [Hpos Hsize].
  pose proof (num_elements_pos Hpos) as Hp.
  change (num_elements (d' :: rest)) with (d' * num_elements rest) in Hsize, Hp.
  apply fits_small. lia.
Qed.

Lemma TensorView_new_fits dims data :
  Int32.sized dims -> Int32.TensorView_new dims data = TensorView_new dims data.
Proof.
  intros Hsized. unfold Int32.TensorView_new, TensorView_new.
  now rewrite compute_strides_fits.
Qed.

(** Within the range [operator()] computes the row-major index. *)
Lemma flat_index_fits dims :
  Int32.sized dims ->
  forall indices, in_bounds dims indices ->
    Int32.flat_index (compute_strides dims) indices
    = flat_index (compute_strides dims) indices.
Proof.
  unfold in_bounds.
  induction dims as [|d [|d' rest] IH]; intros Hsized indices Hin.
  - inversion Hin; subst. reflexivity.
  - inversion Hin as [|i d0 irest l Hi Hrest]; subst.
    inversion Hrest; subst. reflexivity.
  - inversion Hin as [|i d0 irest l Hi Hrest]; subst.
    pose proof (sized_tail Hsized) as Htail.
    pose proof (IH Htail _ Hrest) as Hind.
    pose proof (@flat_index_range (d' :: rest) _ Hrest) as Hr.
    inversion Hrest as [|i' d1 irest' l' Hi' Hrest']; subst.
    rewrite flat_index_cons.
    rewrite compute_strides_cons, leading_stride.
    change (Int32.flat_index ((num_elements rest * d') :: compute_strides (d' :: rest))
                             (i :: i' :: irest'))
      with (Int32.add (Int32.flat_index (compute_strides (d' :: rest)) (i' :: irest'))
                      (Int32.mul i (num_elements rest * d'))).
    rewrite Hind.
    destruct Hsized as [_ Hsize].
    change (num_elements (d :: d' :: rest)) with (d * num_elements (d' :: rest)) in Hsize.
    change (num_elements (d' :: rest)) with (d' * num_elements rest) in *.
    rewrite mul_fits by (apply fits_small; nia).
    rewrite add_fits by (apply fits_small; nia).
    lia.
Qed.

Lemma address_fits dims data indices :
  Int32.sized dims -> in_bounds dims indices ->
  Int32.address (Int32.TensorView_new dims data) indices
  = address (TensorView_new dims data) indices.
Proof.
  intros Hsized Hin. rewrite TensorView_new_fits by assumption.
  unfold Int32.address, address, TensorView_new. cbn [strides_ data_].
  now rewrite flat_index_fits.
Qed.

Lemma in_bounds2 maxT maxU t u :
  0 <= t < maxT -> 0 <= u < maxU -> in_bounds [maxT; maxU] [t; u].
Proof.
  intros Ht Hu. unfold in_bounds.
  apply Forall2_cons; [assumption|]. apply Forall2_cons; [assumption|]. apply Forall2_nil.
Qed.

Lemma in_bounds3 maxT maxU D t u d :
  0 <= t < maxT -> 0 <= u < maxU -> 0 <= d < D -> in_bounds [maxT; maxU; D] [t; u; d].
Proof.
  intros Ht Hu Hd. unfold in_bounds.
  apply Forall2_cons; [assumption|]. apply Forall2_cons; [assumption|].
  apply Forall2_cons; [assumption|]. apply Forall2_nil.
Qed.

Lemma sized2 maxT maxU :
  1 <= maxT -> 1 <= maxU -> maxT * maxU <= Int32.max_int -> Int32.sized [maxT; maxU].
Proof.
  intros HT HU Hsize. split; [repeat (apply Forall_cons; [assumption|]); apply Forall_nil|].
  cbn [num_elements fold_right]. lia.
Qed.

Lemma sized3 maxT maxU D :
  1 <= maxT -> 1 <= maxU -> 1 <= D -> maxT * maxU * D <= Int32.max_int ->
  Int32.sized [maxT; maxU; D].
Proof.
  intros HT HU HD Hsize. split; [repeat (apply Forall_cons; [assumption|]); apply Forall_nil|].
  cbn [num_elements fold_right]. lia.
Qed.
End Int32Facts.

(** ** The denominator loop with [int] bounds *)

Section Int32Denominator.
Context {NUM : Numeric}.
Local Open Scope num_scope.

Variables N D : Z.
Variable lm : mem DTYPE.
Variables logits outputs : Z.
Hypothesis D_pos : 1 <= D.
Hypothesis size_fits : N * D <= Int32.max_int.

Lemma row_position_fits r j : 0 <= r < N -> 0 <= j <= D -> Int32.add (r * D) j = r * D + j.
Proof.
  intros Hr Hj. apply add_fits, fits_small. nia.
Qed.

Lemma LogSumExp2D_row_fits r om :
  0 <= r < N ->
  Int32.LogSumExp2D_row D lm logits (r * D) outputs om
  = LogSumExp2D_row D lm logits (r * D) outputs om.
Proof.
  intros Hr. unfold Int32.LogSumExp2D_row, LogSumExp2D_row. cbv zeta.
  assert (Hmax : for_up 1 D (fun j max => c_max max (cast (lm (logits + Int32.add (r * D) j))))
                        (cast (lm (logits + r * D)))
                 = for_up 1 D (fun j max => c_max max (cast (lm (logits + (r * D + j)))))
                          (cast (lm (logits + r * D)))).
  { apply for_up_ext. intros j s' Hj. rewrite row_position_fits by lia. reflexivity. }
  rewrite Hmax. f_equal. f_equal. f_equal.
  apply for_up_ext. intros j s' Hj. rewrite row_position_fits by lia. reflexivity.
Qed.

Lemma LogSumExp2D_loop_fits (fuel : nat) :
  forall r om, 0 <= r -> 0 <= N ->
    Int32.LogSumExp2D_loop fuel N D lm logits (r * D) outputs om
    = LogSumExp2D_loop fuel N D lm logits (r * D) outputs om.
Proof.
  induction fuel as [|fuel IH]; intros r om Hr HN;
    cbn [Int32.LogSumExp2D_loop LogSumExp2D_loop];
    rewrite (@mul_fits N D) by (apply fits_small; nia).
  - reflexivity.
  - destruct (Z.ltb_spec (r * D) (N * D)) as [Hlt | Hge]; [| reflexivity].
    assert (Hr' : 0 <= r < N) by nia.
    rewrite row_position_fits by lia.
    rewrite LogSumExp2D_row_fits by assumption.
    replace (r * D + D) with ((r + 1) * D) by lia.
    apply IH; lia.
Qed.

Lemma LogSumExp2D_fits fuel om :
  0 <= N ->
  Int32.LogSumExp2D fuel N D lm logits outputs om = LogSumExp2D fuel N D lm logits outputs om.
Proof.
  intros HN. unfold Int32.LogSumExp2D, LogSumExp2D.
  pose proof (@LogSumExp2D_loop_fits fuel 0 om ltac:(lia) HN) as Hloop.
  change (0 * D) with 0 in Hloop. now rewrite Hloop.
Qed.

(** The row loops compute the two-pass form. *)
Lemma row_max_of_the_loop (x : Z -> CAST_DTYPE) :
  for_up 1 D (fun j mx => c_max mx (x j)) (x 0) = row_max x (Z.to_nat (D - 1)).
Proof.
  apply for_up_inv with (P := fun j mx => mx = row_max x (Z.to_nat (j - 1))).
  - lia.
  - reflexivity.
  - intros j mx Hj ->.
    replace (Z.to_nat (j + 1 - 1)) with (S (Z.to_nat (j - 1))) by lia.
    cbn [row_max]. do 2 f_equal. lia.
Qed.

Lemma shifted_exp_sum_of_the_loop (x : Z -> CAST_DTYPE) mx :
  for_up 0 D (fun j sum => sum +. c_exp (x j -. mx)) c_zero
  = shifted_exp_sum x mx (Z.to_nat D).
Proof.
  apply for_up_inv with (P := fun j sum => sum = shifted_exp_sum x mx (Z.to_nat j)).
  - lia.
  - reflexivity.
  - intros j sum Hj ->.
    replace (Z.to_nat (j + 1)) with (S (Z.to_nat j)) by lia.
    cbn [shifted_exp_sum]. rewrite Z2Nat.id by lia. reflexivity.
Qed.

Lemma row_result_two_pass i :
  row_result D logits lm i
  = two_pass_log_sum_exp (fun j => cast (lm (logits + (i + j)))) D.
Proof.
  unfold row_result, two_pass_log_sum_exp. cbv zeta.
  replace (cast (lm (logits + i))) with (cast (lm (logits + (i + 0))))
    by (do 2 f_equal; lia).
  rewrite (row_max_of_the_loop (fun j => cast (lm (logits + (i + j))))).
  rewrite (shifted_exp_sum_of_the_loop (fun j => cast (lm (logits + (i + j))))).
  reflexivity.
Qed.

Lemma LogSumExp2D_two_pass fuel om :
  0 <= N -> (Z.to_nat N <= fuel)%nat ->
  exists om' : mem CAST_DTYPE,
    Int32.LogSumExp2D fuel N D lm logits outputs om = Some (SUCCESS, om') /\
    (forall i, 0 <= i < N ->
       om' (outputs + i)
       = two_pass_log_sum_exp (fun j => cast (lm (logits + (i * D + j)))) D) /\
    (forall a, ~ (outputs <= a < outputs + N) -> om' a = om a).
Proof.
  intros HN Hfuel.
  destruct (@LogSumExp2D_rows NUM D logits D_pos lm fuel N outputs om Hfuel)
    as (om' & Hrun & Hval & Hframe).
  exists om'. split; [| split].
  - rewrite LogSumExp2D_fits by assumption. exact Hrun.
  - intros i Hi. rewrite Hval by assumption. apply row_result_two_pass.
  - exact Hframe.
Qed.
End Int32Denominator.

Section TwoPassRows.
Context {NUM : Numeric}.
Variables x y : Z -> CAST_DTYPE.
Hypothesis same_row : forall j, x j = y j.

Lemma row_max_ext (n : nat) : row_max x n = row_max y n.
Proof. induction n as [|n IH]; cbn [row_max]; now rewrite ?IH, same_row. Qed.

Lemma shifted_exp_sum_ext mx (n : nat) : shifted_exp_sum x mx n = shifted_exp_sum y mx n.
Proof. induction n as [|n IH]; cbn [shifted_exp_sum]; now rewrite ?IH, ?same_row. Qed.

Lemma two_pass_log_sum_exp_ext D : two_pass_log_sum_exp x D = two_pass_log_sum_exp y D.
Proof.
  unfold two_pass_log_sum_exp. cbv zeta.
  now rewrite row_max_ext, shifted_exp_sum_ext.
Qed.
End TwoPassRows.

(** ** The kernels within the range of [int]

    For a batch whose padded logits an [int] can count, with lengths within
    the padded sizes and symbols of the vocabulary, no product, sum or
    difference of the kernels leaves the range, and they compute what the
    kernels over [Z] compute. *)

Section Int32Kernels.
Context {NUM : Numeric}.
Local Open Scope num_scope.

Lemma rd_fits {A} (m : mem A) dims data indices :
  Int32.sized dims -> in_bounds dims indices ->
  Int32.rd m (Int32.TensorView_new dims data) indices = rd m (TensorView_new dims data) indices.
Proof. intros Hs Hin. unfold Int32.rd, rd. now rewrite address_fits. Qed.

Lemma wr_fits {A} (m : mem A) dims data indices x :
  Int32.sized dims -> in_bounds dims indices ->
  Int32.wr m (Int32.TensorView_new dims data) indices x
  = wr m (TensorView_new dims data) indices x.
Proof. intros Hs Hin. unfold Int32.wr, wr. now rewrite address_fits. Qed.

Section OneSequence.
Variable options : Options.
Variables maxT maxU : Z.
Let D := numTargets_ options.

Hypothesis maxT_pos : 1 <= maxT.
Hypothesis maxU_pos : 1 <= maxU.
Hypothesis D_pos : 1 <= D.
Hypothesis size_fits : maxT * maxU * D <= Int32.max_int.

Variable tm : mem Z.
Variable targets : Z.
Variables T U : Z.
Hypothesis T_le : T <= maxT.
Hypothesis U_le : U <= maxU.
Hypothesis U_fits : Int32.fits (U - 1).
Hypothesis blank_ok : 0 <= blank_ options < D.
Hypothesis labels_ok : forall u, 0 <= u < U - 1 -> 0 <= tm (targets + u) < D.

Lemma sized_logits : Int32.sized [maxT; maxU; D].
Proof. now apply sized3. Qed.

Lemma sized_lattice : Int32.sized [maxT; maxU].
Proof. apply sized2; [assumption | assumption | nia]. Qed.

Lemma padded_sizes_fit : maxT <= Int32.max_int /\ maxU <= Int32.max_int.
Proof.
  assert (1 <= maxT * maxU) by nia.
  assert (maxT * maxU <= maxT * maxU * D) by nia.
  assert (maxT <= maxT * maxU) by nia.
  assert (maxU <= maxT * maxU) by nia.
  lia.
Qed.

Lemma ComputeLogProbsOneSequence_fits (lm : mem DTYPE) (lg : Z)
      (dm : mem CAST_DTYPE) (dn lp : Z) (pm : mem LogProbs) :
  Int32.ComputeLogProbsOneSequence options lm (Int32.TensorView_new [maxT; maxU; D] lg)
    tm targets T U dm (Int32.TensorView_new [maxT; maxU] dn)
    (Int32.TensorView_new [maxT; maxU] lp) pm
  = ComputeLogProbsOneSequence options lm (TensorView_new [maxT; maxU; D] lg)
      tm targets T U dm (TensorView_new [maxT; maxU] dn)
      (TensorView_new [maxT; maxU] lp) pm.
Proof.
  pose proof sized_logits as Hs3. pose proof sized_lattice as Hs2.
  unfold Int32.ComputeLogProbsOneSequence, ComputeLogProbsOneSequence. cbv zeta.
  apply for_up_ext. intros t pm1 Ht.
  apply for_up_ext. intros u pm2 Hu.
  rewrite sub_fits by assumption.
  assert (Hin2 : in_bounds [maxT; maxU] [t; u]) by (apply in_bounds2; lia).
  assert (Hblank : in_bounds [maxT; maxU; D] [t; u; blank_ options])
    by (apply in_bounds3; lia).
  destruct (u <? U - 1) eqn:Hlast.
  - apply Z.ltb_lt in Hlast.
    assert (Hlabel : in_bounds [maxT; maxU; D] [t; u; tm (targets + u)]).
    { apply in_bounds3; [lia | lia | apply labels_ok; lia]. }
    rewrite !wr_fits, !rd_fits by assumption. reflexivity.
  - rewrite !wr_fits, !rd_fits by assumption. reflexivity.
Qed.

Hypothesis T_pos : 1 <= T.
Hypothesis U_pos : 1 <= U.

Lemma gradient_value_fits (bm : mem CAST_DTYPE) (bt : Z) t u d g :
  0 <= t < T -> 0 <= u < U ->
  Int32.gradient_value (blank_ options) T U tm targets bm
    (Int32.TensorView_new [maxT; maxU] bt) t u d g
  = gradient_value (blank_ options) T U tm targets bm (TensorView_new [maxT; maxU] bt) t u d g.
Proof.
  intros Ht Hu. pose proof sized_lattice as Hs2.
  unfold Int32.gradient_value, gradient_value.
  destruct padded_sizes_fit as [HmaxT HmaxU].
  assert (HT : Int32.fits (T - 1)) by (apply fits_small; lia).
  assert (HU : Int32.fits (U - 1)) by (apply fits_small; lia).
  rewrite !sub_fits by assumption.
  assert (Hin : in_bounds [maxT; maxU] [t; u]) by (apply in_bounds2; lia).
  destruct ((d =? blank_ options) && (t =? T - 1) && (u =? U - 1));
    [now rewrite !rd_fits by assumption|].
  destruct ((d =? blank_ options) && (t <? T - 1)) eqn:Hblank.
  - apply andb_prop in Hblank. destruct Hblank as [_ Hlt]. apply Z.ltb_lt in Hlt.
    rewrite add_fits by (apply fits_small; lia).
    assert (Hnext : in_bounds [maxT; maxU] [t + 1; u]) by (apply in_bounds2; lia).
    now rewrite !rd_fits by assumption.
  - destruct ((u <? U - 1) && (d =? tm (targets + u))) eqn:Hemit.
    + apply andb_prop in Hemit. destruct Hemit as [Hlt _]. apply Z.ltb_lt in Hlt.
      rewrite add_fits by (apply fits_small; lia).
      assert (Hnext : in_bounds [maxT; maxU] [t; u + 1]) by (apply in_bounds2; lia).
      now rewrite !rd_fits by assumption.
    + now rewrite !rd_fits by assumption.
Qed.

Lemma gradient_cell_fits (lg : Z) (bm : mem CAST_DTYPE) (bt gr : Z) c t u d
      (hm : mem DTYPE) :
  0 <= t < T -> 0 <= u < U -> 0 <= d < D ->
  Int32.gradient_cell options (Int32.TensorView_new [maxT; maxU; D] lg) tm targets T U bm
    (Int32.TensorView_new [maxT; maxU] bt) (Int32.TensorView_new [maxT; maxU; D] gr) c t u d hm
  = gradient_cell options (TensorView_new [maxT; maxU; D] lg) tm targets T U bm
      (TensorView_new [maxT; maxU] bt) (TensorView_new [maxT; maxU; D] gr) c t u d hm.
Proof.
  intros Ht Hu Hd. pose proof sized_logits as Hs3.
  unfold Int32.gradient_cell, gradient_cell. cbv zeta.
  assert (Hin : in_bounds [maxT; maxU; D] [t; u; d]) by (apply in_bounds3; lia).
  rewrite gradient_value_fits by assumption.
  destruct (c_gtb (clamp_ options) c_zero);
    rewrite !wr_fits, !rd_fits by assumption; reflexivity.
Qed.

Lemma zero_loop_fits (gr : Z) t u (hm : mem DTYPE) :
  0 <= t < maxT -> 0 <= u < maxU ->
  for_up 0 D (fun d hm => Int32.wr hm (Int32.TensorView_new [maxT; maxU; D] gr) [t; u; d] d_zero) hm
  = for_up 0 D (fun d hm => wr hm (TensorView_new [maxT; maxU; D] gr) [t; u; d] d_zero) hm.
Proof.
  intros Ht Hu. pose proof sized_logits as Hs3.
  apply for_up_ext. intros d hm' Hd.
  apply wr_fits; [assumption | apply in_bounds3; lia].
Qed.

Lemma ComputeGradientsOneSequence_fits (lg : Z)
      (dm : mem CAST_DTYPE) (dn : Z) (am : mem CAST_DTYPE) (al : Z)
      (bm : mem CAST_DTYPE) (bt : Z) (gr : Z) (hm : mem DTYPE) :
  maxT = maxSrcLen_ options -> maxU = maxTgtLen_ options ->
  Int32.ComputeGradientsOneSequence options (Int32.TensorView_new [maxT; maxU; D] lg)
    tm targets T U dm (Int32.TensorView_new [maxT; maxU] dn)
    am (Int32.TensorView_new [maxT; maxU] al) bm (Int32.TensorView_new [maxT; maxU] bt)
    (Int32.TensorView_new [maxT; maxU; D] gr) hm
  = ComputeGradientsOneSequence options (TensorView_new [maxT; maxU; D] lg)
      tm targets T U dm (TensorView_new [maxT; maxU] dn)
      am (TensorView_new [maxT; maxU] al) bm (TensorView_new [maxT; maxU] bt)
      (TensorView_new [maxT; maxU; D] gr) hm.
Proof.
  intros HmaxT HmaxU. pose proof sized_logits as Hs3. pose proof sized_lattice as Hs2.
  unfold Int32.ComputeGradientsOneSequence, ComputeGradientsOneSequence. cbv zeta.
  fold D. rewrite <- HmaxT, <- HmaxU.
  assert (Horigin3 : in_bounds [maxT; maxU; D] [0; 0; 0]) by (apply in_bounds3; lia).
  assert (Horigin2 : in_bounds [maxT; maxU] [0; 0]) by (apply in_bounds2; lia).
  rewrite !address_fits by assumption.
  rewrite (rd_fits bm bt Hs2 Horigin2).
  match goal with
  | |- (if ?c then ?x else ?y) = (if ?c then ?x' else ?y') =>
      assert (Hcells : y = y')
  end.
  { apply for_up_ext. intros t hm1 Ht.
    apply for_up_ext. intros u hm2 Hu.
    rewrite !rd_fits by (try assumption; apply in_bounds2; lia).
    apply for_up_ext. intros d hm3 Hd.
    apply gradient_cell_fits; assumption. }
  rewrite Hcells.
  destruct (address (TensorView_new [maxT; maxU; D] gr) [0; 0; 0]
            =? address (TensorView_new [maxT; maxU; D] lg) [0; 0; 0]); [| reflexivity].
  match goal with
  | |- for_up 0 T ?f ?x = for_up 0 T ?f' ?x' => assert (Hrows : x = x')
  end.
  { apply for_up_ext. intros t hm1 Ht.
    apply for_up_ext. intros u hm2 Hu.
    apply zero_loop_fits; lia. }
  rewrite Hrows.
  apply for_up_ext. intros t hm1 Ht.
  apply for_up_ext. intros u hm2 Hu.
  apply zero_loop_fits; lia.
Qed.
End OneSequence.

Section Batch.
Variable options : Options.
Variable tm : mem Z.
Variable targets : Z.
Variable im : mem Z.
Variables srcLengths tgtLengths : Z.

Let B := batchSize_ options.
Let maxT := maxSrcLen_ options.
Let maxU := maxTgtLen_ options.
Let D := numTargets_ options.

Hypothesis batch_ok : batch_fits_int options.
Hypothesis fit : lengths_fit options im srcLengths tgtLengths.
Hypothesis symbols_ok : symbols_in_range options tm targets im tgtLengths.

(** The sizes of one sample, and the offsets of sample [b]. *)
Lemma sample_fits b :
  0 <= b < B ->
  1 <= maxT /\ 1 <= maxU /\ 1 <= D /\ maxT * maxU * D <= Int32.max_int /\
  Int32.mul (Int32.mul (Int32.mul b maxT) maxU) D = b * maxT * maxU * D /\
  Int32.mul (Int32.mul b maxT) maxU = b * maxT * maxU /\
  Int32.mul b (Int32.sub maxU 1) = b * (maxU - 1).
Proof.
  intros Hb. destruct batch_ok as [HT [HU [HD Hsize]]]. fold B maxT maxU D in HT, HU, HD, Hsize.
  assert (H1 : 0 <= b * maxT <= (B - 1) * maxT) by nia.
  assert (H2 : 0 <= b * maxT * maxU <= (B - 1) * maxT * maxU) by nia.
  assert (H3 : 0 <= b * maxT * maxU * D <= (B - 1) * maxT * maxU * D) by nia.
  assert (H4 : maxT * maxU * D <= B * maxT * maxU * D) by nia.
  assert (H5 : 1 <= maxT * maxU) by nia.
  assert (H6 : maxT * maxU <= maxT * maxU * D) by nia.
  assert (H7 : maxT <= maxT * maxU) by nia.
  assert (H8 : maxU <= maxT * maxU) by nia.
  assert (H9 : 0 <= b * (maxU - 1) <= b * maxU) by nia.
  assert (H10 : b * maxU <= b * maxT * maxU) by nia.
  assert (H11 : b * maxT <= b * maxT * maxU) by nia.
  assert (H12 : b * maxT * maxU <= b * maxT * maxU * D) by nia.
  unfold Int32.max_int in *.
  repeat split; try lia.
  - rewrite (mul_fits b maxT) by (apply fits_small; unfold Int32.max_int; lia).
    rewrite (mul_fits (b * maxT) maxU) by (apply fits_small; unfold Int32.max_int; lia).
    apply mul_fits. apply fits_small. unfold Int32.max_int. lia.
  - rewrite (mul_fits b maxT) by (apply fits_small; unfold Int32.max_int; lia).
    apply mul_fits. apply fits_small. unfold Int32.max_int. lia.
  - rewrite sub_fits by (apply fits_small; unfold Int32.max_int; lia).
    apply mul_fits. apply fits_small. unfold Int32.max_int. lia.
Qed.

Lemma ComputeLogProbs_fits (lm : mem DTYPE) (logits : Z)
      (dm : mem CAST_DTYPE) (denominators logProbs : Z) (pm : mem LogProbs) :
  int_lengths options im tgtLengths ->
  Int32.ComputeLogProbs options lm logits tm targets im srcLengths tgtLengths
    dm denominators logProbs pm
  = ComputeLogProbs options lm logits tm targets im srcLengths tgtLengths
      dm denominators logProbs pm.
Proof.
  intros Hints. unfold Int32.ComputeLogProbs, ComputeLogProbs. cbv zeta. f_equal.
  apply for_up_ext. intros b pm' Hb.
  destruct (sample_fits Hb) as [HT [HU [HD [Hsize [Hoff3 [Hoff2 Hofft]]]]]].
  destruct (fit Hb) as [HTb HUb]. destruct symbols_ok as [Hblank Hlabels].
  pose proof (Hints b Hb) as Hint.
  fold B maxT maxU D in Hoff3, Hoff2, Hofft |- *.
  rewrite Hoff3, Hoff2, Hofft.
  assert (Hadd : Int32.add (im (tgtLengths + b)) 1 = im (tgtLengths + b) + 1).
  { apply add_fits.
    destruct (@padded_sizes_fit options maxT maxU HT HU HD Hsize) as [_ HmaxU].
    unfold Int32.fits, Int32.min_int, Int32.max_int in *.
    fold maxU in HUb. lia. }
  rewrite Hadd.
  apply ComputeLogProbsOneSequence_fits; try assumption.
  - replace (im (tgtLengths + b) + 1 - 1) with (im (tgtLengths + b)) by lia. exact Hint.
  - intros u Hu. rewrite <- Z.add_assoc, (Z.add_comm (b * (maxU - 1))), Z.add_assoc.
    rewrite <- Z.add_assoc. rewrite (Z.add_comm u). rewrite Z.add_assoc.
    apply Hlabels; [assumption | lia].
Qed.

Lemma ComputeGradients_fits (logits : Z)
      (dm : mem CAST_DTYPE) (denominators : Z) (am : mem CAST_DTYPE) (alphas : Z)
      (bm : mem CAST_DTYPE) (betas : Z) (gradients : Z) (hm : mem DTYPE) :
  valid_lengths options im srcLengths tgtLengths ->
  Int32.ComputeGradients options logits tm targets im srcLengths tgtLengths
    dm denominators am alphas bm betas gradients hm
  = ComputeGradients options logits tm targets im srcLengths tgtLengths
      dm denominators am alphas bm betas gradients hm.
Proof.
  intros Hvalid. unfold Int32.ComputeGradients, ComputeGradients. cbv zeta.
  apply for_up_ext. intros b hm' Hb.
  destruct (sample_fits Hb) as [HT [HU [HD [Hsize [Hoff3 [Hoff2 Hofft]]]]]].
  destruct (fit Hb) as [HTb HUb]. destruct (Hvalid b Hb) as [HTpos HUpos].
  fold B maxT maxU D in Hoff3, Hoff2, Hofft |- *.
  rewrite Hoff3, Hoff2, Hofft.
  assert (Hadd : Int32.add (im (tgtLengths + b)) 1 = im (tgtLengths + b) + 1).
  { apply add_fits. apply fits_small.
    destruct (@padded_sizes_fit options maxT maxU HT HU HD Hsize) as [_ HmaxU].
    fold maxU in HUb. lia. }
  rewrite Hadd.
  apply ComputeGradientsOneSequence_fits; try assumption; try reflexivity; lia.
Qed.
End Batch.
End Int32Kernels.

(** * Exact arithmetic *)

Module ExactFacts.
Import Exact.
Local Open Scope R_scope.

Lemma exp_lse a b : exp (lse a b) = exp a + exp b.
Proof.
  unfold lse. rewrite exp_plus.
  rewrite exp_ln by (pose proof (exp_pos (- Rabs (a - b))); lra).
  destruct (Rle_dec a b) as [Hle | Hgt].
  - rewrite Rmax_right by assumption.
    rewrite Rabs_left1 by lra.
    replace (- - (a - b)) with (a - b) by lra.
    rewrite Rmult_plus_distr_l, Rmult_1_r, <- exp_plus.
    replace (b + (a - b)) with a by lra. lra.
  - rewrite Rmax_left by lra.
    rewrite Rabs_right by lra.
    rewrite Rmult_plus_distr_l, Rmult_1_r, <- exp_plus.
    replace (a + - (a - b)) with b by lra. lra.
Qed.

Lemma lse_ln a b : lse a b = ln (exp a + exp b).
Proof. rewrite <- exp_lse. now rewrite ln_exp. Qed.

Lemma lse_eq a b : a = b -> lse a b = a + ln 2.
Proof.
  intros <-. rewrite lse_ln.
  replace (exp a + exp a) with (exp a * 2) by lra.
  rewrite ln_mult by (try apply exp_pos; lra). now rewrite ln_exp.
Qed.

Lemma exp_minus_ln_2 : exp (- ln 2) = / 2.
Proof. rewrite exp_Ropp, exp_ln by lra. reflexivity. Qed.

(** *** Finite sums *)

Lemma sum_upto_ext n f g :
  (forall j, (0 <= j < Z.of_nat n)%Z -> f j = g j) -> sum_upto n f = sum_upto n g.
Proof.
  induction n as [|n IH]; intros H; [reflexivity|].
  cbn [sum_upto]. rewrite IH by (intros; apply H; lia). rewrite H by lia. reflexivity.
Qed.

Lemma sum_upto_scale c n f : sum_upto n (fun j => c * f j) = c * sum_upto n f.
Proof. induction n as [|n IH]; cbn [sum_upto]; [lra | rewrite IH; lra]. Qed.

Lemma sum_upto_exp_pos n f : (0 < n)%nat -> 0 < sum_upto n (fun j => exp (f j)).
Proof.
  induction n as [|[|n] IH]; intros Hn; [lia | |].
  - cbn [sum_upto]. pose proof (exp_pos (f (Z.of_nat 0))). lra.
  - change (sum_upto (S (S n)) (fun j => exp (f j)))
      with (sum_upto (S n) (fun j => exp (f j)) + exp (f (Z.of_nat (S n)))).
    pose proof (exp_pos (f (Z.of_nat (S n)))).
    assert (0 < sum_upto (S n) (fun j => exp (f j))) by (apply IH; lia). lra.
Qed.

Lemma sum_upto_minus n f g :
  sum_upto n (fun d => f d - g d) = sum_upto n f - sum_upto n g.
Proof. induction n as [|n IH]; cbn [sum_upto]; [lra | rewrite IH; lra]. Qed.

Lemma sum_upto_zero n : sum_upto n (fun _ => 0) = 0.
Proof. induction n as [|n IH]; cbn [sum_upto]; [lra | rewrite IH; lra]. Qed.

(** A sum with a single non-zero term. *)
Lemma sum_upto_pick n k f :
  (0 <= k < Z.of_nat n)%Z ->
  sum_upto n (fun d => if (d =? k)%Z then f d else 0) = f k.
Proof.
  induction n as [|n IH]; intros Hk; [lia|].
  cbn [sum_upto]. destruct (Z.eqb_spec (Z.of_nat n) k) as [Heq | Hne].
  - rewrite (sum_upto_ext n _ (fun _ => 0)).
    + rewrite sum_upto_zero, Heq. lra.
    + intros j Hj. destruct (Z.eqb_spec j k); [lia | reflexivity].
  - rewrite IH by lia. lra.
Qed.

Lemma sum_upto_none n k f :
  ~ (0 <= k < Z.of_nat n)%Z ->
  sum_upto n (fun d => if (d =? k)%Z then f d else 0) = 0.
Proof.
  intros Hk. rewrite (sum_upto_ext n _ (fun _ => 0)).
  - apply sum_upto_zero.
  - intros j Hj. destruct (Z.eqb_spec j k); [lia | reflexivity].
Qed.

Section PathWeightFacts.
Variables a b : Z -> Z -> R.

Local Abbreviation F := (path_weight_last a b).
Local Abbreviation G := (path_weight_first a b).

Lemma F_first_row t0 u0 n :
  F t0 u0 O (S n) = b t0 u0 * F t0 (u0 + 1)%Z O n.
Proof.
  induction n as [|n IH].
  - cbn [path_weight_last]. replace (u0 + Z.of_nat 0)%Z with u0 by lia. lra.
  - change (F t0 u0 O (S (S n))) with (F t0 u0 O (S n) * b t0 (u0 + Z.of_nat (S n))%Z).
    rewrite IH.
    change (F t0 (u0 + 1)%Z O (S n)) with (F t0 (u0 + 1)%Z O n * b t0 (u0 + 1 + Z.of_nat n)%Z).
    replace (u0 + 1 + Z.of_nat n)%Z with (u0 + Z.of_nat (S n))%Z by lia. lra.
Qed.

Lemma F_first_col t0 u0 m :
  F t0 u0 (S m) O = a t0 u0 * F (t0 + 1)%Z u0 m O.
Proof.
  induction m as [|m IH].
  - cbn [path_weight_last]. replace (t0 + Z.of_nat 0)%Z with t0 by lia. lra.
  - change (F t0 u0 (S (S m)) O) with (F t0 u0 (S m) O * a (t0 + Z.of_nat (S m))%Z u0).
    rewrite IH.
    change (F (t0 + 1)%Z u0 (S m) O) with (F (t0 + 1)%Z u0 m O * a (t0 + 1 + Z.of_nat m)%Z u0).
    replace (t0 + 1 + Z.of_nat m)%Z with (t0 + Z.of_nat (S m))%Z by lia. lra.
Qed.

Lemma F_last_step t0 u0 m n :
  F t0 u0 (S m) (S n) =
  F t0 u0 m (S n) * a (t0 + Z.of_nat m)%Z (u0 + Z.of_nat (S n))%Z
  + F t0 u0 (S m) n * b (t0 + Z.of_nat (S m))%Z (u0 + Z.of_nat n)%Z.
Proof. reflexivity. Qed.

Lemma Z_add_1_swap (x : Z) (n : nat) : (x + 1 + Z.of_nat n = x + Z.of_nat n + 1)%Z.
Proof. lia. Qed.

Ltac norm_idx :=
  repeat match goal with
         | |- context [Z.of_nat (S ?n)] => rewrite (Nat2Z.inj_succ n)
         end;
  change (Z.of_nat 0) with 0%Z; unfold Z.succ;
  rewrite ?Z.add_assoc, ?Z.add_0_r;
  rewrite ?Z_add_1_swap.

Lemma F_first_step m : forall n t0 u0,
  F t0 u0 (S m) (S n) =
  a t0 u0 * F (t0 + 1)%Z u0 m (S n) + b t0 u0 * F t0 (u0 + 1)%Z (S m) n.
Proof.
  induction m as [|m IHm]; induction n as [|n IHn]; intros t0 u0.
  - cbn [path_weight_last]. norm_idx. lra.
  - rewrite F_last_step, IHn, F_first_row.
    rewrite (F_last_step t0 (u0 + 1)%Z O n).
    change (F (t0 + 1)%Z u0 O (S (S n)))
      with (F (t0 + 1)%Z u0 O (S n) * b (t0 + 1)%Z (u0 + Z.of_nat (S n))%Z).
    norm_idx. lra.
  - rewrite F_last_step, IHm, (F_first_col t0 u0 (S m)).
    rewrite (F_last_step (t0 + 1)%Z u0 m O).
    change (F t0 (u0 + 1)%Z (S (S m)) O)
      with (F t0 (u0 + 1)%Z (S m) O * a (t0 + Z.of_nat (S m))%Z (u0 + 1)%Z).
    norm_idx. lra.
  - rewrite F_last_step, IHm, IHn.
    rewrite (F_last_step (t0 + 1)%Z u0 m (S n)).
    rewrite (F_last_step t0 (u0 + 1)%Z (S m) n).
    norm_idx. lra.
Qed.

(** Splitting at the last or at the first transition gives the same sum. *)
Lemma path_weight_last_first m : forall n t0 u0, F t0 u0 m n = G m n t0 u0.
Proof.
  induction m as [|m IHm]; induction n as [|n IHn]; intros t0 u0.
  - reflexivity.
  - rewrite F_first_row, IHn. reflexivity.
  - rewrite F_first_col, IHm. reflexivity.
  - rewrite F_first_step, IHm, IHn. reflexivity.
Qed.
End PathWeightFacts.

(** *** The passes against the path weights *)

Section ScoresAgree.
Variable lp : Z -> Z -> @LogProbs RNumeric.

Definition blank_weight (t u : Z) : R := exp (skip_ (lp t u)).
Definition label_weight (t u : Z) : R := exp (emit_ (lp t u)).

Local Abbreviation F := (path_weight_last blank_weight label_weight).
Local Abbreviation G := (path_weight_first blank_weight label_weight).

Ltac real_ops :=
  change (@c_add RNumeric) with Rplus in *;
  change (@c_lse RNumeric) with lse in *;
  change (@c_zero RNumeric) with 0 in *.

Lemma exp_alpha_rec t : forall u, exp (alpha_rec lp t u) = F 0%Z 0%Z t u.
Proof.
  induction t as [|t IHt]; induction u as [|u IHu].
  - cbn [alpha_rec path_weight_last]. real_ops. apply exp_0.
  - change (alpha_rec lp O (S u))
      with (c_add (alpha_rec lp O u) (emit_ (lp 0%Z (Z.of_nat u)))).
    real_ops. rewrite exp_plus, IHu. reflexivity.
  - change (alpha_rec lp (S t) O)
      with (c_add (alpha_rec lp t O) (skip_ (lp (Z.of_nat t) 0%Z))).
    real_ops. rewrite exp_plus, IHt. reflexivity.
  - change (alpha_rec lp (S t) (S u))
      with (c_lse (c_add (alpha_rec lp t (S u)) (skip_ (lp (Z.of_nat t) (Z.of_nat (S u)))))
                  (c_add (alpha_rec lp (S t) u) (emit_ (lp (Z.of_nat (S t)) (Z.of_nat u))))).
    real_ops. rewrite exp_lse, !exp_plus, IHt, IHu. reflexivity.
Qed.

Lemma exp_beta_rec T U i : forall j,
  exp (beta_rec lp T U i j)
  = G i j (T - 1 - Z.of_nat i)%Z (U - 1 - Z.of_nat j)%Z * blank_weight (T - 1) (U - 1).
Proof.
  induction i as [|i IHi]; induction j as [|j IHj].
  - cbn [beta_rec path_weight_first]. unfold blank_weight. lra.
  - change (beta_rec lp T U O (S j))
      with (c_add (beta_rec lp T U O j) (emit_ (lp (T - 1)%Z (U - 1 - Z.of_nat (S j))%Z))).
    real_ops. rewrite exp_plus, IHj.
    change (G O (S j) (T - 1 - Z.of_nat 0)%Z (U - 1 - Z.of_nat (S j))%Z)
      with (label_weight (T - 1 - Z.of_nat 0)%Z (U - 1 - Z.of_nat (S j))%Z
            * G O j (T - 1 - Z.of_nat 0)%Z (U - 1 - Z.of_nat (S j) + 1)%Z).
    replace (U - 1 - Z.of_nat (S j) + 1)%Z with (U - 1 - Z.of_nat j)%Z by lia.
    replace (T - 1 - Z.of_nat 0)%Z with (T - 1)%Z by lia.
    unfold label_weight. lra.
  - change (beta_rec lp T U (S i) O)
      with (c_add (beta_rec lp T U i O) (skip_ (lp (T - 1 - Z.of_nat (S i))%Z (U - 1)%Z))).
    real_ops. rewrite exp_plus, IHi.
    change (G (S i) O (T - 1 - Z.of_nat (S i))%Z (U - 1 - Z.of_nat 0)%Z)
      with (blank_weight (T - 1 - Z.of_nat (S i))%Z (U - 1 - Z.of_nat 0)%Z
            * G i O (T - 1 - Z.of_nat (S i) + 1)%Z (U - 1 - Z.of_nat 0)%Z).
    replace (T - 1 - Z.of_nat (S i) + 1)%Z with (T - 1 - Z.of_nat i)%Z by lia.
    replace (U - 1 - Z.of_nat 0)%Z with (U - 1)%Z by lia.
    unfold blank_weight. lra.
  - change (beta_rec lp T U (S i) (S j))
      with (c_lse (c_add (beta_rec lp T U i (S j))
                         (skip_ (lp (T - 1 - Z.of_nat (S i))%Z (U - 1 - Z.of_nat (S j))%Z)))
                  (c_add (beta_rec lp T U (S i) j)
                         (emit_ (lp (T - 1 - Z.of_nat (S i))%Z (U - 1 - Z.of_nat (S j))%Z)))).
    real_ops. rewrite exp_lse, !exp_plus, IHi, IHj.
    change (G (S i) (S j) (T - 1 - Z.of_nat (S i))%Z (U - 1 - Z.of_nat (S j))%Z)
      with (blank_weight (T - 1 - Z.of_nat (S i))%Z (U - 1 - Z.of_nat (S j))%Z
            * G i (S j) (T - 1 - Z.of_nat (S i) + 1)%Z (U - 1 - Z.of_nat (S j))%Z
            + label_weight (T - 1 - Z.of_nat (S i))%Z (U - 1 - Z.of_nat (S j))%Z
              * G (S i) j (T - 1 - Z.of_nat (S i))%Z (U - 1 - Z.of_nat (S j) + 1)%Z).
    replace (T - 1 - Z.of_nat (S i) + 1)%Z with (T - 1 - Z.of_nat i)%Z by lia.
    replace (U - 1 - Z.of_nat (S j) + 1)%Z with (U - 1 - Z.of_nat j)%Z by lia.
    unfold blank_weight, label_weight. lra.
Qed.

(** In exact arithmetic the forward score is the backward score. *)
Lemma forward_score_is_backward_score T U :
  (1 <= T)%Z -> (1 <= U)%Z ->
  alphaZ lp (T - 1) (U - 1) + skip_ (lp (T - 1)%Z (U - 1)%Z) = betaZ lp T U 0 0.
Proof.
  intros HT HU. apply exp_inv. rewrite exp_plus. unfold alphaZ, betaZ.
  rewrite exp_alpha_rec, exp_beta_rec, path_weight_last_first.
  rewrite !Z2Nat.id by lia.
  replace (T - 1 - (T - 1 - 0))%Z with 0%Z by lia.
  replace (U - 1 - (U - 1 - 0))%Z with 0%Z by lia.
  replace (T - 1 - 0)%Z with (T - 1)%Z by lia.
  replace (U - 1 - 0)%Z with (U - 1)%Z by lia.
  reflexivity.
Qed.
End ScoresAgree.
End ExactFacts.

(** ** An entry of a row is at most the log-sum-exp of the row *)

Module LogSoftmaxFacts.
Import Exact ExactFacts.
Local Open Scope R_scope.

Lemma sum_upto_nonneg n f : (forall j, 0 <= f j) -> 0 <= sum_upto n f.
Proof.
  intros Hf. induction n as [|n IH]; cbn [sum_upto]; [lra|].
  specialize (Hf (Z.of_nat n)). lra.
Qed.

Lemma term_le_sum n k f :
  (forall j, 0 <= f j) -> (0 <= k < Z.of_nat n)%Z -> f k <= sum_upto n f.
Proof.
  intros Hf. induction n as [|n IH]; intros Hk; [lia|].
  cbn [sum_upto]. destruct (Z.eq_dec k (Z.of_nat n)) as [-> | Hne].
  - pose proof (@sum_upto_nonneg n f Hf). lra.
  - specialize (IH ltac:(lia)). specialize (Hf (Z.of_nat n)). lra.
Qed.

(** No entry exceeds the log-sum-exp of its row. *)
Lemma entry_le_log_sum_exp n k x :
  (0 <= k < Z.of_nat n)%Z -> x k <= ln (sum_upto n (fun d => exp (x d))).
Proof.
  intros Hk. rewrite <- (ln_exp (x k)) at 1.
  assert (Hle : exp (x k) <= sum_upto n (fun d => exp (x d))).
  { apply (@term_le_sum n k (fun d => exp (x d))); [| assumption].
    intros j. left. apply exp_pos. }
  destruct Hle as [Hlt | Heq].
  - left. apply ln_increasing; [apply exp_pos | assumption].
  - rewrite <- Heq. right. reflexivity.
Qed.
End LogSoftmaxFacts.

(** * Frame of the unrestricted passes *)

Section Frame.
Context {NUM : Numeric} {INF : NumericInf}.

Lemma padding_not_lattice maxT maxU base T U t u :
  U <= maxU -> padding_cell maxT maxU T U t u ->
  forall t' u', in_lattice T U t' u' ->
    address (TensorView_new [maxT; maxU] base) [t; u]
    <> address (TensorView_new [maxT; maxU] base) [t'; u'].
Proof.
  intros HU (Ht & Hu & Hout) t' u' [Ht' Hu'] Heq.
  apply address2_inj in Heq; lia.
Qed.

Lemma ComputeAlphas_frame new_check options pm logProbs im srcLengths tgtLengths alphas wm am a :
  valid_lengths options im srcLengths tgtLengths ->
  outside_lattices options im srcLengths tgtLengths alphas a ->
  ComputeAlphas new_check options pm logProbs im srcLengths tgtLengths alphas wm None am a = am a.
Proof.
  intros Hlen Hout. unfold ComputeAlphas. cbv zeta.
  destruct (Z_lt_le_dec (batchSize_ options) 0) as [Hneg | Hpos].
  { rewrite for_up_empty by lia. reflexivity. }
  apply for_up_inv with (P := fun (_ : Z) m => m a = am a).
  - assumption.
  - reflexivity.
  - intros b m Hb Hm. rewrite <- Hm.
    destruct (Hlen b Hb) as [HT HU].
    match goal with |- snd (ComputeAlphaOneSequence _ _ ?lpv ?T ?U (TensorView_new [?mT; ?mU] ?base) _) _ = _ =>
      destruct (@ComputeAlphaOneSequence_filled _ options pm lpv mT mU base T U
                  ltac:(lia) ltac:(lia) ltac:(lia) m) as [_ Hframe]
    end.
    apply Hframe. intros t u Hin. apply Hout; assumption.
Qed.

Lemma ComputeBetas_frame new_check options pm logProbs im srcLengths tgtLengths betas wm bm a :
  valid_lengths options im srcLengths tgtLengths ->
  outside_lattices options im srcLengths tgtLengths betas a ->
  ComputeBetas new_check options pm logProbs im srcLengths tgtLengths betas wm None bm a = bm a.
Proof.
  intros Hlen Hout. unfold ComputeBetas. cbv zeta.
  destruct (Z_lt_le_dec (batchSize_ options) 0) as [Hneg | Hpos].
  { rewrite for_up_empty by lia. reflexivity. }
  apply for_up_inv with (P := fun (_ : Z) m => m a = bm a).
  - assumption.
  - reflexivity.
  - intros b m Hb Hm. rewrite <- Hm.
    destruct (Hlen b Hb) as [HT HU].
    match goal with |- snd (ComputeBetaOneSequence _ _ ?lpv ?T ?U (TensorView_new [?mT; ?mU] ?base) _) _ = _ =>
      destruct (@ComputeBetaOneSequence_filled _ options pm lpv mT mU base T U
                  ltac:(lia) ltac:(lia) ltac:(lia) m) as [_ Hframe]
    end.
    apply Hframe. intros t u Hin. apply Hout; assumption.
Qed.
End Frame.

(** C10.  The unrestricted passes [ComputeAlphaOneSequence] and
    [ComputeBetaOneSequence], run on a sample with [srcLen >= 1] and
    [1 <= tgtLen <= maxU], write only lattice cells [(t, u)] with
    [t < srcLen] and [u < tgtLen] of their output view: every other address
    of the buffer, and in particular every padding cell of the
    [maxT x maxU] view, holds after the call what it held before.  The
    same holds for the whole buffers the diagnostic drivers [ComputeAlphas]
    and [ComputeBetas] hand back when no [wpEnds] is given: what lies
    outside the lattices of the samples is whatever the caller left there. *)
Theorem unrestricted_passes_write_only_lattice_cells
        (NUM : Numeric) (INF : NumericInf)
        (new_check : mem Z -> Z -> Z -> Z -> Z -> Z -> AlignmentRestrictionCheck)
        (options : Options) (pm : mem LogProbs) (logProbs : TensorView)
        (maxT maxU base srcLen tgtLen : Z) (m : mem CAST_DTYPE)
        (lps : Z) (im : mem Z) (srcLengths tgtLengths buffer : Z) (wm : mem Z) :
  1 <= srcLen -> 1 <= tgtLen <= maxU ->
  valid_lengths options im srcLengths tgtLengths ->
  let view := TensorView_new [maxT; maxU] base in
  let alpha' := snd (ComputeAlphaOneSequence options pm logProbs srcLen tgtLen view m) in
  let beta' := snd (ComputeBetaOneSequence options pm logProbs srcLen tgtLen view m) in
  (forall a, (forall t u, in_lattice srcLen tgtLen t u -> a <> address view [t; u]) ->
             alpha' a = m a /\ beta' a = m a) /\
  (forall t u, padding_cell maxT maxU srcLen tgtLen t u ->
               rd alpha' view [t; u] = rd m view [t; u] /\
               rd beta' view [t; u] = rd m view [t; u]) /\
  (forall a, outside_lattices options im srcLengths tgtLengths buffer a ->
             ComputeAlphas new_check options pm lps im srcLengths tgtLengths buffer wm None m a
             = m a /\
             ComputeBetas new_check options pm lps im srcLengths tgtLengths buffer wm None m a
             = m a).
Proof.
  intros HT HU Hlen view alpha' beta'.
  destruct (@ComputeAlphaOneSequence_filled _ options pm logProbs maxT maxU base srcLen tgtLen
              ltac:(lia) ltac:(lia) ltac:(lia) m) as [_ Ha].
  destruct (@ComputeBetaOneSequence_filled _ options pm logProbs maxT maxU base srcLen tgtLen
              ltac:(lia) ltac:(lia) ltac:(lia) m) as [_ Hb].
  assert (Hframe : forall a,
             (forall t u, in_lattice srcLen tgtLen t u -> a <> address view [t; u]) ->
             alpha' a = m a /\ beta' a = m a).
  { intros a Hout. split; [apply Ha | apply Hb]; exact Hout. }
  split; [exact Hframe|]. split.
  - intros t u Hpad. unfold rd. apply Hframe.
    apply padding_not_lattice with (maxT := maxT); [lia | exact Hpad].
  - intros a Hout. split.
    + now apply ComputeAlphas_frame.
    + now apply ComputeBetas_frame.
Qed.

Lemma unrestricted_passes_write_only_lattice_cells_witness :
  (1 <= 2 /\ 1 <= 1 <= 2) /\
  forall libm : Float32.Libm,
    let NUM := Float32.F32Numeric libm in
    let options := Samples.options_3x2 libm in
    let pm := Samples.logProbs_const libm in
    let m := Samples.stale libm in
    let view := TensorView_new [3; 2] 0 in
    let alpha' := snd (ComputeAlphaOneSequence options pm view 2 1 view m) in
    let beta' := snd (ComputeBetaOneSequence options pm view 2 1 view m) in
    valid_lengths options Samples.lengths_2_0 0 1 /\
    (forall a, (forall t u, in_lattice 2 1 t u -> a <> address view [t; u]) ->
               alpha' a = m a /\ beta' a = m a) /\
    (forall t u, padding_cell 3 2 2 1 t u ->
                 rd alpha' view [t; u] = rd m view [t; u] /\
                 rd beta' view [t; u] = rd m view [t; u]) /\
    (forall a, outside_lattices options Samples.lengths_2_0 0 1 0 a ->
               ComputeAlphas (INF := Float32.F32NumericInf libm) Samples.new_check_all
                             options pm 0 Samples.lengths_2_0 0 1 0 (fun _ => 0) None m a = m a /\
               ComputeBetas (INF := Float32.F32NumericInf libm) Samples.new_check_all
                            options pm 0 Samples.lengths_2_0 0 1 0 (fun _ => 0) None m a = m a).
Proof.
  split; [lia|]. intros libm NUM options pm m view alpha' beta'.
  assert (Hlen : valid_lengths options Samples.lengths_2_0 0 1).
  { intros b Hb. cbn in Hb. assert (b = 0) by lia. subst b. cbn. lia. }
  split; [exact Hlen|].
  apply (@unrestricted_passes_write_only_lattice_cells
           NUM (Float32.F32NumericInf libm) Samples.new_check_all options pm view
           3 2 0 2 1 m 0 Samples.lengths_2_0 0 1 0 (fun _ => 0));
    [lia | lia | exact Hlen].
Defined.

(** C10 as stated fails on a sample without frames.  With [srcLen = 0] and
    [tgtLen = 1] no cell satisfies [t < srcLen], yet
    [ComputeAlphaOneSequence] stores [0] into [alpha(0, 0)], the first
    element of the view, and [ComputeBetaOneSequence] stores
    [logProbs(-1, 0).skip] into [beta(-1, 0)], two elements before it: both
    change an element that held [7] before the call. *)
Lemma pass_without_frames_writes_outside_the_lattice :
  let options := Samples.Roptions 1 2 2 2 0 0%R true in
  let pm := Samples.RlogProbs_zero in
  let logProbs := TensorView_new [2; 2] 0 in
  let view := TensorView_new [2; 2] 10 in
  let m : mem (@CAST_DTYPE Exact.RNumeric) := fun _ => 7%R in
  let alpha' := snd (ComputeAlphaOneSequence options pm logProbs 0 1 view m) in
  let beta' := snd (ComputeBetaOneSequence options pm logProbs 0 1 view m) in
  (forall t u, ~ in_lattice 0 1 t u) /\
  (alpha' (address view [0; 0]) = 0%R /\ m (address view [0; 0]) = 7%R) /\
  (beta' (address view [-1; 0]) = 0%R /\ m (address view [-1; 0]) = 7%R) /\
  ~ (forall a, (forall t u, in_lattice 0 1 t u -> a <> address view [t; u]) ->
               alpha' a = m a /\ beta' a = m a).
Proof.
  intros options pm logProbs view m alpha' beta'.
  assert (Hempty : forall t u, ~ in_lattice 0 1 t u).
  { intros t u [Ht _]. lia. }
  assert (Ha : alpha' (address view [0; 0]) = 0%R) by reflexivity.
  assert (Hb : beta' (address view [-1; 0]) = 0%R) by reflexivity.
  split; [exact Hempty|].
  split; [split; [exact Ha | reflexivity]|].
  split; [split; [exact Hb | reflexivity]|].
  intros Hframe.
  destruct (Hframe (address view [0; 0])) as [Hsame _].
  { intros t u Hin. now apply Hempty in Hin. }
  rewrite Ha in Hsame. unfold m in Hsame. lra.
Qed.

(** * The cost written by the batch driver *)

Section Costs.
Context {NUM : Numeric} {INF : NumericInf}.
Local Open Scope num_scope.

Variable new_check : mem Z -> Z -> Z -> Z -> Z -> Z -> AlignmentRestrictionCheck.
Variable options : Options.
Variable pm : mem LogProbs.
Variable logProbs : Z.
Variable im : mem Z.
Variables srcLengths tgtLengths : Z.
Variables alphas betas costs : Z.
Variable wm : mem Z.

Let B := batchSize_ options.
Let maxT := maxSrcLen_ options.
Let maxU := maxTgtLen_ options.
Let seqlogProbs b := TensorView_new [maxT; maxU] (logProbs + b * maxT * maxU).
Let seq_betas b := TensorView_new [maxT; maxU] (betas + b * maxT * maxU).

(** The value [beta(0, 0)] of sample [b], in closed form. *)
Definition backward_score_of (b : Z) : CAST_DTYPE :=
  betaZ (fun t u => rd pm (seqlogProbs b) [t; u])
        (im (srcLengths + b)) (im (tgtLengths + b) + 1) 0 0.

Hypothesis lengths_ok : valid_lengths options im srcLengths tgtLengths.

Lemma even_task_score b am bm :
  0 <= b < B ->
  fst (ComputeAlphaOrBetaOneSequence new_check (2 * b) options pm (seqlogProbs b)
         (im (srcLengths + b)) (im (tgtLengths + b) + 1)
         (TensorView_new [maxT; maxU] (alphas + b * maxT * maxU)) (seq_betas b)
         wm None am bm)
  = backward_score_of b.
Proof.
  intros Hb. destruct (lengths_ok Hb) as [HT HU].
  unfold ComputeAlphaOrBetaOneSequence.
  replace (Z.land (2 * b) 1) with 0.
  2:{ change 1 with (Z.ones 1). rewrite Z.land_ones by lia.
      rewrite Z.mul_comm, Z.mod_mul; lia. }
  cbn [Z.eqb negb].
  pose proof (@ComputeBetaOneSequence_score _ options pm (seqlogProbs b) maxT maxU
                (betas + b * maxT * maxU) (im (srcLengths + b)) (im (tgtLengths + b) + 1)
                ltac:(lia) ltac:(lia) ltac:(unfold maxU; lia) bm) as Hs.
  fold (seq_betas b) in Hs.
  destruct (ComputeBetaOneSequence options pm (seqlogProbs b) (im (srcLengths + b))
              (im (tgtLengths + b) + 1) (seq_betas b) bm) as [score bm'].
  cbn [fst] in *. exact Hs.
Qed.

Lemma ComputeAlphasBetas_costs am bm cm b :
  0 <= b < B ->
  snd (ComputeAlphasBetas new_check options pm logProbs im srcLengths tgtLengths
         alphas betas costs wm None am bm cm) (costs + b)
  = uncast (-. backward_score_of b).
Proof.
  intros Hb. unfold ComputeAlphasBetas. cbv zeta. cbn [snd option_map].
  fold B maxT maxU.
  match goal with |- for_up 0 B _ _ _ = _ => idtac end.
  match goal with |- for_up 0 B (fun b0 cm0 => store cm0 _ (uncast (-. ab_scores ?st _))) _ _ = _ =>
    set (final := st)
  end.
  (* the scores of the even tasks *)
  assert (Hscores : forall b', 0 <= 2 * b' < B * 2 ->
                               ab_scores final (2 * b') = backward_score_of b').
  { subst final.
    rewrite Z.shiftl_mul_pow2 by lia. change (2 ^ 1) with 2.
    apply for_up_inv
      with (P := fun j st => forall b', 0 <= 2 * b' < j -> ab_scores st (2 * b') = backward_score_of b').
    - lia.
    - intros b' Hb'. lia.
    - intros j st Hj Hst b' Hb'.
      rewrite Z.shiftr_div_pow2 by lia. change (2 ^ 1) with 2.
      destruct (ComputeAlphaOrBetaOneSequence _ _ _ _ _ _ _ _ _ _ _ _ _)
        as [score [am' bm']] eqn:Hcall.
      cbn [ab_scores].
      destruct (store_cases (ab_scores st) j score (2 * b')) as [[Heq Hs] | [Hne Hs]];
        rewrite Hs.
      + subst j. rewrite Z.mul_comm, Z.div_mul in Hcall by lia.
        rewrite Z.mul_comm in Hcall.
        pose proof (@even_task_score b' (ab_alphas st) (ab_betas st) ltac:(lia)) as He.
        unfold seqlogProbs, seq_betas in *.
        rewrite Hcall in He. exact He.
      + apply Hst. lia. }
  (* the copy into [costs] *)
  assert (Hcopy : forall j, 0 <= j <= B -> forall b', 0 <= b' < j ->
            for_up 0 j (fun b0 cm0 => store cm0 (costs + b0)
                                        (uncast (-. ab_scores final (Z.shiftl b0 1)))) cm
              (costs + b')
            = uncast (-. backward_score_of b')).
  { intros j Hj.
    apply for_up_inv
      with (P := fun j cm' => forall b', 0 <= b' < j ->
                   cm' (costs + b') = uncast (-. backward_score_of b')).
    - lia.
    - intros b' Hb'. lia.
    - intros k cm' Hk Hcm b' Hb'.
      destruct (store_cases cm' (costs + k)
                  (uncast (-. ab_scores final (Z.shiftl k 1))) (costs + b'))
        as [[Heq Hs] | [Hne Hs]]; rewrite Hs.
      + assert (b' = k) by lia. subst k.
        rewrite Z.shiftl_mul_pow2 by lia. change (2 ^ 1) with 2.
        rewrite (Z.mul_comm b' 2). rewrite Hscores by lia. reflexivity.
      + apply Hcm. lia. }
  apply Hcopy; lia.
Qed.
End Costs.

(** C1, as the code has it.  For every sample [b] of a batch without
    [wpEnds] (with [srcLengths[b] >= 1] and [0 <= tgtLengths[b] < maxU]),
    the cost [ComputeAlphasBetas] writes is the negated BACKWARD score:
    [costs[b] = -beta(0, 0)], the value [ComputeBetaOneSequence] returns for
    that sample (whatever its [beta] buffer held before), converted to
    [DTYPE].  The score of the odd task, the forward score, is never read. *)
Theorem costs_are_negated_backward_scores
        (NUM : Numeric) (INF : NumericInf)
        (new_check : mem Z -> Z -> Z -> Z -> Z -> Z -> AlignmentRestrictionCheck)
        (options : Options) (pm : mem LogProbs) (logProbs : Z)
        (im : mem Z) (srcLengths tgtLengths alphas betas costs : Z) (wm : mem Z)
        (am bm : mem CAST_DTYPE) (cm : mem DTYPE) (b : Z) (bm0 : mem CAST_DTYPE) :
  valid_lengths options im srcLengths tgtLengths ->
  0 <= b < batchSize_ options ->
  let maxT := maxSrcLen_ options in
  let maxU := maxTgtLen_ options in
  let backward_score :=
    fst (ComputeBetaOneSequence options pm
           (TensorView_new [maxT; maxU] (logProbs + b * maxT * maxU))
           (im (srcLengths + b)) (im (tgtLengths + b) + 1)
           (TensorView_new [maxT; maxU] (betas + b * maxT * maxU)) bm0) in
  snd (ComputeAlphasBetas new_check options pm logProbs im srcLengths tgtLengths
         alphas betas costs wm None am bm cm) (costs + b)
  = uncast (c_neg backward_score).
Proof.
  intros Hlen Hb maxT maxU backward_score.
  rewrite ComputeAlphasBetas_costs by assumption.
  subst backward_score. destruct (Hlen b Hb) as [HT HU].
  rewrite ComputeBetaOneSequence_score by (try lia; unfold maxU; lia).
  reflexivity.
Qed.

(** C1 as stated fails in the arithmetic of the [float] accumulator.  One
    sample with three frames and no label, blank log-probabilities
    [-2^24, -1, -1]: the forward pass adds them in the order
    [((0 + -2^24) + -1) + -1 = -2^24] (each [-1] is lost to rounding), the
    backward pass in the order [(-1 + -1) + -2^24 = -(2^24 + 2)] (exact).
    The cost written is [2^24 + 2], the negated forward score is [2^24]. *)
Lemma cost_is_not_the_negated_forward_score :
  (1 <= Samples.lengths_3_0 0 /\ 0 <= Samples.lengths_3_0 1) /\
  forall libm : Float32.Libm,
    let NUM := Float32.F32Numeric libm in
    let INF := Float32.F32NumericInf libm in
    let options := Samples.options_3x1 libm in
    let pm := Samples.logProbs_3x1 libm in
    let view := TensorView_new [3; 1] 0 in
    let cost :=
      snd (ComputeAlphasBetas Samples.new_check_all options pm 0 Samples.lengths_3_0 0 1
             0 0 0 (fun _ => 0) None (Samples.stale libm) (Samples.stale libm)
             (Samples.stale libm)) 0 in
    let forward_score :=
      fst (ComputeAlphaOneSequence options pm view 3 1 view (Samples.stale libm)) in
    cost = Float32.of_Z 16777218 /\
    uncast (c_neg forward_score) = Float32.of_Z 16777216 /\
    cost <> uncast (c_neg forward_score).
Proof.
  split; [cbn; lia|]. intros libm NUM INF options pm view cost forward_score.
  assert (Hc : cost = Float32.of_Z 16777218) by (vm_compute; reflexivity).
  assert (Hf : uncast (c_neg forward_score) = Float32.of_Z 16777216)
    by (vm_compute; reflexivity).
  split; [exact Hc | split; [exact Hf |]].
  rewrite Hc, Hf. vm_compute. discriminate.
Qed.

Lemma costs_are_negated_backward_scores_witness :
  (1 <= Samples.lengths_3_0 0 /\ 0 <= Samples.lengths_3_0 1 < 1) /\
  forall libm : Float32.Libm,
    let NUM := Float32.F32Numeric libm in
    let INF := Float32.F32NumericInf libm in
    let options := Samples.options_3x1 libm in
    let pm := Samples.logProbs_3x1 libm in
    let view := TensorView_new [3; 1] 0 in
    valid_lengths options Samples.lengths_3_0 0 1 /\
    0 <= 0 < batchSize_ options /\
    snd (ComputeAlphasBetas Samples.new_check_all options pm 0 Samples.lengths_3_0 0 1
           0 0 0 (fun _ => 0) None (Samples.stale libm) (Samples.stale libm)
           (Samples.stale libm)) 0
    = uncast (c_neg (fst (ComputeBetaOneSequence options pm view 3 1 view
                            (Samples.stale libm)))).
Proof.
  split; [cbn; lia|]. intros libm NUM INF options pm view.
  assert (Hlen : valid_lengths options Samples.lengths_3_0 0 1).
  { intros b Hb. cbn in Hb. assert (b = 0) by lia. subst b. cbn. lia. }
  assert (Hb : 0 <= 0 < batchSize_ options) by (cbn; lia).
  split; [exact Hlen|]. split; [exact Hb|].
  exact (@costs_are_negated_backward_scores NUM INF Samples.new_check_all options pm 0
           Samples.lengths_3_0 0 1 0 0 0 (fun _ => 0)
           (Samples.stale libm) (Samples.stale libm) (Samples.stale libm) 0
           (Samples.stale libm) Hlen Hb).
Defined.

(** * Forward and backward scores *)

(** C2.  In exact (real) arithmetic, for [T >= 1] and [1 <= U <= maxU] and
    every table of log-probabilities, the forward score
    [alpha(T-1, U-1) + logProbs(T-1, U-1).skip] returned by
    [ComputeAlphaOneSequence] is the backward score [beta(0, 0)] returned by
    [ComputeBetaOneSequence] on the same table, whatever the two output
    buffers held before. *)
Theorem forward_score_equals_backward_score
        (options : @Options Exact.RNumeric) (pm : mem (@LogProbs Exact.RNumeric))
        (logProbs : TensorView) (maxT maxU alphas betas T U : Z) (am bm : mem R) :
  1 <= T -> 1 <= U -> U <= maxU ->
  fst (ComputeAlphaOneSequence options pm logProbs T U
         (TensorView_new [maxT; maxU] alphas) am)
  = fst (ComputeBetaOneSequence options pm logProbs T U
           (TensorView_new [maxT; maxU] betas) bm).
Proof.
  intros HT HU HmaxU.
  rewrite (@ComputeAlphaOneSequence_score Exact.RNumeric options pm logProbs maxT maxU alphas
             T U HT HU HmaxU am).
  rewrite (@ComputeBetaOneSequence_score Exact.RNumeric options pm logProbs maxT maxU betas
             T U HT HU HmaxU bm).
  apply ExactFacts.forward_score_is_backward_score; assumption.
Qed.

Lemma forward_score_equals_backward_score_witness :
  (1 <= 2 /\ 1 <= 2 /\ 2 <= 2) /\
  fst (ComputeAlphaOneSequence (Samples.Roptions 1 2 2 2 0 0%R true) Samples.RlogProbs_zero
         (TensorView_new [2; 2] 0) 2 2 (TensorView_new [2; 2] 0) Samples.Rzeros)
  = fst (ComputeBetaOneSequence (Samples.Roptions 1 2 2 2 0 0%R true) Samples.RlogProbs_zero
           (TensorView_new [2; 2] 0) 2 2 (TensorView_new [2; 2] 0) Samples.Rzeros).
Proof.
  split; [lia|].
  apply (@forward_score_equals_backward_score
           (Samples.Roptions 1 2 2 2 0 0%R true) Samples.RlogProbs_zero
           (TensorView_new [2; 2] 0) 2 2 0 0 2 2 Samples.Rzeros Samples.Rzeros); lia.
Defined.

(** * The denominator *)

Module LogSumExpFacts.
Import Exact ExactFacts.
Local Open Scope R_scope.

Lemma max_is_Rmax a b : max a b = Rmax a b.
Proof.
  unfold max, Rmax. destruct (Rlt_dec a b), (Rle_dec a b); lra.
Qed.

(** Shifting by any [c] before exponentiating does not change the result. *)
Lemma shifted_log_sum_exp c n f :
  (0 < n)%nat ->
  c + ln (sum_upto n (fun j => exp (f j - c))) = ln (sum_upto n (fun j => exp (f j))).
Proof.
  intros Hn.
  rewrite (sum_upto_ext n (fun j => exp (f j - c)) (fun j => exp (- c) * exp (f j))).
  2:{ intros j _. rewrite <- exp_plus. f_equal. lra. }
  rewrite sum_upto_scale.
  rewrite ln_mult by (try apply exp_pos; now apply sum_upto_exp_pos).
  rewrite ln_exp. lra.
Qed.

Section Row.
Variable D : Z.
Variable lm : mem R.
Variable logits : Z.
Hypothesis D_pos : (1 <= D)%Z.

(** The entries of the row that starts at flat position [i]. *)
Definition row_entry (i j : Z) : R := lm (logits + (i + j))%Z.

Definition row_max (i : Z) : R := max_upto (Z.to_nat (D - 1)) (row_entry i).

Lemma row_max_loop i :
  for_up 1 D (fun j mx => max mx (row_entry i j)) (row_entry i 0) = row_max i.
Proof.
  unfold row_max.
  apply for_up_inv
    with (P := fun j mx => mx = max_upto (Z.to_nat (j - 1)) (row_entry i)).
  - lia.
  - reflexivity.
  - intros j mx Hj ->. rewrite max_is_Rmax.
    replace (Z.to_nat (j + 1 - 1)) with (S (Z.to_nat (j - 1))) by lia.
    cbn [max_upto]. do 2 f_equal. lia.
Qed.

Lemma row_sum_loop i c :
  for_up 0 D (fun j sum => sum + exp (row_entry i j - c)) 0
  = sum_upto (Z.to_nat D) (fun j => exp (row_entry i j - c)).
Proof.
  apply for_up_inv
    with (P := fun j sum => sum = sum_upto (Z.to_nat j) (fun j => exp (row_entry i j - c))).
  - lia.
  - reflexivity.
  - intros j sum Hj ->.
    replace (Z.to_nat (j + 1)) with (S (Z.to_nat j)) by lia.
    cbn [sum_upto]. rewrite Z2Nat.id by lia. reflexivity.
Qed.

Lemma LogSumExp2D_row_value i outputs om :
  LogSumExp2D_row (NUM := RNumeric) D lm logits i outputs om
  = store om (outputs + Z.quot i D)
          (row_max i + ln (sum_upto (Z.to_nat D) (fun j => exp (row_entry i j - row_max i)))).
Proof.
  unfold LogSumExp2D_row. cbv zeta.
  replace (lm (logits + i)%Z) with (row_entry i 0)
    by (unfold row_entry; f_equal; lia).
  change (store om (outputs + Z.quot i D)
            (@for_up R 1 D (fun (j : Z) (mx : R) => max mx (row_entry i j)) (row_entry i 0)
             + ln (@for_up R 0 D
                     (fun (j : Z) (sum : R) =>
                        sum + exp (row_entry i j
                                   - @for_up R 1 D (fun (j : Z) (mx : R) => max mx (row_entry i j))
                                             (row_entry i 0))) 0))
          = store om (outputs + Z.quot i D)
                  (row_max i
                   + ln (sum_upto (Z.to_nat D) (fun j => exp (row_entry i j - row_max i))))).
  rewrite row_max_loop, row_sum_loop. reflexivity.
Qed.

(** The value the loop leaves in [outputs[r]]. *)
Definition row_output (r : Z) : R :=
  row_max (r * D)
  + ln (sum_upto (Z.to_nat D) (fun j => exp (row_entry (r * D) j - row_max (r * D)))).

Lemma LogSumExp2D_loop_spec N outputs (k : nat) :
  forall (r : Z) (om : mem R) (fuel : nat),
    (0 <= r)%Z -> (r + Z.of_nat k = N)%Z -> (k <= fuel)%nat ->
    exists om',
      LogSumExp2D_loop (NUM := RNumeric) fuel N D lm logits (r * D) outputs om = Some om' /\
      (forall i, (r <= i < N)%Z -> om' (outputs + i)%Z = row_output i) /\
      (forall a, (forall i, (r <= i < N)%Z -> a <> (outputs + i)%Z) -> om' a = om a).
Proof.
  induction k as [|k IH]; intros r om fuel Hr HN Hfuel.
  - exists om. split; [| split].
    + destruct fuel; cbn [LogSumExp2D_loop];
        replace (r * D <? N * D)%Z with false by (symmetry; apply Z.ltb_ge; nia);
        reflexivity.
    + intros i Hi. lia.
    + reflexivity.
  - destruct fuel as [|fuel]; [lia|].
    cbn [LogSumExp2D_loop].
    replace (r * D <? N * D)%Z with true by (symmetry; apply Z.ltb_lt; nia).
    replace (r * D + D)%Z with ((r + 1) * D)%Z by lia.
    rewrite LogSumExp2D_row_value. rewrite Z.quot_mul by lia.
    fold (row_output r).
    destruct (IH (r + 1)%Z (store om (outputs + r)%Z (row_output r)) fuel
                ltac:(lia) ltac:(lia) ltac:(lia)) as (om' & Hrun & Hval & Hframe).
    exists om'. split; [exact Hrun | split].
    + intros i Hi. destruct (Z.eq_dec i r) as [-> | Hne].
      * rewrite Hframe by (intros i' Hi'; lia). apply store_same.
      * apply Hval. lia.
    + intros a Ha. rewrite Hframe by (intros i Hi; apply Ha; lia).
      apply store_other. apply Ha. lia.
Qed.
End Row.
(** The whole loop: every row receives its shifted log-sum-exp, which is the
    plain one. *)
Lemma LogSumExp2D_exact
        (fuel : nat) (N D : Z) (lm : mem R) (logits outputs : Z) (om : mem R) :
  (1 <= D)%Z -> (Z.to_nat N <= fuel)%nat ->
  exists om' : mem R,
    LogSumExp2D (NUM := RNumeric) fuel N D lm logits outputs om = Some (SUCCESS, om') /\
    forall i, (0 <= i < N)%Z ->
      let x := fun j => lm (logits + (i * D + j))%Z in
      let mx := max_upto (Z.to_nat (D - 1)) x in
      om' (outputs + i)%Z = mx + ln (sum_upto (Z.to_nat D) (fun j => exp (x j - mx))) /\
      om' (outputs + i)%Z = ln (sum_upto (Z.to_nat D) (fun j => exp (x j))).
Proof.
  intros HD Hfuel.
  destruct (Z_lt_le_dec N 0) as [Hneg | Hpos].
  { exists om. split.
    - unfold LogSumExp2D. destruct fuel; cbn [LogSumExp2D_loop];
        replace (0 <? N * D)%Z with false by (symmetry; apply Z.ltb_ge; nia); reflexivity.
    - intros i Hi. lia. }
  destruct (@LogSumExp2D_loop_spec D lm logits HD N outputs (Z.to_nat N)
              0%Z om fuel ltac:(lia) ltac:(lia) Hfuel) as (om' & Hrun & Hval & _).
  exists om'. split.
  - unfold LogSumExp2D. change (0 * D)%Z with 0%Z in Hrun. rewrite Hrun. reflexivity.
  - intros i Hi x mx.
    assert (Hout : om' (outputs + i)%Z
                   = mx + ln (sum_upto (Z.to_nat D) (fun j => exp (x j - mx)))).
    { rewrite Hval by lia. reflexivity. }
    split; [exact Hout|].
    rewrite Hout. apply shifted_log_sum_exp. lia.
Qed.
End LogSumExpFacts.

(** ** The shift of the two-pass form is the largest entry of the row *)

Module TwoPassFacts.

Section OverTheReals.
Import Exact.
Local Open Scope R_scope.
Variable x : Z -> R.

Lemma row_max_exact (n : nat) :
  (exists j, (0 <= j <= Z.of_nat n)%Z /\ row_max (NUM := RNumeric) x n = x j) /\
  (forall j, (0 <= j <= Z.of_nat n)%Z -> x j <= row_max (NUM := RNumeric) x n).
Proof.
  induction n as [|n [(k & Hk & Hat) Hle]].
  - split; [exists 0%Z; split; [lia | reflexivity]|].
    intros j Hj. assert (j = 0%Z) by lia. subst j. cbn [row_max]. lra.
  - change (row_max (NUM := RNumeric) x (S n))
      with (max (row_max (NUM := RNumeric) x n) (x (Z.of_nat (S n)))).
    unfold max. destruct (Rlt_dec _ _) as [Hlt | Hge].
    + split; [exists (Z.of_nat (S n)); split; [lia | reflexivity]|].
      intros j Hj. destruct (Z.eq_dec j (Z.of_nat (S n))) as [-> | Hne]; [lra|].
      specialize (Hle j ltac:(lia)). lra.
    + split; [exists k; split; [lia | exact Hat]|].
      intros j Hj. destruct (Z.eq_dec j (Z.of_nat (S n))) as [-> | Hne]; [lra|].
      apply Hle. lia.
Qed.

Lemma shifted_exp_sum_exact mx (n : nat) :
  shifted_exp_sum (NUM := RNumeric) x mx n = sum_upto n (fun j => exp (x j - mx)).
Proof.
  induction n as [|n IH]; [reflexivity|].
  cbn [shifted_exp_sum sum_upto]. rewrite IH. reflexivity.
Qed.

Lemma two_pass_exact D :
  (1 <= D)%Z ->
  two_pass_log_sum_exp (NUM := RNumeric) x D
  = ln (sum_upto (Z.to_nat D) (fun j => exp (x j))).
Proof.
  intros HD. unfold two_pass_log_sum_exp. cbv zeta.
  rewrite shifted_exp_sum_exact.
  apply (@LogSumExpFacts.shifted_log_sum_exp _ (Z.to_nat D) x). lia.
Qed.
End OverTheReals.

(** The comparison of binary32 values orders them by sign, then exponent,
    then mantissa; [rank] is the position of a value in that order. *)
Definition rank (f : spec_float) : Z * (Z * Z) :=
  match f with
  | S754_infinity true => (-2, (0, 0))
  | S754_finite true m e => (-1, (- e, - Zpos m))
  | S754_zero _ | S754_nan => (0, (0, 0))
  | S754_finite false m e => (1, (e, Zpos m))
  | S754_infinity false => (2, (0, 0))
  end.

Definition rank_lt (p q : Z * (Z * Z)) : Prop :=
  fst p < fst q \/
  (fst p = fst q /\
   (fst (snd p) < fst (snd q) \/
    (fst (snd p) = fst (snd q) /\ snd (snd p) < snd (snd q)))).

Lemma SFcompare_rank a b :
  a <> S754_nan -> b <> S754_nan ->
  exists c, SFcompare a b = Some c /\
    (c = Lt <-> rank_lt (rank a) (rank b)) /\
    (c = Gt <-> rank_lt (rank b) (rank a)).
Proof.
  intros Ha Hb. unfold rank_lt.
  destruct a as [sa | sa | | sa ma ea]; try congruence;
    destruct b as [sb | sb | | sb mb eb]; try congruence;
    try destruct sa; try destruct sb; cbn [SFcompare rank fst snd];
    try (eexists; split; [reflexivity|]; split; split; intros H;
         first [discriminate | reflexivity | lia]).
  - change (Pos.compare_cont Eq ma mb) with (Pos.compare ma mb).
    destruct (Z.compare_spec ea eb) as [He | He | He];
      [destruct (Pos.compare_spec ma mb) as [Hm | Hm | Hm]| |];
      cbn [CompOpp];
      (eexists; split; [reflexivity|]; split; split; intros H;
       first [discriminate | reflexivity | lia]).
  - change (Pos.compare_cont Eq ma mb) with (Pos.compare ma mb).
    destruct (Z.compare_spec ea eb) as [He | He | He];
      [destruct (Pos.compare_spec ma mb) as [Hm | Hm | Hm]| |];
      (eexists; split; [reflexivity|]; split; split; intros H;
       first [discriminate | reflexivity | lia]).
Qed.

Lemma SFltb_rank a b :
  a <> S754_nan -> b <> S754_nan -> (SFltb a b = true <-> rank_lt (rank a) (rank b)).
Proof.
  intros Ha Hb. destruct (SFcompare_rank Ha Hb) as (c & Hc & Hlt & _).
  unfold SFltb. rewrite Hc. rewrite <- Hlt.
  destruct c; split; intros H; congruence.
Qed.

Lemma SFleb_rank a b :
  a <> S754_nan -> b <> S754_nan -> (SFleb a b = true <-> ~ rank_lt (rank b) (rank a)).
Proof.
  intros Ha Hb. destruct (SFcompare_rank Ha Hb) as (c & Hc & _ & Hgt).
  unfold SFleb. rewrite Hc. rewrite <- Hgt.
  destruct c; split; intros H; congruence.
Qed.

Section Binary32.
Variable libm : Float32.Libm.
Variable x : Z -> Float32.float.

Lemma row_max_binary32 (n : nat) :
  (forall j, 0 <= j <= Z.of_nat n -> x j <> S754_nan) ->
  (exists j, 0 <= j <= Z.of_nat n /\ row_max (NUM := Float32.F32Numeric libm) x n = x j) /\
  (forall j, 0 <= j <= Z.of_nat n ->
     SFleb (x j) (row_max (NUM := Float32.F32Numeric libm) x n) = true).
Proof.
  induction n as [|n IH]; intros Hnan.
  - split; [exists 0; split; [lia | reflexivity]|].
    intros j Hj. assert (j = 0) by lia. subst j. cbn [row_max].
    apply SFleb_rank; try (apply Hnan; lia). unfold rank_lt. lia.
  - destruct IH as [(k & Hk & Hat) Hle]; [intros j Hj; apply Hnan; lia|].
    change (row_max (NUM := Float32.F32Numeric libm) x (S n))
      with (if SFltb (row_max (NUM := Float32.F32Numeric libm) x n) (x (Z.of_nat (S n)))
            then x (Z.of_nat (S n))
            else row_max (NUM := Float32.F32Numeric libm) x n).
    assert (Hmx : row_max (NUM := Float32.F32Numeric libm) x n <> S754_nan).
    { rewrite Hat. apply Hnan. lia. }
    assert (Hnew : x (Z.of_nat (S n)) <> S754_nan) by (apply Hnan; lia).
    destruct (SFltb _ _) eqn:Hlt.
    + split; [exists (Z.of_nat (S n)); split; [lia | reflexivity]|].
      apply SFltb_rank in Hlt; [| assumption | assumption].
      intros j Hj. apply SFleb_rank; [apply Hnan; lia | assumption |].
      destruct (Z.eq_dec j (Z.of_nat (S n))) as [-> | Hne]; [unfold rank_lt; lia|].
      specialize (Hle j ltac:(lia)).
      apply SFleb_rank in Hle; [| apply Hnan; lia | assumption].
      unfold rank_lt in *. lia.
    + split; [exists k; split; [lia | exact Hat]|].
      intros j Hj. destruct (Z.eq_dec j (Z.of_nat (S n))) as [-> | Hne].
      * apply SFleb_rank; [assumption | assumption |].
        intros Hcontra. apply SFltb_rank in Hcontra; [congruence | assumption | assumption].
      * apply Hle. lia.
Qed.
End Binary32.
End TwoPassFacts.

(** C5.  For [N >= 1], [D >= 1] with [N * D] within the range of [int],
    for every numeric type and every [N x D] matrix, [LogSumExp2D] (given
    fuel for its [N] rows) returns [SUCCESS] and leaves in [outputs[i]],
    for every row [i], the two-pass form
    [max_j x[i,j] + log (sum_j exp (x[i,j] - max_j))] computed in the
    accumulator type.  In binary32 the shift [max_j x[i,j]] of a row
    without NaN is an entry of the row that no entry exceeds.  Over the
    reals it is the largest entry, and the two-pass form is
    [log (sum_j exp x[i,j])]. *)
Theorem LogSumExp2D_correct (fuel : nat) (N D : Z) (logits outputs : Z) :
  1 <= N -> 1 <= D -> N * D <= Int32.max_int -> (Z.to_nat N <= fuel)%nat ->
  (forall (NUM : Numeric) (lm : mem DTYPE) (om : mem CAST_DTYPE),
     exists om' : mem CAST_DTYPE,
       Int32.LogSumExp2D fuel N D lm logits outputs om = Some (SUCCESS, om') /\
       forall i, 0 <= i < N ->
         om' (outputs + i)
         = two_pass_log_sum_exp (fun j => cast (lm (logits + (i * D + j)))) D) /\
  (forall (libm : Float32.Libm) (x : Z -> Float32.float),
     (forall j, 0 <= j < D -> x j <> S754_nan) ->
     let mx := row_max (NUM := Float32.F32Numeric libm) x (Z.to_nat (D - 1)) in
     (exists j, 0 <= j < D /\ mx = x j) /\
     (forall j, 0 <= j < D -> SFleb (x j) mx = true)) /\
  (forall x : Z -> R,
     let mx := row_max (NUM := Exact.RNumeric) x (Z.to_nat (D - 1)) in
     (exists j, 0 <= j < D /\ mx = x j) /\
     (forall j, 0 <= j < D -> (x j <= mx)%R) /\
     two_pass_log_sum_exp (NUM := Exact.RNumeric) x D
     = ln (Exact.sum_upto (Z.to_nat D) (fun j => exp (x j)))).
Proof.
  intros HN HD Hsize Hfuel. split; [| split].
  - intros NUM lm om.
    destruct (@LogSumExp2D_two_pass NUM N D lm logits outputs HD Hsize fuel om
                ltac:(lia) Hfuel) as (om' & Hrun & Hval & _).
    exists om'. split; assumption.
  - intros libm x Hnan mx.
    destruct (@TwoPassFacts.row_max_binary32 libm x (Z.to_nat (D - 1)))
      as [(k & Hk & Hat) Hle].
    { intros j Hj. apply Hnan. lia. }
    split; [exists k; split; [lia | exact Hat]|].
    intros j Hj. apply Hle. lia.
  - intros x mx.
    destruct (@TwoPassFacts.row_max_exact x (Z.to_nat (D - 1))) as [(k & Hk & Hat) Hle].
    split; [exists k; split; [lia | exact Hat]|].
    split; [intros j Hj; apply Hle; lia|].
    now apply TwoPassFacts.two_pass_exact.
Qed.

Lemma LogSumExp2D_correct_witness :
  (1 <= 2 /\ 1 <= 3 /\ 2 * 3 <= Int32.max_int /\ (Z.to_nat 2 <= 2)%nat) /\
  (forall (NUM : Numeric) (lm : mem DTYPE) (om : mem CAST_DTYPE),
     exists om' : mem CAST_DTYPE,
       Int32.LogSumExp2D 2 2 3 lm 0 10 om = Some (SUCCESS, om') /\
       forall i, 0 <= i < 2 ->
         om' (10 + i)
         = two_pass_log_sum_exp (fun j => cast (lm (0 + (i * 3 + j)))) 3) /\
  (forall (libm : Float32.Libm) (x : Z -> Float32.float),
     (forall j, 0 <= j < 3 -> x j <> S754_nan) ->
     let mx := row_max (NUM := Float32.F32Numeric libm) x (Z.to_nat (3 - 1)) in
     (exists j, 0 <= j < 3 /\ mx = x j) /\
     (forall j, 0 <= j < 3 -> SFleb (x j) mx = true)) /\
  (forall x : Z -> R,
     let mx := row_max (NUM := Exact.RNumeric) x (Z.to_nat (3 - 1)) in
     (exists j, 0 <= j < 3 /\ mx = x j) /\
     (forall j, 0 <= j < 3 -> (x j <= mx)%R) /\
     two_pass_log_sum_exp (NUM := Exact.RNumeric) x 3
     = ln (Exact.sum_upto (Z.to_nat 3) (fun j => exp (x j)))).
Proof.
  assert (H1 : 1 <= 2) by lia.
  assert (H2 : 1 <= 3) by lia.
  assert (H3 : 2 * 3 <= Int32.max_int) by (unfold Int32.max_int; lia).
  assert (H4 : (Z.to_nat 2 <= 2)%nat) by (vm_compute; lia).
  split; [repeat split; assumption|].
  exact (@LogSumExp2D_correct 2 2 3 0 10 H1 H2 H3 H4).
Defined.

(** C5 as stated fails for a matrix of [2^32] logits.  With
    [N = D = 65536] the [int] product [N * D] is [0], so the loop does not
    run a single round: [LogSumExp2D] returns [SUCCESS] and writes no
    output.  For the matrix of zeros, [outputs[0]] still holds the [-1]
    it held before the call, and not the log-sum-exp of row [0], which is
    not negative. *)
Lemma LogSumExp2D_skips_a_matrix_beyond_int :
  let N := 65536 in
  let D := 65536 in
  let lm := Samples.Rzeros in
  let om : mem R := fun _ => (-1)%R in
  let x := fun j => lm (0 + (0 * D + j)) in
  Int32.mul N D = 0 /\
  (forall fuel,
     Int32.LogSumExp2D (NUM := Exact.RNumeric) fuel N D lm 0 0 om = Some (SUCCESS, om)) /\
  (0 <= two_pass_log_sum_exp (NUM := Exact.RNumeric) x D)%R /\
  om (0 + 0) <> two_pass_log_sum_exp (NUM := Exact.RNumeric) x D /\
  om (0 + 0) <> ln (Exact.sum_upto (Z.to_nat D) (fun j => exp (x j))).
Proof.
  intros N D lm om x.
  assert (Hmul : Int32.mul N D = 0) by reflexivity.
  assert (Hrun : forall fuel,
             Int32.LogSumExp2D (NUM := Exact.RNumeric) fuel N D lm 0 0 om
             = Some (SUCCESS, om)).
  { intros fuel. unfold Int32.LogSumExp2D.
    destruct fuel; cbn [Int32.LogSumExp2D_loop]; rewrite Hmul; reflexivity. }
  assert (Hexact : two_pass_log_sum_exp (NUM := Exact.RNumeric) x D
                   = ln (Exact.sum_upto (Z.to_nat D) (fun j => exp (x j)))).
  { apply TwoPassFacts.two_pass_exact. unfold D. lia. }
  assert (Hpos : (0 <= ln (Exact.sum_upto (Z.to_nat D) (fun j => exp (x j))))%R).
  { pose proof (@LogSoftmaxFacts.entry_le_log_sum_exp (Z.to_nat D) 0 x) as Hle.
    replace (x 0) with 0%R in Hle by reflexivity.
    apply Hle. unfold D. lia. }
  split; [exact Hmul|]. split; [exact Hrun|].
  split; [rewrite Hexact; exact Hpos|].
  unfold om. split; [rewrite Hexact|]; lra.
Qed.

(** * The log-probability stage *)

Section LogProbsStage.
Context {NUM : Numeric}.
Local Open Scope num_scope.

Variable options : Options.
Variable lm : mem DTYPE.
Variable logits : TensorView.
Variable tm : mem Z.
Variable targets : Z.
Variables T U : Z.
Variable dm : mem CAST_DTYPE.
Variable denom : TensorView.
Variables maxT maxU base : Z.
Hypothesis U_le : U <= maxU.

Let logProbs := TensorView_new [maxT; maxU] base.

(** What section 3 of the specification calls I2 and I3, for one cell. *)
Definition log_probs_cell_ok (t u : Z) (p : LogProbs) : Prop :=
  skip_ p = cast (rd lm logits [t; u; blank_ options]) -. rd dm denom [t; u] /\
  (u < U - 1 ->
   emit_ p = cast (rd lm logits [t; u; tm (targets + u)]) -. rd dm denom [t; u]).

Lemma ComputeLogProbsOneSequence_cells pm t u :
  in_lattice T U t u ->
  log_probs_cell_ok t u
    (rd (ComputeLogProbsOneSequence options lm logits tm targets T U dm denom logProbs pm)
        logProbs [t; u]).
Proof.
  intros Hin.
  set (H := cells_hold maxT maxU base T U log_probs_cell_ok).
  assert (Hall : H (in_lattice T U)
                   (ComputeLogProbsOneSequence options lm logits tm targets T U dm denom
                      logProbs pm)).
  { unfold ComputeLogProbsOneSequence. cbv zeta.
    destruct Hin as [HT HU].
    eapply cells_hold_weaken.
    - apply for_up_inv
        with (P := fun j m => H (fun t u => in_lattice T U t u /\ t < j) m).
      + lia.
      + intros t' u' Hd. cells.
      + intros j m Hj Hm.
        eapply cells_hold_weaken.
        * apply for_up_inv
            with (P := fun k m' =>
                    H (fun t u => in_lattice T U t u /\ (t < j \/ (t = j /\ u < k))) m').
          -- lia.
          -- eapply cells_hold_weaken; [exact Hm | cells].
          -- intros k m' Hk Hm'.
             eapply cells_hold_step; [assumption | | | | ].
             ++ destruct (k <? U - 1) eqn:Hlast.
                ** eapply cells_hold_step
                     with (done' := fun t u => in_lattice T U t u /\
                                               (t < j \/ (t = j /\ u < k)));
                     [assumption | exact Hm' | | | ].
                   --- cells.
                   --- cells.
                   --- cells.
                ** exact Hm'.
             ++ cells.
             ++ intros _. split.
                ** reflexivity.
                ** intros Hlt. destruct (k <? U - 1) eqn:Hlast.
                   --- unfold rd, wr. rewrite store_same. reflexivity.
                   --- apply Z.ltb_ge in Hlast. lia.
             ++ cells.
        * cells.
    - cells. }
  apply Hall. assumption.
Qed.
End LogProbsStage.

(** C6, as the code has it.  The CPU log-probability stage never reads
    [Options.fusedLogSmax_]: whatever the flag, for every in-range cell
    [(t, u)] it writes [skip = logits(t, u, blank) - denom(t, u)] and, for
    [u < U - 1], [emit = logits(t, u, targets[u]) - denom(t, u)].  The
    denominator is subtracted also when the flag is off. *)
Theorem log_probs_subtract_denominator_whatever_the_flag
        (NUM : Numeric) (options : Options) (flag : bool)
        (lm : mem DTYPE) (logits : TensorView) (tm : mem Z) (targets : Z)
        (srcLen tgtLen : Z) (dm : mem CAST_DTYPE) (denom : TensorView)
        (maxT maxU base : Z) (pm : mem LogProbs) (t u : Z) :
  tgtLen <= maxU -> 0 <= t < srcLen -> 0 <= u < tgtLen ->
  let logProbs := TensorView_new [maxT; maxU] base in
  let cell :=
    rd (ComputeLogProbsOneSequence (with_fusedLogSmax options flag) lm logits tm targets
          srcLen tgtLen dm denom logProbs pm) logProbs [t; u] in
  skip_ cell = c_sub (cast (rd lm logits [t; u; blank_ options])) (rd dm denom [t; u]) /\
  (u < tgtLen - 1 ->
   emit_ cell = c_sub (cast (rd lm logits [t; u; tm (targets + u)])) (rd dm denom [t; u])).
Proof.
  intros HU Ht Hu logProbs cell.
  exact (@ComputeLogProbsOneSequence_cells NUM (with_fusedLogSmax options flag) lm logits
           tm targets srcLen tgtLen dm denom maxT maxU base HU pm t u (conj Ht Hu)).
Qed.

Lemma log_probs_subtract_denominator_whatever_the_flag_witness :
  (1 <= 1 /\ 0 <= 0 < 1 /\ 0 <= 0 < 1) /\
  let logProbs := TensorView_new [1; 1] 0 in
  let cell :=
    rd (ComputeLogProbsOneSequence
          (with_fusedLogSmax (Samples.Roptions 1 1 1 2 0 0%R true) false)
          Samples.Rzeros (TensorView_new [1; 1; 2] 0) (fun _ => 0) 0
          1 1 Samples.Rzeros (TensorView_new [1; 1] 0) logProbs Samples.RlogProbs_zero)
       logProbs [0; 0] in
  skip_ cell = (0 - 0)%R /\ (0 < 1 - 1 -> emit_ cell = (0 - 0)%R).
Proof.
  split; [lia|].
  apply (@log_probs_subtract_denominator_whatever_the_flag
           Exact.RNumeric (Samples.Roptions 1 1 1 2 0 0%R true) false
           Samples.Rzeros (TensorView_new [1; 1; 2] 0) (fun _ => 0) 0
           1 1 Samples.Rzeros (TensorView_new [1; 1] 0) 1 1 0 Samples.RlogProbs_zero 0 0);
    lia.
Defined.

(** C6 as stated fails: one cell over two symbols, both logits [0], flag
    off.  The denominator stage computes [log 2]; the log-probability
    stage then writes [skip = 0 - log 2], not the logit [0]. *)
Lemma log_probs_not_raw_logits_when_flag_off :
  exists dm : mem R,
    LogSumExp2D (NUM := Exact.RNumeric) 1 1 2 Samples.Rzeros 0 0 Samples.Rzeros
    = Some (SUCCESS, dm) /\
    let options := Samples.Roptions 1 1 1 2 0 0%R false in
    let logits := TensorView_new [1; 1; 2] 0 in
    let logProbs := TensorView_new [1; 1] 0 in
    let cell :=
      rd (ComputeLogProbsOneSequence options Samples.Rzeros logits (fun _ => 0) 0
            1 1 dm (TensorView_new [1; 1] 0) logProbs Samples.RlogProbs_zero)
         logProbs [0; 0] in
    fusedLogSmax_ options = false /\
    skip_ cell = (- ln 2)%R /\
    rd Samples.Rzeros logits [0; 0; blank_ options] = 0%R /\
    skip_ cell <> rd Samples.Rzeros logits [0; 0; blank_ options].
Proof.
  destruct (@LogSumExpFacts.LogSumExp2D_exact 1%nat 1 2 Samples.Rzeros 0 0 Samples.Rzeros
              ltac:(lia) ltac:(cbn; lia)) as (dm & Hrun & Hval).
  exists dm. split; [exact Hrun|].
  intros options logits logProbs cell.
  destruct (Hval 0 ltac:(lia)) as [_ Hdm]. cbv zeta in Hdm.
  assert (Hden : dm 0 = ln 2).
  { change (0 + 0) with 0 in Hdm. rewrite Hdm. f_equal.
    change (Z.to_nat 2) with 2%nat. cbn [Exact.sum_upto]. unfold Samples.Rzeros.
    rewrite exp_0. lra. }
  assert (Hskip : skip_ cell = (- ln 2)%R).
  { subst cell.
    destruct (@ComputeLogProbsOneSequence_cells Exact.RNumeric options Samples.Rzeros logits
                (fun _ => 0) 0 1 1 dm (TensorView_new [1; 1] 0) 1 1 0 ltac:(lia)
                Samples.RlogProbs_zero 0 0 ltac:(unfold in_lattice; lia)) as [Hs _].
    etransitivity; [exact Hs |].
    unfold rd. rewrite address2.
    change (0 + (0 + 0 * 1)) with 0. rewrite Hden.
    unfold Samples.Rzeros. cbn. lra. }
  split; [reflexivity|]. split; [exact Hskip|]. split; [reflexivity|].
  rewrite Hskip. unfold rd, Samples.Rzeros.
  assert (0 < ln 2)%R by (rewrite <- ln_1; apply ln_increasing; lra).
  lra.
Qed.

(** * Gradients: values and padding *)

Section GradientBuffers.
Context {NUM : Numeric}.
Variable options : Options.
Variables T U lg gr : Z.

Let maxT := maxSrcLen_ options.
Let maxU := maxTgtLen_ options.
Let D := numTargets_ options.
Let logits := TensorView_new [maxT; maxU; D] lg.
Let gradients := TensorView_new [maxT; maxU; D] gr.

Lemma same_or_disjoint_no_clobber :
  U <= maxU -> gr = lg \/ disjoint_buffers options T U lg gr -> no_clobber options T U lg gr.
Proof.
  intros HU [-> | Hdis] t u d t' u' d' Hin Hin' Heq.
  - apply address3_inj in Heq; unfold in_lattice3 in *; try lia.
  - exfalso. exact (Hdis _ _ _ _ _ _ Hin Hin' Heq).
Qed.

Lemma padding_cell3_not_lattice t u d :
  U <= maxU -> padding_cell3 options T U t u d ->
  forall t' u' d', in_lattice3 T U D t' u' d' ->
    address gradients [t; u; d] <> address gradients [t'; u'; d'].
Proof.
  intros HU (Ht & Hu & Hd & Hpad) t' u' d' (Ht' & Hu' & Hd') Heq.
  apply address3_inj in Heq; lia.
Qed.
End GradientBuffers.

(** C3.  With the clamp off ([clamp > 0] false), for every in-range cell
    [(t, u)] and every [d] in [[0, D)], [ComputeGradientsOneSequence] leaves
    in [gradients(t, u, d)] the entry of the table of section 4.5 for
    [g = logits(t, u, d) + (alpha(t, u) + cost - denom(t, u))] and
    [cost = -beta(0, 0)], the rows being read in order: the corner blank
    row, the blank row for [t < T - 1], the label row for [u < U - 1] and
    [d = targets[u]] (when the blank row does not apply), and the last row
    otherwise.  The kernel does not read [fusedLogSmax], so this holds in
    particular when the flag is set.  The gradient buffer is the logits
    buffer or is disjoint from it. *)
Theorem gradients_follow_table_4_5
        (NUM : Numeric) (options : Options) (tm : mem Z) (targets : Z) (T U : Z)
        (dm : mem CAST_DTYPE) (denom : TensorView)
        (am : mem CAST_DTYPE) (alpha : TensorView)
        (bm : mem CAST_DTYPE) (beta : TensorView)
        (lg gr : Z) (hm : mem DTYPE) (t u d : Z) :
  let maxT := maxSrcLen_ options in
  let maxU := maxTgtLen_ options in
  let D := numTargets_ options in
  let blank := blank_ options in
  let logits := TensorView_new [maxT; maxU; D] lg in
  let gradients := TensorView_new [maxT; maxU; D] gr in
  U <= maxU ->
  c_gtb (clamp_ options) c_zero = false ->
  gr = lg \/ disjoint_buffers options T U lg gr ->
  0 <= t < T -> 0 <= u < U -> 0 <= d < D ->
  let b := fun t u => rd bm beta [t; u] in
  let cost := c_neg (b 0 0) in
  let g := c_add (cast (rd hm logits [t; u; d]))
                 (c_sub (c_add (rd am alpha [t; u]) cost) (rd dm denom [t; u])) in
  let grad :=
    rd (ComputeGradientsOneSequence options logits tm targets T U dm denom am alpha bm beta
                                    gradients hm) gradients [t; u; d] in
  (d = blank /\ t = T - 1 /\ u = U - 1 ->
   grad = uncast (c_sub (c_exp (c_add g (b t u))) (c_exp g))) /\
  (d = blank /\ t < T - 1 ->
   grad = uncast (c_sub (c_exp (c_add g (b t u))) (c_exp (c_add g (b (t + 1) u))))) /\
  (u < U - 1 /\ d = tm (targets + u) -> ~ (d = blank /\ t < T - 1) ->
   grad = uncast (c_sub (c_exp (c_add g (b t u))) (c_exp (c_add g (b t (u + 1)))))) /\
  (~ (d = blank /\ t = T - 1 /\ u = U - 1) -> ~ (d = blank /\ t < T - 1) ->
   ~ (u < U - 1 /\ d = tm (targets + u)) ->
   grad = uncast (c_exp (c_add g (b t u)))).
Proof.
  intros maxT maxU D blank logits gradients HU Hclamp Hbuf Ht Hu Hd b cost g grad.
  assert (Hgrad : grad = uncast (gradient_value blank T U tm targets bm beta t u d g)).
  { subst grad.
    etransitivity.
    - exact (@ComputeGradientsOneSequence_in_range NUM options tm targets T U dm denom
               am alpha bm beta lg gr hm HU
               (same_or_disjoint_no_clobber HU Hbuf) t u d ltac:(lia)
               (conj Ht (conj Hu Hd))).
    - unfold gradient_stored. cbv zeta. rewrite Hclamp. reflexivity. }
  rewrite Hgrad. unfold gradient_value.
  repeat split.
  - intros (-> & -> & ->). rewrite !Z.eqb_refl. reflexivity.
  - intros (-> & Hlt). rewrite Z.eqb_refl.
    replace (t =? T - 1) with false by (symmetry; apply Z.eqb_neq; lia).
    replace (t <? T - 1) with true by (symmetry; apply Z.ltb_lt; lia).
    reflexivity.
  - intros (Hlt & Hd') Hnot.
    replace (u =? U - 1) with false by (symmetry; apply Z.eqb_neq; lia).
    rewrite andb_false_r.
    replace ((d =? blank) && (t <? T - 1)) with false.
    2:{ symmetry. apply andb_false_iff.
        destruct (Z.eqb_spec d blank); [| now left].
        right. apply Z.ltb_ge. lia. }
    replace (u <? U - 1) with true by (symmetry; apply Z.ltb_lt; lia).
    replace (d =? tm (targets + u)) with true by (symmetry; apply Z.eqb_eq; assumption).
    reflexivity.
  - intros H1 H2 H3.
    replace ((d =? blank) && (t =? T - 1) && (u =? U - 1)) with false.
    2:{ symmetry. rewrite !andb_false_iff.
        destruct (Z.eqb_spec d blank); [| now left; left].
        destruct (Z.eqb_spec t (T - 1)); [| now left; right].
        destruct (Z.eqb_spec u (U - 1)); [| now right].
        exfalso. apply H1. auto. }
    replace ((d =? blank) && (t <? T - 1)) with false.
    2:{ symmetry. apply andb_false_iff.
        destruct (Z.eqb_spec d blank); [| now left].
        right. apply Z.ltb_ge. lia. }
    replace ((u <? U - 1) && (d =? tm (targets + u))) with false.
    2:{ symmetry. apply andb_false_iff.
        destruct (Z.ltb_spec u (U - 1)); [| now left].
        right. apply Z.eqb_neq. intros Heq. apply H3. auto. }
    reflexivity.
Qed.

(** C8, as the code has it.  After an in-place call (the gradient buffer is
    the logits buffer) every padding cell of the gradients is exactly zero.
    After a call on another buffer every address that is not a gradient
    cell of the lattice, every padding cell included, holds what it held
    before; such padding is zero whenever the caller had zeroed it, so zero
    padding does not tell the in-place path.  In both cases (the buffers
    being the same or disjoint) the in-range cells hold the values of the
    gradient formula, clamped when [clamp > 0]. *)
Theorem gradient_padding_and_values
        (NUM : Numeric) (options : Options) (tm : mem Z) (targets : Z) (T U : Z)
        (dm : mem CAST_DTYPE) (denom : TensorView)
        (am : mem CAST_DTYPE) (alpha : TensorView)
        (bm : mem CAST_DTYPE) (beta : TensorView)
        (lg gr : Z) (hm : mem DTYPE) :
  let maxT := maxSrcLen_ options in
  let maxU := maxTgtLen_ options in
  let D := numTargets_ options in
  let logits := TensorView_new [maxT; maxU; D] lg in
  let gradients := TensorView_new [maxT; maxU; D] gr in
  0 <= T -> 0 <= U <= maxU ->
  let hm' := ComputeGradientsOneSequence options logits tm targets T U dm denom am alpha
                                         bm beta gradients hm in
  (gr = lg ->
   forall t u d, padding_cell3 options T U t u d -> rd hm' gradients [t; u; d] = d_zero) /\
  (gr <> lg ->
   (forall a, (forall t u d, in_lattice3 T U D t u d -> a <> address gradients [t; u; d]) ->
              hm' a = hm a) /\
   (forall t u d, padding_cell3 options T U t u d ->
                  rd hm' gradients [t; u; d] = rd hm gradients [t; u; d])) /\
  (gr = lg \/ disjoint_buffers options T U lg gr ->
   forall t u d, in_lattice3 T U D t u d ->
     rd hm' gradients [t; u; d]
     = gradient_stored options tm targets T U dm denom am alpha bm beta t u d
                       (rd hm logits [t; u; d])).
Proof.
  intros maxT maxU D logits gradients HT HU hm'. split; [| split].
  - intros Halias t u d (Ht & Hu & Hd & Hpad).
    apply ComputeGradientsOneSequence_padding_zero; try assumption; lia.
  - intros Hne.
    assert (Hframe : forall a,
               (forall t u d, in_lattice3 T U D t u d -> a <> address gradients [t; u; d]) ->
               hm' a = hm a).
    { intros a Ha. apply ComputeGradientsOneSequence_frame; assumption. }
    split; [exact Hframe|].
    intros t u d Hpad. unfold rd. apply Hframe.
    apply padding_cell3_not_lattice; [lia | exact Hpad].
  - intros Hbuf t u d Hin.
    apply ComputeGradientsOneSequence_in_range; try lia; try assumption.
    apply same_or_disjoint_no_clobber; [lia | assumption].
Qed.

Lemma gradients_follow_table_4_5_witness :
  (1 <= 1 /\ 0 <= 0 < 1 /\ 0 <= 0 < 2) /\
  Exact.gtb 0%R 0%R = false /\
  let view2 := TensorView_new [1; 1] 0 in
  let view3 := TensorView_new [1; 1; 2] 0 in
  let g := (0 + (0 + - (0 - ln 2) - ln 2))%R in
  rd (ComputeGradientsOneSequence Samples.S1_options view3 (fun _ => 0) 0 1 1
        Samples.S1_denominators view2 Samples.Rzeros view2 Samples.S1_betas view2
        view3 Samples.Rzeros) view3 [0; 0; 0]
  = (exp (g + (0 - ln 2)) - exp g)%R.
Proof.
  split; [lia|].
  assert (Hclamp : Exact.gtb 0%R 0%R = false).
  { unfold Exact.gtb. destruct (Rlt_dec 0 0); [lra | reflexivity]. }
  split; [exact Hclamp|]. intros view2 view3 g.
  destruct (@gradients_follow_table_4_5 Exact.RNumeric Samples.S1_options (fun _ => 0) 0 1 1
              Samples.S1_denominators view2 Samples.Rzeros view2 Samples.S1_betas view2
              0 0 Samples.Rzeros 0 0 0
              ltac:(cbn; lia) Hclamp (or_introl eq_refl)
              ltac:(lia) ltac:(lia) ltac:(cbn; lia)) as [Hrow1 _].
  apply Hrow1. cbn. lia.
Defined.

Lemma gradient_padding_and_values_witness :
  (0 <= 1 /\ 0 <= 1 <= 2) /\
  let view2 := TensorView_new [1; 2] 0 in
  let view3 := TensorView_new [1; 2; 1] 0 in
  let hm' :=
    ComputeGradientsOneSequence Samples.padded_options view3 (fun _ => 0) 0 1 1
      Samples.Rzeros view2 Samples.Rzeros view2 Samples.Rzeros view2 view3 Samples.Rzeros in
  forall t u d, padding_cell3 Samples.padded_options 1 1 t u d ->
                rd hm' view3 [t; u; d] = 0%R.
Proof.
  split; [lia|]. intros view2 view3 hm'.
  destruct (@gradient_padding_and_values Exact.RNumeric Samples.padded_options (fun _ => 0) 0
              1 1 Samples.Rzeros view2 Samples.Rzeros view2 Samples.Rzeros view2
              0 0 Samples.Rzeros ltac:(lia) ltac:(cbn; lia)) as [Hzero _].
  exact (Hzero eq_refl).
Defined.

(** C8 as stated fails in its "only if": a call on a separate gradient
    buffer that the caller had zeroed leaves the padding cell [(0, 1, 0)]
    exactly zero, although the in-place path was not taken. *)
Lemma zero_padding_without_aliasing :
  let view2 := TensorView_new [1; 2] 0 in
  let logits := TensorView_new [1; 2; 1] 0 in
  let gradients := TensorView_new [1; 2; 1] 2 in
  let hm' :=
    ComputeGradientsOneSequence Samples.padded_options logits (fun _ => 0) 0 1 1
      Samples.Rzeros view2 Samples.Rzeros view2 Samples.Rzeros view2 gradients
      Samples.Rzeros in
  address gradients [0; 0; 0] <> address logits [0; 0; 0] /\
  padding_cell3 Samples.padded_options 1 1 0 1 0 /\
  (forall t u d, padding_cell3 Samples.padded_options 1 1 t u d ->
                 rd hm' gradients [t; u; d] = d_zero).
Proof.
  intros view2 logits gradients hm'. split; [| split].
  - unfold gradients, logits. rewrite !address3. lia.
  - unfold padding_cell3. cbn. lia.
  - intros t u d Hcell. unfold rd.
    etransitivity.
    + apply (@ComputeGradientsOneSequence_frame Exact.RNumeric Samples.padded_options
               (fun _ => 0) 0 1 1 Samples.Rzeros view2 Samples.Rzeros view2
               Samples.Rzeros view2 0 2 Samples.Rzeros); [lia |].
      apply (@padding_cell3_not_lattice Exact.RNumeric Samples.padded_options 1 1 2 t u d);
        [cbn; lia | exact Hcell].
    + reflexivity.
Qed.

(** * The gradients of one cell sum to zero *)

Module GradientSumFacts.
Import Exact ExactFacts Invariants.
Local Open Scope R_scope.

Section OneCell.
Variables T U D blank : Z.
Variable target : Z -> Z.
Variable logit : Z -> Z -> Z -> R.
Variable den : Z -> Z -> R.
Variable lp : Z -> Z -> @LogProbs RNumeric.
Variable b : Z -> Z -> R.

Hypothesis HI1 : I1 T U D logit den.
Hypothesis HI2 : I2 T U blank logit den lp.
Hypothesis HI3 : I3 T U target logit den lp.
Hypothesis HI4 : I4_beta T U lp b.
Hypothesis blank_ok : (0 <= blank < D)%Z.

Variables t u : Z.
Hypothesis cell_ok : in_lattice T U t u.
Hypothesis target_ok : (u < U - 1)%Z -> (0 <= target u < D)%Z /\ target u <> blank.

(** The entry of the branch of the kernel for vocabulary index [d], the
    accesses to [beta] and [targets] written with [b] and [target]. *)
Definition branch (c : R) (d : Z) : R :=
  let g := logit t u d + c in
  if ((d =? blank) && (t =? T - 1) && (u =? U - 1))%Z%bool then exp (g + b t u) - exp g
  else if ((d =? blank) && (t <? T - 1))%Z%bool then exp (g + b t u) - exp (g + b (t + 1)%Z u)
  else if ((u <? U - 1) && (d =? target u))%Z%bool
       then exp (g + b t u) - exp (g + b t (u + 1)%Z)
       else exp (g + b t u).

(** What is subtracted at the blank index and at the label index. *)
Definition blank_part (c : R) (d : Z) : R :=
  if ((t =? T - 1) && (u =? U - 1))%Z%bool then exp (logit t u d + c)
  else if (t <? T - 1)%Z then exp (logit t u d + c + b (t + 1)%Z u)
  else 0.

Definition label_part (c : R) (d : Z) : R :=
  if (u <? U - 1)%Z then exp (logit t u d + c + b t (u + 1)%Z) else 0.

Lemma branch_split c d :
  branch c d =
  exp (logit t u d + c + b t u)
  - (if (d =? blank)%Z then blank_part c d else 0)
  - (if (d =? target u)%Z then label_part c d else 0).
Proof.
  unfold branch, blank_part, label_part. cbv zeta.
  destruct (Z.eqb_spec d blank) as [Hb | Hb];
    destruct (Z.eqb_spec t (T - 1)) as [Ht | Ht];
    destruct (Z.eqb_spec u (U - 1)) as [Hu | Hu];
    destruct (Z.ltb_spec t (T - 1)) as [Ht' | Ht'];
    destruct (Z.ltb_spec u (U - 1)) as [Hu' | Hu'];
    destruct (Z.eqb_spec d (target u)) as [Hd | Hd];
    cbn [andb]; try lia; try lra;
    try (exfalso; destruct (target_ok Hu') as [_ Hne]; congruence).
Qed.

(** The local form of the backward recurrence. *)
Lemma beta_local :
  exp (b t u)
  = (if ((t =? T - 1) && (u =? U - 1))%Z%bool then exp (skip_ (lp t u))
     else if (t <? T - 1)%Z then exp (skip_ (lp t u) + b (t + 1)%Z u) else 0)
    + (if (u <? U - 1)%Z then exp (emit_ (lp t u) + b t (u + 1)%Z) else 0).
Proof.
  destruct HI4 as (Hend & Hcol & Hrow & Hint).
  destruct cell_ok as [Ht Hu].
  destruct (Z.eqb_spec t (T - 1)) as [Het | Het];
    destruct (Z.eqb_spec u (U - 1)) as [Heu | Heu];
    destruct (Z.ltb_spec t (T - 1)) as [Hlt | Hlt];
    destruct (Z.ltb_spec u (U - 1)) as [Hlu | Hlu];
    cbn [andb]; try lia.
  - subst t u. rewrite Hend. lra.
  - subst t. rewrite Hrow by lia. rewrite (Rplus_comm (b (T - 1)%Z (u + 1)%Z)). lra.
  - subst u. rewrite Hcol by lia. rewrite (Rplus_comm (b (t + 1)%Z (U - 1)%Z)). lra.
  - rewrite Hint by lia. rewrite ExactFacts.exp_lse.
    rewrite (Rplus_comm (b (t + 1)%Z u)), (Rplus_comm (b t (u + 1)%Z)). reflexivity.
Qed.

Lemma exp_den : exp (den t u) = sum_upto (Z.to_nat D) (fun d => exp (logit t u d)).
Proof.
  rewrite (HI1 cell_ok). apply exp_ln.
  apply sum_upto_exp_pos. lia.
Qed.

Lemma branches_sum_to_zero c :
  sum_upto (Z.to_nat D) (branch c) = 0.
Proof.
  rewrite (sum_upto_ext _ _ _ (fun d _ => branch_split c d)).
  rewrite !sum_upto_minus.
  rewrite (sum_upto_ext _
             (fun d => exp (logit t u d + c + b t u))
             (fun d => exp (c + b t u) * exp (logit t u d))).
  2:{ intros d _. rewrite <- exp_plus. f_equal. lra. }
  rewrite sum_upto_scale, <- exp_den.
  rewrite sum_upto_pick by lia.
  assert (Hlabel : sum_upto (Z.to_nat D)
                     (fun d => if (d =? target u)%Z then label_part c d else 0)
                   = label_part c (target u)).
  { destruct (Z.ltb_spec u (U - 1)) as [Hlu | Hlu].
    - apply sum_upto_pick. destruct (target_ok Hlu). lia.
    - rewrite (sum_upto_ext _ _ (fun _ => 0)).
      + rewrite sum_upto_zero. unfold label_part.
        destruct (Z.ltb_spec u (U - 1)); [lia | reflexivity].
      + intros d _. unfold label_part.
        destruct (Z.ltb_spec u (U - 1)); [lia |]. destruct (d =? target u)%Z; reflexivity. }
  rewrite Hlabel.
  pose proof beta_local as Hb.
  assert (Hfactor : exp (c + b t u) * exp (den t u) = exp (c + den t u) * exp (b t u)).
  { rewrite <- !exp_plus. f_equal. lra. }
  rewrite Hfactor, Hb. clear Hfactor Hb.
  assert (Hskip : logit t u blank = skip_ (lp t u) + den t u)
    by (rewrite (HI2 cell_ok); lra).
  unfold blank_part, label_part. rewrite Hskip.
  assert (Hexp : forall x y, exp (x + den t u + c + y) = exp (c + den t u) * exp (x + y)).
  { intros x y. rewrite <- exp_plus. f_equal. lra. }
  assert (Hexp0 : forall x, exp (x + den t u + c) = exp (c + den t u) * exp x).
  { intros x. rewrite <- exp_plus. f_equal. lra. }
  destruct (Z.ltb_spec u (U - 1)) as [Hlu | Hlu].
  - assert (Hemit : logit t u (target u) = emit_ (lp t u) + den t u)
      by (rewrite (HI3 cell_ok Hlu); lra).
    rewrite Hemit, !Hexp.
    destruct ((t =? T - 1) && (u =? U - 1))%Z%bool; [| destruct (t <? T - 1)%Z];
      rewrite ?Hexp, ?Hexp0; lra.
  - destruct ((t =? T - 1) && (u =? U - 1))%Z%bool; [| destruct (t <? T - 1)%Z];
      rewrite ?Hexp, ?Hexp0; lra.
Qed.
End OneCell.
End GradientSumFacts.

Section GradientSum.
Import Exact Invariants.
Local Open Scope R_scope.

Variable options : @Options RNumeric.
Variable tm : mem Z.
Variable targets : Z.
Variables T U : Z.
Variable dm : mem R.
Variable denom : TensorView.
Variable am : mem R.
Variable alpha : TensorView.
Variable bm : mem R.
Variable beta : TensorView.
Variables lg gr : Z.
Variable hm : mem R.

Let maxT := maxSrcLen_ options.
Let maxU := maxTgtLen_ options.
Let D := numTargets_ options.
Let blank := blank_ options.
Let logits := TensorView_new [maxT; maxU; D] lg.
Let gradients := TensorView_new [maxT; maxU; D] gr.

Let logit := fun t u d : Z => rd hm logits [t; u; d].
Let den := fun t u : Z => rd dm denom [t; u].
Let b := fun t u : Z => rd bm beta [t; u].
Let target := fun u : Z => tm (targets + u)%Z.

Variable lp : Z -> Z -> @LogProbs RNumeric.

Hypothesis U_le : (U <= maxU)%Z.
Hypothesis clamp_off : gtb (clamp_ options) 0 = false.
Hypothesis buffers : gr = lg \/ disjoint_buffers options T U lg gr.
Hypothesis blank_ok : (0 <= blank < D)%Z.
Hypothesis HI1 : I1 T U D logit den.
Hypothesis HI2 : I2 T U blank logit den lp.
Hypothesis HI3 : I3 T U target logit den lp.
Hypothesis HI4 : I4_beta T U lp b.

(** The stored gradient is the branch of the kernel. *)
Lemma stored_gradient_is_branch t u d :
  in_lattice3 T U D t u d ->
  rd (ComputeGradientsOneSequence options logits tm targets T U dm denom am alpha bm beta
                                  gradients hm) gradients [t; u; d]
  = GradientSumFacts.branch T U blank target logit b t u
      (rd am alpha [t; u] + - b 0%Z 0%Z - den t u) d.
Proof.
  intros Hin. etransitivity.
  - exact (@ComputeGradientsOneSequence_in_range RNumeric options tm targets T U dm denom
             am alpha bm beta lg gr hm U_le (same_or_disjoint_no_clobber U_le buffers)
             t u d ltac:(unfold in_lattice3 in Hin; lia) Hin).
  - unfold gradient_stored. cbv zeta.
    change (@c_gtb RNumeric (clamp_ options) (@c_zero RNumeric))
      with (gtb (clamp_ options) 0).
    rewrite clamp_off. reflexivity.
Qed.

Lemma cell_gradients_sum t u :
  in_lattice T U t u ->
  ((u < U - 1)%Z -> (0 <= target u < D)%Z /\ target u <> blank) ->
  sum_upto (Z.to_nat D)
    (fun d => rd (ComputeGradientsOneSequence options logits tm targets T U dm denom am alpha
                    bm beta gradients hm) gradients [t; u; d])
  = 0.
Proof.
  intros Hcell Htarget.
  rewrite (ExactFacts.sum_upto_ext _ _
             (GradientSumFacts.branch T U blank target logit b t u
                (rd am alpha [t; u] + - b 0%Z 0%Z - den t u))).
  - eapply GradientSumFacts.branches_sum_to_zero; eassumption.
  - intros d Hd. apply stored_gradient_is_branch.
    destruct Hcell. unfold in_lattice3. lia.
Qed.
End GradientSum.

(** C4, as the code has it.  In exact arithmetic, with the clamp off, when
    the denominators, log-probabilities, alpha and beta satisfy I1 to I5 for
    the logits, [blank] is a vocabulary index, and every label [targets[u]]
    ([u < U - 1]) is a vocabulary index OTHER THAN [blank], the gradients
    [ComputeGradientsOneSequence] writes satisfy
    [sum_d gradient(t, u, d) = 0] for every in-range cell.  (The kernel
    does not read [fusedLogSmax]; the gradient buffer is the logits buffer
    or disjoint from it.) *)
Theorem gradients_of_a_cell_sum_to_zero
        (options : @Options Exact.RNumeric) (tm : mem Z) (targets : Z) (T U : Z)
        (dm : mem R) (denom : TensorView) (am : mem R) (alpha : TensorView)
        (bm : mem R) (beta : TensorView) (lg gr : Z) (hm : mem R)
        (lp : Z -> Z -> @LogProbs Exact.RNumeric) :
  let maxT := maxSrcLen_ options in
  let maxU := maxTgtLen_ options in
  let D := numTargets_ options in
  let blank := blank_ options in
  let logits := TensorView_new [maxT; maxU; D] lg in
  let gradients := TensorView_new [maxT; maxU; D] gr in
  let logit := fun t u d => rd hm logits [t; u; d] in
  let den := fun t u => rd dm denom [t; u] in
  let a := fun t u => rd am alpha [t; u] in
  let b := fun t u => rd bm beta [t; u] in
  let target := fun u => tm (targets + u) in
  U <= maxU ->
  Exact.gtb (clamp_ options) 0%R = false ->
  gr = lg \/ disjoint_buffers options T U lg gr ->
  0 <= blank < D ->
  (forall u, 0 <= u < U - 1 -> 0 <= target u < D /\ target u <> blank) ->
  Invariants.I1_to_I5 T U D blank target logit den lp a b ->
  forall t u, in_lattice T U t u ->
    Exact.sum_upto (Z.to_nat D)
      (fun d => rd (ComputeGradientsOneSequence options logits tm targets T U dm denom
                      am alpha bm beta gradients hm) gradients [t; u; d])
    = 0%R.
Proof.
  intros maxT maxU D blank logits gradients logit den a b target
         HU Hclamp Hbuf Hblank Htargets (HI1 & HI2 & HI3 & _ & HI4 & _) t u Hcell.
  apply cell_gradients_sum with (lp := lp); try assumption.
  intros Hu. apply Htargets. destruct Hcell. lia.
Qed.

Lemma S1_invariants :
  Invariants.I1_to_I5 1 1 2 0 (fun _ => 0)
    (fun t u d => rd Samples.Rzeros (TensorView_new [1; 1; 2] 0) [t; u; d])
    (fun t u => rd Samples.S1_denominators (TensorView_new [1; 1] 0) [t; u])
    Samples.S1_logProbs
    (fun t u => rd Samples.Rzeros (TensorView_new [1; 1] 0) [t; u])
    (fun t u => rd Samples.S1_betas (TensorView_new [1; 1] 0) [t; u]).
Proof.
  unfold Invariants.I1_to_I5, Invariants.I1, Invariants.I2, Invariants.I3,
    Invariants.I4_alpha, Invariants.I4_beta, Invariants.I5, in_lattice, rd,
    Samples.Rzeros, Samples.S1_denominators, Samples.S1_betas, Samples.S1_logProbs.
  cbn [skip_ emit_].
  repeat split; intros; try lia; try lra.
  change (Z.to_nat 2) with 2%nat. cbn [Exact.sum_upto]. rewrite exp_0. f_equal. lra.
Qed.

Lemma gradients_of_a_cell_sum_to_zero_witness :
  (1 <= 1 /\ 0 <= 0 < 2 /\ in_lattice 1 1 0 0) /\
  Exact.gtb 0%R 0%R = false /\
  let view2 := TensorView_new [1; 1] 0 in
  let view3 := TensorView_new [1; 1; 2] 0 in
  Exact.sum_upto (Z.to_nat 2)
    (fun d => rd (ComputeGradientsOneSequence Samples.S1_options view3 (fun _ => 0) 0 1 1
                    Samples.S1_denominators view2 Samples.Rzeros view2 Samples.S1_betas view2
                    view3 Samples.Rzeros) view3 [0; 0; d])
  = 0%R.
Proof.
  split; [unfold in_lattice; lia|].
  assert (Hclamp : Exact.gtb 0%R 0%R = false).
  { unfold Exact.gtb. destruct (Rlt_dec 0 0); [lra | reflexivity]. }
  split; [exact Hclamp|]. intros view2 view3.
  apply (@gradients_of_a_cell_sum_to_zero Samples.S1_options (fun _ => 0) 0 1 1
           Samples.S1_denominators view2 Samples.Rzeros view2 Samples.S1_betas view2
           0 0 Samples.Rzeros Samples.S1_logProbs
           ltac:(cbn; lia) Hclamp (or_introl eq_refl) ltac:(cbn; lia)
           ltac:(intros; lia) S1_invariants 0 0 ltac:(unfold in_lattice; lia)).
Defined.

(** Evaluate the addresses and index tests of a closed example. *)
Ltac eval_cells :=
  repeat match goal with
         | |- context [address ?v ?l] =>
             let x := eval vm_compute in (address v l) in change (address v l) with x
         end;
  repeat match goal with
         | |- context [Z.eqb ?x ?y] =>
             let v := eval vm_compute in (Z.eqb x y) in change (Z.eqb x y) with v
         | |- context [Z.ltb ?x ?y] =>
             let v := eval vm_compute in (Z.ltb x y) in change (Z.ltb x y) with v
         end;
  cbv beta iota; cbn [andb].

Lemma L_invariants :
  Invariants.I1_to_I5 2 2 2 0 (fun u => Samples.L_targets (0 + u))
    (fun t u d => rd Samples.Rzeros (TensorView_new [2; 2; 2] 0) [t; u; d])
    (fun t u => rd Samples.S1_denominators (TensorView_new [2; 2] 0) [t; u])
    Samples.L_logProbs
    (fun t u => rd Samples.L_alphas (TensorView_new [2; 2] 0) [t; u])
    (fun t u => rd Samples.L_betas (TensorView_new [2; 2] 0) [t; u]).
Proof.
  unfold Invariants.I1_to_I5, Invariants.I1, Invariants.I2, Invariants.I3,
    Invariants.I4_alpha, Invariants.I4_beta, Invariants.I5, in_lattice, rd,
    Samples.Rzeros, Samples.S1_denominators, Samples.L_logProbs.
  cbn [skip_ emit_].
  repeat split; intros;
    repeat match goal with
           | H : 1 <= ?t < 2 |- _ => assert (t = 1) by lia; subst t; clear H
           | H : 0 <= ?t < 2 - 1 |- _ => assert (t = 0) by lia; subst t; clear H
           end;
    unfold Samples.L_alphas, Samples.L_betas; eval_cells;
    try (rewrite ExactFacts.lse_eq by lra); try lra.
  change (Z.to_nat 2) with 2%nat. cbn [Exact.sum_upto]. rewrite exp_0. f_equal. lra.
Qed.

(** C4 as stated fails when a label is the blank symbol: two frames, one
    label equal to [blank], two symbols, all logits zero, the other
    tensors as I1 to I5 determine them.  At the cell [(0, 0)] the blank
    branch of the kernel wins over the label branch, the label term is
    never subtracted, and the two gradients sum to [1/2]. *)
Lemma label_equal_to_blank_breaks_the_sum :
  let view2 := TensorView_new [2; 2] 0 in
  let view3 := TensorView_new [2; 2; 2] 0 in
  let total :=
    Exact.sum_upto (Z.to_nat 2)
      (fun d => rd (ComputeGradientsOneSequence Samples.L_options view3 Samples.L_targets 0
                      2 2 Samples.S1_denominators view2 Samples.L_alphas view2
                      Samples.L_betas view2 view3 Samples.Rzeros) view3 [0; 0; d]) in
  Invariants.I1_to_I5 2 2 2 0 (fun u => Samples.L_targets (0 + u))
    (fun t u d => rd Samples.Rzeros view3 [t; u; d])
    (fun t u => rd Samples.S1_denominators view2 [t; u])
    Samples.L_logProbs
    (fun t u => rd Samples.L_alphas view2 [t; u])
    (fun t u => rd Samples.L_betas view2 [t; u]) /\
  Exact.gtb (clamp_ Samples.L_options) 0%R = false /\
  Samples.L_targets 0 = blank_ Samples.L_options /\
  total = (/ 2)%R /\
  total <> 0%R.
Proof.
  intros view2 view3 total.
  assert (Hclamp : Exact.gtb (clamp_ Samples.L_options) 0%R = false).
  { cbn. unfold Exact.gtb. destruct (Rlt_dec 0 0); [lra | reflexivity]. }
  assert (Htotal : total = (/ 2)%R).
  { subst total. change (Z.to_nat 2) with 2%nat. cbn [Exact.sum_upto].
    change (Z.of_nat 0) with 0. change (Z.of_nat 1) with 1.
    rewrite !(@stored_gradient_is_branch Samples.L_options Samples.L_targets 0 2 2
                Samples.S1_denominators view2 Samples.L_alphas view2 Samples.L_betas view2
                0 0 Samples.Rzeros ltac:(cbn; lia) Hclamp (or_introl eq_refl))
      by (unfold in_lattice3; cbn; lia).
    unfold GradientSumFacts.branch, rd, Samples.L_targets, Samples.Rzeros,
      Samples.S1_denominators, Samples.L_alphas, Samples.L_betas.
    cbv zeta. cbn [blank_ Samples.L_options Samples.Roptions].
    eval_cells.
    replace (0 + (0 + - - (2 * ln 2) - ln 2) + - (2 * ln 2))%R with (- ln 2)%R by lra.
    rewrite ExactFacts.exp_minus_ln_2. lra. }
  split; [exact L_invariants|]. split; [exact Hclamp|]. split; [reflexivity|].
  split; [exact Htotal|]. rewrite Htotal. lra.
Qed.

(** * The dispatcher *)

Module GpuFacts.
Import Gpu.

Ltac run_host :=
  unfold Compute, ComputeSparse, Gpu.LogSumExp2D, bind, launch, cudaGetLastError,
    gpuErrchk, gpuAssert, exit, ret, cuda_init, cudaSuccess in *;
  cbn [fst snd launched last_error app negb Z.eqb] in *.

Ltac split_launches err :=
  cbn [until_failure pipeline app]; unfold cudaSuccess;
  repeat match goal with
         | H : (err ?k =? 0) = _ |- context [err ?k =? 0] => rewrite H
         | |- context [err ?k =? 0] => destruct (err k =? 0) eqn:?
         | _ => progress cbn [fst snd launched last_error app negb Z.eqb until_failure
                              pipeline failure_status stage_of]
         end.

Lemma Compute_run (err : kernel -> cudaError_t) (gradients : option Z) :
  launched (snd (Compute err gradients cuda_init))
  = fst (until_failure err (pipeline false gradients)) /\
  fst (Compute err gradients cuda_init)
  = match snd (until_failure err (pipeline false gradients)) with
    | None => Returned SUCCESS
    | Some k => Returned (failure_status k)
    end.
Proof.
  destruct gradients; run_host; unfold cudaSuccess; split_launches err; split; reflexivity.
Qed.

Lemma ComputeSparse_run (err : kernel -> cudaError_t) (gradients : option Z) :
  launched (snd (ComputeSparse err gradients cuda_init))
  = fst (until_failure err (pipeline true gradients)) /\
  fst (ComputeSparse err gradients cuda_init)
  = match snd (until_failure err (pipeline true gradients)) with
    | None => Returned SUCCESS
    | Some k =>
        match stage_of k with
        | Denominator => Returned (failure_status k)
        | _ => Exited (err k)
        end
    end.
Proof.
  destruct gradients; run_host; unfold cudaSuccess; split_launches err; split; reflexivity.
Qed.

Lemma until_failure_prefix err l :
  exists rest, l = fst (until_failure err l) ++ rest.
Proof.
  induction l as [|k l [rest IH]]; [exists []; reflexivity|].
  cbn [until_failure]. destruct (err k =? cudaSuccess).
  - destruct (until_failure err l) as [pre f]. cbn [fst] in *.
    exists rest. cbn [app]. now rewrite <- IH.
  - exists l. reflexivity.
Qed.
End GpuFacts.

(** [Compute] and [ComputeSparse] launch the kernels of the stages in the
    order denominator, log-probs, alpha/beta, gradient, and launch nothing
    after the first launch that leaves an error.  [Compute] then returns
    the status of the failing stage.  [ComputeSparse] returns it only for
    the denominator stage: an error after the log-probs, alpha/beta or
    gradient launch goes through [gpuErrchk], which leaves the process with
    [exit(code)] instead of returning.  With a null [gradients] pointer the
    gradient kernel is never launched, and both return [SUCCESS] when no
    launch fails. *)
Theorem dispatcher_runs_stages_in_order
        (launch_error : Gpu.kernel -> Gpu.cudaError_t) (gradients : option Z) :
  let dense := Gpu.Compute launch_error gradients Gpu.cuda_init in
  let sparse := Gpu.ComputeSparse launch_error gradients Gpu.cuda_init in
  let cut := fun s => Gpu.until_failure launch_error (Gpu.pipeline s gradients) in
  (Gpu.launched (snd dense) = fst (cut false) /\
   Gpu.launched (snd sparse) = fst (cut true)) /\
  (exists rest, Gpu.pipeline false gradients = Gpu.launched (snd dense) ++ rest) /\
  (exists rest, Gpu.pipeline true gradients = Gpu.launched (snd sparse) ++ rest) /\
  fst dense = match snd (cut false) with
              | None => Gpu.Returned SUCCESS
              | Some k => Gpu.Returned (Gpu.failure_status k)
              end /\
  fst sparse = match snd (cut true) with
               | None => Gpu.Returned SUCCESS
               | Some k =>
                   match Gpu.stage_of k with
                   | Gpu.Denominator => Gpu.Returned (Gpu.failure_status k)
                   | _ => Gpu.Exited (launch_error k)
                   end
               end /\
  (gradients = None ->
   (forall k, In k (Gpu.launched (snd dense)) -> Gpu.stage_of k <> Gpu.Gradient) /\
   (forall k, In k (Gpu.launched (snd sparse)) -> Gpu.stage_of k <> Gpu.Gradient) /\
   ((forall k, launch_error k = Gpu.cudaSuccess) ->
    fst dense = Gpu.Returned SUCCESS /\ fst sparse = Gpu.Returned SUCCESS)).
Proof.
  intros dense sparse cut.
  destruct (GpuFacts.Compute_run launch_error gradients) as [Hd1 Hd2].
  destruct (GpuFacts.ComputeSparse_run launch_error gradients) as [Hs1 Hs2].
  split; [split; assumption|].
  split; [unfold dense; rewrite Hd1; apply GpuFacts.until_failure_prefix|].
  split; [unfold sparse; rewrite Hs1; apply GpuFacts.until_failure_prefix|].
  split; [exact Hd2|]. split; [exact Hs2|].
  intros ->.
  assert (Hin : forall s k,
             In k (fst (Gpu.until_failure launch_error (Gpu.pipeline s None))) ->
             Gpu.stage_of k <> Gpu.Gradient).
  { intros s k Hk.
    destruct (GpuFacts.until_failure_prefix launch_error (Gpu.pipeline s None)) as [rest Hp].
    assert (Hk' : In k (Gpu.pipeline s None)) by (rewrite Hp; apply in_or_app; now left).
    destruct s; cbn in Hk'; intuition (subst; discriminate). }
  split; [| split].
  - intros k Hk. apply (Hin false). unfold dense in Hk. now rewrite Hd1 in Hk.
  - intros k Hk. apply (Hin true). unfold sparse in Hk. now rewrite Hs1 in Hk.
  - intros Hok. unfold dense, sparse. rewrite Hd2, Hs2.
    cbn [Gpu.pipeline Gpu.until_failure app]. rewrite !Hok. cbn. split; reflexivity.
Qed.

(** C9.  [ComputeSparse] breaks the status-code discipline of its
    siblings.  The launch of the log-probs kernel leaves the error [9]
    ([cudaErrorInvalidConfiguration], what a grid of [max_U > 65535]
    blocks in [y] gives).  [ComputeSparse] has launched the two
    denominator kernels and the log-probs kernel, and leaves the process
    with exit code [9] through [gpuErrchk]: no status is returned, in
    particular not [COMPUTE_LOG_PROBS_FAILED].  On the same failure
    [Compute], [ComputeAlphasSparse] and [ComputeBetasSparse] return
    [COMPUTE_LOG_PROBS_FAILED]; and [ComputeSparse] itself returns the
    status of the stage when it is a denominator kernel that fails. *)
Lemma ComputeSparse_exits_instead_of_returning :
  let launch_error := fun k =>
    match k with Gpu.ComputeLogProbs | Gpu.ComputeLogProbsSparse => 9 | _ => 0 end in
  let error_of := fun e =>
    match e with
    | GpuDiagnostics.Launch GpuDiagnostics.ComputeLogProbsSparse => 9
    | _ => 0
    end in
  let denominator_error := fun k =>
    match k with Gpu.ReduceLogSumExpGivenMax2D => 9 | _ => 0 end in
  let run := Gpu.ComputeSparse launch_error (Some 0) Gpu.cuda_init in
  fst run = Gpu.Exited 9 /\
  Gpu.launched (snd run)
  = [Gpu.ReduceMax2D; Gpu.ReduceLogSumExpGivenMax2D; Gpu.ComputeLogProbsSparse] /\
  fst run <> Gpu.Returned COMPUTE_LOG_PROBS_FAILED /\
  fst (Gpu.Compute launch_error (Some 0) Gpu.cuda_init)
  = Gpu.Returned COMPUTE_LOG_PROBS_FAILED /\
  fst (GpuDiagnostics.ComputeAlphasSparse error_of None GpuDiagnostics.cuda_init)
  = COMPUTE_LOG_PROBS_FAILED /\
  fst (GpuDiagnostics.ComputeBetasSparse error_of None GpuDiagnostics.cuda_init)
  = COMPUTE_LOG_PROBS_FAILED /\
  fst (Gpu.ComputeSparse denominator_error (Some 0) Gpu.cuda_init)
  = Gpu.Returned COMPUTE_DENOMINATOR_REDUCE_SUM_FAILED.
Proof.
  intros launch_error error_of denominator_error run.
  assert (H : fst run = Gpu.Exited 9) by reflexivity.
  split; [exact H|]. split; [reflexivity|].
  split; [rewrite H; discriminate|].
  repeat split; reflexivity.
Qed.

(** * The restricted passes and the allowed region *)

(** C7.  For every [AlignmentRestrictionCheck] (every assignment of its four
    predicates and of [validTimeRanges]), after
    [ComputeAlphaOneSequenceRestricted] and
    [ComputeBetaOneSequenceRestricted] return, every lattice cell outside
    the allowed region holds [-INFINITY], the cells [alpha(0, 0)] and
    [beta(T - 1, U - 1)] that the initialisation sets apart.  And every
    other lattice cell that holds something else than [-INFINITY] got it
    from an accepted transition whose term is not [-INFINITY]: a cell of
    the column [u = 0] from its blank transition, with the term
    [alpha(t - 1, 0) + logProbs(t - 1, 0).skip]; a cell with [u >= 1] from
    the interior loop, with [t] in [validTimeRanges(u)], through the blank
    transition with [alpha(t - 1, u) + logProbs(t - 1, u).skip] or the
    label transition with [alpha(t, u - 1) + logProbs(t, u - 1).emit]; or,
    on the row [t = 0], from the loop over that row, through its label
    transition, the cell holding the term the loop added up,
    [logProbs(0, 0).emit + ... + logProbs(0, u - 1).emit].  Likewise for
    beta, with the column [u = U - 1], the row [t = T - 1] and the terms
    [beta(t + 1, u) + logProbs(t, u).skip] and
    [beta(t, u + 1) + logProbs(t, u).emit].  ([-INFINITY != -INFINITY] is
    false in the arithmetic; on the row [t = 0] the interior loop reads
    [alpha(-1, u)], and on the row [t = T - 1] it reads [beta(T, u)], as
    the code does.) *)
Theorem restricted_passes_respect_allowed_region
        (NUM : Numeric) (INF : NumericInf)
        (new_check : mem Z -> Z -> Z -> Z -> Z -> Z -> AlignmentRestrictionCheck)
        (options : Options) (pm : mem LogProbs) (logProbs : TensorView)
        (maxT maxU alphas betas T U : Z) (wm : mem Z) (wpEnds : Z)
        (am bm : mem CAST_DTYPE) :
  U <= maxU ->
  c_neb c_neg_inf c_neg_inf = false ->
  let check := new_check wm wpEnds T U (lBuffer_ options) (rBuffer_ options) in
  let alpha_view := TensorView_new [maxT; maxU] alphas in
  let beta_view := TensorView_new [maxT; maxU] betas in
  let alpha := fun t u =>
    rd (snd (ComputeAlphaOneSequenceRestricted new_check options pm logProbs T U
               alpha_view wm wpEnds am)) alpha_view [t; u] in
  let beta := fun t u =>
    rd (snd (ComputeBetaOneSequenceRestricted new_check options pm logProbs T U
               beta_view wm wpEnds bm)) beta_view [t; u] in
  let lp := fun t u => rd pm logProbs [t; u] in
  (forall t u, in_lattice T U t u -> ~ (t = 0 /\ u = 0) ->
     alpha_allowed check t u = false -> alpha t u = c_neg_inf) /\
  (forall t u, in_lattice T U t u -> ~ (t = T - 1 /\ u = U - 1) ->
     beta_allowed check T U t u = false -> beta t u = c_neg_inf) /\
  (forall t, in_lattice T U t 0 -> 1 <= t ->
     c_neb (alpha t 0) c_neg_inf = true ->
     alphaBlankTransition check t 0 = true /\
     c_neb (c_add (alpha (t - 1) 0) (skip_ (lp (t - 1) 0))) c_neg_inf = true) /\
  (forall t u, in_lattice T U t u -> 1 <= u ->
     c_neb (alpha t u) c_neg_inf = true ->
     (in_valid_time_range check t u = true /\
      ((alphaBlankTransition check t u = true /\
        c_neb (c_add (alpha (t - 1) u) (skip_ (lp (t - 1) u))) c_neg_inf = true) \/
       (alphaEmitTransition check t u = true /\
        c_neb (c_add (alpha t (u - 1)) (emit_ (lp t (u - 1)))) c_neg_inf = true))) \/
     (t = 0 /\ alphaEmitTransition check 0 u = true /\
      alpha 0 u = c_add (alphaZ lp 0 (u - 1)) (emit_ (lp 0 (u - 1))))) /\
  (forall t, in_lattice T U t (U - 1) -> t <= T - 2 ->
     c_neb (beta t (U - 1)) c_neg_inf = true ->
     betaBlankTransition check t (U - 1) = true /\
     c_neb (c_add (beta (t + 1) (U - 1)) (skip_ (lp t (U - 1)))) c_neg_inf = true) /\
  (forall t u, in_lattice T U t u -> u <= U - 2 ->
     c_neb (beta t u) c_neg_inf = true ->
     (in_valid_time_range check t u = true /\
      ((betaBlankTransition check t u = true /\
        c_neb (c_add (beta (t + 1) u) (skip_ (lp t u))) c_neg_inf = true) \/
       (betaEmitTransition check t u = true /\
        c_neb (c_add (beta t (u + 1)) (emit_ (lp t u))) c_neg_inf = true))) \/
     (t = T - 1 /\ betaEmitTransition check (T - 1) u = true /\
      beta (T - 1) u = c_add (betaZ lp T U (T - 1) (u + 1)) (emit_ (lp (T - 1) u)))).
Proof.
  intros HU2 Hlaw check alpha_view beta_view alpha beta lp.
  destruct (Z_lt_le_dec T 1) as [Hnone | HT].
  { unfold in_lattice. repeat split; intros; lia. }
  destruct (Z_lt_le_dec U 1) as [Hnone | HU1].
  { unfold in_lattice. repeat split; intros; lia. }
  split; [| split; [| split; [| split; [| split]]]].
  - intros t u Hin _ Hout.
    exact (@ComputeAlphaOneSequenceRestricted_outside NUM INF new_check options pm logProbs
             maxT maxU alphas T U wm wpEnds HT HU1 HU2 Hlaw am t u Hin Hout).
  - intros t u Hin _ Hout.
    exact (@ComputeBetaOneSequenceRestricted_outside NUM INF new_check options pm logProbs
             maxT maxU betas T U wm wpEnds HT HU1 HU2 Hlaw bm t u Hin Hout).
  - intros t [Ht _] Ht1 Hne.
    assert (Ht' : 1 <= t < T) by lia.
    exact (@ComputeAlphaOneSequenceRestricted_column_reason NUM INF new_check options pm
             logProbs maxT maxU alphas T U wm wpEnds HT HU1 HU2 Hlaw am t Ht' Hne).
  - intros t u [Ht Hu] Hu1 Hne.
    assert (Hu' : 1 <= u < U) by lia.
    exact (@ComputeAlphaOneSequenceRestricted_cell_reason NUM INF new_check options pm
             logProbs maxT maxU alphas T U wm wpEnds HT HU1 HU2 Hlaw am t u Ht Hu' Hne).
  - intros t [Ht _] Ht1 Hne.
    assert (Ht' : 0 <= t <= T - 2) by lia.
    exact (@ComputeBetaOneSequenceRestricted_column_reason NUM INF new_check options pm
             logProbs maxT maxU betas T U wm wpEnds HT HU1 HU2 Hlaw bm t Ht' Hne).
  - intros t u [Ht Hu] Hu1 Hne.
    assert (Hu' : 0 <= u <= U - 2) by lia.
    exact (@ComputeBetaOneSequenceRestricted_cell_reason NUM INF new_check options pm
             logProbs maxT maxU betas T U wm wpEnds HT HU1 HU2 Hlaw bm t u Ht Hu' Hne).
Qed.

Lemma restricted_passes_respect_allowed_region_witness :
  2 <= 2 /\
  forall libm : Float32.Libm,
    let NUM := Float32.F32Numeric libm in
    let INF := Float32.F32NumericInf libm in
    let new_check := fun (_ : mem Z) (_ _ _ _ _ : Z) =>
      {| alphaBlankTransition := fun t _ => negb (t =? 2);
         alphaEmitTransition := fun _ _ => true;
         betaBlankTransition := fun t _ => negb (t =? 1);
         betaEmitTransition := fun _ _ => true;
         validTimeRanges := fun _ => (0, 3) |} in
    let options := Samples.options_3x2 libm in
    let pm := Samples.logProbs_const libm in
    let check := new_check (fun _ => 0) 0 4 2 (lBuffer_ options) (rBuffer_ options) in
    let view := TensorView_new [4; 2] 0 in
    let alpha := fun t u =>
      rd (snd (ComputeAlphaOneSequenceRestricted new_check options pm view 4 2 view
                 (fun _ => 0) 0 (Samples.stale libm))) view [t; u] in
    let beta := fun t u =>
      rd (snd (ComputeBetaOneSequenceRestricted new_check options pm view 4 2 view
                 (fun _ => 0) 0 (Samples.stale libm))) view [t; u] in
    let lp := fun t u => rd pm view [t; u] in
    c_neb c_neg_inf c_neg_inf = false /\
    (forall t u, in_lattice 4 2 t u -> ~ (t = 0 /\ u = 0) ->
       alpha_allowed check t u = false -> alpha t u = c_neg_inf) /\
    (forall t u, in_lattice 4 2 t u -> ~ (t = 4 - 1 /\ u = 2 - 1) ->
       beta_allowed check 4 2 t u = false -> beta t u = c_neg_inf) /\
    (forall t, in_lattice 4 2 t 0 -> 1 <= t ->
       c_neb (alpha t 0) c_neg_inf = true ->
       alphaBlankTransition check t 0 = true /\
       c_neb (c_add (alpha (t - 1) 0) (skip_ (lp (t - 1) 0))) c_neg_inf = true) /\
    (forall t u, in_lattice 4 2 t u -> 1 <= u ->
       c_neb (alpha t u) c_neg_inf = true ->
       (in_valid_time_range check t u = true /\
        ((alphaBlankTransition check t u = true /\
          c_neb (c_add (alpha (t - 1) u) (skip_ (lp (t - 1) u))) c_neg_inf = true) \/
         (alphaEmitTransition check t u = true /\
          c_neb (c_add (alpha t (u - 1)) (emit_ (lp t (u - 1)))) c_neg_inf = true))) \/
       (t = 0 /\ alphaEmitTransition check 0 u = true /\
        alpha 0 u = c_add (alphaZ lp 0 (u - 1)) (emit_ (lp 0 (u - 1))))) /\
    (forall t, in_lattice 4 2 t (2 - 1) -> t <= 4 - 2 ->
       c_neb (beta t (2 - 1)) c_neg_inf = true ->
       betaBlankTransition check t (2 - 1) = true /\
       c_neb (c_add (beta (t + 1) (2 - 1)) (skip_ (lp t (2 - 1)))) c_neg_inf = true) /\
    (forall t u, in_lattice 4 2 t u -> u <= 2 - 2 ->
       c_neb (beta t u) c_neg_inf = true ->
       (in_valid_time_range check t u = true /\
        ((betaBlankTransition check t u = true /\
          c_neb (c_add (beta (t + 1) u) (skip_ (lp t u))) c_neg_inf = true) \/
         (betaEmitTransition check t u = true /\
          c_neb (c_add (beta t (u + 1)) (emit_ (lp t u))) c_neg_inf = true))) \/
       (t = 4 - 1 /\ betaEmitTransition check (4 - 1) u = true /\
        beta (4 - 1) u = c_add (betaZ lp 4 2 (4 - 1) (u + 1)) (emit_ (lp (4 - 1) u)))).
Proof.
  assert (H2 : 2 <= 2) by lia.
  split; [exact H2|].
  intros libm NUM INF new_check options pm check view alpha beta lp.
  assert (Hlaw : c_neb c_neg_inf c_neg_inf = false) by reflexivity.
  split; [exact Hlaw|].
  exact (@restricted_passes_respect_allowed_region NUM INF new_check options pm view
           4 2 0 0 4 2 (fun _ => 0) 0 (Samples.stale libm) (Samples.stale libm)
           H2 Hlaw).
Defined.

(** * [TensorView]: strides, indexing and [SetZero] *)

Section EmptyDimension.

Lemma num_elements_empty dims : In 0 dims -> num_elements dims = 0.
Proof.
  induction dims as [|d rest IH]; intros Hin; [contradiction|].
  change (num_elements (d :: rest)) with (d * num_elements rest).
  destruct Hin as [-> | Hin]; [reflexivity|]. rewrite IH by assumption. lia.
Qed.

Lemma leading_stride_empty d rest :
  In 0 rest -> hd 1 (Int32.compute_strides (d :: rest)) = 0.
Proof.
  revert d. induction rest as [|d' rest IH]; intros d Hin; [contradiction|].
  change (Int32.compute_strides (d :: d' :: rest))
    with (match Int32.compute_strides (d' :: rest) with
          | s :: ss => Int32.mul s d' :: s :: ss
          | [] => [1]
          end).
  destruct (Int32.compute_strides (d' :: rest)) as [|s ss] eqn:Hs.
  { cbn [Int32.compute_strides] in Hs.
    destruct (Int32.compute_strides rest), rest; discriminate. }
  cbn [hd]. destruct Hin as [-> | Hin].
  - unfold Int32.mul. rewrite Z.mul_0_r. reflexivity.
  - specialize (IH d' Hin). rewrite Hs in IH. cbn [hd] in IH. subst s. reflexivity.
Qed.

Lemma in_bounds_positive dims indices :
  in_bounds dims indices -> Forall (fun d => 1 <= d) dims.
Proof.
  unfold in_bounds. induction 1 as [|i d irest rest Hi Hrest IH]; constructor; [lia | assumption].
Qed.

Lemma positive_or_empty dims :
  Forall (fun d => 0 <= d) dims -> Forall (fun d => 1 <= d) dims \/ In 0 dims.
Proof.
  induction 1 as [|d rest Hd Hrest [IH | IH]].
  - left. constructor.
  - destruct (Z.eq_dec d 0) as [-> | Hne]; [right; now left|].
    left. constructor; [lia | assumption].
  - right. now right.
Qed.
End EmptyDimension.

(** The constructor of [TensorView], for dimensions without an empty one
    whose number of elements is the value of an [int], computes row-major
    strides: one stride per dimension, the last one [1], and every other
    the product of the next stride and the next dimension.  Beyond that
    size a stride is reduced to the range of [int]: the leading stride of
    a [2 x 65536 x 65536] tensor is [0]. *)
Theorem TensorView_strides_are_row_major (dims : list Z) (data : Z) :
  dims <> [] -> Int32.sized dims ->
  let strides := strides_ (Int32.TensorView_new dims data) in
  (length strides = length dims /\
   last strides 0 = 1 /\
   (forall i, (S i < length dims)%nat ->
      nth i strides 0 = nth (S i) strides 0 * nth (S i) dims 0) /\
   hd 1 strides * hd 1 dims = num_elements dims) /\
  strides_ (Int32.TensorView_new [2; 65536; 65536] data) = [0; 65536; 1].
Proof.
  intros Hne Hsized strides. split; [| reflexivity].
  unfold strides. rewrite TensorView_new_fits by assumption.
  unfold TensorView_new. cbn [strides_].
  destruct dims as [|d rest]; [congruence|].
  split; [apply compute_strides_length|].
  split; [apply compute_strides_last|].
  split; [apply compute_strides_step|].
  rewrite leading_stride. cbn [hd num_elements fold_right]. unfold num_elements. lia.
Qed.

Lemma TensorView_strides_are_row_major_witness :
  ([2; 3; 4] <> [] /\ Int32.sized [2; 3; 4]) /\
  let strides := strides_ (Int32.TensorView_new [2; 3; 4] 0) in
  (length strides = length [2; 3; 4] /\
   last strides 0 = 1 /\
   (forall i, (S i < length [2; 3; 4])%nat ->
      nth i strides 0 = nth (S i) strides 0 * nth (S i) [2; 3; 4] 0) /\
   hd 1 strides * hd 1 [2; 3; 4] = num_elements [2; 3; 4]) /\
  strides_ (Int32.TensorView_new [2; 65536; 65536] 0) = [0; 65536; 1].
Proof.
  assert (H1 : [2; 3; 4] <> []) by discriminate.
  assert (H2 : Int32.sized [2; 3; 4]).
  { apply sized3; unfold Int32.max_int; lia. }
  split; [split; assumption|].
  exact (@TensorView_strides_are_row_major [2; 3; 4] 0 H1 H2).
Defined.

(** [operator()] on index lists within the dimensions of a tensor whose
    number of elements is the value of an [int]: the element addressed
    lies in the block of [num_elements dims] elements that starts at
    [data_], and two different index lists address different elements.
    Beyond that size the index is reduced to the range of [int]: in a
    [2 x 65536 x 65536] tensor [(1, 0, 0)] addresses the element of
    [(0, 0, 0)]. *)
Theorem TensorView_index_is_injective_and_in_block
        (dims : list Z) (data : Z) (indices indices' : list Z) :
  Int32.sized dims -> in_bounds dims indices -> in_bounds dims indices' ->
  let v := Int32.TensorView_new dims data in
  let huge := Int32.TensorView_new [2; 65536; 65536] data in
  data <= Int32.address v indices < data + num_elements dims /\
  (Int32.address v indices = Int32.address v indices' -> indices = indices') /\
  (in_bounds [2; 65536; 65536] [1; 0; 0] /\
   Int32.address huge [1; 0; 0] = Int32.address huge [0; 0; 0]).
Proof.
  intros Hsized Hin Hin' v huge. unfold v.
  rewrite !address_fits by assumption.
  unfold address, TensorView_new. cbn [data_ strides_].
  pose proof (flat_index_range Hin) as Hr.
  split; [lia|]. split.
  - intros Heq. apply (flat_index_inj Hin Hin'). lia.
  - split; [apply in_bounds3; lia | reflexivity].
Qed.

Lemma TensorView_index_is_injective_and_in_block_witness :
  (Int32.sized [2; 3; 4] /\
   in_bounds [2; 3; 4] [1; 2; 3] /\ in_bounds [2; 3; 4] [1; 0; 3]) /\
  let v := Int32.TensorView_new [2; 3; 4] 100 in
  let huge := Int32.TensorView_new [2; 65536; 65536] 100 in
  100 <= Int32.address v [1; 2; 3] < 100 + num_elements [2; 3; 4] /\
  (Int32.address v [1; 2; 3] = Int32.address v [1; 0; 3] -> [1; 2; 3] = [1; 0; 3]) /\
  (in_bounds [2; 65536; 65536] [1; 0; 0] /\
   Int32.address huge [1; 0; 0] = Int32.address huge [0; 0; 0]).
Proof.
  assert (H0 : Int32.sized [2; 3; 4]).
  { apply sized3; unfold Int32.max_int; lia. }
  assert (H1 : in_bounds [2; 3; 4] [1; 2; 3]) by (apply in_bounds3; lia).
  assert (H2 : in_bounds [2; 3; 4] [1; 0; 3]) by (apply in_bounds3; lia).
  split; [split; [assumption | split; assumption]|].
  exact (@TensorView_index_is_injective_and_in_block [2; 3; 4] 100 [1; 2; 3] [1; 0; 3]
           H0 H1 H2).
Defined.

(** [SetZero] on a view whose dimensions are not negative and, unless one
    of them is empty, give a number of elements that is the value of an
    [int]: it clears the block of [num_elements dims] elements that starts
    at [data_] and nothing else, and every element [operator()] reaches
    with indices within the dimensions reads zero afterwards.  Beyond that
    size the [int] product [dims_[0] * strides_[0]] is not the number of
    elements: on a [2 x 65536 x 65536] tensor it is [0] and [SetZero]
    clears nothing. *)
Theorem SetZero_clears_exactly_the_block
        (A : Type) (zero : A) (dims : list Z) (data : Z) (m : mem A) :
  dims <> [] -> Forall (fun d => 0 <= d) dims ->
  (Forall (fun d => 1 <= d) dims -> num_elements dims <= Int32.max_int) ->
  let v := Int32.TensorView_new dims data in
  (exists m',
     Int32.SetZero zero v m = Some m' /\
     (forall a, data <= a < data + num_elements dims -> m' a = zero) /\
     (forall a, ~ (data <= a < data + num_elements dims) -> m' a = m a) /\
     (forall indices, in_bounds dims indices -> Int32.rd m' v indices = zero)) /\
  Int32.SetZero zero (Int32.TensorView_new [2; 65536; 65536] data) m = Some m.
Proof.
  intros Hne Hnonneg Hsize v. split; [| reflexivity].
  destruct dims as [|d rest]; [congruence|].
  destruct (positive_or_empty Hnonneg) as [Hpos | Hempty].
  - (* no empty dimension *)
    assert (Hsized : Int32.sized (d :: rest)) by (split; auto).
    pose proof (num_elements_nonneg Hnonneg) as Hn.
    pose proof (Hsize Hpos) as Hfits.
    pose proof (block_size d rest) as Hblock.
    unfold Int32.SetZero, v. rewrite TensorView_new_fits by assumption.
    cbn [TensorView_new dims_ strides_ data_] in *.
    destruct (compute_strides (d :: rest)) as [|s ss] eqn:Hs.
    { now apply compute_strides_nonempty in Hs. }
    cbv zeta. rewrite mul_fits by (rewrite Hblock; apply fits_small; lia).
    rewrite Hblock.
    replace (num_elements (d :: rest) <? 0) with false by (symmetry; apply Z.ltb_ge; lia).
    eexists. split; [reflexivity|].
    assert (Hin : forall a, data <= a < data + num_elements (d :: rest) ->
                    for_up 0 (num_elements (d :: rest))
                           (fun i m0 => store m0 (data + i) zero) m a = zero).
    { intros a Ha. rewrite clear_loop by assumption.
      replace (data <=? a) with true by (symmetry; apply Z.leb_le; lia).
      replace (a <? data + num_elements (d :: rest)) with true
        by (symmetry; apply Z.ltb_lt; lia).
      reflexivity. }
    split; [exact Hin | split].
    + intros a Ha. rewrite clear_loop by assumption.
      destruct (Z.leb_spec data a); cbn [andb]; [| reflexivity].
      destruct (Z.ltb_spec a (data + num_elements (d :: rest))); [lia | reflexivity].
    + intros indices Hb. unfold Int32.rd.
      rewrite <- (TensorView_new_fits data Hsized).
      rewrite address_fits by assumption.
      unfold address, TensorView_new. cbn [data_ strides_].
      apply Hin. pose proof (flat_index_range Hb) as Hr. lia.
  - (* an empty dimension: the size is zero whatever the strides *)
    rewrite (num_elements_empty _ Hempty).
    assert (Hzero : match dims_ v, strides_ v with
                    | d0 :: _, s0 :: _ => Int32.mul d0 s0
                    | _, _ => 0
                    end = 0).
    { unfold v, Int32.TensorView_new. cbn [dims_ strides_].
      pose proof (leading_stride_empty d rest) as Hlead.
      destruct (Int32.compute_strides (d :: rest)) as [|s ss]; [reflexivity|].
      cbn [hd] in Hlead. destruct Hempty as [-> | Hrest].
      - reflexivity.
      - rewrite (Hlead Hrest). unfold Int32.mul. rewrite Z.mul_0_r. reflexivity. }
    assert (Hnonempty : strides_ v <> []).
    { unfold v, Int32.TensorView_new. cbn [strides_ Int32.compute_strides].
      destruct (Int32.compute_strides rest), rest; discriminate. }
    exists m. split; [| split; [| split]].
    + unfold Int32.SetZero.
      assert (Hd : dims_ v = d :: rest) by reflexivity.
      rewrite Hd in *. destruct (strides_ v) as [|s0 ss]; [congruence|].
      cbv zeta. rewrite Hzero. reflexivity.
    + intros a Ha. lia.
    + reflexivity.
    + intros indices Hb. apply in_bounds_positive in Hb.
      exfalso. rewrite Forall_forall in Hb. specialize (Hb 0 Hempty). lia.
Qed.

Lemma SetZero_clears_exactly_the_block_witness :
  ([2; 3] <> [] /\ Forall (fun d => 0 <= d) [2; 3] /\
   (Forall (fun d => 1 <= d) [2; 3] -> num_elements [2; 3] <= Int32.max_int)) /\
  let v := Int32.TensorView_new [2; 3] 10 in
  (exists m',
     Int32.SetZero 0 v (fun _ => 7) = Some m' /\
     (forall a, 10 <= a < 10 + num_elements [2; 3] -> m' a = 0) /\
     (forall a, ~ (10 <= a < 10 + num_elements [2; 3]) -> m' a = 7) /\
     (forall indices, in_bounds [2; 3] indices -> Int32.rd m' v indices = 0)) /\
  Int32.SetZero 0 (Int32.TensorView_new [2; 65536; 65536] 10) (fun _ => 7)
  = Some (fun _ => 7).
Proof.
  assert (H1 : [2; 3] <> []) by discriminate.
  assert (H2 : Forall (fun d => 0 <= d) [2; 3]).
  { apply Forall_cons; [lia|]. apply Forall_cons; [lia|]. apply Forall_nil. }
  assert (H3 : Forall (fun d => 1 <= d) [2; 3] -> num_elements [2; 3] <= Int32.max_int).
  { intros _. cbn. unfold Int32.max_int. lia. }
  split; [split; [assumption | split; assumption]|].
  exact (@SetZero_clears_exactly_the_block Z 0 [2; 3] 10 (fun _ => 7) H1 H2 H3).
Defined.
(** * Loops whose iterations own disjoint sets of addresses *)

Section Cellwise.
Variable A : Type.

(** [W i a]: iteration [i] owns address [a]; [R i a x y]: it turns the
    content [x] of that address into [y]. *)
Variable W : Z -> Z -> Prop.
Variable R : Z -> Z -> A -> A -> Prop.
Variable F : Z -> mem A -> mem A.
Variables lo hi : Z.

Hypothesis owned : forall i m a, lo <= i < hi -> W i a -> R i a (m a) (F i m a).
Hypothesis others : forall i m a, lo <= i < hi -> ~ W i a -> F i m a = m a.
Hypothesis disjoint : forall i j a, lo <= i < hi -> lo <= j < hi -> W i a -> W j a -> i = j.

Lemma for_up_cellwise (m : mem A) (a : Z) :
  (forall i, lo <= i < hi -> W i a -> R i a (m a) (for_up lo hi F m a)) /\
  ((forall i, lo <= i < hi -> ~ W i a) -> for_up lo hi F m a = m a).
Proof.
  destruct (Z_lt_le_dec hi lo) as [Hempty | Hle].
  { rewrite for_up_empty by lia. split; [intros i Hi; lia | reflexivity]. }
  apply for_up_inv
    with (P := fun j (m' : mem A) =>
                 (forall i, lo <= i < j -> W i a -> R i a (m a) (m' a)) /\
                 ((forall i, lo <= i < j -> ~ W i a) -> m' a = m a)).
  - assumption.
  - split; [intros i Hi; lia | reflexivity].
  - intros j m' Hj [Hdone Hrest]. split.
    + intros i Hi HW. destruct (Z.eq_dec i j) as [-> | Hne].
      * rewrite <- Hrest.
        -- apply owned; assumption.
        -- intros i' Hi' HW'. assert (i' = j) by (apply (disjoint (a := a)); auto; lia). lia.
      * rewrite others.
        -- apply Hdone; [lia | assumption].
        -- assumption.
        -- intros HW'. assert (i = j) by (apply (disjoint (a := a)); auto; lia). lia.
    + intros Hnone. rewrite others.
      * apply Hrest. intros i Hi. apply Hnone. lia.
      * assumption.
      * apply Hnone. lia.
Qed.
End Cellwise.
(** * The log-probability stage over a batch *)

Section LogProbsExact.
Context {NUM : Numeric}.
Local Open Scope num_scope.

Variable options : Options.
Variable lm : mem DTYPE.
Variable tm : mem Z.
Variable dm : mem CAST_DTYPE.

Section OneSequence.
Variable logits : TensorView.
Variable targets : Z.
Variables T U : Z.
Variable denom : TensorView.
Variables maxT maxU base : Z.
Hypothesis U_le : U <= maxU.

Let logProbs := TensorView_new [maxT; maxU] base.

(** What one iteration of the inner loop makes of the pair it finds in
    cell [(t, u)]. *)
Definition log_probs_update (t u : Z) (p : LogProbs) : LogProbs :=
  set_skip
    (if u <? U - 1
     then set_emit p (cast (rd lm logits [t; u; tm (targets + u)]) -. rd dm denom [t; u])
     else p)
    (cast (rd lm logits [t; u; blank_ options]) -. rd dm denom [t; u]).

Lemma log_probs_row t (pm : mem LogProbs) a :
  let row :=
    for_up 0 U (fun u pm =>
      let pm :=
        if u <? U - 1 then
          wr pm logProbs [t; u]
             (set_emit (rd pm logProbs [t; u])
                       (cast (rd lm logits [t; u; tm (targets + u)]) -. rd dm denom [t; u]))
        else pm in
      wr pm logProbs [t; u]
         (set_skip (rd pm logProbs [t; u])
                   (cast (rd lm logits [t; u; blank_ options]) -. rd dm denom [t; u]))) pm in
  (forall u, 0 <= u < U -> a = address logProbs [t; u] ->
     row a = log_probs_update t u (pm a)) /\
  ((forall u, 0 <= u < U -> a <> address logProbs [t; u]) -> row a = pm a).
Proof.
  intros row. unfold row.
  apply (@for_up_cellwise LogProbs
           (fun u a => a = address logProbs [t; u])
           (fun u a x y => y = log_probs_update t u x)).
  - intros u m a' Hu ->. cbv zeta. unfold log_probs_update, wr, rd.
    destruct (u <? U - 1) eqn:Hlast; rewrite !store_same; reflexivity.
  - intros u m a' Hu Hne. cbv zeta. unfold wr.
    destruct (u <? U - 1); rewrite ?store_other by assumption; reflexivity.
  - intros u u' a' Hu Hu' -> Heq.
    apply address2_inj in Heq; [destruct Heq; congruence | lia | lia].
Qed.

Lemma ComputeLogProbsOneSequence_exact (pm : mem LogProbs) a :
  let pm' := ComputeLogProbsOneSequence options lm logits tm targets T U dm denom logProbs pm in
  (forall t u, in_lattice T U t u -> a = address logProbs [t; u] ->
     pm' a = log_probs_update t u (pm a)) /\
  ((forall t u, in_lattice T U t u -> a <> address logProbs [t; u]) -> pm' a = pm a).
Proof.
  intros pm'. unfold pm', ComputeLogProbsOneSequence. cbv zeta.
  match goal with |- context [for_up 0 T ?F pm] =>
    destruct (@for_up_cellwise LogProbs
                (fun t a => exists u, 0 <= u < U /\ a = address logProbs [t; u])
                (fun t a x y => forall u, 0 <= u < U -> a = address logProbs [t; u] ->
                                  y = log_probs_update t u x)
                F 0 T) with (m := pm) (a := a) as [Hcells Hframe]
  end.
  - intros t m a' Ht [u [Hu Ha]] u' Hu' Ha'.
    now apply (log_probs_row t m a').
  - intros t m a' Ht Hnone. apply (log_probs_row t m a').
    intros u Hu Ha. apply Hnone. now exists u.
  - intros t t' a' Ht Ht' [u [Hu Ha]] [u' [Hu' Ha']]. subst a'.
    apply address2_inj in Ha'; [apply Ha' | lia | lia].
  - split.
    + intros t u [Ht Hu] Ha. apply (Hcells t Ht); [now exists u | assumption | assumption].
    + intros Hnone. apply Hframe. intros t Ht [u [Hu Ha]].
      apply (Hnone t u); [split; assumption | assumption].
Qed.
End OneSequence.

Variables logits targets : Z.
Variable im : mem Z.
Variables srcLengths tgtLengths denominators logProbs : Z.

Let B := batchSize_ options.
Let maxT := maxSrcLen_ options.
Let maxU := maxTgtLen_ options.
Let D := numTargets_ options.
Let seqLogits b := TensorView_new [maxT; maxU; D] (logits + b * maxT * maxU * D).
Let seqTargets b := targets + b * (maxU - 1).
Let seqDenoms b := TensorView_new [maxT; maxU] (denominators + b * maxT * maxU).
Let seqlogProbs b := TensorView_new [maxT; maxU] (logProbs + b * maxT * maxU).
Let T b := im (srcLengths + b).
Let U b := im (tgtLengths + b) + 1.

Hypothesis fit : lengths_fit options im srcLengths tgtLengths.

(** The blocks of two samples do not overlap. *)
Lemma sample_cells_disjoint b b' t u t' u' :
  0 <= b < B -> 0 <= b' < B ->
  in_lattice (T b) (U b) t u -> in_lattice (T b') (U b') t' u' ->
  address (seqlogProbs b) [t; u] = address (seqlogProbs b') [t'; u'] ->
  b = b' /\ t = t' /\ u = u'.
Proof.
  intros Hb Hb' [Ht Hu] [Ht' Hu'] Heq.
  destruct (fit Hb) as [HT HU]. destruct (fit Hb') as [HT' HU'].
  unfold seqlogProbs, T, U, maxT, maxU in *. rewrite !address2 in Heq.
  set (mT := maxSrcLen_ options) in *. set (mU := maxTgtLen_ options) in *.
  assert (Hoff : 0 <= u + t * mU < mT * mU) by nia.
  assert (Hoff' : 0 <= u' + t' * mU < mT * mU) by nia.
  assert (b = b') by nia. subst b'.
  assert (t = t') by nia. subst t'.
  repeat split; lia.
Qed.

Lemma ComputeLogProbs_exact (pm : mem LogProbs) a :
  let pm' := snd (ComputeLogProbs options lm logits tm targets im srcLengths tgtLengths
                                  dm denominators logProbs pm) in
  (forall b t u, 0 <= b < B -> in_lattice (T b) (U b) t u ->
     a = address (seqlogProbs b) [t; u] ->
     pm' a = log_probs_update (seqLogits b) (seqTargets b) (U b) (seqDenoms b) t u (pm a)) /\
  ((forall b t u, 0 <= b < B -> in_lattice (T b) (U b) t u ->
      a <> address (seqlogProbs b) [t; u]) -> pm' a = pm a).
Proof.
  intros pm'. unfold pm', ComputeLogProbs. cbv zeta. cbn [snd].
  match goal with |- context [for_up 0 _ ?F pm] =>
    destruct (@for_up_cellwise LogProbs
                (fun b a => exists t u, in_lattice (T b) (U b) t u /\
                                        a = address (seqlogProbs b) [t; u])
                (fun b a x y => forall t u, in_lattice (T b) (U b) t u ->
                                  a = address (seqlogProbs b) [t; u] ->
                                  y = log_probs_update (seqLogits b) (seqTargets b) (U b)
                                                       (seqDenoms b) t u x)
                F 0 B) with (m := pm) (a := a) as [Hcells Hframe]
  end.
  - intros b m a' Hb [t [u [Hin Ha]]] t' u' Hin' Ha'.
    destruct (fit Hb) as [_ HU].
    now apply (@ComputeLogProbsOneSequence_exact (seqLogits b) (seqTargets b) (T b) (U b)
                 (seqDenoms b) maxT maxU (logProbs + b * maxT * maxU) HU m a').
  - intros b m a' Hb Hnone.
    destruct (fit Hb) as [_ HU].
    apply (@ComputeLogProbsOneSequence_exact (seqLogits b) (seqTargets b) (T b) (U b)
             (seqDenoms b) maxT maxU (logProbs + b * maxT * maxU) HU m a').
    intros t u Hin Ha. apply Hnone. now exists t, u.
  - intros b b' a' Hb Hb' [t [u [Hin Ha]]] [t' [u' [Hin' Ha']]]. subst a'.
    now apply (sample_cells_disjoint Hb Hb' Hin Hin') in Ha'.
  - split.
    + intros b t u Hb Hin Ha. apply (Hcells b Hb); [now exists t, u | assumption | assumption].
    + intros Hnone. apply Hframe. intros b Hb [t [u [Hin Ha]]].
      now apply (Hnone b t u).
Qed.
End LogProbsExact.

(** [ComputeLogProbs], with its offsets and indices in [int], over a batch
    whose padded logits an [int] can count, whose samples fit the padded
    tensors and whose symbols belong to the vocabulary: it returns
    [SUCCESS]; every lattice cell of every sample receives
    [skip = logits(t, u, blank) - denom(t, u)] and, for [u < U - 1],
    [emit = logits(t, u, targets[u]) - denom(t, u)]; the [emit] field of
    the last label position [u = U - 1] is never written and keeps what the
    buffer held; and no address outside the lattices of the samples is
    written.  The cells are named by their row-major positions in the
    padded tensors. *)
Theorem ComputeLogProbs_fills_the_lattices_only
        (NUM : Numeric) (options : Options)
        (lm : mem DTYPE) (logits : Z) (tm : mem Z) (targets : Z)
        (im : mem Z) (srcLengths tgtLengths : Z)
        (dm : mem CAST_DTYPE) (denominators logProbs : Z) (pm : mem LogProbs) :
  batch_fits_int options ->
  lengths_fit options im srcLengths tgtLengths ->
  int_lengths options im tgtLengths ->
  symbols_in_range options tm targets im tgtLengths ->
  let B := batchSize_ options in
  let maxT := maxSrcLen_ options in
  let maxU := maxTgtLen_ options in
  let D := numTargets_ options in
  let T := fun b => im (srcLengths + b) in
  let U := fun b => im (tgtLengths + b) + 1 in
  let logit := fun b t u d =>
    rd lm (TensorView_new [maxT; maxU; D] (logits + b * maxT * maxU * D)) [t; u; d] in
  let denom := fun b t u =>
    rd dm (TensorView_new [maxT; maxU] (denominators + b * maxT * maxU)) [t; u] in
  let target := fun b u => tm (targets + b * (maxU - 1) + u) in
  let view := fun b => TensorView_new [maxT; maxU] (logProbs + b * maxT * maxU) in
  let result := Int32.ComputeLogProbs options lm logits tm targets im srcLengths tgtLengths
                                      dm denominators logProbs pm in
  fst result = SUCCESS /\
  (forall b t u, 0 <= b < B -> in_lattice (T b) (U b) t u ->
     let cell := rd (snd result) (view b) [t; u] in
     skip_ cell = c_sub (cast (logit b t u (blank_ options))) (denom b t u) /\
     (u < U b - 1 -> emit_ cell = c_sub (cast (logit b t u (target b u))) (denom b t u)) /\
     (u = U b - 1 -> emit_ cell = emit_ (rd pm (view b) [t; u]))) /\
  (forall a, (forall b t u, 0 <= b < B -> in_lattice (T b) (U b) t u ->
                            a <> address (view b) [t; u]) ->
             snd result a = pm a).
Proof.
  intros Hbatch Hfit Hints Hsymbols B maxT maxU D T U logit denom target view result.
  unfold result.
  rewrite (@ComputeLogProbs_fits NUM options tm targets im srcLengths tgtLengths
             Hbatch Hfit Hsymbols lm logits dm denominators logProbs pm Hints).
  split; [reflexivity|]. split.
  - intros b t u Hb Hin.
    destruct (@ComputeLogProbs_exact NUM options lm tm dm logits targets im srcLengths
                tgtLengths denominators logProbs Hfit pm (address (view b) [t; u]))
      as [Hcells _].
    unfold rd. rewrite (Hcells b t u Hb Hin eq_refl).
    unfold log_probs_update, set_skip, set_emit. cbn [skip_ emit_].
    split; [reflexivity|]. split.
    + intros Hu. replace (u <? im (tgtLengths + b) + 1 - 1) with true
        by (symmetry; apply Z.ltb_lt; exact Hu).
      reflexivity.
    + intros Hu. replace (u <? im (tgtLengths + b) + 1 - 1) with false
        by (symmetry; apply Z.ltb_ge; unfold U in Hu; lia).
      reflexivity.
  - intros a Ha.
    destruct (@ComputeLogProbs_exact NUM options lm tm dm logits targets im srcLengths
                tgtLengths denominators logProbs Hfit pm a) as [_ Hframe].
    apply Hframe. exact Ha.
Qed.

(** Two samples in [2 x 2] padded lattices over two symbols: the first
    fills its lattice and has one label, the second has one frame and no
    label, so that three cells of its block are padding. *)
Lemma ComputeLogProbs_fills_the_lattices_only_witness :
  let options := Samples.Roptions 2 2 2 2 0 0%R true in
  let im := fun a => if a =? 0 then 2 else if a =? 1 then 1 else if a =? 2 then 1 else 0 in
  let tm := fun a => if a =? 0 then 1 else 0 in
  let lm := fun a : Z => IZR a in
  let dm := Samples.S1_denominators in
  let pm := Samples.RlogProbs_zero in
  (batch_fits_int options /\ lengths_fit options im 0 2 /\ int_lengths options im 2 /\
   symbols_in_range options tm 0 im 2) /\
  let T := fun b => im (0 + b) in
  let U := fun b => im (2 + b) + 1 in
  let logit := fun b t u d =>
    rd lm (TensorView_new [2; 2; 2] (0 + b * 2 * 2 * 2)) [t; u; d] in
  let denom := fun b t u => rd dm (TensorView_new [2; 2] (0 + b * 2 * 2)) [t; u] in
  let target := fun b u => tm (0 + b * (2 - 1) + u) in
  let view := fun b => TensorView_new [2; 2] (0 + b * 2 * 2) in
  let result := Int32.ComputeLogProbs options lm 0 tm 0 im 0 2 dm 0 0 pm in
  fst result = SUCCESS /\
  (forall b t u, 0 <= b < 2 -> in_lattice (T b) (U b) t u ->
     let cell := rd (snd result) (view b) [t; u] in
     skip_ cell = (logit b t u 0%Z - denom b t u)%R /\
     (u < U b - 1 -> emit_ cell = (logit b t u (target b u) - denom b t u)%R) /\
     (u = U b - 1 -> emit_ cell = emit_ (rd pm (view b) [t; u]))) /\
  (forall a, (forall b t u, 0 <= b < 2 -> in_lattice (T b) (U b) t u ->
                            a <> address (view b) [t; u]) ->
             snd result a = pm a).
Proof.
  intros options im tm lm dm pm.
  assert (Hbatch : batch_fits_int options).
  { unfold batch_fits_int, Int32.max_int. cbn. lia. }
  assert (Hcases : forall b, 0 <= b < batchSize_ options -> b = 0 \/ b = 1)
    by (cbn; intros; lia).
  assert (Hfit : lengths_fit options im 0 2).
  { intros b Hb. destruct (Hcases b Hb); subst b; cbn; lia. }
  assert (Hints : int_lengths options im 2).
  { intros b Hb. unfold Int32.fits, Int32.min_int, Int32.max_int.
    destruct (Hcases b Hb); subst b; cbn; lia. }
  assert (Hsymbols : symbols_in_range options tm 0 im 2).
  { split; [cbn; lia|]. intros b u Hb Hu.
    destruct (Hcases b Hb); subst b; cbn in Hu |- *; [| lia].
    assert (u = 0) by lia. subst u. cbn. lia. }
  split; [split; [assumption | split; [assumption | split; assumption]]|].
  exact (@ComputeLogProbs_fills_the_lattices_only Exact.RNumeric options lm 0 tm 0
           im 0 2 dm 0 0 pm Hbatch Hfit Hints Hsymbols).
Defined.

(** * The denominator, for every numeric type *)


(** * Denominators followed by log-probabilities: the log-softmax *)


(** [LogSumExp2D] run on the [B * maxT * maxU] rows of the logits, followed
    by [ComputeLogProbs] on the denominators it produced, both with their
    [int] arithmetic, over a batch whose padded logits an [int] can count:
    for every numeric type, every lattice cell of every sample receives
    its blank logit minus the two-pass log-sum-exp of its row as [skip]
    and, for [u < U - 1], the logit of [targets[u]] minus that value as
    [emit].  In exact arithmetic the two-pass value is
    [log sum_d exp (x[d])], and [x[k]] minus it, the log-softmax, is at
    most [0] for every symbol [k]. *)
Theorem log_probs_are_log_softmax
        (NUM : Numeric) (options : Options) (fuel : nat)
        (lm : mem DTYPE) (logits : Z) (tm : mem Z) (targets : Z)
        (im : mem Z) (srcLengths tgtLengths : Z)
        (dm : mem CAST_DTYPE) (denominators logProbs : Z) (pm : mem LogProbs) :
  let B := batchSize_ options in
  let maxT := maxSrcLen_ options in
  let maxU := maxTgtLen_ options in
  let D := numTargets_ options in
  let T := fun b => im (srcLengths + b) in
  let U := fun b => im (tgtLengths + b) + 1 in
  0 <= B ->
  batch_fits_int options ->
  lengths_fit options im srcLengths tgtLengths ->
  int_lengths options im tgtLengths ->
  symbols_in_range options tm targets im tgtLengths ->
  (Z.to_nat (B * maxT * maxU) <= fuel)%nat ->
  (exists (dm' : mem CAST_DTYPE) (pm' : mem LogProbs),
     Int32.LogSumExp2D fuel (B * maxT * maxU) D lm logits denominators dm
     = Some (SUCCESS, dm') /\
     Int32.ComputeLogProbs options lm logits tm targets im srcLengths tgtLengths
                           dm' denominators logProbs pm
     = (SUCCESS, pm') /\
     forall b t u, 0 <= b < B -> in_lattice (T b) (U b) t u ->
       let x := fun d =>
         cast (rd lm (TensorView_new [maxT; maxU; D] (logits + b * maxT * maxU * D))
                  [t; u; d]) in
       let log_sum := two_pass_log_sum_exp x D in
       let cell := rd pm' (TensorView_new [maxT; maxU] (logProbs + b * maxT * maxU)) [t; u] in
       let target := tm (targets + b * (maxU - 1) + u) in
       skip_ cell = c_sub (x (blank_ options)) log_sum /\
       (u < U b - 1 -> emit_ cell = c_sub (x target) log_sum)) /\
  (forall (x : Z -> R) (k : Z), 0 <= k < D ->
     let log_sum := two_pass_log_sum_exp (NUM := Exact.RNumeric) x D in
     log_sum = ln (Exact.sum_upto (Z.to_nat D) (fun d => exp (x d))) /\
     (x k - log_sum <= 0)%R).
Proof.
  intros B maxT maxU D T U HB Hbatch Hfit Hints Hsymbols Hfuel.
  pose proof Hbatch as [HmaxT [HmaxU [HD Hsize]]].
  fold B maxT maxU D in HmaxT, HmaxU, HD, Hsize.
  split.
  - assert (HN : 0 <= B * maxT * maxU) by nia.
    destruct (@LogSumExp2D_two_pass NUM (B * maxT * maxU) D lm logits denominators HD Hsize
                fuel dm HN Hfuel) as (dm' & Hrun & Hval & _).
    exists dm'.
    exists (snd (ComputeLogProbs options lm logits tm targets im srcLengths tgtLengths
                   dm' denominators logProbs pm)).
    split; [exact Hrun|]. split.
    { rewrite (@ComputeLogProbs_fits NUM options tm targets im srcLengths tgtLengths
                 Hbatch Hfit Hsymbols lm logits dm' denominators logProbs pm Hints).
      reflexivity. }
    intros b t u Hb Hin x log_sum cell target.
    destruct (@ComputeLogProbs_exact NUM options lm tm dm' logits targets im
                srcLengths tgtLengths denominators logProbs Hfit pm
                (address (TensorView_new [maxT; maxU] (logProbs + b * maxT * maxU)) [t; u]))
      as [Hcells _].
    assert (Hden : rd dm' (TensorView_new [maxT; maxU] (denominators + b * maxT * maxU)) [t; u]
                   = log_sum).
    { destruct (Hfit b Hb) as [HT HU]. destruct Hin as [Ht Hu].
      fold maxT maxU in HT, HU. unfold T, U in Ht, Hu.
      unfold rd. rewrite address2.
      set (i := b * maxT * maxU + (u + t * maxU)).
      replace (denominators + b * maxT * maxU + (u + t * maxU)) with (denominators + i)
        by (unfold i; lia).
      assert (Hi : 0 <= i < B * maxT * maxU).
      { assert (0 <= u + t * maxU < maxT * maxU) by nia. unfold i. nia. }
      rewrite (Hval i Hi). unfold log_sum.
      apply two_pass_log_sum_exp_ext. intros j.
      unfold x, rd. rewrite address3. do 2 f_equal. unfold i. ring. }
    split.
    + unfold cell, rd at 1. rewrite (Hcells b t u Hb Hin eq_refl).
      unfold log_probs_update, set_skip. cbn [skip_].
      unfold maxT, maxU in Hden. unfold rd in Hden |- *. rewrite Hden. reflexivity.
    + intros Hu. unfold cell, rd at 1. rewrite (Hcells b t u Hb Hin eq_refl).
      unfold log_probs_update, set_skip, set_emit. cbn [emit_].
      replace (u <? im (tgtLengths + b) + 1 - 1) with true
        by (symmetry; apply Z.ltb_lt; exact Hu).
      unfold maxT, maxU in Hden. unfold rd in Hden |- *. rewrite Hden. reflexivity.
  - intros x k Hk log_sum.
    assert (Hexact : log_sum = ln (Exact.sum_upto (Z.to_nat D) (fun d => exp (x d)))).
    { unfold log_sum. apply TwoPassFacts.two_pass_exact. exact HD. }
    split; [exact Hexact|].
    rewrite Hexact.
    assert (Hkn : 0 <= k < Z.of_nat (Z.to_nat D)) by lia.
    pose proof (@LogSoftmaxFacts.entry_le_log_sum_exp (Z.to_nat D) k x Hkn) as Hle.
    lra.
Qed.

(** Two samples in [2 x 2] padded lattices over two symbols: the first
    fills its lattice and has one label, the second has one frame and no
    label. *)
Lemma log_probs_are_log_softmax_witness :
  let options := Samples.Roptions 2 2 2 2 0 0%R true in
  let im := fun a => if a =? 0 then 2 else if a =? 1 then 1 else if a =? 2 then 1 else 0 in
  let tm := fun a => if a =? 0 then 1 else 0 in
  let lm := fun a : Z => IZR a in
  let dm := Samples.Rzeros in
  let pm := Samples.RlogProbs_zero in
  let T := fun b => im (0 + b) in
  let U := fun b => im (2 + b) + 1 in
  (0 <= 2 /\ batch_fits_int options /\ lengths_fit options im 0 2 /\
   int_lengths options im 2 /\ symbols_in_range options tm 0 im 2 /\
   (Z.to_nat (2 * 2 * 2) <= 8)%nat) /\
  (exists (dm' : mem R) (pm' : mem (@LogProbs Exact.RNumeric)),
     Int32.LogSumExp2D (NUM := Exact.RNumeric) 8 (2 * 2 * 2) 2 lm 0 0 dm
     = Some (SUCCESS, dm') /\
     Int32.ComputeLogProbs options lm 0 tm 0 im 0 2 dm' 0 0 pm = (SUCCESS, pm') /\
     forall b t u, 0 <= b < 2 -> in_lattice (T b) (U b) t u ->
       let x := fun d => rd lm (TensorView_new [2; 2; 2] (0 + b * 2 * 2 * 2)) [t; u; d] in
       let log_sum := two_pass_log_sum_exp (NUM := Exact.RNumeric) x 2 in
       let cell := rd pm' (TensorView_new [2; 2] (0 + b * 2 * 2)) [t; u] in
       let target := tm (0 + b * (2 - 1) + u) in
       skip_ cell = (x 0%Z - log_sum)%R /\
       (u < U b - 1 -> emit_ cell = (x target - log_sum)%R)) /\
  (forall (x : Z -> R) (k : Z), 0 <= k < 2 ->
     let log_sum := two_pass_log_sum_exp (NUM := Exact.RNumeric) x 2 in
     log_sum = ln (Exact.sum_upto (Z.to_nat 2) (fun d => exp (x d))) /\
     (x k - log_sum <= 0)%R).
Proof.
  intros options im tm lm dm pm T U.
  assert (Hbatch : batch_fits_int options).
  { unfold batch_fits_int, Int32.max_int. cbn. lia. }
  assert (Hcases : forall b, 0 <= b < batchSize_ options -> b = 0 \/ b = 1)
    by (cbn; intros; lia).
  assert (Hfit : lengths_fit options im 0 2).
  { intros b Hb. destruct (Hcases b Hb); subst b; cbn; lia. }
  assert (Hints : int_lengths options im 2).
  { intros b Hb. unfold Int32.fits, Int32.min_int, Int32.max_int.
    destruct (Hcases b Hb); subst b; cbn; lia. }
  assert (Hsymbols : symbols_in_range options tm 0 im 2).
  { split; [cbn; lia|]. intros b u Hb Hu.
    destruct (Hcases b Hb); subst b; cbn in Hu |- *; [| lia].
    assert (u = 0) by lia. subst u. cbn. lia. }
  assert (Hfuel : (Z.to_nat (2 * 2 * 2) <= 8)%nat) by (vm_compute; lia).
  assert (HB : 0 <= 2) by lia.
  split; [split; [assumption | split; [assumption | split; [assumption |
          split; [assumption | split; assumption]]]]|].
  exact (@log_probs_are_log_softmax Exact.RNumeric options 8%nat lm 0 tm 0 im 0 2 dm 0 0 pm
           HB Hbatch Hfit Hints Hsymbols Hfuel).
Defined.
(** * The tables the unrestricted passes leave behind *)

(** [ComputeAlphaOneSequence] on a sample with [T >= 1] frames and
    [1 <= U <= maxU] label positions, for any numeric type: afterwards the
    lattice cells of [alpha] satisfy the forward recurrence,
    [alpha(0,0) = 0], [alpha(t,0) = alpha(t-1,0) + skip(t-1,0)],
    [alpha(0,u) = alpha(0,u-1) + emit(0,u-1)] and
    [alpha(t,u) = lse(alpha(t-1,u) + skip(t-1,u), alpha(t,u-1) + emit(t,u-1))];
    the value returned is [alpha(T-1,U-1) + skip(T-1,U-1)]; and neither
    depends on what the buffer held before the call. *)
Theorem ComputeAlphaOneSequence_fills_the_forward_table
        (NUM : Numeric) (options : Options) (pm : mem LogProbs) (logProbs : TensorView)
        (maxT maxU base T U : Z) (m m' : mem CAST_DTYPE) :
  1 <= T -> 1 <= U <= maxU ->
  let view := TensorView_new [maxT; maxU] base in
  let run := ComputeAlphaOneSequence options pm logProbs T U view m in
  let alpha := fun t u => rd (snd run) view [t; u] in
  let skip := fun t u => skip_ (rd pm logProbs [t; u]) in
  let emit := fun t u => emit_ (rd pm logProbs [t; u]) in
  alpha 0 0 = c_zero /\
  (forall t, 1 <= t < T -> alpha t 0 = c_add (alpha (t - 1) 0) (skip (t - 1) 0)) /\
  (forall u, 1 <= u < U -> alpha 0 u = c_add (alpha 0 (u - 1)) (emit 0 (u - 1))) /\
  (forall t u, 1 <= t < T -> 1 <= u < U ->
     alpha t u = c_lse (c_add (alpha (t - 1) u) (skip (t - 1) u))
                       (c_add (alpha t (u - 1)) (emit t (u - 1)))) /\
  fst run = c_add (alpha (T - 1) (U - 1)) (skip (T - 1) (U - 1)) /\
  (let run' := ComputeAlphaOneSequence options pm logProbs T U view m' in
   fst run' = fst run /\
   forall t u, in_lattice T U t u -> rd (snd run') view [t; u] = alpha t u).
Proof.
  intros HT [HU1 HU2] view run alpha skip emit.
  set (lp := fun t u => rd pm logProbs [t; u]).
  pose proof (@ComputeAlphaOneSequence_filled NUM options pm logProbs maxT maxU base T U
                HT HU1 HU2 m) as Hfill.
  pose proof (@ComputeAlphaOneSequence_filled NUM options pm logProbs maxT maxU base T U
                HT HU1 HU2 m') as Hfill'.
  assert (Hcell : forall t u, in_lattice T U t u -> alpha t u = alphaZ lp t u).
  { intros t u Hin. unfold alpha, run, view.
    erewrite filled_get; [reflexivity | exact Hfill | exact Hin]. }
  assert (Hcell' : forall t u, in_lattice T U t u ->
             rd (snd (ComputeAlphaOneSequence options pm logProbs T U view m')) view [t; u]
             = alphaZ lp t u).
  { intros t u Hin. unfold view.
    erewrite filled_get; [reflexivity | exact Hfill' | exact Hin]. }
  assert (Hscore : forall m0,
             fst (ComputeAlphaOneSequence options pm logProbs T U view m0)
             = c_add (alphaZ lp (T - 1) (U - 1)) (skip (T - 1) (U - 1))).
  { intros m0. exact (@ComputeAlphaOneSequence_score NUM options pm logProbs maxT maxU base
                        T U HT HU1 HU2 m0). }
  split; [| split; [| split; [| split; [| split]]]].
  - rewrite Hcell by cells. apply alphaZ_0_0.
  - intros t Ht. rewrite !Hcell by cells. apply alphaZ_t_0. lia.
  - intros u Hu. rewrite !Hcell by cells. apply alphaZ_0_u. lia.
  - intros t u Ht Hu. rewrite !Hcell by cells. apply alphaZ_t_u; lia.
  - unfold run. rewrite Hscore. rewrite Hcell by cells. reflexivity.
  - cbv zeta. split.
    + unfold run. now rewrite !Hscore.
    + intros t u Hin. rewrite Hcell', Hcell by assumption. reflexivity.
Qed.

Lemma ComputeAlphaOneSequence_fills_the_forward_table_witness :
  let options := Samples.Roptions 1 2 2 2 0 0%R true in
  let pm := Samples.RlogProbs_zero in
  let logProbs := TensorView_new [2; 2] 0 in
  let m := Samples.Rzeros in
  let m' := fun _ : Z => 7%R in
  (1 <= 2 /\ 1 <= 2 <= 2) /\
  let view := TensorView_new [2; 2] 0 in
  let run := ComputeAlphaOneSequence options pm logProbs 2 2 view m in
  let alpha := fun t u => rd (snd run) view [t; u] in
  let skip := fun t u => skip_ (rd pm logProbs [t; u]) in
  let emit := fun t u => emit_ (rd pm logProbs [t; u]) in
  alpha 0 0 = c_zero /\
  (forall t, 1 <= t < 2 -> alpha t 0 = c_add (alpha (t - 1) 0) (skip (t - 1) 0)) /\
  (forall u, 1 <= u < 2 -> alpha 0 u = c_add (alpha 0 (u - 1)) (emit 0 (u - 1))) /\
  (forall t u, 1 <= t < 2 -> 1 <= u < 2 ->
     alpha t u = c_lse (c_add (alpha (t - 1) u) (skip (t - 1) u))
                       (c_add (alpha t (u - 1)) (emit t (u - 1)))) /\
  fst run = c_add (alpha (2 - 1) (2 - 1)) (skip (2 - 1) (2 - 1)) /\
  (let run' := ComputeAlphaOneSequence options pm logProbs 2 2 view m' in
   fst run' = fst run /\
   forall t u, in_lattice 2 2 t u -> rd (snd run') view [t; u] = alpha t u).
Proof.
  intros options pm logProbs m m'.
  assert (H1 : 1 <= 2) by lia.
  assert (H2 : 1 <= 2 <= 2) by lia.
  split; [split; assumption|].
  exact (@ComputeAlphaOneSequence_fills_the_forward_table Exact.RNumeric options pm logProbs
           2 2 0 2 2 m m' H1 H2).
Defined.

(** [ComputeBetaOneSequence] under the same conditions: afterwards the
    lattice cells of [beta] satisfy the backward recurrence,
    [beta(T-1,U-1) = skip(T-1,U-1)],
    [beta(t,U-1) = beta(t+1,U-1) + skip(t,U-1)],
    [beta(T-1,u) = beta(T-1,u+1) + emit(T-1,u)] and
    [beta(t,u) = lse(beta(t+1,u) + skip(t,u), beta(t,u+1) + emit(t,u))];
    the value returned is [beta(0,0)]; and neither depends on what the
    buffer held before the call. *)
Theorem ComputeBetaOneSequence_fills_the_backward_table
        (NUM : Numeric) (options : Options) (pm : mem LogProbs) (logProbs : TensorView)
        (maxT maxU base T U : Z) (m m' : mem CAST_DTYPE) :
  1 <= T -> 1 <= U <= maxU ->
  let view := TensorView_new [maxT; maxU] base in
  let run := ComputeBetaOneSequence options pm logProbs T U view m in
  let beta := fun t u => rd (snd run) view [t; u] in
  let skip := fun t u => skip_ (rd pm logProbs [t; u]) in
  let emit := fun t u => emit_ (rd pm logProbs [t; u]) in
  beta (T - 1) (U - 1) = skip (T - 1) (U - 1) /\
  (forall t, 0 <= t < T - 1 ->
     beta t (U - 1) = c_add (beta (t + 1) (U - 1)) (skip t (U - 1))) /\
  (forall u, 0 <= u < U - 1 ->
     beta (T - 1) u = c_add (beta (T - 1) (u + 1)) (emit (T - 1) u)) /\
  (forall t u, 0 <= t < T - 1 -> 0 <= u < U - 1 ->
     beta t u = c_lse (c_add (beta (t + 1) u) (skip t u))
                      (c_add (beta t (u + 1)) (emit t u))) /\
  fst run = beta 0 0 /\
  (let run' := ComputeBetaOneSequence options pm logProbs T U view m' in
   fst run' = fst run /\
   forall t u, in_lattice T U t u -> rd (snd run') view [t; u] = beta t u).
Proof.
  intros HT [HU1 HU2] view run beta skip emit.
  set (lp := fun t u => rd pm logProbs [t; u]).
  pose proof (@ComputeBetaOneSequence_filled NUM options pm logProbs maxT maxU base T U
                HT HU1 HU2 m) as Hfill.
  pose proof (@ComputeBetaOneSequence_filled NUM options pm logProbs maxT maxU base T U
                HT HU1 HU2 m') as Hfill'.
  assert (Hcell : forall t u, in_lattice T U t u -> beta t u = betaZ lp T U t u).
  { intros t u Hin. unfold beta, run, view.
    erewrite filled_get; [reflexivity | exact Hfill | exact Hin]. }
  assert (Hcell' : forall t u, in_lattice T U t u ->
             rd (snd (ComputeBetaOneSequence options pm logProbs T U view m')) view [t; u]
             = betaZ lp T U t u).
  { intros t u Hin. unfold view.
    erewrite filled_get; [reflexivity | exact Hfill' | exact Hin]. }
  assert (Hscore : forall m0,
             fst (ComputeBetaOneSequence options pm logProbs T U view m0)
             = betaZ lp T U 0 0).
  { intros m0. exact (@ComputeBetaOneSequence_score NUM options pm logProbs maxT maxU base
                        T U HT HU1 HU2 m0). }
  split; [| split; [| split; [| split; [| split]]]].
  - rewrite Hcell by cells. apply betaZ_end.
  - intros t Ht. rewrite !Hcell by cells. apply betaZ_last_col. lia.
  - intros u Hu. rewrite !Hcell by cells. apply betaZ_last_row. lia.
  - intros t u Ht Hu. rewrite !Hcell by cells. apply (@betaZ_interior NUM lp T U t u); lia.
  - unfold run. rewrite Hscore. rewrite Hcell by cells. reflexivity.
  - cbv zeta. split.
    + unfold run. now rewrite !Hscore.
    + intros t u Hin. rewrite Hcell', Hcell by assumption. reflexivity.
Qed.

Lemma ComputeBetaOneSequence_fills_the_backward_table_witness :
  let options := Samples.Roptions 1 2 2 2 0 0%R true in
  let pm := Samples.RlogProbs_zero in
  let logProbs := TensorView_new [2; 2] 0 in
  let m := Samples.Rzeros in
  let m' := fun _ : Z => 7%R in
  (1 <= 2 /\ 1 <= 2 <= 2) /\
  let view := TensorView_new [2; 2] 0 in
  let run := ComputeBetaOneSequence options pm logProbs 2 2 view m in
  let beta := fun t u => rd (snd run) view [t; u] in
  let skip := fun t u => skip_ (rd pm logProbs [t; u]) in
  let emit := fun t u => emit_ (rd pm logProbs [t; u]) in
  beta (2 - 1) (2 - 1) = skip (2 - 1) (2 - 1) /\
  (forall t, 0 <= t < 2 - 1 ->
     beta t (2 - 1) = c_add (beta (t + 1) (2 - 1)) (skip t (2 - 1))) /\
  (forall u, 0 <= u < 2 - 1 ->
     beta (2 - 1) u = c_add (beta (2 - 1) (u + 1)) (emit (2 - 1) u)) /\
  (forall t u, 0 <= t < 2 - 1 -> 0 <= u < 2 - 1 ->
     beta t u = c_lse (c_add (beta (t + 1) u) (skip t u))
                      (c_add (beta t (u + 1)) (emit t u))) /\
  fst run = beta 0 0 /\
  (let run' := ComputeBetaOneSequence options pm logProbs 2 2 view m' in
   fst run' = fst run /\
   forall t u, in_lattice 2 2 t u -> rd (snd run') view [t; u] = beta t u).
Proof.
  intros options pm logProbs m m'.
  assert (H1 : 1 <= 2) by lia.
  assert (H2 : 1 <= 2 <= 2) by lia.
  split; [split; assumption|].
  exact (@ComputeBetaOneSequence_fills_the_backward_table Exact.RNumeric options pm logProbs
           2 2 0 2 2 m m' H1 H2).
Defined.
(** * The scores are the log-likelihood *)

Module LikelihoodFacts.
Import Exact ExactFacts Alignments.
Local Open Scope R_scope.

Section Totals.
Variables blank label : Z -> Z -> R.

Lemma total_app l l' : total (l ++ l') = total l + total l'.
Proof.
  unfold total. induction l as [|x l IH]; cbn [app fold_right]; [lra | rewrite IH; lra].
Qed.

Lemma total_scale (c : R) (f : list transition -> R) walks :
  total (map (fun w => c * f w) walks) = c * total (map f walks).
Proof.
  unfold total. induction walks as [|w walks IH]; cbn [map fold_right]; [lra|].
  rewrite IH. lra.
Qed.

Lemma total_weight_first m : forall n t u,
  total (map (walk_weight blank label t u) (alignments m n))
  = path_weight_first blank label m n t u.
Proof.
  induction m as [|m IHm]; induction n as [|n IHn]; intros t u.
  - cbn. lra.
  - change (alignments O (S n)) with (map (cons Label) (alignments O n)).
    rewrite map_map. cbn [walk_weight].
    rewrite (total_scale (label t u) (walk_weight blank label t (u + 1)%Z)).
    rewrite IHn. reflexivity.
  - change (alignments (S m) O) with (map (cons Blank) (alignments m O)).
    rewrite map_map. cbn [walk_weight].
    rewrite (total_scale (blank t u) (walk_weight blank label (t + 1)%Z u)).
    rewrite IHm. reflexivity.
  - change (alignments (S m) (S n))
      with (map (cons Blank) (alignments m (S n)) ++ map (cons Label) (alignments (S m) n)).
    rewrite map_app, total_app, !map_map. cbn [walk_weight].
    rewrite (total_scale (blank t u) (walk_weight blank label (t + 1)%Z u)).
    rewrite (total_scale (label t u) (walk_weight blank label t (u + 1)%Z)).
    rewrite IHm, IHn. reflexivity.
Qed.

Lemma total_pos l : l <> [] -> (forall x, In x l -> 0 < x) -> 0 < total l.
Proof.
  induction l as [|x [|y l] IH]; intros Hne Hpos; [congruence | |].
  - cbn. specialize (Hpos x (or_introl eq_refl)). lra.
  - change (total (x :: y :: l)) with (x + total (y :: l)).
    assert (0 < x) by (apply Hpos; now left).
    assert (0 < total (y :: l)).
    { apply IH; [discriminate|]. intros z Hz. apply Hpos. now right. }
    lra.
Qed.

Lemma alignments_nonempty m : forall n, alignments m n <> [].
Proof.
  induction m as [|m IHm]; induction n as [|n IHn].
  - discriminate.
  - change (alignments O (S n)) with (map (cons Label) (alignments O n)).
    destruct (alignments O n); [congruence | discriminate].
  - change (alignments (S m) O) with (map (cons Blank) (alignments m O)).
    specialize (IHm O). destruct (alignments m O); [congruence | discriminate].
  - change (alignments (S m) (S n))
      with (map (cons Blank) (alignments m (S n)) ++ map (cons Label) (alignments (S m) n)).
    specialize (IHm (S n)). destruct (alignments m (S n)); [congruence | discriminate].
Qed.

Lemma walk_weight_pos walk :
  (forall t u, 0 < blank t u) -> (forall t u, 0 < label t u) ->
  forall t u, 0 < walk_weight blank label t u walk.
Proof.
  intros Hb Hl. induction walk as [|[|] walk IH]; intros t u; cbn [walk_weight].
  - lra.
  - apply Rmult_lt_0_compat; [apply Hb | apply IH].
  - apply Rmult_lt_0_compat; [apply Hl | apply IH].
Qed.

Lemma likelihood_pos T U :
  (forall t u, 0 < blank t u) -> (forall t u, 0 < label t u) ->
  0 < likelihood blank label T U.
Proof.
  intros Hb Hl. unfold likelihood. apply Rmult_lt_0_compat; [| apply Hb].
  apply total_pos.
  - pose proof (@alignments_nonempty (Z.to_nat (T - 1)) (Z.to_nat (U - 1))) as Hne.
    destruct (alignments (Z.to_nat (T - 1)) (Z.to_nat (U - 1))); [congruence | discriminate].
  - intros x Hx. apply in_map_iff in Hx. destruct Hx as [w [<- _]].
    now apply walk_weight_pos.
Qed.
End Totals.

Section Scores.
Variable lp : Z -> Z -> @LogProbs RNumeric.

Lemma exp_backward_score T U :
  (1 <= T)%Z -> (1 <= U)%Z ->
  exp (betaZ lp T U 0 0) = likelihood (blank_weight lp) (label_weight lp) T U.
Proof.
  intros HT HU. unfold betaZ, likelihood.
  rewrite exp_beta_rec, total_weight_first.
  replace (T - 1 - 0)%Z with (T - 1)%Z by lia.
  replace (U - 1 - 0)%Z with (U - 1)%Z by lia.
  rewrite !Z2Nat.id by lia.
  replace (T - 1 - (T - 1))%Z with 0%Z by lia.
  replace (U - 1 - (U - 1))%Z with 0%Z by lia.
  reflexivity.
Qed.
End Scores.
End LikelihoodFacts.

(** In exact arithmetic, for a sample with [T >= 1] frames and
    [1 <= U <= maxU] label positions, the score returned by
    [ComputeBetaOneSequence] and the score returned by
    [ComputeAlphaOneSequence] are both the logarithm of the likelihood of
    the label sequence: the total, over every interleaving of the [T - 1]
    blank and [U - 1] label transitions, of the product of the transition
    probabilities [exp(skip)] and [exp(emit)] along the walk, times the
    probability of the final blank. *)
Theorem scores_are_the_log_likelihood
        (options : @Options Exact.RNumeric) (pm : mem (@LogProbs Exact.RNumeric))
        (logProbs : TensorView) (maxT maxU alphas betas T U : Z) (am bm : mem R) :
  1 <= T -> 1 <= U <= maxU ->
  let blank := fun t u => exp (skip_ (rd pm logProbs [t; u])) in
  let label := fun t u => exp (emit_ (rd pm logProbs [t; u])) in
  let p := Alignments.likelihood blank label T U in
  (0 < p)%R /\
  fst (ComputeBetaOneSequence options pm logProbs T U
         (TensorView_new [maxT; maxU] betas) bm) = ln p /\
  fst (ComputeAlphaOneSequence options pm logProbs T U
         (TensorView_new [maxT; maxU] alphas) am) = ln p.
Proof.
  intros HT [HU1 HU2] blank label p.
  set (lp := fun t u => rd pm logProbs [t; u]).
  assert (Hpos : (0 < p)%R).
  { apply LikelihoodFacts.likelihood_pos; intros t u; apply exp_pos. }
  assert (Hbeta : betaZ lp T U 0 0 = ln p).
  { rewrite <- (ln_exp (betaZ lp T U 0 0)).
    rewrite (@LikelihoodFacts.exp_backward_score lp T U HT HU1). reflexivity. }
  split; [exact Hpos|]. split.
  - rewrite (@ComputeBetaOneSequence_score Exact.RNumeric options pm logProbs maxT maxU betas
               T U HT HU1 HU2 bm).
    exact Hbeta.
  - rewrite (@ComputeAlphaOneSequence_score Exact.RNumeric options pm logProbs maxT maxU alphas
               T U HT HU1 HU2 am).
    rewrite <- Hbeta.
    exact (@ExactFacts.forward_score_is_backward_score lp T U HT HU1).
Qed.

Lemma scores_are_the_log_likelihood_witness :
  let options := Samples.Roptions 1 2 2 2 0 0%R true in
  let pm := Samples.RlogProbs_zero in
  let logProbs := TensorView_new [2; 2] 0 in
  (1 <= 2 /\ 1 <= 2 <= 2) /\
  let blank := fun t u => exp (skip_ (rd pm logProbs [t; u])) in
  let label := fun t u => exp (emit_ (rd pm logProbs [t; u])) in
  let p := Alignments.likelihood blank label 2 2 in
  (0 < p)%R /\
  fst (ComputeBetaOneSequence options pm logProbs 2 2
         (TensorView_new [2; 2] 0) Samples.Rzeros) = ln p /\
  fst (ComputeAlphaOneSequence options pm logProbs 2 2
         (TensorView_new [2; 2] 0) Samples.Rzeros) = ln p.
Proof.
  intros options pm logProbs.
  assert (H1 : 1 <= 2) by lia.
  assert (H2 : 1 <= 2 <= 2) by lia.
  split; [split; assumption|].
  exact (@scores_are_the_log_likelihood options pm logProbs 2 2 0 0 2 2
           Samples.Rzeros Samples.Rzeros H1 H2).
Defined.
(** * The batch driver and the diagnostic entry points *)

Section LoopSnoc.
Variable S : Type.

Lemma iter_up_snoc (body : Z -> S -> S) :
  forall n i s,
    iter_up (Datatypes.S n) i body s = body (i + Z.of_nat n) (iter_up n i body s).
Proof.
  induction n as [|n IH]; intros i s.
  - cbn [iter_up]. f_equal. cbn. lia.
  - change (iter_up (Datatypes.S (Datatypes.S n)) i body s)
      with (iter_up (Datatypes.S n) (i + 1) body (body i s)).
    rewrite IH. cbn [iter_up]. f_equal. lia.
Qed.

Lemma for_up_snoc lo hi (body : Z -> S -> S) (s : S) :
  lo <= hi -> for_up lo (hi + 1) body s = body hi (for_up lo hi body s).
Proof.
  intros Hle. unfold for_up.
  replace (Z.to_nat (hi + 1 - lo)) with (Datatypes.S (Z.to_nat (hi - lo))) by lia.
  rewrite iter_up_snoc. f_equal. lia.
Qed.
End LoopSnoc.

Section Drivers.
Context {NUM : Numeric} {INF : NumericInf}.
Local Open Scope num_scope.

Variable new_check : mem Z -> Z -> Z -> Z -> Z -> Z -> AlignmentRestrictionCheck.
Variable options : Options.
Variable pm : mem LogProbs.
Variable logProbs : Z.
Variable im : mem Z.
Variables srcLengths tgtLengths : Z.
Variables alphas betas costs : Z.
Variable wm : mem Z.
Variable wpEnds : option Z.

Lemma task_parity t :
  (Z.land t 1 =? 0) = (t mod 2 =? 0).
Proof. change 1 with (Z.ones 1). now rewrite Z.land_ones by lia. Qed.

Lemma ComputeAlphasBetas_tables am bm cm :
  let run := ComputeAlphasBetas new_check options pm logProbs im srcLengths tgtLengths
                                alphas betas costs wm wpEnds am bm cm in
  fst (fst run)
  = ComputeAlphas new_check options pm logProbs im srcLengths tgtLengths alphas wm wpEnds am /\
  snd (fst run)
  = ComputeBetas new_check options pm logProbs im srcLengths tgtLengths betas wm wpEnds bm.
Proof.
  intros run. unfold run, ComputeAlphasBetas, ComputeAlphas, ComputeBetas.
  cbv zeta. cbn [fst snd].
  set (B := batchSize_ options).
  match goal with
    |- ab_alphas _ = for_up 0 B ?Fa am /\ ab_betas _ = for_up 0 B ?Fb bm =>
    set (alpha_pass := Fa); set (beta_pass := Fb)
  end.
  rewrite Z.shiftl_mul_pow2 by lia. change (2 ^ 1) with 2.
  destruct (Z_lt_le_dec B 0) as [Hneg | Hpos].
  { rewrite !for_up_empty by lia. split; reflexivity. }
  match goal with |- ab_alphas ?st = _ /\ ab_betas ?st = _ =>
    cut (ab_alphas st = for_up 0 (B * 2 / 2) alpha_pass am /\
         ab_betas st = for_up 0 ((B * 2 + 1) / 2) beta_pass bm)
  end.
  { rewrite Z.div_mul by lia.
    replace ((B * 2 + 1) / 2) with B by (apply Z.div_unique with (r := 1); lia).
    exact (fun H => H). }
  apply for_up_inv
    with (P := fun t st =>
                 ab_alphas st = for_up 0 (t / 2) alpha_pass am /\
                 ab_betas st = for_up 0 ((t + 1) / 2) beta_pass bm).
  - lia.
  - change (0 / 2) with 0. change ((0 + 1) / 2) with 0.
    rewrite !for_up_empty by lia. split; reflexivity.
  - intros t st Ht [Ha Hb].
    rewrite Z.shiftr_div_pow2 by lia. change (2 ^ 1) with 2.
    unfold ComputeAlphaOrBetaOneSequence. rewrite task_parity.
    pose proof (Z.div_mod t 2 ltac:(lia)) as Hdm.
    pose proof (Z.mod_pos_bound t 2 ltac:(lia)) as Hmod.
    set (i := t / 2) in *.
    destruct (Z.eqb_spec (t mod 2) 0) as [Heven | Hodd]; cbn [negb].
    + (* an even task: the backward pass of sample [i] *)
      assert (Hi1 : (t + 1) / 2 = i)
        by (symmetry; apply Z.div_unique with (r := 1); lia).
      assert (Hi2 : (t + 1 + 1) / 2 = i + 1)
        by (symmetry; apply Z.div_unique with (r := 0); lia).
      rewrite Hi1 in *. rewrite Hi2. rewrite for_up_snoc by lia.
      rewrite <- Hb. unfold beta_pass.
      destruct wpEnds as [wp|]; cbn [option_map].
      * destruct (ComputeBetaOneSequenceRestricted _ _ _ _ _ _ _ _ _ _) as [score bm'].
        cbn [ab_alphas ab_betas snd]. split; [exact Ha | reflexivity].
      * destruct (ComputeBetaOneSequence _ _ _ _ _ _ _) as [score bm'].
        cbn [ab_alphas ab_betas snd]. split; [exact Ha | reflexivity].
    + (* an odd task: the forward pass of sample [i] *)
      assert (Hi1 : (t + 1) / 2 = i + 1)
        by (symmetry; apply Z.div_unique with (r := 0); lia).
      assert (Hi2 : (t + 1 + 1) / 2 = i + 1)
        by (symmetry; apply Z.div_unique with (r := 1); lia).
      rewrite Hi1 in *. rewrite Hi2. rewrite for_up_snoc by lia.
      rewrite <- Ha. unfold alpha_pass.
      destruct wpEnds as [wp|]; cbn [option_map].
      * destruct (ComputeAlphaOneSequenceRestricted _ _ _ _ _ _ _ _ _ _) as [score am'].
        cbn [ab_alphas ab_betas snd]. split; [reflexivity | exact Hb].
      * destruct (ComputeAlphaOneSequence _ _ _ _ _ _ _) as [score am'].
        cbn [ab_alphas ab_betas snd]. split; [reflexivity | exact Hb].
Qed.

Lemma ComputeAlphasBetas_costs_frame am bm cm a :
  ~ (costs <= a < costs + batchSize_ options) ->
  snd (ComputeAlphasBetas new_check options pm logProbs im srcLengths tgtLengths
         alphas betas costs wm wpEnds am bm cm) a
  = cm a.
Proof.
  intros Ha. unfold ComputeAlphasBetas. cbv zeta. cbn [snd].
  apply for_up_frame with (W := fun b a' => a' = costs + b).
  - intros b cm' Hb Hne. now apply store_other.
  - intros b Hb Heq. lia.
Qed.
End Drivers.

(** The diagnostic entry points recompute what the batch driver computes:
    the [alphas] buffer [ComputeAlphasBetas] leaves behind is the one
    [ComputeAlphas] produces from the same inputs, and its [betas] buffer
    is the one [ComputeBetas] produces, with or without [wpEnds] and for
    every batch size; of the [costs] buffer it writes [costs[0]] to
    [costs[B - 1]] and nothing else. *)
Theorem ComputeAlphasBetas_agrees_with_the_diagnostic_drivers
        (NUM : Numeric) (INF : NumericInf)
        (new_check : mem Z -> Z -> Z -> Z -> Z -> Z -> AlignmentRestrictionCheck)
        (options : Options) (pm : mem LogProbs) (logProbs : Z)
        (im : mem Z) (srcLengths tgtLengths alphas betas costs : Z)
        (wm : mem Z) (wpEnds : option Z)
        (am bm : mem CAST_DTYPE) (cm : mem DTYPE) :
  let run := ComputeAlphasBetas new_check options pm logProbs im srcLengths tgtLengths
                                alphas betas costs wm wpEnds am bm cm in
  fst (fst run)
  = ComputeAlphas new_check options pm logProbs im srcLengths tgtLengths alphas wm wpEnds am /\
  snd (fst run)
  = ComputeBetas new_check options pm logProbs im srcLengths tgtLengths betas wm wpEnds bm /\
  (forall a, ~ (costs <= a < costs + batchSize_ options) -> snd run a = cm a).
Proof.
  intros run.
  destruct (@ComputeAlphasBetas_tables NUM INF new_check options pm logProbs im srcLengths
              tgtLengths alphas betas costs wm wpEnds am bm cm) as [Ha Hb].
  split; [exact Ha | split; [exact Hb |]].
  intros a Ha'. now apply ComputeAlphasBetas_costs_frame.
Qed.
(** * The diagnostic entry points of the GPU dispatcher *)

Module GpuDiagnosticsFacts.
Import Gpu (cudaError_t, cudaSuccess).
Import GpuDiagnostics.

Ltac run_host :=
  unfold ComputeAlphas, ComputeAlphasSparse, ComputeBetas, ComputeBetasSparse,
    GpuDiagnostics.LogSumExp2D, launch, cudaDeviceSynchronize, bind, raise,
    cudaGetLastError, ret, cuda_init, alphas_stages, betas_stages, denominator_stages,
    cudaSuccess in *;
  cbn [fst snd trace last_error app negb Z.eqb until_failure forallb andb] in *.

Ltac split_events err :=
  repeat match goal with
         | H : (err ?e =? 0) = _ |- context [err ?e =? 0] => rewrite H
         | |- context [err ?e =? 0] => destruct (err e =? 0) eqn:?
         | _ => progress cbn [fst snd trace last_error app negb Z.eqb until_failure
                              forallb andb]
         | _ => progress unfold cudaSuccess
         end.

Lemma ComputeAlphas_run err wpEnds :
  ComputeAlphas err wpEnds cuda_init
  = (snd (until_failure err (alphas_stages false wpEnds)),
     {| trace := fst (until_failure err (alphas_stages false wpEnds));
        last_error := cudaSuccess |}).
Proof. destruct wpEnds; run_host; split_events err; reflexivity. Qed.

Lemma ComputeAlphasSparse_run err wpEnds :
  ComputeAlphasSparse err wpEnds cuda_init
  = (snd (until_failure err (alphas_stages true wpEnds)),
     {| trace := fst (until_failure err (alphas_stages true wpEnds));
        last_error := cudaSuccess |}).
Proof. run_host; split_events err; reflexivity. Qed.

Lemma ComputeBetas_run err wpEnds :
  ComputeBetas err wpEnds cuda_init
  = (snd (until_failure err (betas_stages false wpEnds)),
     {| trace := fst (until_failure err (betas_stages false wpEnds));
        last_error := cudaSuccess |}).
Proof. destruct wpEnds; run_host; split_events err; reflexivity. Qed.

Lemma ComputeBetasSparse_run err wpEnds :
  ComputeBetasSparse err wpEnds cuda_init
  = (snd (until_failure err (betas_stages true wpEnds)),
     {| trace := fst (until_failure err (betas_stages true wpEnds));
        last_error := cudaSuccess |}).
Proof. run_host; split_events err; reflexivity. Qed.

(** What [until_failure] returns, whatever the stages. *)
Lemma until_failure_status err l :
  snd (until_failure err l) = SUCCESS \/
  exists events, In (events, snd (until_failure err l)) l /\
                 exists e, In e events /\ err e <> cudaSuccess.
Proof.
  induction l as [|[events status] l IH]; [left; reflexivity|].
  cbn [until_failure].
  destruct (forallb (fun e => err e =? cudaSuccess) events) eqn:Hall.
  - destruct (until_failure err l) as [later result]. cbn [snd] in *.
    destruct IH as [-> | [evs [Hin He]]]; [left; reflexivity|].
    right. exists evs. split; [right; exact Hin | exact He].
  - right. exists events. cbn [snd]. split; [left; reflexivity|].
    assert (Hex : existsb (fun e => negb (err e =? cudaSuccess)) events = true).
    { clear -Hall. induction events as [|e events IH]; cbn in *; [discriminate|].
      destruct (err e =? cudaSuccess); cbn in *; [now apply IH | reflexivity]. }
    apply existsb_exists in Hex. destruct Hex as [e [Hin He]].
    exists e. split; [exact Hin|].
    intros Heq. rewrite Heq in He. discriminate.
Qed.

Lemma until_failure_success err l :
  (forall events status e, In (events, status) l -> In e events -> err e = cudaSuccess) ->
  until_failure err l = (concat (map fst l), SUCCESS).
Proof.
  induction l as [|[events status] l IH]; intros Hok; [reflexivity|].
  cbn [until_failure map concat fst].
  replace (forallb (fun e => err e =? cudaSuccess) events) with true.
  - rewrite IH; [reflexivity|].
    intros evs st e Hin He. apply (Hok evs st e); [now right | exact He].
  - symmetry. apply forallb_forall. intros e He.
    rewrite (Hok events status e); [reflexivity | now left | exact He].
Qed.
End GpuDiagnosticsFacts.

(** [ComputeAlphas] and [ComputeAlphasSparse] of the GPU dispatcher, from
    a clean error state: they launch the two denominator kernels, the
    log-probs kernel and one alpha kernel, in this order, stop after the
    first launch that leaves an error and return the status of its stage;
    the error state is clean again when they return.  The alpha kernel is
    [ComputeAlphasWrapper] when [wpEnds] is null and the restricted wrapper
    otherwise; the sparse entry point launches the restricted wrapper
    whatever [wpEnds] is.  The status is [SUCCESS] when no launch fails,
    and never [COMPUTE_GRADIENTS_FAILED]. *)
Theorem gpu_ComputeAlphas_runs_its_stages_in_order
        (error_of : GpuDiagnostics.event -> Gpu.cudaError_t) (wpEnds : option Z) :
  let dense := GpuDiagnostics.ComputeAlphas error_of wpEnds GpuDiagnostics.cuda_init in
  let sparse := GpuDiagnostics.ComputeAlphasSparse error_of wpEnds GpuDiagnostics.cuda_init in
  let cut := fun s =>
    GpuDiagnostics.until_failure error_of (GpuDiagnostics.alphas_stages s wpEnds) in
  (fst dense = snd (cut false) /\ GpuDiagnostics.trace (snd dense) = fst (cut false) /\
   GpuDiagnostics.last_error (snd dense) = Gpu.cudaSuccess) /\
  (fst sparse = snd (cut true) /\ GpuDiagnostics.trace (snd sparse) = fst (cut true) /\
   GpuDiagnostics.last_error (snd sparse) = Gpu.cudaSuccess) /\
  (fst dense <> COMPUTE_GRADIENTS_FAILED /\ fst sparse <> COMPUTE_GRADIENTS_FAILED) /\
  ((forall e, error_of e = Gpu.cudaSuccess) ->
   fst dense = SUCCESS /\ fst sparse = SUCCESS /\
   GpuDiagnostics.trace (snd dense)
   = [GpuDiagnostics.Launch GpuDiagnostics.ReduceMax2D;
      GpuDiagnostics.Launch GpuDiagnostics.ReduceLogSumExpGivenMax2D;
      GpuDiagnostics.Launch GpuDiagnostics.ComputeLogProbs;
      GpuDiagnostics.Launch
        match wpEnds with
        | None => GpuDiagnostics.ComputeAlphasWrapper
        | Some _ => GpuDiagnostics.ComputeAlphasRestrictedWrapper false
        end] /\
   GpuDiagnostics.trace (snd sparse)
   = [GpuDiagnostics.Launch GpuDiagnostics.ReduceMax2D;
      GpuDiagnostics.Launch GpuDiagnostics.ReduceLogSumExpGivenMax2D;
      GpuDiagnostics.Launch GpuDiagnostics.ComputeLogProbsSparse;
      GpuDiagnostics.Launch (GpuDiagnostics.ComputeAlphasRestrictedWrapper true)]).
Proof.
  intros dense sparse cut.
  pose proof (GpuDiagnosticsFacts.ComputeAlphas_run error_of wpEnds) as Hd.
  pose proof (GpuDiagnosticsFacts.ComputeAlphasSparse_run error_of wpEnds) as Hs.
  fold dense in Hd. fold sparse in Hs. fold (cut false) in Hd. fold (cut true) in Hs.
  assert (Hnot : forall s, snd (cut s) <> COMPUTE_GRADIENTS_FAILED).
  { intros s.
    destruct (GpuDiagnosticsFacts.until_failure_status error_of
                (GpuDiagnostics.alphas_stages s wpEnds)) as [Hok | [events [Hin _]]].
    - unfold cut. rewrite Hok. discriminate.
    - fold (cut s) in Hin. intros Heq. rewrite Heq in Hin.
      cbn in Hin. intuition discriminate. }
  rewrite Hd, Hs. cbn [fst snd GpuDiagnostics.trace GpuDiagnostics.last_error].
  split; [repeat split|]. split; [repeat split|]. split; [split; apply Hnot|].
  intros Hok. unfold cut.
  rewrite !GpuDiagnosticsFacts.until_failure_success by (intros; apply Hok).
  cbn [fst snd]. repeat split.
Qed.

(** [ComputeBetas] and [ComputeBetasSparse] of the GPU dispatcher, from a
    clean error state: they launch the two denominator kernels, the
    log-probs kernel and one beta kernel, in this order, stop after the
    first stage that leaves an error and return its status; the error
    state is clean again when they return.  With a null [wpEnds] the dense
    entry point launches [ComputeBetasWrapper]; otherwise, and always in
    the sparse entry point, the restricted wrapper is launched and the
    device is synchronised before the error state is read, so an error of
    either is reported as [COMPUTE_ALPHAS_BETAS_COSTS_FAILED].  The status
    is never [COMPUTE_GRADIENTS_FAILED]. *)
Theorem gpu_ComputeBetas_runs_its_stages_in_order
        (error_of : GpuDiagnostics.event -> Gpu.cudaError_t) (wpEnds : option Z) :
  let dense := GpuDiagnostics.ComputeBetas error_of wpEnds GpuDiagnostics.cuda_init in
  let sparse := GpuDiagnostics.ComputeBetasSparse error_of wpEnds GpuDiagnostics.cuda_init in
  let cut := fun s =>
    GpuDiagnostics.until_failure error_of (GpuDiagnostics.betas_stages s wpEnds) in
  (fst dense = snd (cut false) /\ GpuDiagnostics.trace (snd dense) = fst (cut false) /\
   GpuDiagnostics.last_error (snd dense) = Gpu.cudaSuccess) /\
  (fst sparse = snd (cut true) /\ GpuDiagnostics.trace (snd sparse) = fst (cut true) /\
   GpuDiagnostics.last_error (snd sparse) = Gpu.cudaSuccess) /\
  (fst dense <> COMPUTE_GRADIENTS_FAILED /\ fst sparse <> COMPUTE_GRADIENTS_FAILED) /\
  ((forall k, error_of (GpuDiagnostics.Launch k) = Gpu.cudaSuccess) ->
   (fst sparse = SUCCESS <-> error_of GpuDiagnostics.Synchronize = Gpu.cudaSuccess) /\
   (fst sparse = SUCCESS \/ fst sparse = COMPUTE_ALPHAS_BETAS_COSTS_FAILED) /\
   (wpEnds = None -> fst dense = SUCCESS /\
                     ~ In GpuDiagnostics.Synchronize (GpuDiagnostics.trace (snd dense))) /\
   (wpEnds <> None ->
    (fst dense = SUCCESS <-> error_of GpuDiagnostics.Synchronize = Gpu.cudaSuccess) /\
    In GpuDiagnostics.Synchronize (GpuDiagnostics.trace (snd dense)))).
Proof.
  intros dense sparse cut.
  pose proof (GpuDiagnosticsFacts.ComputeBetas_run error_of wpEnds) as Hd.
  pose proof (GpuDiagnosticsFacts.ComputeBetasSparse_run error_of wpEnds) as Hs.
  fold dense in Hd. fold sparse in Hs. fold (cut false) in Hd. fold (cut true) in Hs.
  assert (Hnot : forall s, snd (cut s) <> COMPUTE_GRADIENTS_FAILED).
  { intros s.
    destruct (GpuDiagnosticsFacts.until_failure_status error_of
                (GpuDiagnostics.betas_stages s wpEnds)) as [Hok | [events [Hin _]]].
    - unfold cut. rewrite Hok. discriminate.
    - fold (cut s) in Hin. intros Heq. rewrite Heq in Hin.
      cbn in Hin. intuition discriminate. }
  rewrite Hd, Hs. cbn [fst snd GpuDiagnostics.trace GpuDiagnostics.last_error].
  split; [repeat split|]. split; [repeat split|]. split; [split; apply Hnot|].
  intros Hok.
  set (head := [GpuDiagnostics.Launch GpuDiagnostics.ReduceMax2D;
                GpuDiagnostics.Launch GpuDiagnostics.ReduceLogSumExpGivenMax2D]).
  assert (Hrestricted : forall s k,
            GpuDiagnostics.until_failure error_of
              (GpuDiagnostics.denominator_stages ++
               [([GpuDiagnostics.Launch k], COMPUTE_LOG_PROBS_FAILED);
                ([GpuDiagnostics.Launch (GpuDiagnostics.ComputeBetasCostsRestrictedWrapper s);
                  GpuDiagnostics.Synchronize], COMPUTE_ALPHAS_BETAS_COSTS_FAILED)])
            = (head ++ [GpuDiagnostics.Launch k;
                        GpuDiagnostics.Launch (GpuDiagnostics.ComputeBetasCostsRestrictedWrapper s);
                        GpuDiagnostics.Synchronize],
               if error_of GpuDiagnostics.Synchronize =? 0 then SUCCESS
               else COMPUTE_ALPHAS_BETAS_COSTS_FAILED)).
  { intros s k. unfold GpuDiagnostics.denominator_stages.
    cbn [app GpuDiagnostics.until_failure forallb andb].
    rewrite !Hok. unfold Gpu.cudaSuccess. cbn [Z.eqb andb].
    destruct (error_of GpuDiagnostics.Synchronize =? 0); reflexivity. }
  assert (Hsparse : cut true
                    = (head ++ [GpuDiagnostics.Launch GpuDiagnostics.ComputeLogProbsSparse;
                                GpuDiagnostics.Launch
                                  (GpuDiagnostics.ComputeBetasCostsRestrictedWrapper true);
                                GpuDiagnostics.Synchronize],
                       if error_of GpuDiagnostics.Synchronize =? 0 then SUCCESS
                       else COMPUTE_ALPHAS_BETAS_COSTS_FAILED)).
  { apply Hrestricted. }
  assert (Hsync : (error_of GpuDiagnostics.Synchronize =? 0) = true <->
                  error_of GpuDiagnostics.Synchronize = Gpu.cudaSuccess).
  { apply Z.eqb_eq. }
  split; [| split; [| split]].
  - rewrite Hsparse. cbn [snd].
    destruct (error_of GpuDiagnostics.Synchronize =? 0);
      split; intros H; try reflexivity; try discriminate;
      [now apply Hsync | apply Hsync in H; discriminate].
  - rewrite Hsparse. cbn [snd].
    destruct (error_of GpuDiagnostics.Synchronize =? 0); [now left | now right].
  - intros ->. unfold cut, GpuDiagnostics.betas_stages, GpuDiagnostics.denominator_stages.
    cbn [app GpuDiagnostics.until_failure forallb andb].
    rewrite !Hok. unfold Gpu.cudaSuccess. cbn [Z.eqb andb fst snd app].
    split; [reflexivity|]. cbn [In]. intuition discriminate.
  - intros Hwp. destruct wpEnds as [wp|]; [| congruence].
    unfold cut, GpuDiagnostics.betas_stages. rewrite Hrestricted. cbn [fst snd]. split.
    + destruct (error_of GpuDiagnostics.Synchronize =? 0);
        split; intros H; try reflexivity; try discriminate;
        [now apply Hsync | apply Hsync in H; discriminate].
    + apply in_or_app. right. cbn [In]. tauto.
Qed.
(** * An error that is pending when the dispatcher is entered *)

(** [Compute] and [ComputeSparse] entered while the runtime still holds an
    error of some earlier call: the first [cudaGetLastError] picks that
    error up, so both launch [ReduceMax2D] only and return
    [COMPUTE_DENOMINATOR_REDUCE_MAX_FAILED], whether or not that launch
    itself failed; the error state is clean afterwards, so the
    [gpuErrchk] that follows in [ComputeSparse] does not leave the
    process. *)
Theorem pending_error_is_blamed_on_the_first_kernel
        (launch_error : Gpu.kernel -> Gpu.cudaError_t) (gradients : option Z) (s : Gpu.cuda) :
  Gpu.last_error s <> Gpu.cudaSuccess ->
  let after := {| Gpu.launched := Gpu.launched s ++ [Gpu.ReduceMax2D];
                  Gpu.last_error := Gpu.cudaSuccess |} in
  Gpu.LogSumExp2D launch_error s
  = (Gpu.Returned COMPUTE_DENOMINATOR_REDUCE_MAX_FAILED, after) /\
  Gpu.Compute launch_error gradients s
  = (Gpu.Returned COMPUTE_DENOMINATOR_REDUCE_MAX_FAILED, after) /\
  Gpu.ComputeSparse launch_error gradients s
  = (Gpu.Returned COMPUTE_DENOMINATOR_REDUCE_MAX_FAILED, after).
Proof.
  intros Hpending after.
  assert (Hlse : Gpu.LogSumExp2D launch_error s
                 = (Gpu.Returned COMPUTE_DENOMINATOR_REDUCE_MAX_FAILED, after)).
  { unfold Gpu.LogSumExp2D, Gpu.bind, Gpu.launch, Gpu.cudaGetLastError, Gpu.ret.
    cbn [Gpu.launched Gpu.last_error].
    destruct (launch_error Gpu.ReduceMax2D =? Gpu.cudaSuccess) eqn:Hlaunch.
    - replace (Gpu.last_error s =? Gpu.cudaSuccess) with false
        by (symmetry; now apply Z.eqb_neq).
      reflexivity.
    - rewrite Hlaunch. reflexivity. }
  split; [exact Hlse|]. split.
  - unfold Gpu.Compute, Gpu.bind. rewrite Hlse. reflexivity.
  - unfold Gpu.ComputeSparse, Gpu.bind. rewrite Hlse.
    unfold Gpu.cudaGetLastError, Gpu.gpuErrchk, Gpu.gpuAssert, Gpu.ret, after.
    cbn [Gpu.launched Gpu.last_error]. reflexivity.
Qed.

Lemma pending_error_is_blamed_on_the_first_kernel_witness :
  let launch_error := fun _ : Gpu.kernel => Gpu.cudaSuccess in
  let s := {| Gpu.launched := []; Gpu.last_error := 700 |} in
  Gpu.last_error s <> Gpu.cudaSuccess /\
  let after := {| Gpu.launched := Gpu.launched s ++ [Gpu.ReduceMax2D];
                  Gpu.last_error := Gpu.cudaSuccess |} in
  Gpu.LogSumExp2D launch_error s
  = (Gpu.Returned COMPUTE_DENOMINATOR_REDUCE_MAX_FAILED, after) /\
  Gpu.Compute launch_error (Some 0) s
  = (Gpu.Returned COMPUTE_DENOMINATOR_REDUCE_MAX_FAILED, after) /\
  Gpu.ComputeSparse launch_error (Some 0) s
  = (Gpu.Returned COMPUTE_DENOMINATOR_REDUCE_MAX_FAILED, after).
Proof.
  intros launch_error s.
  assert (H : Gpu.last_error s <> Gpu.cudaSuccess) by (cbn; discriminate).
  split; [exact H|].
  exact (@pending_error_is_blamed_on_the_first_kernel launch_error (Some 0) s H).
Defined.
(** * Gradients: the clamp, and a batch computed in place *)

(** With a positive [clamp], in exact arithmetic, every gradient
    [ComputeGradientsOneSequence] stores in a lattice cell lies in
    [[-clamp, clamp]]. *)
Theorem clamped_gradients_stay_within_the_clamp
        (options : @Options Exact.RNumeric) (tm : mem Z) (targets : Z) (T U : Z)
        (dm : mem R) (denom : TensorView) (am : mem R) (alpha : TensorView)
        (bm : mem R) (beta : TensorView) (lg gr : Z) (hm : mem R) (t u d : Z) :
  let maxT := maxSrcLen_ options in
  let maxU := maxTgtLen_ options in
  let D := numTargets_ options in
  let logits := TensorView_new [maxT; maxU; D] lg in
  let gradients := TensorView_new [maxT; maxU; D] gr in
  (0 < clamp_ options)%R ->
  U <= maxU ->
  gr = lg \/ disjoint_buffers options T U lg gr ->
  in_lattice3 T U D t u d ->
  let grad :=
    rd (ComputeGradientsOneSequence options logits tm targets T U dm denom am alpha bm beta
                                    gradients hm) gradients [t; u; d] in
  (- clamp_ options <= grad <= clamp_ options)%R.
Proof.
  intros maxT maxU D logits gradients Hclamp HU Hbuf Hin grad.
  assert (Hgrad : grad = gradient_stored options tm targets T U dm denom am alpha bm beta
                                         t u d (rd hm logits [t; u; d])).
  { unfold grad.
    apply (@ComputeGradientsOneSequence_in_range Exact.RNumeric options tm targets T U dm denom
             am alpha bm beta lg gr hm HU (same_or_disjoint_no_clobber HU Hbuf) t u d);
      [unfold in_lattice3 in Hin; lia | exact Hin]. }
  rewrite Hgrad. unfold gradient_stored. cbv zeta.
  change (@c_gtb Exact.RNumeric) with Exact.gtb.
  change (@c_zero Exact.RNumeric) with 0%R.
  change (@c_max Exact.RNumeric) with Exact.max.
  change (@c_min Exact.RNumeric) with Exact.min.
  change (@c_neg Exact.RNumeric) with Ropp.
  change (@cast Exact.RNumeric) with (fun r : R => r).
  change (@uncast Exact.RNumeric) with (fun r : R => r).
  cbv beta.
  unfold Exact.gtb. destruct (Rlt_dec 0 (clamp_ options)) as [_ | Hn]; [| contradiction].
  unfold Exact.max, Exact.min.
  repeat match goal with
         | |- context [Rlt_dec ?a ?b] => destruct (Rlt_dec a b)
         end; lra.
Qed.

Lemma clamped_gradients_stay_within_the_clamp_witness :
  let options := Samples.Roptions 1 1 1 2 0 (1 / 4)%R true in
  let logits := TensorView_new [1; 1; 2] 0 in
  let gradients := TensorView_new [1; 1; 2] 0 in
  let view := TensorView_new [1; 1] 0 in
  ((0 < 1 / 4)%R /\ 1 <= 1 /\ (0 = 0 \/ disjoint_buffers options 1 1 0 0) /\
   in_lattice3 1 1 2 0 0 1) /\
  let grad :=
    rd (ComputeGradientsOneSequence options logits (fun _ => 0) 0 1 1
          Samples.S1_denominators view Samples.Rzeros view Samples.S1_betas view
          gradients Samples.Rzeros) gradients [0; 0; 1] in
  (- (1 / 4) <= grad <= 1 / 4)%R.
Proof.
  intros options logits gradients view.
  assert (H1 : (0 < 1 / 4)%R) by lra.
  assert (H2 : 1 <= 1) by lia.
  assert (H3 : 0 = 0 \/ disjoint_buffers options 1 1 0 0) by (left; reflexivity).
  assert (H4 : in_lattice3 1 1 2 0 0 1) by (unfold in_lattice3; lia).
  split; [split; [exact H1 | split; [exact H2 | split; [exact H3 | exact H4]]]|].
  exact (@clamped_gradients_stay_within_the_clamp options (fun _ => 0) 0 1 1
           Samples.S1_denominators view Samples.Rzeros view Samples.S1_betas view
           0 0 Samples.Rzeros 0 0 1 H1 H2 H3 H4).
Defined.

Section InPlace.
Context {NUM : Numeric}.
Variable options : Options.
Variable tm : mem Z.
Variable dm am bm : mem CAST_DTYPE.

Let maxT := maxSrcLen_ options.
Let maxU := maxTgtLen_ options.
Let D := numTargets_ options.

(** A cell of the padded tensor, whether in the lattice or not. *)
Definition padded_cell (t u d : Z) : Prop :=
  0 <= t < maxT /\ 0 <= u < maxU /\ 0 <= d < D.

Section OneSequence.
Variables targets T U p : Z.
Variables denom alpha beta : TensorView.
Hypothesis T_range : 0 <= T <= maxT.
Hypothesis U_range : 0 <= U <= maxU.

Let view := TensorView_new [maxT; maxU; D] p.

Lemma ComputeGradientsOneSequence_in_place hm a :
  let hm' := ComputeGradientsOneSequence options view tm targets T U dm denom am alpha
                                         bm beta view hm in
  (forall t u d, padded_cell t u d -> a = address view [t; u; d] ->
     hm' a = if (t <? T) && (u <? U)
             then gradient_stored options tm targets T U dm denom am alpha bm beta t u d (hm a)
             else d_zero) /\
  ((forall t u d, padded_cell t u d -> a <> address view [t; u; d]) -> hm' a = hm a).
Proof.
  intros hm'. split.
  - intros t u d (Ht & Hu & Hd) ->.
    destruct (Z.ltb_spec t T) as [HtT | HtT]; [destruct (Z.ltb_spec u U) as [HuU | HuU] |];
      cbn [andb].
    + assert (HU' : U <= maxTgtLen_ options) by (unfold maxU in *; lia).
      assert (Hbuf : p = p \/ disjoint_buffers options T U p p) by (left; reflexivity).
      apply (@ComputeGradientsOneSequence_in_range NUM options tm targets T U dm denom
               am alpha bm beta p p hm HU' (same_or_disjoint_no_clobber HU' Hbuf) t u d);
        [lia | unfold in_lattice3; fold D; lia].
    + apply (@ComputeGradientsOneSequence_padding_zero NUM options tm targets T U dm denom
               am alpha bm beta p p hm t u d); try reflexivity; try assumption; lia.
    + apply (@ComputeGradientsOneSequence_padding_zero NUM options tm targets T U dm denom
               am alpha bm beta p p hm t u d); try reflexivity; try assumption; lia.
  - intros Hout. unfold hm'. unfold padded_cell, view, maxT, maxU, D in *.
    rewrite ComputeGradientsOneSequence_unfold. rewrite Z.eqb_refl.
    rewrite !zero_block_outside.
    + apply gradient_loops_frame. intros t u d (Ht & Hu & Hd).
      apply Hout. lia.
    + intros (t & u & d & Ht & Hu & Hd & Ha). apply (Hout t u d); [lia | exact Ha].
    + intros (t & u & d & Ht & Hu & Hd & Ha). apply (Hout t u d); [lia | exact Ha].
Qed.
End OneSequence.

Variables buffer targets : Z.
Variable im : mem Z.
Variables srcLengths tgtLengths denominators alphas betas : Z.

Let B := batchSize_ options.
Let T b := im (srcLengths + b).
Let U b := im (tgtLengths + b) + 1.
Let view b := TensorView_new [maxT; maxU; D] (buffer + b * maxT * maxU * D).
Let seqTargets b := targets + b * (maxU - 1).
Let seqDenoms b := TensorView_new [maxT; maxU] (denominators + b * maxT * maxU).
Let seq_alphas b := TensorView_new [maxT; maxU] (alphas + b * maxT * maxU).
Let seq_betas b := TensorView_new [maxT; maxU] (betas + b * maxT * maxU).

Hypothesis lengths_ok : valid_lengths options im srcLengths tgtLengths.
Hypothesis fit : lengths_fit options im srcLengths tgtLengths.

Lemma padded_offset t u d :
  padded_cell t u d -> 0 <= d + u * D + t * (D * maxU) < maxT * maxU * D.
Proof.
  intros (Ht & Hu & Hd).
  assert (0 <= d + u * D < maxU * D) by nia.
  nia.
Qed.

Lemma padded_blocks_disjoint b b' t u d t' u' d' :
  padded_cell t u d -> padded_cell t' u' d' ->
  address (view b) [t; u; d] = address (view b') [t'; u'; d'] -> b = b'.
Proof.
  intros Hc Hc' Heq. unfold view in Heq. rewrite !address3 in Heq.
  pose proof (@padded_offset t u d Hc). pose proof (@padded_offset t' u' d' Hc').
  nia.
Qed.

Lemma ComputeGradients_in_place hm a :
  let hm' := ComputeGradients options buffer tm targets im srcLengths tgtLengths
                              dm denominators am alphas bm betas buffer hm in
  (forall b t u d, 0 <= b < B -> padded_cell t u d -> a = address (view b) [t; u; d] ->
     hm' a = if (t <? T b) && (u <? U b)
             then gradient_stored options tm (seqTargets b) (T b) (U b) dm (seqDenoms b)
                                  am (seq_alphas b) bm (seq_betas b) t u d (hm a)
             else d_zero) /\
  ((forall b t u d, 0 <= b < B -> padded_cell t u d -> a <> address (view b) [t; u; d]) ->
   hm' a = hm a).
Proof.
  intros hm'. unfold hm', ComputeGradients. cbv zeta.
  match goal with |- context [for_up 0 _ ?F hm] =>
    destruct (@for_up_cellwise DTYPE
                (fun b a => exists t u d, padded_cell t u d /\ a = address (view b) [t; u; d])
                (fun b a x y => forall t u d, padded_cell t u d ->
                                  a = address (view b) [t; u; d] ->
                                  y = if (t <? T b) && (u <? U b)
                                      then gradient_stored options tm (seqTargets b) (T b) (U b)
                                             dm (seqDenoms b) am (seq_alphas b)
                                             bm (seq_betas b) t u d x
                                      else d_zero)
                F 0 B) with (m := hm) (a := a) as [Hcells Hframe]
  end.
  - intros b m a' Hb _ t u d Hc Ha.
    destruct (lengths_ok Hb) as [HT HU]. destruct (fit Hb) as [HT' HU'].
    assert (HTr : 0 <= T b <= maxT) by (unfold T, maxT; lia).
    assert (HUr : 0 <= U b <= maxU) by (unfold U, maxU; lia).
    apply (@ComputeGradientsOneSequence_in_place (seqTargets b) (T b) (U b)
             (buffer + b * maxT * maxU * D) (seqDenoms b) (seq_alphas b) (seq_betas b)
             HTr HUr m a'); assumption.
  - intros b m a' Hb Hnone.
    destruct (lengths_ok Hb) as [HT HU]. destruct (fit Hb) as [HT' HU'].
    assert (HTr : 0 <= T b <= maxT) by (unfold T, maxT; lia).
    assert (HUr : 0 <= U b <= maxU) by (unfold U, maxU; lia).
    apply (@ComputeGradientsOneSequence_in_place (seqTargets b) (T b) (U b)
             (buffer + b * maxT * maxU * D) (seqDenoms b) (seq_alphas b) (seq_betas b)
             HTr HUr m a').
    intros t u d Hc Ha. apply Hnone. now exists t, u, d.
  - intros b b' a' Hb Hb' (t & u & d & Hc & Ha) (t' & u' & d' & Hc' & Ha'). subst a'.
    exact (@padded_blocks_disjoint b b' t u d t' u' d' Hc Hc' Ha').
  - split.
    + intros b t u d Hb Hc Ha. apply (Hcells b Hb); [now exists t, u, d | assumption | assumption].
    + intros Hnone. apply Hframe. intros b Hb (t & u & d & Hc & Ha).
      now apply (Hnone b t u d).
Qed.
End InPlace.

(** [ComputeGradients], with its offsets and indices in [int], writing
    the gradients over the logits it reads, for a batch whose padded logits
    an [int] can count and whose lengths are valid: afterwards every cell
    of the padded tensor of every sample is defined.  A lattice cell holds
    the gradient computed from the logit the cell held on entry, a cell of
    the padding holds zero, and nothing outside the padded tensors of the
    batch is written.  The cells are named by their row-major positions in
    the padded tensors. *)
Theorem ComputeGradients_in_place_defines_every_cell
        (NUM : Numeric) (options : Options) (tm : mem Z) (targets : Z)
        (im : mem Z) (srcLengths tgtLengths : Z)
        (dm : mem CAST_DTYPE) (denominators : Z) (am : mem CAST_DTYPE) (alphas : Z)
        (bm : mem CAST_DTYPE) (betas : Z) (buffer : Z) (hm : mem DTYPE) :
  batch_fits_int options ->
  valid_lengths options im srcLengths tgtLengths ->
  lengths_fit options im srcLengths tgtLengths ->
  let B := batchSize_ options in
  let maxT := maxSrcLen_ options in
  let maxU := maxTgtLen_ options in
  let D := numTargets_ options in
  let T := fun b => im (srcLengths + b) in
  let U := fun b => im (tgtLengths + b) + 1 in
  let view := fun b => TensorView_new [maxT; maxU; D] (buffer + b * maxT * maxU * D) in
  let hm' := Int32.ComputeGradients options buffer tm targets im srcLengths tgtLengths
                                    dm denominators am alphas bm betas buffer hm in
  (forall b t u d, 0 <= b < B -> 0 <= t < maxT -> 0 <= u < maxU -> 0 <= d < D ->
     rd hm' (view b) [t; u; d]
     = if (t <? T b) && (u <? U b)
       then gradient_stored options tm (targets + b * (maxU - 1)) (T b) (U b)
              dm (TensorView_new [maxT; maxU] (denominators + b * maxT * maxU))
              am (TensorView_new [maxT; maxU] (alphas + b * maxT * maxU))
              bm (TensorView_new [maxT; maxU] (betas + b * maxT * maxU))
              t u d (rd hm (view b) [t; u; d])
       else d_zero) /\
  (forall a, ~ (buffer <= a < buffer + B * maxT * maxU * D) -> hm' a = hm a).
Proof.
  intros Hbatch Hok Hfit B maxT maxU D T U view hm'.
  assert (Hbridge : hm' = ComputeGradients options buffer tm targets im srcLengths tgtLengths
                                           dm denominators am alphas bm betas buffer hm).
  { unfold hm'. now apply ComputeGradients_fits. }
  rewrite Hbridge. clear Hbridge hm'.
  split.
  - intros b t u d Hb Ht Hu Hd.
    destruct (@ComputeGradients_in_place NUM options tm dm am bm buffer targets im
                srcLengths tgtLengths denominators alphas betas Hok Hfit hm
                (address (view b) [t; u; d])) as [Hcells _].
    unfold rd. apply (Hcells b t u d Hb); [| reflexivity].
    unfold padded_cell. fold maxT maxU D. lia.
  - intros a Ha.
    destruct (@ComputeGradients_in_place NUM options tm dm am bm buffer targets im
                srcLengths tgtLengths denominators alphas betas Hok Hfit hm a) as [_ Hframe].
    apply Hframe. intros b t u d Hb Hc Heq. apply Ha.
    pose proof (@padded_offset NUM options t u d Hc) as Hoff.
    rewrite Heq, address3. fold B maxT maxU D in Hb, Hoff |- *.
    assert (0 <= maxT * maxU * D) by lia.
    nia.
Qed.

(** Two samples in [2 x 2] padded lattices over two symbols: the first
    fills its lattice, the second has one frame and no label, so that
    three of its four cells are padding. *)
Lemma ComputeGradients_in_place_defines_every_cell_witness :
  let options := Samples.Roptions 2 2 2 2 0 0%R true in
  let im := fun a => if a =? 0 then 2 else if a =? 1 then 1 else if a =? 2 then 1 else 0 in
  let tm := fun a => if a =? 0 then 1 else 0 in
  let dm := Samples.S1_denominators in
  let am := Samples.Rzeros in
  let bm := Samples.S1_betas in
  let hm := fun a : Z => IZR a in
  (batch_fits_int options /\ valid_lengths options im 0 2 /\ lengths_fit options im 0 2) /\
  let T := fun b => im (0 + b) in
  let U := fun b => im (2 + b) + 1 in
  let view := fun b => TensorView_new [2; 2; 2] (100 + b * 2 * 2 * 2) in
  let hm' := Int32.ComputeGradients options 100 tm 0 im 0 2 dm 0 am 0 bm 0 100 hm in
  (forall b t u d, 0 <= b < 2 -> 0 <= t < 2 -> 0 <= u < 2 -> 0 <= d < 2 ->
     rd hm' (view b) [t; u; d]
     = if (t <? T b) && (u <? U b)
       then gradient_stored options tm (0 + b * (2 - 1)) (T b) (U b)
              dm (TensorView_new [2; 2] (0 + b * 2 * 2))
              am (TensorView_new [2; 2] (0 + b * 2 * 2))
              bm (TensorView_new [2; 2] (0 + b * 2 * 2))
              t u d (rd hm (view b) [t; u; d])
       else d_zero) /\
  (forall a, ~ (100 <= a < 100 + 2 * 2 * 2 * 2) -> hm' a = hm a).
Proof.
  intros options im tm dm am bm hm.
  assert (Hbatch : batch_fits_int options).
  { unfold batch_fits_int, Int32.max_int. cbn. lia. }
  assert (Hcases : forall b, 0 <= b < batchSize_ options -> b = 0 \/ b = 1)
    by (cbn; intros; lia).
  assert (Hok : valid_lengths options im 0 2).
  { intros b Hb. destruct (Hcases b Hb); subst b; cbn; lia. }
  assert (Hfit : lengths_fit options im 0 2).
  { intros b Hb. destruct (Hcases b Hb); subst b; cbn; lia. }
  split; [split; [assumption | split; assumption]|].
  exact (@ComputeGradients_in_place_defines_every_cell Exact.RNumeric options tm 0 im 0 2
           dm 0 am 0 bm 0 100 hm Hbatch Hok Hfit).
Defined.

(** * The boundary columns of the restricted passes *)

(** The column [u = 0] after [ComputeAlphaOneSequenceRestricted]
    ([T >= 1], [1 <= U <= maxU], any numeric type and any check): the
    loop over that column leaves at the first [t] whose blank transition
    the check rejects.  So [alpha(0,0) = 0]; as long as every blank
    transition up to [t] is accepted, [alpha(t,0) = alpha(t-1,0) +
    skip(t-1,0)]; and from the first rejected transition on the column
    holds [-infinity], also at cells whose own transition the check would
    accept.  No later loop of the pass writes this column. *)
Theorem restricted_forward_pass_stops_at_the_first_rejected_blank
        (NUM : Numeric) (INF : NumericInf)
        (new_check : mem Z -> Z -> Z -> Z -> Z -> Z -> AlignmentRestrictionCheck)
        (options : Options) (pm : mem LogProbs) (logProbs : TensorView)
        (maxT maxU alphas T U : Z) (wm : mem Z) (wpEnds : Z) (am : mem CAST_DTYPE) :
  1 <= T -> 1 <= U <= maxU ->
  let check := new_check wm wpEnds T U (lBuffer_ options) (rBuffer_ options) in
  let view := TensorView_new [maxT; maxU] alphas in
  let alpha := fun t u =>
    rd (snd (ComputeAlphaOneSequenceRestricted new_check options pm logProbs T U view
               wm wpEnds am)) view [t; u] in
  alpha 0 0 = c_zero /\
  (forall t, 1 <= t < T ->
     (forall j, 1 <= j <= t -> alphaBlankTransition check j 0 = true) ->
     alpha t 0 = c_add (alpha (t - 1) 0) (skip_ (rd pm logProbs [t - 1; 0]))) /\
  (forall t j, 1 <= j <= t -> t < T -> alphaBlankTransition check j 0 = false ->
     alpha t 0 = c_neg_inf).
Proof.
  intros HT [HU1 HU2] check view alpha.
  exact (@ComputeAlphaOneSequenceRestricted_column NUM INF new_check options pm logProbs
           maxT maxU alphas T U wm wpEnds HT HU1 HU2 am).
Qed.

(** The column [u = U - 1] after [ComputeBetaOneSequenceRestricted], under
    the same conditions: [beta(T-1,U-1) = skip(T-1,U-1)] whatever the check
    says; going down from [t = T - 2], as long as every blank transition
    from [t] on is accepted, [beta(t,U-1) = beta(t+1,U-1) + skip(t,U-1)];
    and from the first rejected transition down to [t = 0] the column holds
    [-infinity].  No later loop of the pass writes this column. *)
Theorem restricted_backward_pass_stops_at_the_first_rejected_blank
        (NUM : Numeric) (INF : NumericInf)
        (new_check : mem Z -> Z -> Z -> Z -> Z -> Z -> AlignmentRestrictionCheck)
        (options : Options) (pm : mem LogProbs) (logProbs : TensorView)
        (maxT maxU betas T U : Z) (wm : mem Z) (wpEnds : Z) (bm : mem CAST_DTYPE) :
  1 <= T -> 1 <= U <= maxU ->
  let check := new_check wm wpEnds T U (lBuffer_ options) (rBuffer_ options) in
  let view := TensorView_new [maxT; maxU] betas in
  let beta := fun t u =>
    rd (snd (ComputeBetaOneSequenceRestricted new_check options pm logProbs T U view
               wm wpEnds bm)) view [t; u] in
  beta (T - 1) (U - 1) = skip_ (rd pm logProbs [T - 1; U - 1]) /\
  (forall t, 0 <= t < T - 1 ->
     (forall j, t <= j <= T - 2 -> betaBlankTransition check j (U - 1) = true) ->
     beta t (U - 1) = c_add (beta (t + 1) (U - 1)) (skip_ (rd pm logProbs [t; U - 1]))) /\
  (forall t j, 0 <= t <= j -> j <= T - 2 ->
     betaBlankTransition check j (U - 1) = false ->
     beta t (U - 1) = c_neg_inf).
Proof.
  intros HT [HU1 HU2] check view beta.
  exact (@ComputeBetaOneSequenceRestricted_column NUM INF new_check options pm logProbs
           maxT maxU betas T U wm wpEnds HT HU1 HU2 bm).
Qed.

Lemma restricted_forward_pass_stops_at_the_first_rejected_blank_witness :
  (1 <= 4 /\ 1 <= 2 <= 2) /\
  forall libm : Float32.Libm,
    let NUM := Float32.F32Numeric libm in
    let INF := Float32.F32NumericInf libm in
    let new_check := fun (_ : mem Z) (_ _ _ _ _ : Z) =>
      {| alphaBlankTransition := fun t _ => negb (t =? 2);
         alphaEmitTransition := fun _ _ => true;
         betaBlankTransition := fun t _ => negb (t =? 1);
         betaEmitTransition := fun _ _ => true;
         validTimeRanges := fun _ => (0, 3) |} in
    let options := Samples.options_3x2 libm in
    let pm := Samples.logProbs_const libm in
    let check := new_check (fun _ => 0) 0 4 2 (lBuffer_ options) (rBuffer_ options) in
    let view := TensorView_new [4; 2] 0 in
    let alpha := fun t u =>
      rd (snd (ComputeAlphaOneSequenceRestricted new_check options pm view 4 2 view
                 (fun _ => 0) 0 (Samples.stale libm))) view [t; u] in
    alpha 0 0 = c_zero /\
    (forall t, 1 <= t < 4 ->
       (forall j, 1 <= j <= t -> alphaBlankTransition check j 0 = true) ->
       alpha t 0 = c_add (alpha (t - 1) 0) (skip_ (rd pm view [t - 1; 0]))) /\
    (forall t j, 1 <= j <= t -> t < 4 -> alphaBlankTransition check j 0 = false ->
       alpha t 0 = c_neg_inf).
Proof.
  assert (H1 : 1 <= 4) by lia.
  assert (H2 : 1 <= 2 <= 2) by lia.
  split; [split; assumption|]. intros libm NUM INF new_check options pm check view alpha.
  exact (@restricted_forward_pass_stops_at_the_first_rejected_blank NUM INF new_check options
           pm view 4 2 0 4 2 (fun _ => 0) 0 (Samples.stale libm) H1 H2).
Defined.

Lemma restricted_backward_pass_stops_at_the_first_rejected_blank_witness :
  (1 <= 4 /\ 1 <= 2 <= 2) /\
  forall libm : Float32.Libm,
    let NUM := Float32.F32Numeric libm in
    let INF := Float32.F32NumericInf libm in
    let new_check := fun (_ : mem Z) (_ _ _ _ _ : Z) =>
      {| alphaBlankTransition := fun t _ => negb (t =? 2);
         alphaEmitTransition := fun _ _ => true;
         betaBlankTransition := fun t _ => negb (t =? 1);
         betaEmitTransition := fun _ _ => true;
         validTimeRanges := fun _ => (0, 3) |} in
    let options := Samples.options_3x2 libm in
    let pm := Samples.logProbs_const libm in
    let check := new_check (fun _ => 0) 0 4 2 (lBuffer_ options) (rBuffer_ options) in
    let view := TensorView_new [4; 2] 0 in
    let beta := fun t u =>
      rd (snd (ComputeBetaOneSequenceRestricted new_check options pm view 4 2 view
                 (fun _ => 0) 0 (Samples.stale libm))) view [t; u] in
    beta (4 - 1) (2 - 1) = skip_ (rd pm view [4 - 1; 2 - 1]) /\
    (forall t, 0 <= t < 4 - 1 ->
       (forall j, t <= j <= 4 - 2 -> betaBlankTransition check j (2 - 1) = true) ->
       beta t (2 - 1) = c_add (beta (t + 1) (2 - 1)) (skip_ (rd pm view [t; 2 - 1]))) /\
    (forall t j, 0 <= t <= j -> j <= 4 - 2 ->
       betaBlankTransition check j (2 - 1) = false ->
       beta t (2 - 1) = c_neg_inf).
Proof.
  assert (H1 : 1 <= 4) by lia.
  assert (H2 : 1 <= 2 <= 2) by lia.
  split; [split; assumption|]. intros libm NUM INF new_check options pm check view beta.
  exact (@restricted_backward_pass_stops_at_the_first_rejected_blank NUM INF new_check options
           pm view 4 2 0 4 2 (fun _ => 0) 0 (Samples.stale libm) H1 H2).
Defined.
(** * A sample without frames *)

(** [ComputeAlphaOneSequence] and [ComputeBetaOneSequence] called with
    [srcLen = 0] (and [1 <= tgtLen <= maxU]) leave the view: the forward
    pass still writes [alpha(0,0) = 0] and takes its score from the cell
    [(-1, U - 1)], which lies before the first element of the view and
    which it has not written; the backward pass writes [skip(-1, U - 1)]
    into that cell, writes nothing from the first element of the view on,
    and returns what the buffer held in [beta(0,0)] before the call. *)
Theorem passes_on_a_sample_without_frames_leave_the_view
        (NUM : Numeric) (options : Options) (pm : mem LogProbs) (logProbs : TensorView)
        (maxT maxU base U : Z) (m : mem CAST_DTYPE) :
  1 <= U <= maxU ->
  let view := TensorView_new [maxT; maxU] base in
  let forward := ComputeAlphaOneSequence options pm logProbs 0 U view m in
  let backward := ComputeBetaOneSequence options pm logProbs 0 U view m in
  address view [-1; U - 1] < base /\
  rd (snd forward) view [0; 0] = c_zero /\
  fst forward = c_add (rd m view [-1; U - 1]) (skip_ (rd pm logProbs [-1; U - 1])) /\
  rd (snd backward) view [-1; U - 1] = skip_ (rd pm logProbs [-1; U - 1]) /\
  (forall a, base <= a -> snd backward a = m a) /\
  fst backward = rd m view [0; 0].
Proof.
  intros [HU1 HU2] view forward backward.
  assert (Haddr : forall t u, address view [t; u] = base + (u + t * maxU)).
  { intros t u. apply address2. }
  assert (Hforward : forall a, a < base -> snd forward a = m a).
  { intros a Ha. unfold forward, ComputeAlphaOneSequence. cbv zeta. cbn [snd].
    rewrite (@for_up_empty (mem CAST_DTYPE) 1 0) by lia.
    rewrite (@for_up_empty (mem CAST_DTYPE) 1 0) by lia.
    rewrite for_up_frame_at.
    - unfold wr. apply store_other. rewrite Haddr. lia.
    - intros u m' Hu. unfold wr. apply store_other. rewrite Haddr. lia. }
  assert (Hbackward : forall a, base <= a -> snd backward a = m a).
  { intros a Ha. unfold backward, ComputeBetaOneSequence. cbv zeta. cbn [snd].
    rewrite (@for_down_empty (mem CAST_DTYPE) (0 - 2) 0) by lia.
    rewrite (@for_down_empty (mem CAST_DTYPE) (0 - 2) 0) by lia.
    rewrite for_down_frame_at.
    - unfold wr. apply store_other. rewrite Haddr. lia.
    - intros u m' Hu. unfold wr. apply store_other. rewrite Haddr. lia. }
  split; [rewrite Haddr; lia|]. split; [| split; [| split; [| split]]].
  - unfold forward, ComputeAlphaOneSequence. cbv zeta. cbn [snd].
    rewrite (@for_up_empty (mem CAST_DTYPE) 1 0) by lia.
    rewrite (@for_up_empty (mem CAST_DTYPE) 1 0) by lia.
    unfold rd. rewrite for_up_frame_at.
    + unfold wr. apply store_same.
    + intros u m' Hu. unfold wr. apply store_other. rewrite !Haddr. lia.
  - assert (Hcell : rd (snd forward) view [0 - 1; U - 1] = rd m view [-1; U - 1]).
    { unfold rd. apply Hforward. rewrite Haddr. lia. }
    unfold forward, ComputeAlphaOneSequence in *. cbv zeta in *. cbn [fst snd] in *.
    rewrite Hcell. reflexivity.
  - unfold backward, ComputeBetaOneSequence. cbv zeta. cbn [snd].
    rewrite (@for_down_empty (mem CAST_DTYPE) (0 - 2) 0) by lia.
    rewrite (@for_down_empty (mem CAST_DTYPE) (0 - 2) 0) by lia.
    unfold rd. rewrite for_down_frame_at.
    + unfold wr. apply store_same.
    + intros u m' Hu. unfold wr. apply store_other. rewrite !Haddr. lia.
  - exact Hbackward.
  - assert (Hcell : rd (snd backward) view [0; 0] = rd m view [0; 0]).
    { unfold rd. apply Hbackward. rewrite Haddr. lia. }
    unfold backward, ComputeBetaOneSequence in *. cbv zeta in *. cbn [fst snd] in *.
    exact Hcell.
Qed.

Lemma passes_on_a_sample_without_frames_leave_the_view_witness :
  let options := Samples.Roptions 1 2 2 2 0 0%R true in
  let pm := Samples.RlogProbs_zero in
  let logProbs := TensorView_new [2; 2] 0 in
  let m : mem (@CAST_DTYPE Exact.RNumeric) := fun _ : Z => 7%R in
  1 <= 2 <= 2 /\
  let view := TensorView_new [2; 2] 10 in
  let forward := ComputeAlphaOneSequence options pm logProbs 0 2 view m in
  let backward := ComputeBetaOneSequence options pm logProbs 0 2 view m in
  address view [-1; 2 - 1] < 10 /\
  rd (snd forward) view [0; 0] = c_zero /\
  fst forward = c_add (rd m view [-1; 2 - 1]) (skip_ (rd pm logProbs [-1; 2 - 1])) /\
  rd (snd backward) view [-1; 2 - 1] = skip_ (rd pm logProbs [-1; 2 - 1]) /\
  (forall a, 10 <= a -> snd backward a = m a) /\
  fst backward = rd m view [0; 0].
Proof.
  intros options pm logProbs m.
  assert (H : 1 <= 2 <= 2) by lia.
  split; [exact H|].
  exact (@passes_on_a_sample_without_frames_leave_the_view Exact.RNumeric options pm logProbs
           2 2 10 2 m H).
Defined.
(** * The samples of a batch do not disturb each other *)

Section BatchFill.
Variable A : Type.
Variables maxT maxU base B : Z.
Variables T U : Z -> Z.
Variable f : Z -> Z -> Z -> A.
Variable pass : Z -> mem A -> mem A.

Let view b := TensorView_new [maxT; maxU] (base + b * maxT * maxU).

Hypothesis fits : forall i, 0 <= i < B -> T i <= maxT /\ U i <= maxU.
Hypothesis pass_fills :
  forall i m, 0 <= i < B ->
    filled maxT maxU (base + i * maxT * maxU) (T i) (U i) m (f i)
           (in_lattice (T i) (U i)) (pass i m).

Lemma blocks_disjoint b b' t u t' u' :
  0 <= b < B -> 0 <= b' < B -> b <> b' ->
  in_lattice (T b) (U b) t u -> in_lattice (T b') (U b') t' u' ->
  address (view b) [t; u] <> address (view b') [t'; u'].
Proof.
  intros Hb Hb' Hne [Ht Hu] [Ht' Hu'] Heq.
  destruct (fits Hb) as [HT HU]. destruct (fits Hb') as [HT' HU'].
  unfold view in Heq. rewrite !address2 in Heq.
  assert (Hoff : 0 <= u + t * maxU < maxT * maxU) by nia.
  assert (Hoff' : 0 <= u' + t' * maxU < maxT * maxU) by nia.
  assert (b = b') by nia. contradiction.
Qed.

Lemma batch_filled (m0 : mem A) b t u :
  0 <= b < B -> in_lattice (T b) (U b) t u ->
  rd (for_up 0 B pass m0) (view b) [t; u] = f b t u.
Proof.
  intros Hb Hin. assert (HB : 0 <= B) by lia. revert b Hb t u Hin.
  apply for_up_inv
    with (P := fun j m => forall b, 0 <= b < j -> forall t u, in_lattice (T b) (U b) t u ->
                            rd m (view b) [t; u] = f b t u).
  - lia.
  - intros b Hb. lia.
  - intros j m Hj IH b Hb t u Hin.
    destruct (pass_fills m Hj) as [Hcells Hframe].
    destruct (Z.eq_dec b j) as [-> | Hne].
    + now apply Hcells.
    + unfold rd. rewrite Hframe.
      * apply IH; [lia | assumption].
      * intros t' u' Hin'. apply blocks_disjoint; try assumption; lia.
Qed.
End BatchFill.

(** [ComputeAlphasBetas] without [wpEnds], on samples with [srcLen >= 1],
    [tgtLen >= 0] that fit the padded tensors: the lattice cells of sample
    [b] in the [alphas] and [betas] buffers hold what
    [ComputeAlphaOneSequence] and [ComputeBetaOneSequence] compute for
    sample [b] alone, started on any buffer; the other samples of the batch
    and the previous content of the buffers have no influence. *)
Theorem samples_of_a_batch_are_independent
        (NUM : Numeric) (INF : NumericInf)
        (new_check : mem Z -> Z -> Z -> Z -> Z -> Z -> AlignmentRestrictionCheck)
        (options : Options) (pm : mem LogProbs) (logProbs : Z)
        (im : mem Z) (srcLengths tgtLengths alphas betas costs : Z) (wm : mem Z)
        (am bm m0 : mem CAST_DTYPE) (cm : mem DTYPE) (b t u : Z) :
  valid_lengths options im srcLengths tgtLengths ->
  lengths_fit options im srcLengths tgtLengths ->
  0 <= b < batchSize_ options ->
  let maxT := maxSrcLen_ options in
  let maxU := maxTgtLen_ options in
  let T := im (srcLengths + b) in
  let U := im (tgtLengths + b) + 1 in
  in_lattice T U t u ->
  let run := ComputeAlphasBetas new_check options pm logProbs im srcLengths tgtLengths
                                alphas betas costs wm None am bm cm in
  let lp := TensorView_new [maxT; maxU] (logProbs + b * maxT * maxU) in
  let alpha := TensorView_new [maxT; maxU] (alphas + b * maxT * maxU) in
  let beta := TensorView_new [maxT; maxU] (betas + b * maxT * maxU) in
  rd (fst (fst run)) alpha [t; u]
  = rd (snd (ComputeAlphaOneSequence options pm lp T U alpha m0)) alpha [t; u] /\
  rd (snd (fst run)) beta [t; u]
  = rd (snd (ComputeBetaOneSequence options pm lp T U beta m0)) beta [t; u].
Proof.
  intros Hok Hfit Hb maxT maxU T U Hin run lp alpha beta.
  destruct (@ComputeAlphasBetas_tables NUM INF new_check options pm logProbs im srcLengths
              tgtLengths alphas betas costs wm None am bm cm) as [Ha Hbeta].
  fold run in Ha, Hbeta. rewrite Ha, Hbeta.
  destruct (Hok b Hb) as [HT HU]. destruct (Hfit b Hb) as [_ HU'].
  assert (HT1 : 1 <= T) by exact HT.
  assert (HU1 : 1 <= U) by (unfold U; lia).
  fold U maxU in HU'.
  set (lps := fun i => TensorView_new [maxT; maxU] (logProbs + i * maxT * maxU)).
  set (Ts := fun i => im (srcLengths + i)).
  set (Us := fun i => im (tgtLengths + i) + 1).
  assert (Hfits : forall i, 0 <= i < batchSize_ options -> Ts i <= maxT /\ Us i <= maxU).
  { intros i Hi. exact (Hfit i Hi). }
  split.
  - destruct (@ComputeAlphaOneSequence_filled NUM options pm lp maxT maxU
                (alphas + b * maxT * maxU) T U HT1 HU1 HU' m0) as [Hsolo _].
    unfold alpha. rewrite (proj2 (Hsolo t u Hin)).
    unfold ComputeAlphas. cbv zeta.
    apply (@batch_filled CAST_DTYPE maxT maxU alphas (batchSize_ options) Ts Us
             (fun i => alphaZ (fun t u => rd pm (lps i) [t; u]))
             (fun i am0 =>
                snd (ComputeAlphaOneSequence options pm (lps i) (Ts i) (Us i)
                       (TensorView_new [maxT; maxU] (alphas + i * maxT * maxU)) am0))
             Hfits); [| exact Hb | exact Hin].
    intros i m Hi. destruct (Hok i Hi) as [HTi HUi].
    apply (@ComputeAlphaOneSequence_filled NUM options pm (lps i) maxT maxU
             (alphas + i * maxT * maxU) (Ts i) (Us i)); unfold Ts, Us;
      [lia | lia | apply (Hfit i Hi)].
  - destruct (@ComputeBetaOneSequence_filled NUM options pm lp maxT maxU
                (betas + b * maxT * maxU) T U HT1 HU1 HU' m0) as [Hsolo _].
    unfold beta. rewrite (proj2 (Hsolo t u Hin)).
    unfold ComputeBetas. cbv zeta.
    apply (@batch_filled CAST_DTYPE maxT maxU betas (batchSize_ options) Ts Us
             (fun i => betaZ (fun t u => rd pm (lps i) [t; u]) (Ts i) (Us i))
             (fun i bm0 =>
                snd (ComputeBetaOneSequence options pm (lps i) (Ts i) (Us i)
                       (TensorView_new [maxT; maxU] (betas + i * maxT * maxU)) bm0))
             Hfits); [| exact Hb | exact Hin].
    intros i m Hi. destruct (Hok i Hi) as [HTi HUi].
    apply (@ComputeBetaOneSequence_filled NUM options pm (lps i) maxT maxU
             (betas + i * maxT * maxU) (Ts i) (Us i)); unfold Ts, Us;
      [lia | lia | apply (Hfit i Hi)].
Qed.

Lemma samples_of_a_batch_are_independent_witness :
  (1 <= Samples.lengths_3_0 0 /\ 0 <= Samples.lengths_3_0 1 < 1 /\ in_lattice 3 1 2 0) /\
  forall libm : Float32.Libm,
    let NUM := Float32.F32Numeric libm in
    let INF := Float32.F32NumericInf libm in
    let options := Samples.options_3x1 libm in
    let pm := Samples.logProbs_3x1 libm in
    let stale := Samples.stale libm in
    let m0 : mem CAST_DTYPE := fun _ => Float32.of_Z 1 in
    let view := TensorView_new [3; 1] 0 in
    (valid_lengths options Samples.lengths_3_0 0 1 /\
     lengths_fit options Samples.lengths_3_0 0 1 /\
     0 <= 0 < batchSize_ options) /\
    let run := ComputeAlphasBetas Samples.new_check_all options pm 0 Samples.lengths_3_0 0 1
                                  0 0 0 (fun _ => 0) None stale stale stale in
    rd (fst (fst run)) view [2; 0]
    = rd (snd (ComputeAlphaOneSequence options pm view 3 1 view m0)) view [2; 0] /\
    rd (snd (fst run)) view [2; 0]
    = rd (snd (ComputeBetaOneSequence options pm view 3 1 view m0)) view [2; 0].
Proof.
  assert (Hin : in_lattice 3 1 2 0) by (unfold in_lattice; lia).
  split; [cbn; split; [lia | split; [lia | exact Hin]]|].
  intros libm NUM INF options pm stale m0 view.
  assert (Hlen : valid_lengths options Samples.lengths_3_0 0 1).
  { intros b Hb. cbn in Hb. assert (b = 0) by lia. subst b. cbn. lia. }
  assert (Hfit : lengths_fit options Samples.lengths_3_0 0 1).
  { intros b Hb. cbn in Hb. assert (b = 0) by lia. subst b. cbn. lia. }
  assert (Hb : 0 <= 0 < batchSize_ options) by (cbn; lia).
  split; [split; [exact Hlen | split; [exact Hfit | exact Hb]]|].
  exact (@samples_of_a_batch_are_independent NUM INF Samples.new_check_all options pm 0
           Samples.lengths_3_0 0 1 0 0 0 (fun _ => 0) stale stale m0 stale 0 2 0
           Hlen Hfit Hb Hin).
Defined.
(** * Frame of the restricted passes *)

Section RestrictedFrame.
Context {NUM : Numeric} {INF : NumericInf}.
Local Open Scope num_scope.

Variable new_check : mem Z -> Z -> Z -> Z -> Z -> Z -> AlignmentRestrictionCheck.
Variable options : Options.
Variable pm : mem LogProbs.
Variable logProbs : TensorView.
Variable view : TensorView.
Variables T U : Z.
Variable wm : mem Z.
Variable wpEnds : Z.
Hypothesis T_pos : 1 <= T.
Hypothesis U_pos : 1 <= U.

Let check := new_check wm wpEnds T U (lBuffer_ options) (rBuffer_ options).

Hypothesis ranges_ok :
  forall u, 0 <= u < U ->
    0 <= fst (validTimeRanges check u) /\ snd (validTimeRanges check u) < T.

Variable a : Z.
Hypothesis outside : forall t u, in_lattice T U t u -> a <> address view [t; u].

Lemma wr_lattice_frame (m : mem CAST_DTYPE) t u v :
  in_lattice T U t u -> wr m view [t; u] v a = m a.
Proof. intros Hin. unfold wr. apply store_other. now apply outside. Qed.

Lemma preset_frame (m : mem CAST_DTYPE) :
  for_up 0 T (fun t m => for_up 0 U (fun u m => wr m view [t; u] c_neg_inf) m) m a = m a.
Proof.
  apply for_up_frame_at. intros t m' Ht.
  apply for_up_frame_at. intros u m'' Hu.
  apply wr_lattice_frame. split; assumption.
Qed.

Lemma ComputeAlphaOneSequenceRestricted_frame m :
  snd (ComputeAlphaOneSequenceRestricted new_check options pm logProbs T U view wm wpEnds m) a
  = m a.
Proof.
  unfold ComputeAlphaOneSequenceRestricted. cbv zeta. cbn [snd]. fold check.
  rewrite for_up_frame_at.
  2:{ intros u m' Hu. pose proof (ranges_ok (u := u) ltac:(lia)) as Hr.
      destruct (validTimeRanges check u) as [start_t end_t]. cbn [fst snd] in Hr.
      apply for_up_frame_at. intros t m'' Ht.
      unfold alpha_restricted_cell. cbv zeta.
      destruct (_ || _); [| reflexivity].
      apply wr_lattice_frame. split; lia. }
  rewrite for_up_break_frame_at.
  2:{ intros u m' m'' Hu Hbody. destruct (negb _); [discriminate|].
      injection Hbody as <-. apply wr_lattice_frame. split; lia. }
  rewrite for_up_break_frame_at.
  2:{ intros t m' m'' Ht Hbody. destruct (negb _); [discriminate|].
      injection Hbody as <-. apply wr_lattice_frame. split; lia. }
  rewrite wr_lattice_frame by (split; lia).
  apply preset_frame.
Qed.

Lemma ComputeBetaOneSequenceRestricted_frame m :
  snd (ComputeBetaOneSequenceRestricted new_check options pm logProbs T U view wm wpEnds m) a
  = m a.
Proof.
  unfold ComputeBetaOneSequenceRestricted. cbv zeta. cbn [snd]. fold check.
  rewrite for_down_frame_at.
  2:{ intros u m' Hu. pose proof (ranges_ok (u := u) ltac:(lia)) as Hr.
      destruct (validTimeRanges check u) as [start_t end_t]. cbn [fst snd] in Hr.
      apply for_down_frame_at. intros t m'' Ht.
      unfold beta_restricted_cell. cbv zeta.
      destruct (_ || _); [| reflexivity].
      apply wr_lattice_frame. split; lia. }
  rewrite for_down_break_frame_at.
  2:{ intros u m' m'' Hu Hbody. destruct (negb _); [discriminate|].
      injection Hbody as <-. apply wr_lattice_frame. split; lia. }
  rewrite for_down_break_frame_at.
  2:{ intros t m' m'' Ht Hbody. destruct (negb _); [discriminate|].
      injection Hbody as <-. apply wr_lattice_frame. split; lia. }
  rewrite wr_lattice_frame by (split; lia).
  apply preset_frame.
Qed.
End RestrictedFrame.

(** The restricted passes on a sample with [T >= 1] and [U >= 1], when
    every range [validTimeRanges(u)] of the check, [0 <= u < U], lies
    within [[0, T - 1]]: [ComputeAlphaOneSequenceRestricted] and
    [ComputeBetaOneSequenceRestricted] write lattice cells of their output
    view only; every other address holds afterwards what it held before. *)
Theorem restricted_passes_write_only_lattice_cells
        (NUM : Numeric) (INF : NumericInf)
        (new_check : mem Z -> Z -> Z -> Z -> Z -> Z -> AlignmentRestrictionCheck)
        (options : Options) (pm : mem LogProbs) (logProbs view : TensorView)
        (T U : Z) (wm : mem Z) (wpEnds : Z) (m : mem CAST_DTYPE) (a : Z) :
  1 <= T -> 1 <= U ->
  let check := new_check wm wpEnds T U (lBuffer_ options) (rBuffer_ options) in
  (forall u, 0 <= u < U ->
     0 <= fst (validTimeRanges check u) /\ snd (validTimeRanges check u) < T) ->
  (forall t u, in_lattice T U t u -> a <> address view [t; u]) ->
  snd (ComputeAlphaOneSequenceRestricted new_check options pm logProbs T U view wm wpEnds m) a
  = m a /\
  snd (ComputeBetaOneSequenceRestricted new_check options pm logProbs T U view wm wpEnds m) a
  = m a.
Proof.
  intros HT HU check Hranges Hout. split.
  - exact (@ComputeAlphaOneSequenceRestricted_frame NUM INF new_check options pm logProbs view
             T U wm wpEnds HT HU Hranges a Hout m).
  - exact (@ComputeBetaOneSequenceRestricted_frame NUM INF new_check options pm logProbs view
             T U wm wpEnds HT HU Hranges a Hout m).
Qed.

Lemma restricted_passes_write_only_lattice_cells_witness :
  (1 <= 2 /\ 1 <= 1 /\ 0 <= 0 /\ 0 < 2) /\
  forall libm : Float32.Libm,
    let NUM := Float32.F32Numeric libm in
    let INF := Float32.F32NumericInf libm in
    let options := Samples.options_3x2 libm in
    let pm := Samples.logProbs_const libm in
    let m := Samples.stale libm in
    let view := TensorView_new [3; 2] 0 in
    let check := Samples.new_check_all (fun _ => 0) 0 2 1 (lBuffer_ options) (rBuffer_ options) in
    ((forall u, 0 <= u < 1 ->
        0 <= fst (validTimeRanges check u) /\ snd (validTimeRanges check u) < 2) /\
     (forall t u, in_lattice 2 1 t u -> 5 <> address view [t; u])) /\
    snd (ComputeAlphaOneSequenceRestricted Samples.new_check_all options pm view 2 1 view
           (fun _ => 0) 0 m) 5 = m 5 /\
    snd (ComputeBetaOneSequenceRestricted Samples.new_check_all options pm view 2 1 view
           (fun _ => 0) 0 m) 5 = m 5.
Proof.
  split; [lia|]. intros libm NUM INF options pm m view check.
  assert (Hranges : forall u, 0 <= u < 1 ->
            0 <= fst (validTimeRanges check u) /\ snd (validTimeRanges check u) < 2).
  { intros u Hu. cbn. lia. }
  assert (Hout : forall t u, in_lattice 2 1 t u -> 5 <> address view [t; u]).
  { intros t u [Ht Hu]. unfold view. rewrite address2. lia. }
  split; [split; [exact Hranges | exact Hout]|].
  exact (@restricted_passes_write_only_lattice_cells NUM INF Samples.new_check_all options pm
           view view 2 1 (fun _ => 0) 0 m 5 ltac:(lia) ltac:(lia) Hranges Hout).
Defined.
(** * Which targets the kernels read *)

(** [ComputeLogProbsOneSequence] and [ComputeGradientsOneSequence] read
    [targets[u]] for [0 <= u < U - 1] only, the [U - 1] labels of the
    sample: two target buffers that agree there give the same
    log-probabilities and the same gradients, whatever else they hold. *)
Theorem only_the_labels_of_the_sample_are_read
        (NUM : Numeric) (options : Options)
        (lm : mem DTYPE) (logits : TensorView) (tm tm' : mem Z) (targets : Z)
        (T U : Z) (dm : mem CAST_DTYPE) (denom : TensorView)
        (logProbs : TensorView) (pm : mem LogProbs)
        (am : mem CAST_DTYPE) (alpha : TensorView)
        (bm : mem CAST_DTYPE) (beta : TensorView)
        (gradients : TensorView) (hm : mem DTYPE) :
  (forall u, 0 <= u < U - 1 -> tm (targets + u) = tm' (targets + u)) ->
  ComputeLogProbsOneSequence options lm logits tm targets T U dm denom logProbs pm
  = ComputeLogProbsOneSequence options lm logits tm' targets T U dm denom logProbs pm /\
  ComputeGradientsOneSequence options logits tm targets T U dm denom am alpha bm beta
                              gradients hm
  = ComputeGradientsOneSequence options logits tm' targets T U dm denom am alpha bm beta
                                gradients hm.
Proof.
  intros Hsame. split.
  - unfold ComputeLogProbsOneSequence. cbv zeta.
    apply for_up_ext. intros t m Ht.
    apply for_up_ext. intros u m' Hu.
    destruct (Z.ltb_spec u (U - 1)) as [Hlt | Hge]; [| reflexivity].
    rewrite Hsame by lia. reflexivity.
  - unfold ComputeGradientsOneSequence. cbv zeta.
    assert (Hloops :
      for_up 0 T (fun t hm0 =>
        for_up 0 U (fun u hm1 =>
          for_up 0 (numTargets_ options) (fun d hm2 =>
            gradient_cell options logits tm targets T U bm beta gradients
              (c_sub (c_add (rd am alpha [t; u]) (c_neg (rd bm beta [0; 0])))
                     (rd dm denom [t; u])) t u d hm2) hm1) hm0) hm
      = for_up 0 T (fun t hm0 =>
        for_up 0 U (fun u hm1 =>
          for_up 0 (numTargets_ options) (fun d hm2 =>
            gradient_cell options logits tm' targets T U bm beta gradients
              (c_sub (c_add (rd am alpha [t; u]) (c_neg (rd bm beta [0; 0])))
                     (rd dm denom [t; u])) t u d hm2) hm1) hm0) hm).
    { apply for_up_ext. intros t m Ht.
      apply for_up_ext. intros u m' Hu.
      apply for_up_ext. intros d m'' Hd.
      unfold gradient_cell, gradient_value. cbv zeta.
      destruct (Z.ltb_spec u (U - 1)) as [Hlt | Hge]; cbn [andb]; [| reflexivity].
      rewrite Hsame by lia. reflexivity. }
    rewrite Hloops. reflexivity.
Qed.

Lemma only_the_labels_of_the_sample_are_read_witness :
  let options := Samples.Roptions 1 1 2 2 0 0%R true in
  let tm := fun a => if a =? 0 then 1 else 0 in
  let tm' := fun a => if a =? 0 then 1 else 5 in
  let view := TensorView_new [1; 2] 0 in
  let cells := TensorView_new [1; 2; 2] 0 in
  (forall u, 0 <= u < 2 - 1 -> tm (0 + u) = tm' (0 + u)) /\
  ComputeLogProbsOneSequence options Samples.Rzeros cells tm 0 1 2 Samples.Rzeros view view
                             Samples.RlogProbs_zero
  = ComputeLogProbsOneSequence options Samples.Rzeros cells tm' 0 1 2 Samples.Rzeros view view
                               Samples.RlogProbs_zero /\
  ComputeGradientsOneSequence options cells tm 0 1 2 Samples.Rzeros view Samples.Rzeros view
                              Samples.Rzeros view cells Samples.Rzeros
  = ComputeGradientsOneSequence options cells tm' 0 1 2 Samples.Rzeros view Samples.Rzeros view
                                Samples.Rzeros view cells Samples.Rzeros.
Proof.
  intros options tm tm' view cells.
  assert (H : forall u, 0 <= u < 2 - 1 -> tm (0 + u) = tm' (0 + u)).
  { intros u Hu. assert (u = 0) by lia. subst u. reflexivity. }
  split; [exact H|].
  exact (@only_the_labels_of_the_sample_are_read Exact.RNumeric options Samples.Rzeros cells
           tm tm' 0 1 2 Samples.Rzeros view view Samples.RlogProbs_zero
           Samples.Rzeros view Samples.Rzeros view cells Samples.Rzeros H).
Defined.
